(** * Robo-Uber: the dispatcher and the taxi agent

    A shallow embedding of [dispatcher.py] and [taxi.py].

    Conventions of the embedding.
    - Python numbers are read in two ways.  In the first part of the
      definitions they are exact rationals ([Q]), with the infinities
      the source manufactures kept explicit ([pynum], [cost]); this
      reading serves the statements on which rounding does not bear:
      which fields a call writes, which calls it makes, which exception
      it raises, in which order fares are handled.  In the second part
      ([Binary64], [Py], [Dispatcher64], [Planner64]) they are what the
      interpreter computes: unbounded ints and binary64 floats, every
      float operation rounded to nearest, ties to even.  The price a
      tick records, the scores that decide an allocation and the costs
      the planner adds up are stated on the second reading.
    - Python exceptions are values of type [exn]; an operation that can
      raise returns a [result], and an operation that mutates an agent
      before raising returns the mutated agent together with the
      exception ([Run]).
    - Calls an agent makes on its world object are recorded in order
      ([WorldCall]); what the agent reads from its world, and what the
      node it stands on answers to a request, is supplied as a snapshot
      ([World]).
    - Insertion-ordered dictionaries whose iteration order is observable
      are association lists ([ODict]); dictionaries that are only looked
      up, or iterated in sorted order, are [gmap]s. *)

From Stdlib Require Import QArith Qminmax Qround Qabs Qpower Lqa Lia ZArith
  Floats.
From stdpp Require Import gmap list sorting.

(** ** Python values *)

Definition coord : Type := (Z * Z)%type.

Inductive exn : Type :=
| TypeError
| KeyError
| IndexError
| AttributeError
| ZeroDivisionError
| OverflowError.

Inductive result (A : Type) : Type :=
| Ok (a : A)
| Raise (e : exn).
Arguments Ok {A} a.
Arguments Raise {A} e.

#[global] Instance result_bind : MBind result := λ A B k r,
  match r with
  | Ok a => k a
  | Raise e => Raise e
  end.

(** A Python number: a finite value or one of the IEEE specials the source
    can produce through [float('inf')]. *)
Inductive pynum : Type :=
| Fin (q : Q)
| PInf
| NInf
| NaN.

Definition Qltb (a b : Q) : bool := if Qlt_le_dec a b then true else false.

Definition pylt (a b : pynum) : bool :=
  match a, b with
  | NaN, _ | _, NaN => false
  | Fin x, Fin y => Qltb x y
  | Fin _, PInf => true
  | Fin _, NInf => false
  | PInf, _ => false
  | NInf, NInf => false
  | NInf, _ => true
  end.

Definition pyeqb (a b : pynum) : bool :=
  match a, b with
  | Fin x, Fin y => Qeq_bool x y
  | PInf, PInf => true
  | NInf, NInf => true
  | _, _ => false
  end.

Definition pyneg (a : pynum) : pynum :=
  match a with
  | Fin x => Fin (- x)
  | PInf => NInf
  | NInf => PInf
  | NaN => NaN
  end.

(** [inf * x]: the sign of [x] decides, and [inf * 0] is [nan]. *)
Definition inf_times (x : Q) : pynum :=
  if Qltb 0 x then PInf else if Qltb x 0 then NInf else NaN.

Definition pymul (a b : pynum) : pynum :=
  match a, b with
  | NaN, _ | _, NaN => NaN
  | Fin x, Fin y => Fin (x * y)
  | Fin x, PInf | PInf, Fin x => inf_times x
  | Fin x, NInf | NInf, Fin x => pyneg (inf_times x)
  | PInf, PInf | NInf, NInf => PInf
  | PInf, NInf | NInf, PInf => NInf
  end.

(** Python's [min(a, b)] keeps [a] unless [b < a]; [max(a, b)] keeps [a]
    unless [b > a]. *)
Definition pymin (a b : pynum) : pynum := if pylt b a then b else a.
Definition pymax (a b : pynum) : pynum := if pylt a b then b else a.

(** [l[i]] for a Python list: a negative index counts from the end. *)
Definition py_getitem {A} (l : list A) (i : Z) : result A :=
  let n := Z.of_nat (length l) in
  let j := (if Z.ltb i 0 then i + n else i)%Z in
  if (Z.ltb j 0 || Z.leb n j)%bool then Raise IndexError
  else match l !! Z.to_nat j with
       | Some x => Ok x
       | None => Raise IndexError
       end.

(** ** Insertion-ordered dictionaries *)

Module ODict.
Section ODict.
Context {K V : Type} `{EqDecision K}.

Fixpoint get (k : K) (d : list (K * V)) : option V :=
match d with
| [] => None
| (k', v) :: r => if decide (k = k') then Some v else get k r
end.

(** [d[k] = v]: an existing key keeps its position, a new key goes last. *)
Fixpoint set (k : K) (v : V) (d : list (K * V)) : list (K * V) :=
match d with
| [] => [(k, v)]
| (k', v') :: r =>
    if decide (k = k') then (k, v) :: r else (k', v') :: set k v r
end.

(** [del d[k]] *)
Fixpoint del (k : K) (d : list (K * V)) : list (K * V) :=
match d with
| [] => []
| (k', v') :: r =>
    if decide (k = k') then del k r else (k', v') :: del k r
end.
End ODict.
End ODict.

(** ** Shared records: taxi-side fare knowledge, taxis, the world *)

(** References to the objects agents hold: the world an agent lives in and
    the taxis of a roster. *)
Definition WorldRef : Type := nat.
Definition TaxiRef : Type := nat.

(** A road map: node -> (neighbour -> (direction, distance)).  The inner
    dictionary is iterated by the planner, so its order is kept. *)
Abbreviation RoadMap := (gmap coord (list (coord * (Z * Q)))).

Module FareInfo.
Record t : Type := mk {
  destination : coord;
  price : pynum;
  (* -1 = no, 0 = undecided, 1 = yes *)
  bid : Z;
  allocated : bool
}.
Definition new (dest : coord) (p : pynum) : t :=
  {| destination := dest; price := p; bid := 0; allocated := false |}.
Definition set_bid (b : Z) (f : t) : t :=
  {| destination := destination f; price := price f; bid := b;
     allocated := allocated f |}.
Definition set_allocated (a : bool) (f : t) : t :=
  {| destination := destination f; price := price f; bid := bid f;
     allocated := a |}.
End FareInfo.

(** The passenger object a node hands over on pickup; the taxi only reads
    its destination. *)
Module Fare.
Record t : Type := mk { destination : coord }.
End Fare.

(** Keys of a taxi's [_availableFares]: (call time, origin x, origin y). *)
Definition FareKey : Type := (Z * Z * Z)%type.

Module Taxi.
Record t : Type := mk {
  _world : WorldRef;
  number : Z;
  onDuty : bool;
  _onDutyTime : Z;
  _offDutyTime : Z;
  _onDutyPos : option coord;
  _dailyLoss : Q;
  _maxFareWait : Z;
  _account : Q;
  (* the index of the node the taxi occupies, None before it enters *)
  _loc : option coord;
  _direction : Z;
  _nextLoc : option coord;
  _nextDirection : Z;
  lastFareCompletionTime : Z;
  income : Q;
  _passenger : option Fare.t;
  _map : RoadMap;
  (* None once a failed plan has been stored *)
  _path : option (list coord);
  _availableFares : list (FareKey * FareInfo.t)
}.

Definition currentLocation (x : t) : coord :=
  match _loc x with
  | None => (-1, -1)%Z
  | Some i => i
  end.

Definition isHandlingFare (x : t) : bool :=
  match _passenger x with Some _ => true | None => false end.

Definition set_account (a : Q) (x : t) : t :=
  mk (_world x) (number x) (onDuty x) (_onDutyTime x) (_offDutyTime x)
     (_onDutyPos x) (_dailyLoss x) (_maxFareWait x) a (_loc x)
     (_direction x) (_nextLoc x) (_nextDirection x)
     (lastFareCompletionTime x) (income x) (_passenger x) (_map x)
     (_path x) (_availableFares x).

Definition set_offDuty (time : Z) (x : t) : t :=
  mk (_world x) (number x) false (_onDutyTime x) time
     (_onDutyPos x) (_dailyLoss x) (_maxFareWait x) (_account x) (_loc x)
     (_direction x) (_nextLoc x) (_nextDirection x)
     (lastFareCompletionTime x) (income x) (_passenger x) (_map x)
     (_path x) (_availableFares x).

Definition set_passenger (p : option Fare.t) (x : t) : t :=
  mk (_world x) (number x) (onDuty x) (_onDutyTime x) (_offDutyTime x)
     (_onDutyPos x) (_dailyLoss x) (_maxFareWait x) (_account x) (_loc x)
     (_direction x) (_nextLoc x) (_nextDirection x)
     (lastFareCompletionTime x) (income x) p (_map x)
     (_path x) (_availableFares x).

Definition set_path (p : option (list coord)) (x : t) : t :=
  mk (_world x) (number x) (onDuty x) (_onDutyTime x) (_offDutyTime x)
     (_onDutyPos x) (_dailyLoss x) (_maxFareWait x) (_account x) (_loc x)
     (_direction x) (_nextLoc x) (_nextDirection x)
     (lastFareCompletionTime x) (income x) (_passenger x) (_map x)
     p (_availableFares x).

Definition set_availableFares (d : list (FareKey * FareInfo.t)) (x : t) : t :=
  mk (_world x) (number x) (onDuty x) (_onDutyTime x) (_offDutyTime x)
     (_onDutyPos x) (_dailyLoss x) (_maxFareWait x) (_account x) (_loc x)
     (_direction x) (_nextLoc x) (_nextDirection x)
     (lastFareCompletionTime x) (income x) (_passenger x) (_map x)
     (_path x) d.
End Taxi.

(** What the agents read from their world during one call: the clock, the
    fare queue, the taxis, the travel-time estimate between two node
    indices ([travelTime(getNode(..), getNode(..))]), the traffic at a
    node, and what the node a taxi stands on answers to a drop-off or a
    pickup request. *)
Module World.
Record t : Type := mk {
  simTime : Z;
  _fareQ : nat;                       (* len(self._fareQ) *)
  _taxis : list TaxiRef;
  taxi : TaxiRef → Taxi.t;            (* the object behind a reference *)
  travelTime : coord → coord → Q;
  traffic : coord → Q;
  dropoffFare : coord → Fare.t → Z → bool;
  pickupFare : coord → Z → option Fare.t
}.
End World.

(** Calls agents make on their world object ([self._parent] of the
    dispatcher, [self._world] of the taxi).  Requests a taxi makes to the
    node it stands on ([self._loc.pickupFare], [self._loc.dropoffFare])
    are not calls on the world object: the snapshot answers them
    ([World.pickupFare], [World.dropoffFare]). *)
Inductive WorldCall : Type :=
| broadcastFare (origin destination : coord) (price : pynum)
| allocateFare (origin : coord) (taxi : TaxiRef)
| cancelFare (origin : coord) (taxi : TaxiRef)
| transmitFareBid (origin : coord) (taxi : Z).

(** The outcome of a call on an agent: the agent as the call leaves it,
    the calls it made on the world, and the exception that ended it, if
    any. *)
Record Run (S : Type) : Type := mkRun {
  final : S;
  emitted : list WorldCall;
  raised : option exn
}.
Arguments mkRun {S} final emitted raised.
Arguments final {S} r.
Arguments emitted {S} r.
Arguments raised {S} r.


(** ** taxi.py *)

(** An entry of [cost_from_start]: a finite cost or [float("inf")]. *)
Inductive cost : Type :=
| Finite (c : Q)
| Infinity.

(** [x < c] for a finite [x]. *)
Definition cost_lt (x : Q) (c : cost) : bool :=
  match c with
  | Finite y => Qltb x y
  | Infinity => true
  end.

(** The result of running the planner with a given fuel. *)
Inductive PlanOutcome : Type :=
| Returned (path : option (list coord))   (* a path, or None *)
| Raised (e : exn)
| OutOfFuel.

Module TaxiAgent.

(** *** The open list

    [heapq] keeps [(priority, node)] tuples; [heappop] removes a least
    tuple in Python's tuple order.  Which of two equal tuples leaves
    first cannot be observed, so the list is kept as a bag. *)
Definition entry : Type := (Q * coord)%type.

Definition coord_ltb (a b : coord) : bool :=
  (a.1 <? b.1)%Z || ((a.1 =? b.1)%Z && (a.2 <? b.2)%Z).

Definition entry_ltb (a b : entry) : bool :=
  Qltb a.1 b.1 || (Qeq_bool a.1 b.1 && coord_ltb a.2 b.2).

(** A least entry of [x :: l] and the others. *)
Fixpoint pop_min (x : entry) (l : list entry) : entry * list entry :=
  match l with
  | [] => (x, [])
  | y :: r =>
      let '(m, rest) := pop_min y r in
      if entry_ltb m x then (m, x :: rest) else (x, y :: r)
  end.

Definition heappop (h : list entry) : option (entry * list entry) :=
  match h with
  | [] => None
  | x :: r => Some (pop_min x r)
  end.

Definition heappush (h : list entry) (e : entry) : list entry := e :: h.

(** *** _planPath *)

Record Search : Type := mkSearch {
  to_explore : list entry;
  path_trace : gmap coord coord;
  cost_from_start : gmap coord cost
}.

Section Planner.
(** [calculate_heuristic]: the straight-line distance
    [math.sqrt((a[0]-b[0])**2 + (a[1]-b[1])**2)].  A square root has
    no exact rational value in general, so the function is a
    parameter here; [straight_line_on] states what it has to satisfy
    to be that distance.  [Planner64] has the planner with the value
    [math.sqrt] computes. *)
Variable calculate_heuristic : coord → coord → Q.
Variable map : RoadMap.
Variable destination : coord.

(** The body of [for neighbor, details in self._map[current_node].items()].
    [estimated_total_cost] is only read back at the key just written,
    so the pushed priority is that value. *)
Definition relax (current_node : coord) (s : Search)
    (item : coord * (Z * Q)) : result Search :=
  let '(neighbor, details) := item in
  match cost_from_start s !! current_node with
  | None => Raise KeyError
  | Some gc =>
      match cost_from_start s !! neighbor with
      | None => Raise KeyError
      | Some gn =>
          match gc with
          | Infinity => Ok s
          | Finite c =>
              let new_cost := (c + details.2)%Q in
              if cost_lt new_cost gn then
                Ok {| to_explore :=
                        heappush (to_explore s)
                          ((new_cost + calculate_heuristic neighbor destination)%Q,
                           neighbor);
                      path_trace := <[neighbor := current_node]> (path_trace s);
                      cost_from_start :=
                        <[neighbor := Finite new_cost]> (cost_from_start s) |}
              else Ok s
          end
      end
  end.

Fixpoint relax_all (current_node : coord) (s : Search)
    (items : list (coord * (Z * Q))) : result Search :=
  match items with
  | [] => Ok s
  | item :: rest =>
      s' ← relax current_node s item; relax_all current_node s' rest
  end.

(** [while current_node in path_trace: ...; return path[::-1]];
    [acc] is the path already in travel order. *)
Fixpoint trace_back (fuel : nat) (trace : gmap coord coord)
    (current_node : coord) (acc : list coord) : PlanOutcome :=
  match fuel with
  | O => OutOfFuel
  | S k =>
      match trace !! current_node with
      | None => Returned (Some acc)
      | Some prev => trace_back k trace prev (prev :: acc)
      end
  end.

(** [while to_explore: ...] *)
Fixpoint search (fuel : nat) (s : Search) : PlanOutcome :=
  match fuel with
  | O => OutOfFuel
  | S k =>
      match heappop (to_explore s) with
      | None => Returned None
      | Some ((_, current_node), rest) =>
          if decide (current_node = destination) then
            trace_back k (path_trace s) current_node [current_node]
          else
            match map !! current_node with
            | None => Raised KeyError
            | Some items =>
                match relax_all current_node
                        (mkSearch rest (path_trace s) (cost_from_start s))
                        items with
                | Raise e => Raised e
                | Ok s' => search k s'
                end
            end
      end
  end.
End Planner.

Definition search_init (map : RoadMap) (origin : coord) : Search :=
  {| to_explore := heappush [] (0%Q, origin);
     path_trace := ∅;
     cost_from_start := <[origin := Finite 0]> ((λ _, Infinity) <$> map) |}.

Definition _planPath (calculate_heuristic : coord → coord → Q) (fuel : nat)
    (map : RoadMap) (origin destination : coord) : PlanOutcome :=
  match map !! origin, map !! destination with
  | Some _, Some _ =>
      if decide (origin = destination) then Returned (Some [origin])
      else search calculate_heuristic map destination fuel
             (search_init map origin)
  | _, _ => Returned None
  end.

(** *** _bidOnFare *)

Definition any_allocated (fares : list (FareKey * FareInfo.t)) : bool :=
  existsb (λ kv, FareInfo.allocated kv.2) fares.

Definition _bidOnFare (W : World.t) (self : Taxi.t)
    (time : Z) (origin destination : coord) (price : pynum) : result bool :=
  let present_time := World.simTime W in
  if (Taxi.isHandlingFare self || any_allocated (Taxi._availableFares self))%bool
  then Ok false
  else
    let travel_to_origin :=
      World.travelTime W (Taxi.currentLocation self) origin in
    let travel_to_destination := World.travelTime W origin destination in
    let root_traffic := World.traffic W origin in
    let traffic_multiplier := (1 + root_traffic / 10)%Q in
    let adjusted_time_to_origin := (travel_to_origin * traffic_multiplier)%Q in
    let adjusted_time_to_destination :=
      (travel_to_destination * traffic_multiplier)%Q in
    let adjusted_total_cost :=
      ((adjusted_time_to_origin + adjusted_time_to_destination) * 1.1)%Q in
    let minimum_profit_margin := 1.5%Q in
    if pylt price (Fin (adjusted_total_cost * minimum_profit_margin)%Q)
    then Ok false
    else
      let time_until_expiry :=
        (Taxi._maxFareWait self - (present_time - time))%Z in
      if Qltb (inject_Z time_until_expiry) adjusted_time_to_origin
      then Ok false
      else
        let idle_time_score :=
          (inject_Z (World.simTime W - Taxi.lastFareCompletionTime self)
           / 1000)%Q in
        if Qeq_bool (1 + Taxi.income self) 0 then Raise ZeroDivisionError
        else
          let earning_score := (1 / (1 + Taxi.income self))%Q in
          let proximity_score :=
            (let x := 1 - adjusted_time_to_origin / 30 in
             if Qltb 0 x then x else 0)%Q in
          let total_score :=
            (0.4 * proximity_score + 0.3 * earning_score
             + 0.3 * idle_time_score)%Q in
          let dynamic_threshold :=
            if Qltb (Taxi.income self) 100 then 0.5%Q else 0.7%Q in
          Ok (Qltb dynamic_threshold total_score).

(** *** recvMsg *)

Definition FARE_ADVICE : Z := 1.
Definition FARE_ALLOC : Z := 2.
Definition FARE_PAY : Z := 3.
Definition FARE_CANCEL : Z := 4.

(** The keyword arguments of a message; a missing keyword is [None]. *)
Record Args : Type := mkArgs {
  arg_origin : option coord;
  arg_destination : option coord;
  arg_price : option pynum;
  arg_amount : option Q
}.

Definition kwarg {A} (a : option A) : result A :=
  match a with
  | Some x => Ok x
  | None => Raise KeyError
  end.

(** The FARE_ALLOC loop: mark the first entry with this origin and this
    destination.  A keyword is looked up when the loop reaches the test
    that reads it. *)
Fixpoint mark_allocated (args : Args)
    (fares : list (FareKey * FareInfo.t))
    : result (list (FareKey * FareInfo.t)) :=
  match fares with
  | [] => Ok []
  | (k, info) :: rest =>
      o ← kwarg (arg_origin args);
      if (bool_decide (k.1.2 = o.1) && bool_decide (k.2 = o.2))%bool then
        d ← kwarg (arg_destination args);
        if (bool_decide ((FareInfo.destination info).1 = d.1)
            && bool_decide ((FareInfo.destination info).2 = d.2))%bool
        then Ok ((k, FareInfo.set_allocated true info) :: rest)
        else r ← mark_allocated args rest; Ok ((k, info) :: r)
      else r ← mark_allocated args rest; Ok ((k, info) :: r)
  end.

(** The FARE_CANCEL loop: delete the first entry with this origin. *)
Fixpoint drop_cancelled (args : Args)
    (fares : list (FareKey * FareInfo.t))
    : result (list (FareKey * FareInfo.t)) :=
  match fares with
  | [] => Ok []
  | (k, info) :: rest =>
      o ← kwarg (arg_origin args);
      if (bool_decide (k.1.2 = o.1) && bool_decide (k.2 = o.2))%bool
      then Ok (ODict.del k ((k, info) :: rest))
      else r ← drop_cancelled args rest; Ok ((k, info) :: r)
  end.

Definition recvMsg (W : World.t) (self : Taxi.t) (msg : Z) (args : Args)
    : Run Taxi.t :=
  if decide (msg = FARE_ADVICE) then
    let callTime := World.simTime W in
    match (d ← kwarg (arg_destination args);
           p ← kwarg (arg_price args);
           o ← kwarg (arg_origin args);
           Ok (o, d, p)) with
    | Raise e => mkRun self [] (Some e)
    | Ok (o, d, p) =>
        mkRun (Taxi.set_availableFares
                 (ODict.set (callTime, o.1, o.2) (FareInfo.new d p)
                    (Taxi._availableFares self)) self) [] None
    end
  else if decide (msg = FARE_ALLOC) then
    match mark_allocated args (Taxi._availableFares self) with
    | Raise e => mkRun self [] (Some e)
    | Ok fares => mkRun (Taxi.set_availableFares fares self) [] None
    end
  else if decide (msg = FARE_PAY) then
    match kwarg (arg_amount args) with
    | Raise e => mkRun self [] (Some e)
    | Ok amount =>
        mkRun (Taxi.set_account (Taxi._account self + amount)%Q self) [] None
    end
  else if decide (msg = FARE_CANCEL) then
    match drop_cancelled args (Taxi._availableFares self) with
    | Raise e => mkRun self [] (Some e)
    | Ok fares => mkRun (Taxi.set_availableFares fares self) [] None
    end
  else mkRun self [] None.

(** *** clockTick

    A step of the tick yields [None] when the planner ran out of fuel,
    and otherwise the taxi as the step leaves it with the exception
    that interrupted it, if any. *)
Section Tick.
Variable calculate_heuristic : coord → coord → Q.
Variable fuel : nat.
Variable W : World.t.

(** [len(self._path)] *)
Definition path_len (self : Taxi.t) : result nat :=
  match Taxi._path self with
  | None => Raise TypeError
  | Some p => Ok (length p)
  end.

(** [self._loc.index] *)
Definition loc_index (self : Taxi.t) : result coord :=
  match Taxi._loc self with
  | None => Raise AttributeError
  | Some i => Ok i
  end.

(** [self._path = self._planPath(origin, destination)] *)
Definition replan (self : Taxi.t) (origin destination : coord)
    : option (Taxi.t * option exn) :=
  match _planPath calculate_heuristic fuel (Taxi._map self)
          origin destination with
  | OutOfFuel => None
  | Raised e => Some (self, Some e)
  | Returned p => Some (Taxi.set_path p self, None)
  end.

(** [if len(self._path) == 0: ...] at the head of the tick. *)
Definition arrive (self : Taxi.t) : option (Taxi.t * option exn) :=
  match path_len self with
  | Raise e => Some (self, Some e)
  | Ok n =>
      if (n =? 0)%nat then
        match Taxi._passenger self with
        | None => Some (self, None)
        | Some passenger =>
            match loc_index self with
            | Raise e => Some (self, Some e)
            | Ok here =>
                if World.dropoffFare W here passenger (Taxi._direction self)
                then Some (Taxi.set_passenger None self, None)
                else if decide (Fare.destination passenger ≠ here)
                then replan self here (Fare.destination passenger)
                else Some (self, None)
            end
        end
      else Some (self, None)
  end.

(** The body of [for fare in self._availableFares.items()]: the taxi,
    the fare's entry, whether its key joins [faresToRemove], and the
    calls made. *)
Definition consider (self : Taxi.t) (key : FareKey) (info : FareInfo.t)
    : option (Taxi.t * FareInfo.t * bool * list WorldCall * option exn) :=
  let origin : coord := (key.1.2, key.2) in
  match path_len self with
  | Raise e => Some (self, info, false, [], Some e)
  | Ok n =>
      if ((n =? 0)%nat && FareInfo.allocated info
          && negb (Taxi.isHandlingFare self))%bool then
        match loc_index self with
        | Raise e => Some (self, info, false, [], Some e)
        | Ok here =>
            if ((here.1 =? origin.1)%Z && (here.2 =? origin.2)%Z)%bool then
              let picked := World.pickupFare W here (Taxi._direction self) in
              let self1 := Taxi.set_passenger picked self in
              match picked with
              | Some passenger =>
                  match replan self1 here (Fare.destination passenger) with
                  | None => None
                  | Some (self2, Some e) =>
                      Some (self2, info, false, [], Some e)
                  | Some (self2, None) => Some (self2, info, true, [], None)
                  end
              | None => Some (self1, info, true, [], None)
              end
            else
              match replan self here origin with
              | None => None
              | Some (self2, e) => Some (self2, info, false, [], e)
              end
        end
      else if (World.simTime W - key.1.1 >? Taxi._maxFareWait self)%Z then
        Some (self, info, true, [], None)
      else if (FareInfo.bid info =? 0)%Z then
        match _bidOnFare W self key.1.1 origin
                (FareInfo.destination info) (FareInfo.price info) with
        | Raise e => Some (self, info, false, [], Some e)
        | Ok true =>
            Some (self, FareInfo.set_bid 1 info, false,
                  [transmitFareBid origin (Taxi.number self)], None)
        | Ok false => Some (self, FareInfo.set_bid (-1) info, false, [], None)
        end
      else Some (self, info, false, [], None)
  end.

(** The loop over the known fares: the taxi, the entries as the loop
    leaves them, [faresToRemove], the calls made. *)
Fixpoint scan (self : Taxi.t) (items : list (FareKey * FareInfo.t))
    : option (Taxi.t * list (FareKey * FareInfo.t) * list FareKey
              * list WorldCall * option exn) :=
  match items with
  | [] => Some (self, [], [], [], None)
  | (key, info) :: rest =>
      match consider self key info with
      | None => None
      | Some (self1, info1, _, calls, Some e) =>
          Some (self1, (key, info1) :: rest, [], calls, Some e)
      | Some (self1, info1, remove, calls, None) =>
          match scan self1 rest with
          | None => None
          | Some (self2, items2, removes, calls2, e) =>
              Some (self2, (key, info1) :: items2,
                    (if remove then key :: removes else removes),
                    calls ++ calls2, e)
          end
      end
  end.

Definition clockTick (self : Taxi.t) : option (Run Taxi.t) :=
  let self0 :=
    if (Qle_bool (Taxi._account self) 0
        && negb (Taxi.isHandlingFare self))%bool
    then Taxi.set_offDuty (World.simTime W) self
    else self in
  match arrive self0 with
  | None => None
  | Some (self1, Some e) => Some (mkRun self1 [] (Some e))
  | Some (self1, None) =>
      match scan self1 (Taxi._availableFares self1) with
      | None => None
      | Some (self2, items, _, calls, Some e) =>
          Some (mkRun (Taxi.set_availableFares items self2) calls (Some e))
      | Some (self2, items, removes, calls, None) =>
          let fares := foldl (λ d expired, ODict.del expired d) items removes in
          let self3 := Taxi.set_availableFares fares self2 in
          Some (mkRun (Taxi.set_account (Taxi._account self3 - 1)%Q self3)
                  calls None)
      end
  end.
End Tick.
End TaxiAgent.

(** ** dispatcher.py *)

Module FareEntry.
Record t : Type := mk {
  origin : coord;
  destination : coord;
  calltime : Z;
  price : pynum;
  (* index of the allocated taxi in the roster, -1 if none *)
  taxi : Z;
  (* roster indices of the taxis that have bid, in bidding order *)
  bidders : list nat
}.
Definition new (o d : coord) (time : Z) : t :=
  {| origin := o; destination := d; calltime := time;
     price := Fin 0; taxi := -1; bidders := [] |}.
Definition set_price (p : pynum) (f : t) : t :=
  {| origin := origin f; destination := destination f;
     calltime := calltime f; price := p; taxi := taxi f;
     bidders := bidders f |}.
Definition set_taxi (i : Z) (f : t) : t :=
  {| origin := origin f; destination := destination f;
     calltime := calltime f; price := price f; taxi := i;
     bidders := bidders f |}.
End FareEntry.

(** The fare board: origin -> destination -> call time -> fare.  The two
    outer levels are walked in insertion order; the call times of one
    (origin, destination) pair are walked in sorted order. *)
Abbreviation FareBoard := (list (coord * list (coord * gmap Z FareEntry.t))).

Module Dispatcher.
Record t : Type := mk {
  _parent : WorldRef;
  _revenue : Q;
  _taxis : list TaxiRef;
  _fareBoard : FareBoard;
  _map : option RoadMap;
  _completedRides : Z;
  _abandonedRides : Z;
  currentLocation : Z
}.

Definition set_board (b : FareBoard) (self : t) : t :=
  mk (_parent self) (_revenue self) (_taxis self) b (_map self)
     (_completedRides self) (_abandonedRides self) (currentLocation self).
Definition set_completedRides (n : Z) (self : t) : t :=
  mk (_parent self) (_revenue self) (_taxis self) (_fareBoard self)
     (_map self) n (_abandonedRides self) (currentLocation self).
Definition set_abandonedRides (n : Z) (self : t) : t :=
  mk (_parent self) (_revenue self) (_taxis self) (_fareBoard self)
     (_map self) (_completedRides self) n (currentLocation self).
Definition set_revenue (r : Q) (self : t) : t :=
  mk (_parent self) r (_taxis self) (_fareBoard self)
     (_map self) (_completedRides self) (_abandonedRides self)
     (currentLocation self).

(** [self._fareBoard[origin][destination][time]] *)
Definition board_get (b : FareBoard) (origin destination : coord) (time : Z)
    : option FareEntry.t :=
  dests ← ODict.get origin b;
  times ← ODict.get destination dests;
  times !! time.

(** *** newFare *)
Definition newFare (self : t) (parent : WorldRef)
    (origin destination : coord) (time : Z) : Run t :=
  if decide (parent = _parent self) then
    let fare := FareEntry.new origin destination time in
    let self1 :=
      match ODict.get origin (_fareBoard self) with
      | Some dests =>
          match ODict.get destination dests with
          | None =>
              set_completedRides (_completedRides self + 1)
                (set_board
                   (ODict.set origin (ODict.set destination ∅ dests)
                      (_fareBoard self)) self)
          | Some _ => self
          end
      | None =>
          set_board (ODict.set origin [(destination, ∅)] (_fareBoard self))
            self
      end in
    match ODict.get origin (_fareBoard self1) with
    | None => mkRun self1 [] (Some KeyError)
    | Some dests =>
        match ODict.get destination dests with
        | None => mkRun self1 [] (Some KeyError)
        | Some times =>
            mkRun (set_board
                     (ODict.set origin
                        (ODict.set destination (<[time := fare]> times) dests)
                        (_fareBoard self1)) self1) [] None
        end
    end
  else mkRun self [] None.

(** *** cancelFare *)

(** [if len(self._fareBoard[origin][destination]) == 0: del ...] and
    [if len(self._fareBoard[origin]) == 0: del ...] *)
Definition prune (origin destination : coord) (b : FareBoard)
    : result FareBoard :=
  match ODict.get origin b with
  | None => Raise KeyError
  | Some dests =>
      match ODict.get destination dests with
      | None => Raise KeyError
      | Some times =>
          let dests1 :=
            if decide (size times = 0%nat) then ODict.del destination dests
            else dests in
          Ok (if decide (length dests1 = 0%nat) then ODict.del origin b
              else ODict.set origin dests1 b)
      end
  end.

Definition cancelFare (self : t) (parent : WorldRef)
    (origin destination : coord) (calltime : Z) : Run t :=
  if decide (parent = _parent self) then
    match ODict.get origin (_fareBoard self) with
    | None => mkRun self [] None
    | Some dests =>
        match ODict.get destination dests with
        | None => mkRun self [] None
        | Some times =>
            let after_delete : Run t :=
              match times !! calltime with
              | None => mkRun self [] None
              | Some fare =>
                  let self1 :=
                    set_abandonedRides (_abandonedRides self + 1) self in
                  match py_getitem (_taxis self1) (FareEntry.taxi fare) with
                  | Raise e => mkRun self1 [] (Some e)
                  | Ok who =>
                      mkRun (set_board
                               (ODict.set origin
                                  (ODict.set destination
                                     (delete calltime times) dests)
                                  (_fareBoard self1)) self1)
                            [cancelFare origin who] None
                  end
              end in
            match raised after_delete with
            | Some e => after_delete
            | None =>
                let self2 := final after_delete in
                match prune origin destination (_fareBoard self2) with
                | Raise e => mkRun self2 (emitted after_delete) (Some e)
                | Ok b => mkRun (set_board b self2) (emitted after_delete) None
                end
            end
        end
    end
  else mkRun self [] None.

(** *** recvPayment *)
Definition recvPayment (self : t) (parent : WorldRef) (amount : Q) : Run t :=
  if decide (_parent self = parent) then
    mkRun (set_revenue (_revenue self + amount)%Q self) [] None
  else mkRun self [] None.

(** *** Pricing *)
Section Tick.
(** The state of the dispatcher's own world during the call. *)
Variable W : World.t.

Definition _computeSupplyRatio : pynum :=
  let total_active_fares := World._fareQ W in
  let active_taxis :=
    length (filter (λ car, Taxi.onDuty (World.taxi W car) = true)
              (World._taxis W)) in
  if (active_taxis =? 0)%nat then PInf
  else
    let supply_ratio :=
      (inject_Z (Z.of_nat total_active_fares)
       / inject_Z (Z.of_nat active_taxis))%Q in
    pymax (Fin 1) (Fin supply_ratio).

Definition _costFare (ride_request : FareEntry.t) : pynum :=
  let travel_time :=
    World.travelTime W (FareEntry.origin ride_request)
      (FareEntry.destination ride_request) in
  let initial_fare := 25%Q in
  let supply_ratio := _computeSupplyRatio in
  let calculated_fare :=
    pymul (Fin (initial_fare + travel_time)%Q) supply_ratio in
  let fare_ceiling := Fin (10 * travel_time)%Q in
  pymin calculated_fare fare_ceiling.

(** *** Allocation *)

(** [priority_score] of one roster taxi for a fare at [origin] with
    [nbidders] bidders. *)
Definition priority_score (taxi : Taxi.t) (origin : coord) (nbidders : nat)
    : result Q :=
  let pickup_duration0 :=
    World.travelTime W (Taxi.currentLocation taxi) origin in
  let pickup_duration :=
    if Qeq_bool pickup_duration0 0 then 0.1%Q else pickup_duration0 in
  let idle_duration :=
    inject_Z (World.simTime W - Taxi.lastFareCompletionTime taxi) in
  let distance_factor := (1 / pickup_duration)%Q in
  if Qeq_bool (1 + Taxi.income taxi) 0 then Raise ZeroDivisionError
  else
    let earning_factor := (1 / (1 + Taxi.income taxi))%Q in
    let competition_factor :=
      (1 / (1 + inject_Z (Z.of_nat nbidders)))%Q in
    let inactivity_factor := (idle_duration / 1000)%Q in
    Ok (0.4 * distance_factor + 0.3 * earning_factor
        + 0.2 * inactivity_factor + 0.1 * competition_factor)%Q.

(** [if taxi.onDuty and taxi._account > 0] *)
Definition eligible (taxi : Taxi.t) : bool :=
  (Taxi.onDuty taxi && Qltb 0 (Taxi._account taxi))%bool.

(** The body of [for taxi_number in ...bidders], on the pair
    [(selected_taxi, highest_priority)]. *)
Definition consider_bidder (self : t) (origin : coord) (nbidders : nat)
    (best : option nat * pynum) (taxi_number : nat)
    : result (option nat * pynum) :=
  if (taxi_number <? length (_taxis self))%nat then
    match _taxis self !! taxi_number with
    | None => Raise IndexError
    | Some ref =>
        let taxi := World.taxi W ref in
        if eligible taxi then
          priority_score ← priority_score taxi origin nbidders;
          if pylt best.2 (Fin priority_score)
          then Ok (Some taxi_number, Fin priority_score)
          else Ok best
        else Ok best
    end
  else Ok best.

Fixpoint consider_bidders (self : t) (origin : coord) (nbidders : nat)
    (best : option nat * pynum) (numbers : list nat)
    : result (option nat * pynum) :=
  match numbers with
  | [] => Ok best
  | taxi_number :: rest =>
      best' ← consider_bidder self origin nbidders best taxi_number;
      consider_bidders self origin nbidders best' rest
  end.

(** [_allocateFare], on the fare the three keys designate.
    ([taxis_engaged] is computed by the source and never used.) *)
Definition _allocateFare (self : t) (origin : coord) (fare : FareEntry.t)
    : Run FareEntry.t :=
  match consider_bidders self origin (length (FareEntry.bidders fare))
          (None, NInf) (FareEntry.bidders fare) with
  | Raise e => mkRun fare [] (Some e)
  | Ok (None, _) => mkRun fare [] None
  | Ok (Some selected_taxi, _) =>
      let fare' := FareEntry.set_taxi (Z.of_nat selected_taxi) fare in
      match _taxis self !! selected_taxi with
      | None => mkRun fare' [] (Some IndexError)
      | Some ref => mkRun fare' [allocateFare origin ref] None
      end
  end.

(** *** clockTick *)

(** The body of the innermost loop, on one fare. *)
Definition tick_fare (self : t) (origin destination : coord)
    (fare : FareEntry.t) : Run FareEntry.t :=
  if pyeqb (FareEntry.price fare) (Fin 0) then
    let fare' := FareEntry.set_price (_costFare fare) fare in
    mkRun fare' [broadcastFare origin destination (FareEntry.price fare')]
      None
  else if ((FareEntry.taxi fare <? 0)%Z
           && (0 <? length (FareEntry.bidders fare))%nat)%bool
  then _allocateFare self origin fare
  else mkRun fare [] None.

(** [for time in sorted(list(...keys()))] *)
Fixpoint tick_times (self : t) (origin destination : coord)
    (keys : list Z) (times : gmap Z FareEntry.t)
    : Run (gmap Z FareEntry.t) :=
  match keys with
  | [] => mkRun times [] None
  | time :: rest =>
      match times !! time with
      | None => mkRun times [] (Some KeyError)
      | Some fare =>
          let r := tick_fare self origin destination fare in
          let times' := <[time := final r]> times in
          match raised r with
          | Some e => mkRun times' (emitted r) (Some e)
          | None =>
              let r' := tick_times self origin destination rest times' in
              mkRun (final r') (emitted r ++ emitted r') (raised r')
          end
      end
  end.

Definition sorted_keys (times : gmap Z FareEntry.t) : list Z :=
  merge_sort Z.le (map_to_list times).*1.

(** [for destination in self._fareBoard[origin].keys()] *)
Fixpoint tick_dests (self : t) (origin : coord)
    (dests : list (coord * gmap Z FareEntry.t))
    : Run (list (coord * gmap Z FareEntry.t)) :=
  match dests with
  | [] => mkRun [] [] None
  | (destination, times) :: rest =>
      let r :=
        tick_times self origin destination (sorted_keys times) times in
      match raised r with
      | Some e => mkRun ((destination, final r) :: rest) (emitted r) (Some e)
      | None =>
          let r' := tick_dests self origin rest in
          mkRun ((destination, final r) :: final r')
            (emitted r ++ emitted r') (raised r')
      end
  end.

(** [for origin in self._fareBoard.keys()] *)
Fixpoint tick_origins (self : t) (b : FareBoard) : Run FareBoard :=
  match b with
  | [] => mkRun [] [] None
  | (origin, dests) :: rest =>
      let r := tick_dests self origin dests in
      match raised r with
      | Some e => mkRun ((origin, final r) :: rest) (emitted r) (Some e)
      | None =>
          let r' := tick_origins self rest in
          mkRun ((origin, final r) :: final r')
            (emitted r ++ emitted r') (raised r')
      end
  end.

Definition clockTick (self : t) (parent : WorldRef) : Run t :=
  if decide (_parent self = parent) then
    let r := tick_origins self (_fareBoard self) in
    mkRun (set_board (final r) self) (emitted r) (raised r)
  else mkRun self [] None.
End Tick.
End Dispatcher.

(** ** Roads, routes and what the planner maintains *)

(** A road of the map: [v] is a neighbour of [u] at stored distance [w]. *)
Definition road (m : RoadMap) (u v : coord) (w : Q) : Prop :=
  ∃ items dir, m !! u = Some items ∧ (v, (dir, w)) ∈ items.

(** [Walk m l c]: the waypoints [l], each joined to the next by a road of
    the map, have cumulative cost [c]. *)
Inductive Walk (m : RoadMap) : list coord → Q → Prop :=
| Walk_one u : is_Some (m !! u) → Walk m [u] 0
| Walk_cons u v l w c :
    road m u v w → Walk m (v :: l) c → Walk m (u :: v :: l) (w + c).

(** A route from [origin] to [destination]. *)
Definition route (m : RoadMap) (origin destination : coord)
    (l : list coord) (c : Q) : Prop :=
  Walk m l c ∧ head l = Some origin ∧ last l = Some destination.

(** The cost of a waypoint sequence as a dictionary lookup computes it:
    the sum of [self._map[u][v][1]] over consecutive waypoints. *)
Fixpoint route_cost (m : RoadMap) (l : list coord) : option Q :=
  match l with
  | [] => None
  | u :: rest =>
      match rest with
      | [] => match m !! u with Some _ => Some 0%Q | None => None end
      | v :: _ =>
          items ← m !! u;
          details ← ODict.get v items;
          c ← route_cost m rest;
          Some (details.2 + c)%Q
      end
  end.

(** Conditions on the map and on the heuristic. *)

(** No stored distance is negative. *)
Definition nonneg_weights (m : RoadMap) : Prop :=
  ∀ u v w, road m u v w → (0 <= w)%Q.

(** Every neighbour named by the map is itself a node of the map. *)
Definition closed_map (m : RoadMap) : Prop :=
  ∀ u v w, road m u v w → is_Some (m !! v).

(** [h] is the straight-line distance between the nodes of [m]: the
    non-negative number whose square is the sum of the squared
    coordinate differences. *)
Definition straight_line_on (m : RoadMap) (h : coord → coord → Q) : Prop :=
  ∀ a b, is_Some (m !! a) → is_Some (m !! b) →
    (0 <= h a b)%Q
    ∧ (h a b * h a b
       == inject_Z ((a.1 - b.1) * (a.1 - b.1) + (a.2 - b.2) * (a.2 - b.2)))%Q.

(** No road is shorter than the gain in estimated distance to the
    destination it brings. *)
Definition consistent (m : RoadMap) (h : coord → coord → Q)
    (destination : coord) : Prop :=
  ∀ u v w, road m u v w → (h u destination <= w + h v destination)%Q.

(** Roads walked from the origin, the last one first. *)
Abbreviation Roads := (list (coord * coord * Q)).

Definition all_roads (m : RoadMap) : Roads :=
  map_to_list m ≫= λ '(u, items), (λ item, (u, item.1, item.2.2)) <$> items.

(** Where a sequence of roads from [origin] ends, what it costs, the
    nodes it enters, and its waypoints before the last. *)
Definition rend (origin : coord) (P : Roads) : coord :=
  match P with
  | [] => origin
  | (_, v, _) :: _ => v
  end.

Fixpoint rcost (P : Roads) : Q :=
  match P with
  | [] => 0
  | (_, _, w) :: rest => rcost rest + w
  end.

Definition entered (P : Roads) : list coord := (λ e, e.1.2) <$> P.

Fixpoint waypoints_before (P : Roads) : list coord :=
  match P with
  | [] => []
  | (u, _, _) :: rest => waypoints_before rest ++ [u]
  end.

(** All lists of at most [n] elements of [xs]. *)
Fixpoint lists_upto {A} (n : nat) (xs : list A) : list (list A) :=
  match n with
  | O => [[]]
  | S k => [] :: (l ← lists_upto k xs; (λ x, x :: l) <$> xs)
  end.

Section PlannerInvariant.
Variable h : coord → coord → Q.
Variable m : RoadMap.
Variable o d : coord.

Definition g_at (g : gmap coord cost) (x : coord) : cost :=
  default Infinity (g !! x).

(** [g] records a finite cost no greater than [c] for [x]. *)
Definition at_most (g : gmap coord cost) (x : coord) (c : Q) : Prop :=
  ∃ cx, g !! x = Some (Finite cx) ∧ (cx <= c)%Q.

(** [g'] records costs no greater than [g] does. *)
Definition improves (g g' : gmap coord cost) : Prop :=
  ∀ x c, g !! x = Some (Finite c) → at_most g' x c.

(** The roads by which a recorded cost was reached: each road is a road of
    the map, and the cost recorded for every node on the way is at most
    the cost of the way up to that node. *)
Inductive witness (g : gmap coord cost) : Roads → Prop :=
| witness_nil : witness g []
| witness_cons u v w P :
    witness g P → rend o P = u → road m u v w →
    at_most g v (rcost P + w) →
    witness g ((u, v, w) :: P).

(** The roads read back from [path_trace]: each node points to the one
    before it, along a road that accounts for the recorded costs. *)
Inductive traced (g : gmap coord cost) (trace : gmap coord coord)
    : Roads → Prop :=
| traced_nil : trace !! o = None → traced g trace []
| traced_cons u v w P cu cv :
    traced g trace P → rend o P = u → trace !! v = Some u → road m u v w →
    g !! u = Some (Finite cu) → g !! v = Some (Finite cv) →
    (cu + w <= cv)%Q →
    traced g trace ((u, v, w) :: P).

(** The variant of the search loop: the sequences of roads cheaper than
    the cost recorded for the node they end in. *)
Definition cheaper (g : gmap coord cost) (P : Roads) : bool :=
  cost_lt (rcost P) (g_at g (rend o P)).

Definition slack (g : gmap coord cost) : nat :=
  length (filter (λ P, cheaper g P = true)
            (lists_upto (size m) (all_roads m))).

Definition variant (s : TaxiAgent.Search) : nat :=
  length (TaxiAgent.to_explore s) + slack (TaxiAgent.cost_from_start s).

(** The entry of a node with recorded cost [c] still waits in the open
    list with a priority that does not overrate it ... *)
Definition open_ok (s : TaxiAgent.Search) (x : coord) (c : Q) : Prop :=
  ∃ f, (f, x) ∈ TaxiAgent.to_explore s ∧ (f <= c + h x d)%Q.

(** ... or the roads [items] out of it have been relaxed. *)
Definition closed_ok (s : TaxiAgent.Search) (c : Q)
    (items : list (coord * (Z * Q))) : Prop :=
  ∀ y dir w, (y, (dir, w)) ∈ items →
    at_most (TaxiAgent.cost_from_start s) y (c + w).

(** The invariant of the search; while the node [cur] is being expanded,
    [processed] are its roads already relaxed. *)
Record Inv (cur : option coord) (processed : list (coord * (Z * Q)))
    (s : TaxiAgent.Search) : Prop := mkInv {
  inv_dom : ∀ x, is_Some (TaxiAgent.cost_from_start s !! x) ↔ is_Some (m !! x);
  inv_origin : TaxiAgent.cost_from_start s !! o = Some (Finite 0);
  inv_heap : ∀ f x, (f, x) ∈ TaxiAgent.to_explore s →
      ∃ c, TaxiAgent.cost_from_start s !! x = Some (Finite c)
           ∧ (x ≠ o → (c + h x d <= f)%Q);
  inv_dest : ∀ c, TaxiAgent.cost_from_start s !! d = Some (Finite c) →
      ∃ f, (f, d) ∈ TaxiAgent.to_explore s;
  inv_relaxed : ∀ x c items,
      TaxiAgent.cost_from_start s !! x = Some (Finite c) →
      m !! x = Some items →
      open_ok s x c
      ∨ closed_ok s c (if decide (Some x = cur) then processed else items);
  inv_traced : ∀ x c, TaxiAgent.cost_from_start s !! x = Some (Finite c) →
      ∃ P, traced (TaxiAgent.cost_from_start s) (TaxiAgent.path_trace s) P
           ∧ rend o P = x;
  inv_witness : ∀ x c, TaxiAgent.cost_from_start s !! x = Some (Finite c) →
      ∃ P, witness (TaxiAgent.cost_from_start s) P ∧ rend o P = x
           ∧ (rcost P == c)%Q ∧ NoDup (entered P)
}.
End PlannerInvariant.

(** What the planner is to return: a route of least cost, or [None] when
    there is no route. *)
Definition min_route (m : RoadMap) (origin destination : coord)
    (l : list coord) : Prop :=
  ∃ c, route m origin destination l c
       ∧ ∀ l' c', route m origin destination l' c' → (c <= c')%Q.

Definition unreachable (m : RoadMap) (origin destination : coord) : Prop :=
  ∀ l c, ¬ route m origin destination l c.

Definition planned (m : RoadMap) (origin destination : coord)
    (r : PlanOutcome) : Prop :=
  match r with
  | Returned (Some l) => min_route m origin destination l
  | Returned None => unreachable m origin destination
  | Raised _ | OutOfFuel => False
  end.

(** ** The pricing rule as the specification words it

    [price = min((baseFare + travelTime) × supplyRatio, ceilingMultiplier × travelTime)]
    with [supplyRatio = max(1, outstanding / onDuty)], the ratio being
    unboundedly large when no taxi is on duty, so that the ceiling applies. *)

Definition spec_supplyRatio (outstanding onDuty : nat) : Q :=
  Qmax 1 (inject_Z (Z.of_nat outstanding) / inject_Z (Z.of_nat onDuty)).

Definition spec_price (travelTime : Q) (outstanding onDuty : nat) : Q :=
  if (onDuty =? 0)%nat then (10 * travelTime)%Q
  else Qmin ((25 + travelTime) * spec_supplyRatio outstanding onDuty)
            (10 * travelTime).

(** The number of taxis of the world that are on duty. *)
Definition onDutyCount (W : World.t) : nat :=
  length (filter (λ car, Taxi.onDuty (World.taxi W car) = true)
            (World._taxis W)).

(** Several ticks in a row, each with the world as it is at that tick;
    the dispatcher is carried over as each tick leaves it. *)
Fixpoint clockTicks (worlds : list World.t) (self : Dispatcher.t)
    : Dispatcher.t :=
  match worlds with
  | [] => self
  | W :: rest =>
      clockTicks rest
        (final (Dispatcher.clockTick W self (Dispatcher._parent self)))
  end.

(** ** Allocation: the notions the statements use *)

(** The guard under which [clockTick] runs [_allocateFare] on a fare:
    priced, unassigned, with at least one bidder. *)
Definition up_for_allocation (fare : FareEntry.t) : bool :=
  (negb (pyeqb (FareEntry.price fare) (Fin 0))
   && (FareEntry.taxi fare <? 0)%Z
   && (0 <? length (FareEntry.bidders fare))%nat)%bool.

(** What the allocation loop computes for the bidder with roster index
    [taxi_number]: nothing when the index is outside the roster or the
    taxi fails the gate ([onDuty] and [_account > 0]), its priority score
    (or the exception the score raises) otherwise. *)
Definition candidate (W : World.t) (self : Dispatcher.t) (origin : coord)
    (nbidders : nat) (taxi_number : nat) : option (result Q) :=
  match Dispatcher._taxis self !! taxi_number with
  | Some ref =>
      if Dispatcher.eligible (World.taxi W ref)
      then Some (Dispatcher.priority_score W (World.taxi W ref) origin nbidders)
      else None
  | None => None
  end.

(** The state of the allocation loop after the bidders [seen], in terms
    of what it computes for each of them ([cand]): no candidate so far, or
    the first of the candidates with the highest score. *)
Definition first_best (cand : nat → option (result Q)) (seen : list nat)
    (best : option nat * pynum) : Prop :=
  match best with
  | (None, h) => h = NInf ∧ ∀ j, j ∈ seen → cand j = None
  | (Some k, h) =>
      ∃ l1 l2 q,
        seen = l1 ++ k :: l2 ∧ cand k = Some (Ok q) ∧ h = Fin q
        ∧ (∀ j qj, j ∈ l1 → cand j = Some (Ok qj) → (qj < q)%Q)
        ∧ (∀ j qj, j ∈ l2 → cand j = Some (Ok qj) → (qj <= q)%Q)
  end.

(** ** Concrete worlds and boards used in the examples *)

Module Examples.
(** A taxi on duty at the node (0,0) with 10 in its account. *)
Definition cab : Taxi.t :=
  Taxi.mk 0 0 true 0 0 None 256 50 10 (Some (0, 0)%Z) 0 None (-1) 0 0 None
          ∅ (Some []) [].

(** A world with one outstanding fare and one taxi, where the travel time
    between two nodes is their rectilinear distance. *)
Definition town : World.t :=
  World.mk 0 1 [7%nat] (λ _, cab)
    (λ a b, inject_Z (Z.abs (a.1 - b.1) + Z.abs (a.2 - b.2)))
    (λ _, 0%Q) (λ _ _ _, false) (λ _ _, None).

(** The same world when the estimate between any two nodes is 0. *)
Definition town_free : World.t :=
  World.mk 0 1 [7%nat] (λ _, cab) (λ _ _, 0%Q)
    (λ _, 0%Q) (λ _ _ _, false) (λ _ _, None).

(** A dispatcher of world 0 with an empty board and the taxi 7 as its
    whole roster. *)
Definition office : Dispatcher.t := Dispatcher.mk 0 0 [7%nat] [] None 0 0 0.

(** ... with no taxi at all. *)
Definition office_no_taxi : Dispatcher.t := Dispatcher.mk 0 0 [] [] None 0 0 0.

(** ... after a fare from (0,0) to (3,4) called at time 0. *)
Definition office_one_fare : Dispatcher.t :=
  final (Dispatcher.newFare office 0 (0, 0)%Z (3, 4)%Z 0).

Definition office_no_taxi_one_fare : Dispatcher.t :=
  final (Dispatcher.newFare office_no_taxi 0 (0, 0)%Z (3, 4)%Z 0).

(** ... after a fare whose destination is its origin. *)
Definition office_round_trip : Dispatcher.t :=
  final (Dispatcher.newFare office 0 (2, 2)%Z (2, 2)%Z 0).
(** The same taxi with an empty account. *)
Definition cab_broke : Taxi.t :=
  Taxi.mk 0 0 true 0 0 None 256 50 0 (Some (0, 0)%Z) 0 None (-1) 0 0 None
          ∅ (Some []) [].

(** A world with the taxis 7 and 8, alike in every attribute. *)
Definition fleet : World.t :=
  World.mk 0 1 [7%nat; 8%nat] (λ _, cab)
    (λ a b, inject_Z (Z.abs (a.1 - b.1) + Z.abs (a.2 - b.2)))
    (λ _, 0%Q) (λ _ _ _, false) (λ _ _, None).

(** ... and when the account of taxi 7 is empty. *)
Definition fleet_7_broke : World.t :=
  World.mk 0 1 [7%nat; 8%nat]
    (λ ref, if (ref =? 7)%nat then cab_broke else cab)
    (λ a b, inject_Z (Z.abs (a.1 - b.1) + Z.abs (a.2 - b.2)))
    (λ _, 0%Q) (λ _ _ _, false) (λ _ _, None).

(** A dispatcher whose roster is taxi 7 (index 0) then taxi 8 (index 1). *)
Definition office_two : Dispatcher.t :=
  Dispatcher.mk 0 0 [7%nat; 8%nat] [] None 0 0 0.

(** A priced, unassigned fare on which index 0 bid first, then index 1. *)
Definition fare_bid_0_1 : FareEntry.t :=
  FareEntry.mk (0, 0)%Z (3, 4)%Z 0 (Fin 32) (-1) [0%nat; 1%nat].

(** ... and on which index 1 bid first, then index 0. *)
Definition fare_bid_1_0 : FareEntry.t :=
  FareEntry.mk (0, 0)%Z (3, 4)%Z 0 (Fin 32) (-1) [1%nat; 0%nat].
(** The dispatcher [office_two] with that first fare on its board. *)
Definition office_two_bids : Dispatcher.t :=
  Dispatcher.mk 0 0 [7%nat; 8%nat]
    [((0, 0)%Z, [((3, 4)%Z, {[0%Z := fare_bid_0_1]})])] None 0 0 0.

(** The straight-line distance between two nodes that share a coordinate
    (there it is the difference of the other coordinate). *)
Definition axis_distance (a b : coord) : Q :=
  inject_Z (Z.abs (a.1 - b.1) + Z.abs (a.2 - b.2)).

(** A map of two nodes with no road between them. *)
Definition two_islands : RoadMap :=
  <[(0, 0)%Z := []]> (<[(0, 1)%Z := []]> ∅).

(** A taxi standing at (0,0) with that map, no passenger, an empty route,
    and one fare allocated to it whose origin is (0,1). *)
Definition stranded : Taxi.t :=
  Taxi.mk 0 0 true 0 0 None 256 50 10 (Some (0, 0)%Z) 0 None (-1) 0 0 None
          two_islands (Some [])
          [((0, 0, 1)%Z,
            FareInfo.mk (5, 5)%Z (Fin 32) 1 true)].

(** That taxi one tick later: the failed plan is stored as its route. *)
Definition stranded_after_tick : Taxi.t :=
  Taxi.mk 0 0 true 0 0 None 256 50 9 (Some (0, 0)%Z) 0 None (-1) 0 0 None
          two_islands None
          [((0, 0, 1)%Z,
            FareInfo.mk (5, 5)%Z (Fin 32) 1 true)].

(** The keyword arguments of a payment of 5. *)
Definition pay_5 : TaxiAgent.Args :=
  TaxiAgent.mkArgs None None None (Some 5%Q).
(** Three nodes on one line.  The road from (0,0) to (0,1) is long (5);
    the roads from (0,0) to (0,100) and from there to (0,1) are short
    (1 each), much shorter than the straight line between their ends. *)
Definition shortcut_map : RoadMap :=
  <[(0, 0)%Z := [((0, 1)%Z, (0%Z, 5%Q)); ((0, 100)%Z, (1%Z, 1%Q))]]>
    (<[(0, 100)%Z := [((0, 1)%Z, (2%Z, 1%Q))]]>
       (<[(0, 1)%Z := []]> ∅)).

(** A map that names a neighbour, (0,5), which is not one of its nodes. *)
Definition dangling_map : RoadMap :=
  <[(0, 0)%Z := [((0, 5)%Z, (0%Z, 1%Q))]]> (<[(0, 1)%Z := []]> ∅).

(** Three nodes on one line, each road at least as long as the straight
    line between its ends; the direct road from (0,0) to (0,2) is longer
    (3) than the way through (0,1) (1 + 1). *)
Definition detour_map : RoadMap :=
  <[(0, 0)%Z := [((0, 2)%Z, (0%Z, 3%Q)); ((0, 1)%Z, (0%Z, 1%Q))]]>
    (<[(0, 1)%Z := [((0, 2)%Z, (0%Z, 1%Q))]]>
       (<[(0, 2)%Z := []]> ∅)).
End Examples.

(** A board without empty levels ([cancelFare] deletes a level as soon as
    it has emptied it). *)
Definition no_empty_level (b : FareBoard) : Prop :=
  ∀ o dests,
    ODict.get o b = Some dests →
    length dests ≠ 0%nat
    ∧ ∀ d (times : gmap Z FareEntry.t),
        ODict.get d dests = Some times → size times ≠ 0%nat.

(** ** dispatcher.py: the roster, the map, bids and handover *)

(** [l.index(x)]: the position of the first occurrence of [x].  Python
    raises ValueError when there is none; the source calls [index] only
    on a taxi it has just found in, or appended to, the roster
    ([py_index_elem]), and the model gives the length of the list in the
    other case. *)
Fixpoint py_index (x : TaxiRef) (l : list TaxiRef) : nat :=
  match l with
  | [] => 0
  | y :: r => if decide (x = y) then 0 else S (py_index x r)
  end.

(** [fare.bidders.append(i)] *)
Definition add_bidder (i : nat) (f : FareEntry.t) : FareEntry.t :=
  FareEntry.mk (FareEntry.origin f) (FareEntry.destination f)
    (FareEntry.calltime f) (FareEntry.price f) (FareEntry.taxi f)
    (FareEntry.bidders f ++ [i]).

(** What [addMapNode] asks of the world: whether there is a node at a
    pair of coordinates ([getNode(x, y) is not None]) and the distance
    between two nodes ([distance2Node]), here between their indices. *)
Module Terrain.
Record t : Type := mk {
  getNode : coord → bool;
  distance2Node : coord → coord → Q
}.
End Terrain.

(** [neighbourDict], built neighbour by neighbour from the triples
    (direction, x, y); [None] when a neighbour is not a node of the
    world. *)
Fixpoint neighbourDict (T : Terrain.t) (coords : coord)
    (neighbours : list (Z * Z * Z)) (acc : list (coord * (Z * Q)))
    : option (list (coord * (Z * Q))) :=
  match neighbours with
  | [] => Some acc
  | neighbour :: rest =>
      let neighbourCoords : coord := (neighbour.1.2, neighbour.2) in
      if Terrain.getNode T neighbourCoords then
        neighbourDict T coords rest
          (ODict.set neighbourCoords
             (neighbour.1.1, Terrain.distance2Node T coords neighbourCoords)
             acc)
      else None
  end.

(** [[(neighbour[1][0], neighbour[0][0], neighbour[0][1]) for neighbour in node[1].items()]] *)
Definition neighbour_triples (items : list (coord * (Z * Q)))
    : list (Z * Z * Z) :=
  (λ neighbour, (neighbour.2.1, neighbour.1.1, neighbour.1.2)) <$> items.

Module DispatcherRest.
Import Dispatcher.

Definition __init__ (parent : WorldRef) (taxis : option (list TaxiRef))
    (serviceMap : option RoadMap) : t :=
  mk parent 0 (default [] taxis) [] serviceMap 0 0 0.

Definition set_taxis (l : list TaxiRef) (self : t) : t :=
  mk (_parent self) (_revenue self) l (_fareBoard self) (_map self)
     (_completedRides self) (_abandonedRides self) (currentLocation self).
Definition set_map (m : option RoadMap) (self : t) : t :=
  mk (_parent self) (_revenue self) (_taxis self) (_fareBoard self) m
     (_completedRides self) (_abandonedRides self) (currentLocation self).

(** *** addTaxi *)
Definition addTaxi (self : t) (taxi : TaxiRef) : t :=
  if bool_decide (taxi ∈ _taxis self) then self
  else set_taxis (_taxis self ++ [taxi]) self.

(** *** addMapNode

    The source hands its complaints back as return values
    ([return KeyError(...)]) and raises only where [self._map] is [None]
    at the final assignment: the outcome is the dispatcher with what was
    raised, and the value returned.  (A dispatcher of the model always
    has a world, so the first test, [self._parent is None], is not
    taken.) *)
Definition addMapNode (T : Terrain.t) (self : t) (coords : coord)
    (neighbours : list (Z * Z * Z)) : Run t * option exn :=
  if Terrain.getNode T coords then
    match neighbourDict T coords neighbours [] with
    | None => (mkRun self [] None, Some KeyError)
    | Some nd =>
        match _map self with
        | None => (mkRun self [] (Some TypeError), None)
        | Some m =>
            (mkRun (set_map (Some (<[coords := nd]> m)) self) [] None, None)
        end
    end
  else (mkRun self [] None, Some KeyError).

(** *** importMap

    Each node of [newMap] is written under its own key from what the
    world answers, so the order in which the nodes are taken does not
    show in the result ([importMap_lookup]). *)
Definition importMap (T : Terrain.t) (self : t) (newMap : RoadMap) : t :=
  match _map self with
  | None => set_map (Some newMap) self
  | Some _ =>
      foldl (λ s node,
               final (addMapNode T s node.1 (neighbour_triples node.2)).1)
        self (map_to_list newMap)
  end.

(** *** handover *)

(** [self._fareBoard[origin][destination][time].<attribute> = ...] *)
Definition board_update (b : FareBoard) (origin destination : coord)
    (time : Z) (f : FareEntry.t → FareEntry.t) : result FareBoard :=
  match ODict.get origin b with
  | None => Raise KeyError
  | Some dests =>
      match ODict.get destination dests with
      | None => Raise KeyError
      | Some times =>
          match times !! time with
          | None => Raise KeyError
          | Some fare =>
              Ok (ODict.set origin
                    (ODict.set destination (<[time := f fare]> times) dests) b)
          end
      end
  end.

Definition handover (self : t) (parent : WorldRef)
    (origin destination : coord) (time : Z) (taxi : TaxiRef) (price : pynum)
    : Run t :=
  if decide (_parent self = parent) then
    let self1 := addTaxi self taxi in
    let r := newFare self1 parent origin destination time in
    match raised r with
    | Some e => r
    | None =>
        let self2 := final r in
        match board_update (_fareBoard self2) origin destination time
                (FareEntry.set_taxi (Z.of_nat (py_index taxi (_taxis self2))))
        with
        | Raise e => mkRun self2 [] (Some e)
        | Ok b1 =>
            match board_update b1 origin destination time
                    (FareEntry.set_price price) with
            | Raise e => mkRun (set_board b1 self2) [] (Some e)
            | Ok b2 => mkRun (set_board b2 self2) [] None
            end
        end
    end
  else mkRun self [] None.

(** *** fareBid *)
Section FareBid.
(** The order in which Python walks the call times of one (origin,
    destination) pair: the order in which they were inserted, which the
    [gmap] of the board does not keep.  It is a parameter; the statements
    hold for every order that lists the call times once each. *)
Variable walk_order : gmap Z FareEntry.t → list Z.

(** [for time in ...keys()]: the call times with the bid placed on the
    first unallocated fare, or [None] when the loop ends without one. *)
Fixpoint bid_times (i : nat) (keys : list Z) (times : gmap Z FareEntry.t)
    : result (option (gmap Z FareEntry.t)) :=
  match keys with
  | [] => Ok None
  | time :: rest =>
      match times !! time with
      | None => Raise KeyError
      | Some fare =>
          if (FareEntry.taxi fare =? -1)%Z
          then Ok (Some (<[time := add_bidder i fare]> times))
          else bid_times i rest times
      end
  end.

(** [for destination in ...keys()] *)
Fixpoint bid_dests (i : nat) (dests : list (coord * gmap Z FareEntry.t))
    : result (option (list (coord * gmap Z FareEntry.t))) :=
  match dests with
  | [] => Ok None
  | (destination, times) :: rest =>
      r ← bid_times i (walk_order times) times;
      match r with
      | Some times' => Ok (Some ((destination, times') :: rest))
      | None =>
          r' ← bid_dests i rest;
          match r' with
          | Some rest' => Ok (Some ((destination, times) :: rest'))
          | None => Ok None
          end
      end
  end.

Definition fareBid (self : t) (origin : coord) (taxi : TaxiRef) : Run t :=
  if bool_decide (taxi ∈ _taxis self) then
    match ODict.get origin (_fareBoard self) with
    | None => mkRun self [] None
    | Some dests =>
        match bid_dests (py_index taxi (_taxis self)) dests with
        | Raise e => mkRun self [] (Some e)
        | Ok None => mkRun self [] None
        | Ok (Some dests') =>
            mkRun (set_board (ODict.set origin dests' (_fareBoard self)) self)
              [] None
        end
    end
  else mkRun self [] None.
End FareBid.
End DispatcherRest.

(** ** What the dispatcher's methods maintain *)

(** A fare stored under the key [(o, d, t)] by a dispatcher that knows
    [n] taxis: its fields repeat the key, its taxi is -1 or a roster
    index, and every bidder is a roster index. *)
Definition fare_ok (n : nat) (o d : coord) (t : Z) (f : FareEntry.t) : Prop :=
  FareEntry.origin f = o ∧ FareEntry.destination f = d
  ∧ FareEntry.calltime f = t
  ∧ (FareEntry.taxi f = (-1)%Z ∨ (0 <= FareEntry.taxi f < Z.of_nat n)%Z)
  ∧ Forall (λ i, i < n) (FareEntry.bidders f).

(** The board is a dictionary of dictionaries (no key twice at either
    level), without empty levels, and holds only such fares. *)
Definition board_ok (self : Dispatcher.t) : Prop :=
  NoDup (Dispatcher._fareBoard self).*1
  ∧ (∀ o dests, ODict.get o (Dispatcher._fareBoard self) = Some dests →
                NoDup dests.*1)
  ∧ no_empty_level (Dispatcher._fareBoard self)
  ∧ ∀ o d t f,
      Dispatcher.board_get (Dispatcher._fareBoard self) o d t = Some f →
      fare_ok (length (Dispatcher._taxis self)) o d t f.

(** A call of one of the dispatcher's public methods, with what it reads
    from outside: the world as it is during a tick, the terrain for a
    map update, the order in which the call times are walked for a bid. *)
Inductive Call : Type :=
| CallAddTaxi (taxi : TaxiRef)
| CallAddMapNode (T : Terrain.t) (coords : coord) (neighbours : list (Z * Z * Z))
| CallImportMap (T : Terrain.t) (newMap : RoadMap)
| CallHandover (parent : WorldRef) (origin destination : coord) (time : Z)
    (taxi : TaxiRef) (price : pynum)
| CallNewFare (parent : WorldRef) (origin destination : coord) (time : Z)
| CallCancelFare (parent : WorldRef) (origin destination : coord) (time : Z)
| CallFareBid (walk_order : gmap Z FareEntry.t → list Z) (origin : coord)
    (taxi : TaxiRef)
| CallRecvPayment (parent : WorldRef) (amount : Q)
| CallClockTick (W : World.t) (parent : WorldRef).

(** The dispatcher as the call leaves it, whether it returned or raised. *)
Definition after_call (self : Dispatcher.t) (c : Call) : Dispatcher.t :=
  match c with
  | CallAddTaxi taxi => DispatcherRest.addTaxi self taxi
  | CallAddMapNode T coords neighbours =>
      final (DispatcherRest.addMapNode T self coords neighbours).1
  | CallImportMap T newMap => DispatcherRest.importMap T self newMap
  | CallHandover parent o d t taxi price =>
      final (DispatcherRest.handover self parent o d t taxi price)
  | CallNewFare parent o d t => final (Dispatcher.newFare self parent o d t)
  | CallCancelFare parent o d t =>
      final (Dispatcher.cancelFare self parent o d t)
  | CallFareBid walk_order o taxi =>
      final (DispatcherRest.fareBid walk_order self o taxi)
  | CallRecvPayment parent amount =>
      final (Dispatcher.recvPayment self parent amount)
  | CallClockTick W parent => final (Dispatcher.clockTick W self parent)
  end.

Definition after_calls (self : Dispatcher.t) (cs : list Call) : Dispatcher.t :=
  foldl after_call self cs.

(** The board once the fare under [(o, d, t)] has left it, any level
    thereby emptied being deleted. *)
Definition board_without (b : FareBoard) (o d : coord) (t : Z) : FareBoard :=
  match ODict.get o b with
  | Some dests =>
      match ODict.get d dests with
      | Some times =>
          let times' := delete t times in
          let dests' :=
            if decide (size times' = 0%nat) then ODict.del d dests
            else ODict.set d times' dests in
          if decide (length dests' = 0%nat) then ODict.del o b
          else ODict.set o dests' b
      | None => b
      end
  | None => b
  end.

(** ** Map updates: what a node's entry becomes

    The entry [addMapNode] would write for a node whose neighbours are
    [items]: the same neighbours with the same directions, each at the
    distance the world gives; [None] when the node or one of the
    neighbours is not a node of the world. *)
Definition rebuilt_entry (T : Terrain.t) (coords : coord)
    (items : list (coord * (Z * Q))) : option (list (coord * (Z * Q))) :=
  if Terrain.getNode T coords
  then neighbourDict T coords (neighbour_triples items) []
  else None.

(** The entry of [coords] after [importMap newMap] into a map where it
    was [old]. *)
Definition imported_entry (T : Terrain.t) (newMap : RoadMap) (coords : coord)
    (old : option (list (coord * (Z * Q)))) : option (list (coord * (Z * Q))) :=
  match newMap !! coords with
  | Some items =>
      match rebuilt_entry T coords items with
      | Some nd => Some nd
      | None => old
      end
  | None => old
  end.

(** Whether a call files or removes the fare under the key: a [newFare],
    [handover] or [cancelFare] with that origin, destination and call
    time. *)
Definition rewrites_key (key : coord * coord * Z) (c : Call) : bool :=
  match c with
  | CallHandover _ o d t _ _ | CallNewFare _ o d t | CallCancelFare _ o d t =>
      bool_decide ((o, d, t) = key)
  | _ => false
  end.

(** ** taxi.py: construction, the map, coming on duty, driving *)

(** A pose: a node (its index), or [None], and a direction. *)
Definition Pose : Type := (option coord * Z)%type.

(** What the nodes of the world answer to a taxi that moves: each method
    of a node, as a function of the node's index. *)
Module Nodes.
Record t : Type := mk {
  occupy : coord → Z → Pose;              (* node.occupy(direction, taxi) *)
  vacate : coord → Z → Z → Pose;          (* node.vacate(direction, newDirection) *)
  continueThrough : coord → Z → Pose;     (* node.continueThrough(direction) *)
  turn : coord → Z → Z → Pose             (* node.turn(direction, newDirection) *)
}.
End Nodes.

(** The outcome of the constructor's search for an entry point. *)
Inductive EntryPoint : Type :=
| Entry (pos : coord)
| NoWayIn              (* ValueError: the map is a closed loop *)
| StillSearching.      (* the loop has not ended within the fuel *)

(** The outcome of the taxi's constructor. *)
Inductive Construction : Type :=
| Constructed (taxi : Taxi.t)
| RaisedValueError
| Unfinished.          (* the search has not ended within the fuel *)

Module TaxiRest.
Import Taxi.

Definition set_map (m : RoadMap) (x : t) : t :=
  mk (_world x) (number x) (onDuty x) (_onDutyTime x) (_offDutyTime x)
     (_onDutyPos x) (_dailyLoss x) (_maxFareWait x) (_account x) (_loc x)
     (_direction x) (_nextLoc x) (_nextDirection x)
     (lastFareCompletionTime x) (income x) (_passenger x) m
     (_path x) (_availableFares x).

Definition set_onDuty (b : bool) (x : t) : t :=
  mk (_world x) (number x) b (_onDutyTime x) (_offDutyTime x)
     (_onDutyPos x) (_dailyLoss x) (_maxFareWait x) (_account x) (_loc x)
     (_direction x) (_nextLoc x) (_nextDirection x)
     (lastFareCompletionTime x) (income x) (_passenger x) (_map x)
     (_path x) (_availableFares x).

(** [self._nextLoc = ...; self._nextDirection = ...] *)
Definition set_next (p : Pose) (x : t) : t :=
  mk (_world x) (number x) (onDuty x) (_onDutyTime x) (_offDutyTime x)
     (_onDutyPos x) (_dailyLoss x) (_maxFareWait x) (_account x) (_loc x)
     (_direction x) p.1 p.2
     (lastFareCompletionTime x) (income x) (_passenger x) (_map x)
     (_path x) (_availableFares x).

(** [self._loc = ...; self._direction = ...] *)
Definition set_pose (p : Pose) (x : t) : t :=
  mk (_world x) (number x) (onDuty x) (_onDutyTime x) (_offDutyTime x)
     (_onDutyPos x) (_dailyLoss x) (_maxFareWait x) (_account x) p.1
     p.2 (_nextLoc x) (_nextDirection x)
     (lastFareCompletionTime x) (income x) (_passenger x) (_map x)
     (_path x) (_availableFares x).

(** *** __init__ *)

(** [while (x,y) not in self._map and x < self._world.xSize: ...], from
    the point [(x, y)]. *)
Fixpoint find_entry (fuel : nat) (map : RoadMap) (xSize ySize : Z) (x y : Z)
    : EntryPoint :=
  match fuel with
  | O => StillSearching
  | S k =>
      if (negb (bool_decide (is_Some (map !! (x, y)))) && (x <? xSize)%Z)%bool
      then
        let y := (y + 1)%Z in
        if (y >=? ySize)%Z
        then find_entry k map xSize ySize (x + xSize - 1)%Z 0%Z
        else find_entry k map xSize ySize x y
      else if (x >=? xSize)%Z then NoWayIn else Entry (x, y)
  end.

(** The constructor, in a world of the given size whose [exportMap()]
    gives [exportMap]. *)
Definition __init__ (fuel : nat) (world : WorldRef) (exportMap : RoadMap)
    (xSize ySize : Z) (taxi_num : Z) (idle_loss : Q) (max_wait : Z)
    (on_duty_time off_duty_time : Z) (service_area : option RoadMap)
    (start_point : option coord) : Construction :=
  let map := default exportMap service_area in
  let build (pos : coord) : t :=
    mk world taxi_num false on_duty_time off_duty_time (Some pos) idle_loss
       max_wait 0 None (-1) None (-1) 0 0 None map (Some []) [] in
  match start_point with
  | Some pos => Constructed (build pos)
  | None =>
      match find_entry fuel map xSize ySize 0 0 with
      | Entry pos => Constructed (build pos)
      | NoWayIn => RaisedValueError
      | StillSearching => Unfinished
      end
  end.

(** *** addMapNode and importMap

    As for the dispatcher, except that the taxi's map is never [None]
    once the constructor has run (and a taxi of the model always has a
    world: the tests [self._world is None] are not taken). *)
Definition addMapNode (T : Terrain.t) (self : t) (coords : coord)
    (neighbours : list (Z * Z * Z)) : t * option exn :=
  if Terrain.getNode T coords then
    match neighbourDict T coords neighbours [] with
    | None => (self, Some KeyError)
    | Some nd => (set_map (<[coords := nd]> (_map self)) self, None)
    end
  else (self, Some KeyError).

Definition importMap (T : Terrain.t) (self : t) (newMap : RoadMap) : t :=
  foldl (λ s node, (addMapNode T s node.1 (neighbour_triples node.2)).1)
    self (map_to_list newMap).

(** *** comeOnDuty

    [addTaxi] is what the world answers to
    [self._world.addTaxi(self, self._onDutyPos)]: the pose at which the
    taxi is to enter. *)
Definition comeOnDuty (addTaxi : option coord → Pose) (self : t) (time : Z)
    : t :=
  if ((_offDutyTime self =? 0)%Z
      || ((time >=? _onDutyTime self)%Z && (time <? _offDutyTime self)%Z))%bool
  then
    let self1 :=
      if Qle_bool (_account self) 0 then set_account (_dailyLoss self) self
      else self in
    let self2 := set_onDuty true self1 in
    let onDutyPose := addTaxi (_onDutyPos self2) in
    set_next onDutyPose self2
  else self.

(** *** drive *)

(** The second half of [drive]:
    [if self._nextLoc is None and len(self._path) > 0: ...]. *)
Definition get_underway (N : Nodes.t) (self : t) : Run t :=
  match _nextLoc self with
  | Some _ => mkRun self [] None
  | None =>
      match _path self with
      | None => mkRun self [] (Some TypeError)
      | Some [] => mkRun self [] None
      | Some (wp :: rest) =>
          match _loc self with
          | None => mkRun self [] (Some AttributeError)
          | Some here =>
              match _map self !! here with
              | None => mkRun self [] (Some IndexError)
              | Some items =>
                  let popped :=
                    ((wp.1 =? here.1)%Z && (wp.2 =? here.2)%Z)%bool in
                  let self1 := if popped then set_path (Some rest) self
                               else self in
                  match (if popped then rest else wp :: rest) with
                  | [] => mkRun self1 [] None
                  | next :: _ =>
                      match ODict.get next items with
                      | None => mkRun self1 [] (Some IndexError)
                      | Some details =>
                          mkRun (set_next
                                   (Nodes.turn N here (_direction self1)
                                      details.1) self1) [] None
                      end
                  end
              end
          end
      end
  end.

Definition drive (N : Nodes.t) (self : t) (newPose : Pose) : Run t :=
  let self0 :=
    match newPose.1 with
    | None => if (newPose.2 =? -1)%Z then set_next (None, (-1)%Z) self
              else self
    | Some _ => self
    end in
  match _nextLoc self0 with
  | None => get_underway N self0
  | Some nextLoc =>
      if (bool_decide (newPose.1 = Some nextLoc)
          && (newPose.2 =? _nextDirection self0)%Z)%bool
      then
        let nextPose :=
          match _loc self0 with
          | None => Nodes.occupy N nextLoc newPose.2
          | Some here => Nodes.vacate N here (_direction self0) newPose.2
          end in
        if (bool_decide (nextPose.1 = newPose.1)
            && (nextPose.2 =? newPose.2)%Z)%bool
        then
          let self1 := set_pose (Some nextLoc, _nextDirection self0) self0 in
          match _path self1 with
          | None => mkRun self1 [] (Some TypeError)
          | Some [] => get_underway N (set_next (None, (-1)%Z) self1)
          | Some (wp :: rest) =>
              if ((wp.1 =? nextLoc.1)%Z && (wp.2 =? nextLoc.2)%Z)%bool
              then get_underway N
                     (set_next (None, (-1)%Z) (set_path (Some rest) self1))
              else
                mkRun (set_next
                         (Nodes.continueThrough N nextLoc (_direction self1))
                         self1) [] None
          end
        else get_underway N (set_next (None, (-1)%Z) self0)
      else get_underway N self0
  end.
End TaxiRest.

(** ** What a taxi's tick leaves alone *)

(** [b] is [a] except, possibly, for its account, its passenger, its path
    and the fares it knows of. *)
Definition same_but_work (a b : Taxi.t) : Prop :=
  b = Taxi.set_account (Taxi._account b)
        (Taxi.set_passenger (Taxi._passenger b)
           (Taxi.set_path (Taxi._path b)
              (Taxi.set_availableFares (Taxi._availableFares b) a))).

(** The origin a fare key names. *)
Definition key_origin (key : FareKey) : coord := (key.1.2, key.2).

(** ** More concrete taxis and worlds *)

Module MoreExamples.
(** The world [Examples.town] at time 720. *)
Definition town_at_noon : World.t :=
  World.mk 720 1 [7%nat] (λ _, Examples.cab)
    (λ a b, inject_Z (Z.abs (a.1 - b.1) + Z.abs (a.2 - b.2)))
    (λ _, 0%Q) (λ _ _ _, false) (λ _ _, None).

(** The taxi [Examples.cab] when it has heard of one fare, called at time
    0 at its own node for (3,4) at the price 32, and has not decided on
    it. *)
Definition cab_with_offer : Taxi.t :=
  Taxi.mk 0 0 true 0 0 None 256 50 10 (Some (0, 0)%Z) 0 None (-1) 0 0 None
          ∅ (Some []) [((0, 0, 0)%Z, FareInfo.new (3, 4)%Z (Fin 32))].

(** An estimate that is 0 everywhere. *)
Definition no_estimate (a b : coord) : Q := 0.

(** That taxi when it has heard of the same fare twice, at time 0 and at
    time 700, and has decided on neither. *)
Definition cab_with_two_offers : Taxi.t :=
  Taxi.mk 0 0 true 0 0 None 256 50 10 (Some (0, 0)%Z) 0 None (-1) 0 0 None
          ∅ (Some [])
          [((0, 0, 0)%Z, FareInfo.new (3, 4)%Z (Fin 32));
           ((700, 0, 0)%Z, FareInfo.new (3, 4)%Z (Fin 32))].

(** A taxi standing at (0,0) of [Examples.detour_map], with the route
    the planner gives from there to (0,2). *)
Definition cab_with_route : Taxi.t :=
  Taxi.mk 0 0 true 0 0 None 256 50 10 (Some (0, 0)%Z) 0 None (-1) 0 0 None
          Examples.detour_map (Some [(0, 0)%Z; (0, 1)%Z; (0, 2)%Z]) [].

(** Nodes that let every taxi through: each answers with the pose it is
    asked for, a turn leading to the node one step up. *)
Definition open_nodes : Nodes.t :=
  Nodes.mk (λ node dir, (Some node, dir))
           (λ node dir newdir, (Some (node.1, node.2 + 1)%Z, newdir))
           (λ node dir, (Some (node.1, node.2 + 1)%Z, dir))
           (λ node dir newdir, (Some (node.1, node.2 + 1)%Z, newdir)).

(** A world where every pair of coordinates is a node and the distance
    between two nodes is their rectilinear distance. *)
Definition grid : Terrain.t :=
  Terrain.mk (λ _, true) Examples.axis_distance.

(** The taxi [Examples.cab] with an income of -1, for which the earnings
    term [1 / (1 + taxi.income)] of the priority score divides by zero,
    and the world [Examples.town] when its taxi is that one. *)
Definition cab_in_debt : Taxi.t :=
  Taxi.mk 0 0 true 0 0 None 256 50 10 (Some (0, 0)%Z) 0 None (-1) 0 (-1) None
          ∅ (Some []) [].

Definition town_in_debt : World.t :=
  World.mk 0 1 [7%nat] (λ _, cab_in_debt)
    (λ a b, inject_Z (Z.abs (a.1 - b.1) + Z.abs (a.2 - b.2)))
    (λ _, 0%Q) (λ _ _ _, false) (λ _ _, None).

(** A dispatcher of world 0 with three fares from (0,0) to (3,4): the
    calls at times 0 and 1 are unpriced; the call at time 2 is priced,
    unassigned, and the taxi with roster index 0 has bid for it. *)
Definition office_three_calls : Dispatcher.t :=
  Dispatcher.mk 0 0 [7%nat]
    [((0, 0)%Z,
      [((3, 4)%Z,
        <[0%Z := FareEntry.new (0, 0)%Z (3, 4)%Z 0]>
          (<[1%Z := FareEntry.new (0, 0)%Z (3, 4)%Z 1]>
             (<[2%Z := FareEntry.mk (0, 0)%Z (3, 4)%Z 2 (Fin 32) (-1)
                         [0%nat]]> ∅)))])] None 0 0 0.
End MoreExamples.

(** What the planner returns at least, whatever the estimate: a route, or
    [None] when there is no route. *)
Definition found_route (m : RoadMap) (origin destination : coord)
    (r : PlanOutcome) : Prop :=
  match r with
  | Returned (Some l) => ∃ c, route m origin destination l c
  | Returned None => unreachable m origin destination
  | Raised _ | OutOfFuel => False
  end.

(** The first [y] in [0, ySize) with a node of the map at [(x, y)]. *)
Definition first_node_in_column (map : RoadMap) (x ySize : Z) : option Z :=
  List.find (λ y, bool_decide (is_Some (map !! (x, y)))) (seqZ 0 ySize).

(** [b] is [a] except, possibly, for where it is, where it is going next
    and its path. *)
Definition same_but_motion (a b : Taxi.t) : Prop :=
  b = TaxiRest.set_next (Taxi._nextLoc b, Taxi._nextDirection b)
        (TaxiRest.set_pose (Taxi._loc b, Taxi._direction b)
           (Taxi.set_path (Taxi._path b) a)).

(** The payments among the calls that come from the world [parent]. *)
Fixpoint payments_from (parent : WorldRef) (cs : list Call) : Q :=
  match cs with
  | [] => 0
  | CallRecvPayment p amount :: rest =>
      if decide (parent = p) then (amount + payments_from parent rest)%Q
      else payments_from parent rest
  | _ :: rest => payments_from parent rest
  end.

(** * The agents in Python's arithmetic: definitions *)

(** ** Python's arithmetic as the interpreter computes it

    In the definitions above a Python number is an exact rational.  The
    interpreter computes otherwise: an [int] is exact and unbounded, a
    [float] is an IEEE 754 binary64 number, every operation on floats
    rounds its exact result to the nearest float (to the one with the
    even significand when two are equally near), and an [int] that meets
    a [float] is converted first.  The definitions of this part follow
    the interpreter; they serve the statements on which rounding
    bears: the price a tick records, the scores that decide an
    allocation, and the costs the planner adds up. *)

Module Binary64.
(** The exponent of the binade of a positive [x]: [2^e <= x < 2^(e+1)]. *)
Definition ilog2 (x : Q) : Z :=
  let e := (Z.log2 (Qnum x) - Z.log2 (Zpos (Qden x)))%Z in
  if Qle_bool (2 ^ e) x then e else (e - 1)%Z.

(** The integer nearest to [x], the even one of two that are equally
    near. *)
Definition rne (x : Q) : Z :=
  let f := Qfloor x in
  match (x - inject_Z f ?= 1 # 2)%Q with
  | Lt => f
  | Gt => (f + 1)%Z
  | Eq => if Z.even f then f else (f + 1)%Z
  end.

(** The float nearest to a positive [a]: a multiple of [2^s], where [s]
    leaves 53 binary digits to the significand and is at least -1074
    (below [2^-1022] floats are subnormal); nothing when the rounded
    value reaches [2^1024]. *)
Definition round_pos (a : Q) : option Q :=
  let s := Z.max (ilog2 a - 52) (-1074) in
  let y := (inject_Z (rne (a * 2 ^ (- s))) * 2 ^ s)%Q in
  if Qle_bool (2 ^ 1024) y then None else Some (Qred y).

(** The float nearest to [x]; an overflow gives an infinity.  The two
    zeros of the format are not told apart: the sign of a zero shows in
    no operation the sources use. *)
Definition round64 (x : Q) : pynum :=
  match (x ?= 0)%Q with
  | Eq => Fin 0
  | Gt => match round_pos x with Some y => Fin y | None => PInf end
  | Lt => match round_pos (- x) with Some y => Fin (- y) | None => NInf end
  end.

(** [a + b], [a * b] and [a / b] on floats; [div] is used with a divisor
    that is not zero. *)
Definition add (a b : pynum) : pynum :=
  match a, b with
  | NaN, _ | _, NaN => NaN
  | Fin x, Fin y => round64 (x + y)
  | PInf, NInf | NInf, PInf => NaN
  | PInf, _ | _, PInf => PInf
  | NInf, _ | _, NInf => NInf
  end.

Definition mul (a b : pynum) : pynum :=
  match a, b with
  | Fin x, Fin y => round64 (x * y)
  | _, _ => pymul a b
  end.

Definition div (a b : pynum) : pynum :=
  match a, b with
  | NaN, _ | _, NaN => NaN
  | Fin x, Fin y => round64 (x / y)
  | Fin _, _ => Fin 0
  | PInf, Fin y => if Qltb 0 y then PInf else NInf
  | NInf, Fin y => if Qltb 0 y then NInf else PInf
  | _, _ => NaN
  end.

(** The float nearest to the square root of a positive [a]: with [s] as
    in [round_pos], the significand is the integer nearest to the root
    of [z = a / 4^s]. *)
Definition sqrt_pos (a : Q) : Q :=
  let s := (ilog2 a / 2 - 52)%Z in
  let z := (a * 2 ^ (- (2 * s)))%Q in
  let r := Z.sqrt (Qfloor z) in
  let half := (inject_Z (r * r + r) + (1 # 4))%Q in
  let m := match (z ?= half)%Q with
           | Lt => r
           | Gt => (r + 1)%Z
           | Eq => if Z.even r then r else (r + 1)%Z
           end in
  Qred (inject_Z m * 2 ^ s).

(** [math.sqrt] of a float that is not negative. *)
Definition sqrt (a : pynum) : pynum :=
  match a with
  | Fin x => match (x ?= 0)%Q with
             | Eq => Fin 0
             | Gt => Fin (sqrt_pos x)
             | Lt => NaN
             end
  | PInf => PInf
  | _ => NaN
  end.

(** [q] is a number of the format. *)
Definition representable (q : Q) : Prop :=
  ∃ y, round64 q = Fin y ∧ (y == q)%Q.
End Binary64.

(** A Python number: an [int] or a [float]. *)
Inductive pyval : Type :=
| PyInt (n : Z)
| PyFloat (x : pynum).

Module Py.
Definition value (v : pyval) : pynum :=
  match v with
  | PyInt n => Fin (inject_Z n)
  | PyFloat x => x
  end.

(** One way to read the numbers the world, the map and the taxis hand
    over: an integral value as the [int], any other value as the
    [float]. *)
Definition of_Q (q : Q) : pyval :=
  let r := Qred q in
  if (Zpos (Qden r) =? 1)%Z then PyInt (Qnum r) else PyFloat (Fin q).

(** [v] is the Python number of value [q]: the int [q], or the float
    [q], which the format then holds. *)
Definition is_number (v : pyval) (q : Q) : Prop :=
  match v with
  | PyInt n => (inject_Z n == q)%Q
  | PyFloat (Fin x) => (x == q)%Q ∧ Binary64.representable x
  | PyFloat _ => False
  end.

(** A float literal such as [0.4]. *)
Definition literal (q : Q) : pyval := PyFloat (Binary64.round64 q).

(** The conversion an [int] undergoes when it meets a [float]. *)
Definition to_float (v : pyval) : result pynum :=
  match v with
  | PyFloat x => Ok x
  | PyInt n =>
      match Binary64.round64 (inject_Z n) with
      | Fin y => Ok (Fin y)
      | _ => Raise OverflowError
      end
  end.

Definition add (a b : pyval) : result pyval :=
  match a, b with
  | PyInt n, PyInt m => Ok (PyInt (n + m))
  | _, _ => x ← to_float a; y ← to_float b; Ok (PyFloat (Binary64.add x y))
  end.

Definition mul (a b : pyval) : result pyval :=
  match a, b with
  | PyInt n, PyInt m => Ok (PyInt (n * m))
  | _, _ => x ← to_float a; y ← to_float b; Ok (PyFloat (Binary64.mul x y))
  end.

(** [a / b]: always a float; the quotient of two ints is rounded once. *)
Definition truediv (a b : pyval) : result pyval :=
  match a, b with
  | PyInt n, PyInt m =>
      if (m =? 0)%Z then Raise ZeroDivisionError
      else match Binary64.round64 (inject_Z n / inject_Z m) with
           | Fin y => Ok (PyFloat (Fin y))
           | _ => Raise OverflowError
           end
  | _, _ =>
      x ← to_float a; y ← to_float b;
      if pyeqb y (Fin 0) then Raise ZeroDivisionError
      else Ok (PyFloat (Binary64.div x y))
  end.

(** Comparisons are exact, also between an int and a float. *)
Definition lt (a b : pyval) : bool := pylt (value a) (value b).
Definition eqb (a b : pyval) : bool := pyeqb (value a) (value b).

(** [min(a, b)] keeps [a] unless [b < a]; [max(a, b)] keeps [a] unless
    [b > a]. *)
Definition min (a b : pyval) : pyval := if lt b a then b else a.
Definition max (a b : pyval) : pyval := if lt a b then b else a.

(** [math.sqrt(n)] of an int that is not negative. *)
Definition sqrt (n : Z) : result pynum :=
  x ← to_float (PyInt n); Ok (Binary64.sqrt x).
End Py.

(** ** dispatcher.py: pricing and allocation in Python's arithmetic

    The tick of the dispatcher once more, with the price and the
    priority score computed as the interpreter computes them.  The
    records, the board and the loops are those of [Dispatcher].  The
    world gives the value of a travel time and the taxi the value of its
    income; [as_py] tells which Python number carries a value, an [int]
    or a [float] ([Py.of_Q] is one such reading). *)
Module Dispatcher64.
Section Tick.
Variable W : World.t.
Variable as_py : Q → pyval.

Definition _computeSupplyRatio : result pyval :=
  let total_active_fares := World._fareQ W in
  let active_taxis :=
    length (filter (λ car, Taxi.onDuty (World.taxi W car) = true)
              (World._taxis W)) in
  if (active_taxis =? 0)%nat then Ok (PyFloat PInf)
  else
    supply_ratio ← Py.truediv (PyInt (Z.of_nat total_active_fares))
                      (PyInt (Z.of_nat active_taxis));
    Ok (Py.max (PyInt 1) supply_ratio).

Definition _costFare (ride_request : FareEntry.t) : result pyval :=
  let travel_time :=
    as_py (World.travelTime W (FareEntry.origin ride_request)
               (FareEntry.destination ride_request)) in
  let initial_fare := PyInt 25 in
  supply_ratio ← _computeSupplyRatio;
  base ← Py.add initial_fare travel_time;
  calculated_fare ← Py.mul base supply_ratio;
  fare_ceiling ← Py.mul (PyInt 10) travel_time;
  Ok (Py.min calculated_fare fare_ceiling).

(** [priority_score] of one roster taxi for a fare at [origin] with
    [nbidders] bidders. *)
Definition priority_score (taxi : Taxi.t) (origin : coord) (nbidders : nat)
    : result pynum :=
  let pickup_duration0 :=
    as_py (World.travelTime W (Taxi.currentLocation taxi) origin) in
  let pickup_duration :=
    if Py.eqb pickup_duration0 (PyInt 0) then Py.literal 0.1
    else pickup_duration0 in
  let idle_duration :=
    PyInt (World.simTime W - Taxi.lastFareCompletionTime taxi) in
  distance_factor ← Py.truediv (PyInt 1) pickup_duration;
  earnings ← Py.add (PyInt 1) (as_py (Taxi.income taxi));
  earning_factor ← Py.truediv (PyInt 1) earnings;
  competition_factor ←
    Py.truediv (PyInt 1) (PyInt (1 + Z.of_nat nbidders));
  inactivity_factor ← Py.truediv idle_duration (PyInt 1000);
  proximity ← Py.mul (Py.literal 0.4) distance_factor;
  earning ← Py.mul (Py.literal 0.3) earning_factor;
  inactivity ← Py.mul (Py.literal 0.2) inactivity_factor;
  competition ← Py.mul (Py.literal 0.1) competition_factor;
  sum1 ← Py.add proximity earning;
  sum2 ← Py.add sum1 inactivity;
  sum3 ← Py.add sum2 competition;
  Ok (Py.value sum3).

(** The body of [for taxi_number in ...bidders], on the pair
    [(selected_taxi, highest_priority)]. *)
Definition consider_bidder (self : Dispatcher.t) (origin : coord)
    (nbidders : nat) (best : option nat * pynum) (taxi_number : nat)
    : result (option nat * pynum) :=
  if (taxi_number <? length (Dispatcher._taxis self))%nat then
    match Dispatcher._taxis self !! taxi_number with
    | None => Raise IndexError
    | Some ref =>
        let taxi := World.taxi W ref in
        if Dispatcher.eligible taxi then
          priority_score ← priority_score taxi origin nbidders;
          if pylt best.2 priority_score
          then Ok (Some taxi_number, priority_score)
          else Ok best
        else Ok best
    end
  else Ok best.

Fixpoint consider_bidders (self : Dispatcher.t) (origin : coord)
    (nbidders : nat) (best : option nat * pynum) (numbers : list nat)
    : result (option nat * pynum) :=
  match numbers with
  | [] => Ok best
  | taxi_number :: rest =>
      best' ← consider_bidder self origin nbidders best taxi_number;
      consider_bidders self origin nbidders best' rest
  end.

Definition _allocateFare (self : Dispatcher.t) (origin : coord)
    (fare : FareEntry.t) : Run FareEntry.t :=
  match consider_bidders self origin (length (FareEntry.bidders fare))
          (None, NInf) (FareEntry.bidders fare) with
  | Raise e => mkRun fare [] (Some e)
  | Ok (None, _) => mkRun fare [] None
  | Ok (Some selected_taxi, _) =>
      let fare' := FareEntry.set_taxi (Z.of_nat selected_taxi) fare in
      match Dispatcher._taxis self !! selected_taxi with
      | None => mkRun fare' [] (Some IndexError)
      | Some ref => mkRun fare' [allocateFare origin ref] None
      end
  end.

(** The body of the innermost loop of [clockTick], on one fare. *)
Definition tick_fare (self : Dispatcher.t) (origin destination : coord)
    (fare : FareEntry.t) : Run FareEntry.t :=
  if pyeqb (FareEntry.price fare) (Fin 0) then
    match _costFare fare with
    | Raise e => mkRun fare [] (Some e)
    | Ok price =>
        let fare' := FareEntry.set_price (Py.value price) fare in
        mkRun fare' [broadcastFare origin destination (FareEntry.price fare')]
          None
    end
  else if ((FareEntry.taxi fare <? 0)%Z
           && (0 <? length (FareEntry.bidders fare))%nat)%bool
  then _allocateFare self origin fare
  else mkRun fare [] None.

(** [for time in sorted(list(...keys()))] *)
Fixpoint tick_times (self : Dispatcher.t) (origin destination : coord)
    (keys : list Z) (times : gmap Z FareEntry.t)
    : Run (gmap Z FareEntry.t) :=
  match keys with
  | [] => mkRun times [] None
  | time :: rest =>
      match times !! time with
      | None => mkRun times [] (Some KeyError)
      | Some fare =>
          let r := tick_fare self origin destination fare in
          let times' := <[time := final r]> times in
          match raised r with
          | Some e => mkRun times' (emitted r) (Some e)
          | None =>
              let r' := tick_times self origin destination rest times' in
              mkRun (final r') (emitted r ++ emitted r') (raised r')
          end
      end
  end.

(** [for destination in self._fareBoard[origin].keys()] *)
Fixpoint tick_dests (self : Dispatcher.t) (origin : coord)
    (dests : list (coord * gmap Z FareEntry.t))
    : Run (list (coord * gmap Z FareEntry.t)) :=
  match dests with
  | [] => mkRun [] [] None
  | (destination, times) :: rest =>
      let r :=
        tick_times self origin destination (Dispatcher.sorted_keys times)
          times in
      match raised r with
      | Some e => mkRun ((destination, final r) :: rest) (emitted r) (Some e)
      | None =>
          let r' := tick_dests self origin rest in
          mkRun ((destination, final r) :: final r')
            (emitted r ++ emitted r') (raised r')
      end
  end.

(** [for origin in self._fareBoard.keys()] *)
Fixpoint tick_origins (self : Dispatcher.t) (b : FareBoard) : Run FareBoard :=
  match b with
  | [] => mkRun [] [] None
  | (origin, dests) :: rest =>
      let r := tick_dests self origin dests in
      match raised r with
      | Some e => mkRun ((origin, final r) :: rest) (emitted r) (Some e)
      | None =>
          let r' := tick_origins self rest in
          mkRun ((origin, final r) :: final r')
            (emitted r ++ emitted r') (raised r')
      end
  end.

Definition clockTick (self : Dispatcher.t) (parent : WorldRef)
    : Run Dispatcher.t :=
  if decide (Dispatcher._parent self = parent) then
    let r := tick_origins self (Dispatcher._fareBoard self) in
    mkRun (Dispatcher.set_board (final r) self) (emitted r) (raised r)
  else mkRun self [] None.
End Tick.
End Dispatcher64.

(** ** The floats of the hardware

    Rocq's primitive floats are the binary64 numbers of the processor.
    [value_of_float] reads one as its value, so that the operations of
    [Binary64] can be compared with the processor's. *)
Definition value_of_float (f : float) : pynum :=
  match Prim2SF f with
  | S754_zero _ => Fin 0
  | S754_infinity false => PInf
  | S754_infinity true => NInf
  | S754_nan => NaN
  | S754_finite s m e =>
      Fin (Qred ((if s then -1 else 1) * inject_Z (Zpos m) * 2 ^ e))
  end.

(** ** The pricing rule and the priority score as the specification
       words them, in Python's arithmetic *)
Module Spec64.
(** [max(1, outstanding / onDuty)] *)
Definition supplyRatio (outstanding onDuty : nat) : result pyval :=
  ratio ← Py.truediv (PyInt (Z.of_nat outstanding)) (PyInt (Z.of_nat onDuty));
  Ok (Py.max (PyInt 1) ratio).

(** [min((25 + travelTime) × supplyRatio, 10 × travelTime)], the ceiling
    alone when no taxi is on duty. *)
Definition price (travelTime : pyval) (outstanding onDuty : nat)
    : result pyval :=
  ceiling ← Py.mul (PyInt 10) travelTime;
  if (onDuty =? 0)%nat then Ok ceiling
  else
    ratio ← supplyRatio outstanding onDuty;
    base ← Py.add (PyInt 25) travelTime;
    surged ← Py.mul base ratio;
    Ok (Py.min surged ceiling).

(** [0.4·(1/max(pickupTime, ε)) + 0.3·(1/(1+income)) + 0.2·(idleTime/1000)
     + 0.1·(1/(1+bidderCount))] *)
Definition score (pickupTime income : pyval) (idleTime : Z)
    (bidderCount : nat) (ε : pyval) : result pynum :=
  distance ← Py.truediv (PyInt 1) (Py.max pickupTime ε);
  earnings ← Py.add (PyInt 1) income;
  earning ← Py.truediv (PyInt 1) earnings;
  competition ← Py.truediv (PyInt 1) (PyInt (1 + Z.of_nat bidderCount));
  idleness ← Py.truediv (PyInt idleTime) (PyInt 1000);
  term1 ← Py.mul (Py.literal 0.4) distance;
  term2 ← Py.mul (Py.literal 0.3) earning;
  term3 ← Py.mul (Py.literal 0.2) idleness;
  term4 ← Py.mul (Py.literal 0.1) competition;
  sum1 ← Py.add term1 term2;
  sum2 ← Py.add sum1 term3;
  sum3 ← Py.add sum2 term4;
  Ok (Py.value sum3).
End Spec64.

(** ** Signs of floats *)

(** A float that is at least the least positive float, or [inf]. *)
Definition big (v : pynum) : Prop :=
  match v with
  | Fin y => (2 ^ (-1074) <= y)%Q
  | PInf => True
  | _ => False
  end.

(** A float that is at most 0, or [-inf]. *)
Definition nonpos (v : pynum) : Prop :=
  match v with
  | Fin y => (y <= 0)%Q
  | NInf => True
  | _ => False
  end.

(** A float from 1 upwards, or [inf]. *)
Definition ge1 (v : pynum) : Prop :=
  match v with
  | Fin y => (1 <= y)%Q
  | PInf => True
  | _ => False
  end.

(** A supply ratio: the int 1, or a float from 1 upwards. *)
Definition ratio_ge1 (ratio : pyval) : Prop :=
  ratio = PyInt 1 ∨ ∃ r, ratio = PyFloat r ∧ ge1 r.

(** ** Allocation in Python's arithmetic: the notions the statements use *)

(** [a <= b] on floats: false as soon as one of them is [nan]. *)
Definition pyle (a b : pynum) : bool :=
  match a, b with
  | NaN, _ | _, NaN => false
  | _, _ => negb (pylt b a)
  end.

(** [v] is [nan]. *)
Definition is_nan (v : pynum) : bool :=
  match v with NaN => true | _ => false end.

(** What the allocation loop computes for the bidder with roster index
    [taxi_number]: nothing when the index is outside the roster or the
    taxi fails the gate ([onDuty] and [_account > 0]), its priority score
    (or the exception the score raises) otherwise. *)
Definition candidate64 (W : World.t) (as_py : Q → pyval)
    (self : Dispatcher.t) (origin : coord) (nbidders : nat)
    (taxi_number : nat) : option (result pynum) :=
  match Dispatcher._taxis self !! taxi_number with
  | Some ref =>
      if Dispatcher.eligible (World.taxi W ref)
      then Some (Dispatcher64.priority_score W as_py (World.taxi W ref)
                   origin nbidders)
      else None
  | None => None
  end.

(** The state of the allocation loop after the bidders [seen]: no
    candidate with a score above [-inf] so far, or the first of the
    candidates with the highest score. *)
Definition first_best64 (cand : nat → option (result pynum))
    (seen : list nat) (best : option nat * pynum) : Prop :=
  match best with
  | (None, h) =>
      h = NInf
      ∧ ∀ j qj, j ∈ seen → cand j = Some (Ok qj) → pylt NInf qj = false
  | (Some k, h) =>
      ∃ l1 l2,
        seen = l1 ++ k :: l2 ∧ cand k = Some (Ok h) ∧ pylt NInf h = true
        ∧ (∀ j qj, j ∈ l1 → cand j = Some (Ok qj) → pyle h qj = false)
        ∧ (∀ j qj, j ∈ l2 → cand j = Some (Ok qj) → pylt h qj = false)
  end.

(** ** taxi.py: the planner in Python's arithmetic

    [_planPath] once more, with the costs, the estimates and the
    priorities of the open list computed as the interpreter computes
    them.  The map stores the value of a distance; [as_py] tells which
    Python number carries it.  Coordinates are ints. *)
Module Planner64.

(** *** The open list

    [heapq] keeps [(priority, node)] tuples; [heappop] removes a least
    tuple in Python's tuple order: the priorities decide unless they are
    equal, then the nodes do.  The order is total as long as no priority
    is [nan], which takes a cost of [-inf]; which of two equal tuples
    leaves first cannot be observed, so the list is kept as a bag. *)
Definition entry : Type := (pyval * coord)%type.

Definition entry_ltb (a b : entry) : bool :=
  if Py.eqb a.1 b.1 then TaxiAgent.coord_ltb a.2 b.2 else Py.lt a.1 b.1.

(** A least entry of [x :: l] and the others. *)
Fixpoint pop_min (x : entry) (l : list entry) : entry * list entry :=
  match l with
  | [] => (x, [])
  | y :: r =>
      let '(m, rest) := pop_min y r in
      if entry_ltb m x then (m, x :: rest) else (x, y :: r)
  end.

Definition heappop (h : list entry) : option (entry * list entry) :=
  match h with
  | [] => None
  | x :: r => Some (pop_min x r)
  end.

Definition heappush (h : list entry) (e : entry) : list entry := e :: h.

(** *** _planPath *)

Record Search : Type := mkSearch {
  to_explore : list entry;
  path_trace : gmap coord coord;
  cost_from_start : gmap coord pyval
}.

(** [math.sqrt((a[0] - b[0]) ** 2 + (a[1] - b[1]) ** 2)] *)
Definition calculate_heuristic (a b : coord) : result pynum :=
  Py.sqrt ((a.1 - b.1) ^ 2 + (a.2 - b.2) ^ 2).

Section Planner.
Variable as_py : Q → pyval.
Variable map : RoadMap.
Variable destination : coord.

(** The body of [for neighbor, details in self._map[current_node].items()].
    [estimated_total_cost] is only read back at the key just written,
    so the pushed priority is that value. *)
Definition relax (current_node : coord) (s : Search)
    (item : coord * (Z * Q)) : result Search :=
  let '(neighbor, details) := item in
  match cost_from_start s !! current_node with
  | None => Raise KeyError
  | Some gc =>
      new_cost ← Py.add gc (as_py details.2);
      match cost_from_start s !! neighbor with
      | None => Raise KeyError
      | Some gn =>
          if Py.lt new_cost gn then
            estimate ← calculate_heuristic neighbor destination;
            estimated_total_cost ← Py.add new_cost (PyFloat estimate);
            Ok {| to_explore :=
                    heappush (to_explore s) (estimated_total_cost, neighbor);
                  path_trace := <[neighbor := current_node]> (path_trace s);
                  cost_from_start :=
                    <[neighbor := new_cost]> (cost_from_start s) |}
          else Ok s
      end
  end.

Fixpoint relax_all (current_node : coord) (s : Search)
    (items : list (coord * (Z * Q))) : result Search :=
  match items with
  | [] => Ok s
  | item :: rest =>
      s' ← relax current_node s item; relax_all current_node s' rest
  end.

(** [while to_explore: ...] *)
Fixpoint search (fuel : nat) (s : Search) : PlanOutcome :=
  match fuel with
  | O => OutOfFuel
  | S k =>
      match heappop (to_explore s) with
      | None => Returned None
      | Some ((_, current_node), rest) =>
          if decide (current_node = destination) then
            TaxiAgent.trace_back k (path_trace s) current_node [current_node]
          else
            match map !! current_node with
            | None => Raised KeyError
            | Some items =>
                match relax_all current_node
                        (mkSearch rest (path_trace s) (cost_from_start s))
                        items with
                | Raise e => Raised e
                | Ok s' => search k s'
                end
            end
      end
  end.
End Planner.

Definition search_init (map : RoadMap) (origin : coord) : Search :=
  {| to_explore := heappush [] (PyInt 0, origin);
     path_trace := ∅;
     cost_from_start :=
       <[origin := PyInt 0]> ((λ _, PyFloat PInf) <$> map) |}.

(** The estimate of the origin is computed before the loop, for
    [estimated_total_cost[origin]]. *)
Definition _planPath (as_py : Q → pyval) (fuel : nat)
    (map : RoadMap) (origin destination : coord) : PlanOutcome :=
  match map !! origin, map !! destination with
  | Some _, Some _ =>
      if decide (origin = destination) then Returned (Some [origin])
      else
        match calculate_heuristic origin destination with
        | Raise e => Raised e
        | Ok _ => search as_py map destination fuel (search_init map origin)
        end
  | _, _ => Returned None
  end.
End Planner64.

(** *** Conditions on the map and on the estimate *)

(** [x] is a multiple of [2^-k]. *)
Definition on_grid (k : Z) (x : Q) : Prop :=
  ∃ n : Z, (x == inject_Z n * 2 ^ (- k))%Q.

(** Costs add up without rounding: every stored distance is a Python
    number and a multiple of [2^-k], none exceeds [M], and [M] times the
    number of nodes plus one stays below [2^(53-k)].  Distances that are
    integers (then [k = 0]) below [2^53] divided by the number of nodes
    plus one are such. *)
Definition exact_sums (as_py : Q → pyval) (m : RoadMap) (k : Z) (M : Q)
    : Prop :=
  (0 <= k <= 1074)%Z
  ∧ (∀ u v w, road m u v w →
       Py.is_number (as_py w) w ∧ on_grid k w ∧ (w <= M)%Q)
  ∧ (inject_Z (Z.of_nat (size m) + 1) * M < 2 ^ (53 - k))%Q.

(** The estimate towards [d] that the planner computes never exceeds the
    cost of a route to [d]. *)
Definition admissible64 (m : RoadMap) (d : coord) : Prop :=
  ∀ x, is_Some (m !! x) →
    ∃ hx, Planner64.calculate_heuristic x d = Ok (Fin hx)
          ∧ ∀ l c, Walk m l c → head l = Some x → last l = Some d →
                   (hx <= c)%Q.

(** The computed estimate, where it is a finite float. *)
Definition estimate64 (d x : coord) : Q :=
  match Planner64.calculate_heuristic x d with
  | Ok (Fin hx) => hx
  | _ => 0
  end.

(** *** What the planner maintains *)

(** The recorded costs by their values. *)
Definition cost_of (v : pyval) : cost :=
  match Py.value v with
  | Fin c => Finite c
  | _ => Infinity
  end.

Definition costs (s : Planner64.Search) : gmap coord cost :=
  cost_of <$> Planner64.cost_from_start s.

(** The float [v] does not exceed any multiple of [2^-k] from [t] upwards
    that the format holds exactly. *)
Definition below (k : Z) (v : pynum) (t : Q) : Prop :=
  ∀ T, (t <= T)%Q → (0 <= T)%Q → on_grid k T → (T < 2 ^ (53 - k))%Q →
       pyle v (Fin T) = true.

Section PlannerInvariant64.
Variable k : Z.
Variable m : RoadMap.
Variable o d : coord.

Definition variant64 (s : Planner64.Search) : nat :=
  length (Planner64.to_explore s) + slack m o (costs s).

(** The entry of a node with recorded cost [c] still waits in the open
    list with a priority that does not overrate it ... *)
Definition open_ok64 (s : Planner64.Search) (x : coord) (c : Q) : Prop :=
  ∃ f, (f, x) ∈ Planner64.to_explore s
       ∧ below k (Py.value f) (c + estimate64 d x).

(** ... or the roads [items] out of it have been relaxed. *)
Definition closed_ok64 (s : Planner64.Search) (c : Q)
    (items : list (coord * (Z * Q))) : Prop :=
  ∀ y dir w, (y, (dir, w)) ∈ items → at_most (costs s) y (c + w).

(** The invariant of the search; while the node [cur] is being expanded,
    [processed] are its roads already relaxed. *)
Record Inv64 (cur : option coord) (processed : list (coord * (Z * Q)))
    (s : Planner64.Search) : Prop := mkInv64 {
  inv64_dom : ∀ x,
      is_Some (Planner64.cost_from_start s !! x) ↔ is_Some (m !! x);
  inv64_num : ∀ x v, Planner64.cost_from_start s !! x = Some v →
      v = PyFloat PInf ∨ ∃ c, Py.value v = Fin c ∧ on_grid k c;
  inv64_origin : costs s !! o = Some (Finite 0);
  inv64_heap : ∀ f x, (f, x) ∈ Planner64.to_explore s →
      ∃ c, costs s !! x = Some (Finite c)
           ∧ pyle (Fin c) (Py.value f) = true;
  inv64_dest : ∀ c, costs s !! d = Some (Finite c) →
      ∃ f, (f, d) ∈ Planner64.to_explore s;
  inv64_relaxed : ∀ x c items,
      costs s !! x = Some (Finite c) →
      m !! x = Some items →
      open_ok64 s x c
      ∨ closed_ok64 s c (if decide (Some x = cur) then processed else items);
  inv64_traced : ∀ x c, costs s !! x = Some (Finite c) →
      ∃ P, traced m o (costs s) (Planner64.path_trace s) P ∧ rend o P = x;
  inv64_witness : ∀ x c, costs s !! x = Some (Finite c) →
      ∃ P, witness m o (costs s) P ∧ rend o P = x
           ∧ (rcost P == c)%Q ∧ NoDup (entered P)
}.
End PlannerInvariant64.

(** No road is shorter than the gain in computed estimate it brings,
    and the estimate is computed for every node and is 0 at [d]: a
    condition that can be checked road by road and that makes the
    estimate admissible. *)
Definition consistent64 (m : RoadMap) (d : coord) : Prop :=
  (∀ x, is_Some (m !! x) →
     ∃ hx, Planner64.calculate_heuristic x d = Ok (Fin hx))
  ∧ (∀ u v w, road m u v w → (estimate64 d u <= w + estimate64 d v)%Q)
  ∧ (estimate64 d d <= 0)%Q.

(** ** Examples for the interpreter's arithmetic *)
Module Examples64.
(** A world with four outstanding fares and three taxis on duty, where
    the travel time between two nodes is their rectilinear distance. *)
Definition busy_town : World.t :=
  World.mk 0 4 [7%nat; 8%nat; 9%nat] (λ _, Examples.cab)
    (λ a b, inject_Z (Z.abs (a.1 - b.1) + Z.abs (a.2 - b.2)))
    (λ _, 0%Q) (λ _ _ _, false) (λ _ _, None).

(** A dispatcher with those three taxis as its roster ... *)
Definition busy_office : Dispatcher.t :=
  Dispatcher.mk 0 0 [7%nat; 8%nat; 9%nat] [] None 0 0 0.

(** ... after a fare from (0,0) to (1,3) called at time 0. *)
Definition busy_office_one_fare : Dispatcher.t :=
  final (Dispatcher.newFare busy_office 0 (0, 0)%Z (1, 3)%Z 0).

(** A taxi like [Examples.cab], standing at (5,5). *)
Definition cab_far : Taxi.t :=
  Taxi.mk 0 1 true 0 0 None 256 50 10 (Some (5, 5)%Z) 0 None (-1) 0 0 None
          ∅ (Some []) [].

(** A world with taxi 7 at (0,0) and taxi 8 at (5,5). *)
Definition spread_fleet : World.t :=
  World.mk 0 1 [7%nat; 8%nat]
    (λ ref, if (ref =? 7)%nat then Examples.cab else cab_far)
    (λ a b, inject_Z (Z.abs (a.1 - b.1) + Z.abs (a.2 - b.2)))
    (λ _, 0%Q) (λ _ _ _, false) (λ _ _, None).

(** Three nodes on one line whose stored distances are the floats
    [1.3] (from (0,0) to (0,1)), [2.4] (from (0,1) to (0,2)) and [3.7]
    (from (0,0) to (0,2)).  The sum of the first two is below the third,
    and rounds to it. *)
Definition float_1_3 : Q := 5854679515581645 # 4503599627370496.
Definition float_2_4 : Q := 5404319552844595 # 2251799813685248.
Definition float_3_7 : Q := 4165829655317709 # 1125899906842624.

Definition rounding_map : RoadMap :=
  <[(0, 0)%Z := [((0, 2)%Z, (0%Z, float_3_7)); ((0, 1)%Z, (0%Z, float_1_3))]]>
    (<[(0, 1)%Z := [((0, 2)%Z, (0%Z, float_2_4))]]>
       (<[(0, 2)%Z := []]> ∅)).
End Examples64.

(** * Properties *)

(** ** Insertion-ordered dictionaries *)

Section ODictFacts.
Context {K V : Type} `{EqDecision K}.
Implicit Types (k : K) (v : V) (d : list (K * V)).

Lemma odict_get_set_eq k v d : ODict.get k (ODict.set k v d) = Some v.
Proof.
  induction d as [|[k' v'] r IH]; simpl.
  - by rewrite decide_True.
  - destruct (decide (k = k')); simpl.
    + by rewrite decide_True.
    + by rewrite decide_False.
Qed.

Lemma odict_get_set_ne k k' v d :
  k ≠ k' → ODict.get k' (ODict.set k v d) = ODict.get k' d.
Proof.
  intros Hne. induction d as [|[k0 v0] r IH]; simpl.
  - by rewrite decide_False.
  - destruct (decide (k = k0)) as [->|]; simpl.
    + by rewrite !decide_False.
    + destruct (decide (k' = k0)); done.
Qed.

Lemma odict_set_same k v d : ODict.get k d = Some v → ODict.set k v d = d.
Proof.
  induction d as [|[k0 v0] r IH]; simpl; [done|].
  destruct (decide (k = k0)) as [->|]; [congruence|].
  intros Hr. by rewrite IH.
Qed.

Lemma odict_get_del_eq k d : ODict.get k (ODict.del k d) = None.
Proof.
  induction d as [|[k' v'] r IH]; simpl; [done|].
  destruct (decide (k = k')); simpl; [done|].
  by rewrite decide_False.
Qed.

Lemma odict_get_del_ne k k' d :
  k ≠ k' → ODict.get k' (ODict.del k d) = ODict.get k' d.
Proof.
  intros Hne. induction d as [|[k0 v0] r IH]; simpl; [done|].
  destruct (decide (k = k0)) as [->|]; simpl.
  - by rewrite decide_False.
  - destruct (decide (k' = k0)); done.
Qed.

Lemma odict_del_absent k d : ODict.get k d = None → ODict.del k d = d.
Proof.
  induction d as [|[k' v'] r IH]; simpl; [done|].
  destruct (decide (k = k')); [done|].
  intros Hr. by rewrite IH.
Qed.
End ODictFacts.

(** ** The dispatcher's tick, fare by fare *)

Section TickFacts.
Variable W : World.t.
Variable self : Dispatcher.t.

(** [tick_times] touches only the keys it is given, and each at most by
    one run of the loop body. *)
Lemma tick_times_other origin destination keys :
  ∀ (times : gmap Z FareEntry.t) t,
    t ∉ keys →
    final (Dispatcher.tick_times W self origin destination keys times) !! t
    = times !! t.
Proof.
  induction keys as [|time rest IH]; intros times t Hnotin; simpl; [done|].
  apply not_elem_of_cons in Hnotin as [Hne Hrest].
  destruct (times !! time) as [fare|] eqn:Hfare; simpl; [|done].
  destruct (raised _) eqn:Hr; simpl.
  - by rewrite lookup_insert_ne.
  - rewrite IH by done. by rewrite lookup_insert_ne.
Qed.

Lemma tick_times_absent origin destination keys :
  ∀ (times : gmap Z FareEntry.t) t,
    times !! t = None →
    final (Dispatcher.tick_times W self origin destination keys times) !! t
    = None.
Proof.
  induction keys as [|time rest IH]; intros times t Hnone; simpl; [done|].
  destruct (times !! time) as [fare|] eqn:Hfare; simpl; [|done].
  assert (time ≠ t) by congruence.
  destruct (raised _) eqn:Hr; simpl.
  - by rewrite lookup_insert_ne.
  - apply IH. by rewrite lookup_insert_ne.
Qed.

Lemma tick_times_step origin destination keys :
  NoDup keys →
  ∀ (times : gmap Z FareEntry.t) t fare,
    times !! t = Some fare →
    let r := Dispatcher.tick_times W self origin destination keys times in
    let rf := Dispatcher.tick_fare W self origin destination fare in
    (final r !! t = Some fare ∨ final r !! t = Some (final rf))
    ∧ (t ∈ keys → raised r = None →
       final r !! t = Some (final rf) ∧ raised rf = None).
Proof.
  induction 1 as [|time rest Hnotin Hnodup IH]; intros times t fare Hfare; simpl.
  { split; [by left|]. intros Hin. by apply elem_of_nil in Hin. }
  destruct (times !! time) as [fare0|] eqn:Hfare0; simpl.
  2:{ split; [by left|]. done. }
  destruct (decide (t = time)) as [->|Hne].
  - assert (fare0 = fare) as -> by congruence.
    destruct (raised (Dispatcher.tick_fare W self origin destination fare))
      eqn:Hr; simpl.
    + rewrite lookup_insert_eq. split; [by right|]. done.
    + rewrite tick_times_other by done. rewrite lookup_insert_eq.
      split; [by right|]. done.
  - destruct (raised (Dispatcher.tick_fare W self origin destination fare0))
      eqn:Hr; simpl.
    + rewrite lookup_insert_ne by done. split; [by left|]. done.
    + destruct (IH (<[time:=final (Dispatcher.tick_fare W self origin
                                      destination fare0)]> times) t fare)
        as [Hcases Hall].
      { by rewrite lookup_insert_ne. }
      split; [exact Hcases|].
      intros Hin Hnone. apply Hall; [|done].
      apply elem_of_cons in Hin as [?|?]; done.
Qed.

Lemma sorted_keys_spec (times : gmap Z FareEntry.t) :
  NoDup (Dispatcher.sorted_keys times)
  ∧ ∀ t, t ∈ Dispatcher.sorted_keys times ↔ is_Some (times !! t).
Proof.
  unfold Dispatcher.sorted_keys. split.
  - rewrite merge_sort_Permutation. apply NoDup_fst_map_to_list.
  - intros t. rewrite merge_sort_Permutation.
    rewrite list_elem_of_fmap. split.
    + intros [[t' f] [-> Hin]]. apply elem_of_map_to_list in Hin. eauto.
    + intros [f Hf]. exists (t, f). split; [done|].
      by apply elem_of_map_to_list.
Qed.
Lemma tick_dests_get origin dests :
  ∀ d (times : gmap Z FareEntry.t),
    ODict.get d dests = Some times →
    let r := Dispatcher.tick_dests W self origin dests in
    let rt := Dispatcher.tick_times W self origin d
                (Dispatcher.sorted_keys times) times in
    (ODict.get d (final r) = Some times
     ∨ ODict.get d (final r) = Some (final rt))
    ∧ (raised r = None →
       ODict.get d (final r) = Some (final rt) ∧ raised rt = None).
Proof.
  induction dests as [|[d0 times0] rest IH]; intros d times Hget; simpl in *.
  { done. }
  destruct (decide (d = d0)) as [->|Hne].
  - injection Hget as ->.
    destruct (raised (Dispatcher.tick_times W self origin d0 _ times))
      eqn:Hr; simpl; rewrite decide_True by done.
    + split; [by right|done].
    + split; [by right|done].
  - destruct (raised (Dispatcher.tick_times W self origin d0 _ times0))
      eqn:Hr; simpl; rewrite decide_False by done.
    + split; [by left|done].
    + apply IH. exact Hget.
Qed.

Lemma tick_origins_get (b : FareBoard) :
  ∀ o dests,
    ODict.get o b = Some dests →
    let r := Dispatcher.tick_origins W self b in
    let rd := Dispatcher.tick_dests W self o dests in
    (ODict.get o (final r) = Some dests
     ∨ ODict.get o (final r) = Some (final rd))
    ∧ (raised r = None →
       ODict.get o (final r) = Some (final rd) ∧ raised rd = None).
Proof.
  induction b as [|[o0 dests0] rest IH]; intros o dests Hget; simpl in *.
  { done. }
  destruct (decide (o = o0)) as [->|Hne].
  - injection Hget as ->.
    destruct (raised (Dispatcher.tick_dests W self o0 dests))
      eqn:Hr; simpl; rewrite decide_True by done.
    + split; [by right|done].
    + split; [by right|done].
  - destruct (raised (Dispatcher.tick_dests W self o0 dests0))
      eqn:Hr; simpl; rewrite decide_False by done.
    + split; [by left|done].
    + apply IH. exact Hget.
Qed.

(** What a sweep of the board does to the fare under one key: nothing, or
    one run of the loop body; and one run exactly when the sweep ends
    without an exception. *)
Lemma tick_origins_fare (b : FareBoard) o d t fare :
  Dispatcher.board_get b o d t = Some fare →
  let r := Dispatcher.tick_origins W self b in
  let rf := Dispatcher.tick_fare W self o d fare in
  (Dispatcher.board_get (final r) o d t = Some fare
   ∨ Dispatcher.board_get (final r) o d t = Some (final rf))
  ∧ (raised r = None →
     Dispatcher.board_get (final r) o d t = Some (final rf)
     ∧ raised rf = None).
Proof.
  unfold Dispatcher.board_get. intros Hget.
  destruct (ODict.get o b) as [dests|] eqn:Ho; simpl in Hget; [|done].
  destruct (ODict.get d dests) as [times|] eqn:Hd; simpl in Hget; [|done].
  destruct (tick_origins_get b o dests Ho) as [Ho1 Ho2].
  destruct (tick_dests_get o dests d times Hd) as [Hd1 Hd2].
  destruct (sorted_keys_spec times) as [Hnodup Hkeys].
  destruct (tick_times_step o d _ Hnodup times t fare Hget) as [Ht1 Ht2].
  assert (Hin : t ∈ Dispatcher.sorted_keys times) by (apply Hkeys; eauto).
  simpl in *. split.
  - destruct Ho1 as [-> | ->]; simpl; [rewrite Hd; simpl; by left|].
    destruct Hd1 as [-> | ->]; simpl; [by left|]. exact Ht1.
  - intros Hnone.
    destruct (Ho2 Hnone) as [-> Hnone1]. simpl.
    destruct (Hd2 Hnone1) as [-> Hnone2]. simpl.
    by apply Ht2.
Qed.
End TickFacts.

(** ** Requests from a foreign world *)

(** C10.  A call of [newFare], [cancelFare], [recvPayment] or [clockTick]
    whose parent is not the dispatcher's own world leaves the dispatcher
    as it was, makes no call on the world and raises nothing. *)
Theorem foreign_world_ignored (W : World.t) (self : Dispatcher.t)
    (parent : WorldRef) (origin destination : coord) (time : Z) (amount : Q) :
  parent ≠ Dispatcher._parent self →
  Dispatcher.newFare self parent origin destination time = mkRun self [] None
  ∧ Dispatcher.cancelFare self parent origin destination time
    = mkRun self [] None
  ∧ Dispatcher.recvPayment self parent amount = mkRun self [] None
  ∧ Dispatcher.clockTick W self parent = mkRun self [] None.
Proof.
  intros Hforeign.
  unfold Dispatcher.newFare, Dispatcher.cancelFare, Dispatcher.recvPayment,
    Dispatcher.clockTick.
  repeat split; case_decide; congruence.
Qed.

Lemma foreign_world_ignored_witness :
  1%nat ≠ Dispatcher._parent Examples.office_one_fare
  ∧ Dispatcher.newFare Examples.office_one_fare 1 (0, 0)%Z (3, 4)%Z 0
    = mkRun Examples.office_one_fare [] None
  ∧ Dispatcher.cancelFare Examples.office_one_fare 1 (0, 0)%Z (3, 4)%Z 0
    = mkRun Examples.office_one_fare [] None
  ∧ Dispatcher.recvPayment Examples.office_one_fare 1 5
    = mkRun Examples.office_one_fare [] None
  ∧ Dispatcher.clockTick Examples.town Examples.office_one_fare 1
    = mkRun Examples.office_one_fare [] None.
Proof.
  split; [vm_compute; lia|].
  apply (foreign_world_ignored Examples.town Examples.office_one_fare 1
           (0, 0)%Z (3, 4)%Z 0 5).
  vm_compute; lia.
Defined.

(** ** Pricing *)

Lemma Qltb_true a b : Qltb a b = true ↔ (a < b)%Q.
Proof. unfold Qltb. destruct (Qlt_le_dec a b); split; try done; lra. Qed.

Lemma Qltb_false a b : Qltb a b = false ↔ (b <= a)%Q.
Proof. unfold Qltb. destruct (Qlt_le_dec a b); split; try done; lra. Qed.

Lemma pymin_fin a b : ∃ p, pymin (Fin a) (Fin b) = Fin p ∧ (p == Qmin a b)%Q.
Proof.
  unfold pymin; simpl. destruct (Qltb b a) eqn:Hlt.
  - apply Qltb_true in Hlt. exists b. split; [done|].
    symmetry. apply Q.min_r. lra.
  - apply Qltb_false in Hlt. exists a. split; [done|].
    symmetry. by apply Q.min_l.
Qed.

Lemma pymax_fin a b : ∃ p, pymax (Fin a) (Fin b) = Fin p ∧ (p == Qmax a b)%Q.
Proof.
  unfold pymax; simpl. destruct (Qltb a b) eqn:Hlt.
  - apply Qltb_true in Hlt. exists b. split; [done|].
    symmetry. apply Q.max_r. lra.
  - apply Qltb_false in Hlt. exists a. split; [done|].
    symmetry. by apply Q.max_l.
Qed.

(** [_computeSupplyRatio] is the specification's ratio when a taxi is on
    duty, and infinite otherwise. *)
Lemma computeSupplyRatio_spec (W : World.t) :
  if (onDutyCount W =? 0)%nat then Dispatcher._computeSupplyRatio W = PInf
  else ∃ r, Dispatcher._computeSupplyRatio W = Fin r
            ∧ (r == spec_supplyRatio (World._fareQ W) (onDutyCount W))%Q.
Proof.
  unfold Dispatcher._computeSupplyRatio, spec_supplyRatio.
  fold (onDutyCount W). destruct (onDutyCount W =? 0)%nat; [done|].
  apply pymax_fin.
Qed.

(** [_costFare] computes the specified price whenever the travel time is
    above -25 (below that, an infinite ratio no longer selects the
    ceiling). *)
Lemma costFare_spec (W : World.t) (fare : FareEntry.t) :
  let travelTime :=
    World.travelTime W (FareEntry.origin fare) (FareEntry.destination fare) in
  (-25 < travelTime)%Q →
  ∃ p, Dispatcher._costFare W fare = Fin p
       ∧ (p == spec_price travelTime (World._fareQ W) (onDutyCount W))%Q.
Proof.
  intros tt Htt. unfold Dispatcher._costFare, spec_price. fold tt.
  pose proof (computeSupplyRatio_spec W) as Hratio.
  destruct (onDutyCount W =? 0)%nat.
  - rewrite Hratio. simpl. unfold inf_times.
    assert (Qltb 0 (25 + tt) = true) as -> by (apply Qltb_true; lra).
    unfold pymin. simpl. eauto with qarith.
  - destruct Hratio as (r & -> & Hr). simpl.
    destruct (pymin_fin ((25 + tt) * r) (10 * tt)) as (p & -> & Hp).
    exists p. split; [done|]. by rewrite Hp, Hr.
Qed.

Lemma spec_supplyRatio_ge_1 outstanding onDuty :
  (1 <= spec_supplyRatio outstanding onDuty)%Q.
Proof. unfold spec_supplyRatio. apply Q.le_max_l. Qed.

Lemma allocateFare_touches_taxi_only W self origin fare :
  let r := Dispatcher._allocateFare W self origin fare in
  final r = fare ∨ ∃ k, final r = FareEntry.set_taxi (Z.of_nat k) fare.
Proof.
  unfold Dispatcher._allocateFare.
  destruct (Dispatcher.consider_bidders _ _ _ _ _ _) as [[[k|] h]|e]; simpl;
    [|by left..].
  destruct (Dispatcher._taxis self !! k); simpl; eauto.
Qed.

Lemma tick_fare_unpriced W self origin destination fare :
  pyeqb (FareEntry.price fare) (Fin 0) = true →
  Dispatcher.tick_fare W self origin destination fare
  = mkRun (FareEntry.set_price (Dispatcher._costFare W fare) fare)
      [broadcastFare origin destination (Dispatcher._costFare W fare)] None.
Proof. intros Hzero. unfold Dispatcher.tick_fare. by rewrite Hzero. Qed.

Lemma tick_fare_priced W self origin destination fare :
  pyeqb (FareEntry.price fare) (Fin 0) = false →
  FareEntry.price (final (Dispatcher.tick_fare W self origin destination fare))
  = FareEntry.price fare.
Proof.
  intros Hpriced. unfold Dispatcher.tick_fare. rewrite Hpriced.
  destruct (_ && _)%bool; [|done].
  destruct (allocateFare_touches_taxi_only W self origin fare)
    as [-> | [k ->]]; done.
Qed.

Lemma clockTick_parent W self parent :
  Dispatcher._parent (final (Dispatcher.clockTick W self parent))
  = Dispatcher._parent self.
Proof. unfold Dispatcher.clockTick. by case_decide. Qed.

(** What one tick does to the fare under a key. *)
Lemma clockTick_fare W self parent o d t fare :
  Dispatcher.board_get (Dispatcher._fareBoard self) o d t = Some fare →
  let r := Dispatcher.clockTick W self parent in
  let rf := Dispatcher.tick_fare W self o d fare in
  (Dispatcher.board_get (Dispatcher._fareBoard (final r)) o d t = Some fare
   ∨ Dispatcher.board_get (Dispatcher._fareBoard (final r)) o d t
     = Some (final rf))
  ∧ (parent = Dispatcher._parent self → raised r = None →
     Dispatcher.board_get (Dispatcher._fareBoard (final r)) o d t
     = Some (final rf) ∧ raised rf = None).
Proof.
  intros Hget. unfold Dispatcher.clockTick.
  case_decide as Hown; simpl.
  - destruct (tick_origins_fare W self _ o d t fare Hget) as [H1 H2].
    split; [exact H1|]. intros _. exact H2.
  - split; [by left|]. congruence.
Qed.

(** A fare with a non-zero price keeps it through any number of ticks,
    whatever the worlds and whether or not a tick is cut short by an
    exception. *)
Lemma priced_fare_keeps_price (worlds : list World.t) :
  ∀ self o d t fare,
    Dispatcher.board_get (Dispatcher._fareBoard self) o d t = Some fare →
    pyeqb (FareEntry.price fare) (Fin 0) = false →
    ∃ fare',
      Dispatcher.board_get (Dispatcher._fareBoard (clockTicks worlds self))
        o d t = Some fare'
      ∧ FareEntry.price fare' = FareEntry.price fare.
Proof.
  induction worlds as [|W rest IH]; intros self o d t fare Hget Hpriced; simpl.
  { eauto. }
  destruct (clockTick_fare W self (Dispatcher._parent self) o d t fare Hget)
    as [[Hsame | Hstep] _].
  - by apply IH.
  - pose proof (tick_fare_priced W self o d fare Hpriced) as Hprice.
    destruct (IH _ o d t _ Hstep) as (fare' & Hget' & Hprice').
    { by rewrite Hprice. }
    exists fare'. split; [done|]. congruence.
Qed.

(** C4, amended.  The first tick after a fare's creation assigns its
    price; when that price is not 0, no later tick modifies it, whatever
    the worlds of the later ticks. *)
Theorem price_fixed_once_nonzero (W : World.t) (later : list World.t)
    (self : Dispatcher.t) (o d : coord) (t : Z) (fare : FareEntry.t) :
  Dispatcher.board_get (Dispatcher._fareBoard self) o d t = Some fare →
  pyeqb (FareEntry.price fare) (Fin 0) = true →
  raised (Dispatcher.clockTick W self (Dispatcher._parent self)) = None →
  pyeqb (Dispatcher._costFare W fare) (Fin 0) = false →
  ∃ fare',
    Dispatcher.board_get
      (Dispatcher._fareBoard (clockTicks (W :: later) self)) o d t
    = Some fare'
    ∧ FareEntry.price fare' = Dispatcher._costFare W fare.
Proof.
  intros Hget Hzero Hnormal Hnonzero. simpl.
  destruct (clockTick_fare W self (Dispatcher._parent self) o d t fare Hget)
    as [_ Hstep].
  destruct (Hstep eq_refl Hnormal) as [Hget' _].
  rewrite tick_fare_unpriced in Hget' by done. simpl in Hget'.
  destruct (priced_fare_keeps_price later _ o d t _ Hget')
    as (fare' & Hlater & Hprice); [done|].
  exists fare'. split; [exact Hlater|]. by rewrite Hprice.
Qed.

Lemma price_fixed_once_nonzero_witness :
  Dispatcher.board_get (Dispatcher._fareBoard Examples.office_one_fare)
    (0, 0)%Z (3, 4)%Z 0
  = Some (FareEntry.new (0, 0)%Z (3, 4)%Z 0)
  ∧ ∃ fare',
      Dispatcher.board_get
        (Dispatcher._fareBoard
           (clockTicks [Examples.town; Examples.town_free; Examples.town]
              Examples.office_one_fare))
        (0, 0)%Z (3, 4)%Z 0 = Some fare'
      ∧ FareEntry.price fare'
        = Dispatcher._costFare Examples.town
            (FareEntry.new (0, 0)%Z (3, 4)%Z 0).
Proof.
  split; [reflexivity|].
  apply (price_fixed_once_nonzero Examples.town
           [Examples.town_free; Examples.town] Examples.office_one_fare
           (0, 0)%Z (3, 4)%Z 0 (FareEntry.new (0, 0)%Z (3, 4)%Z 0)).
  - reflexivity.
  - reflexivity.
  - reflexivity.
  - reflexivity.
Defined.

(** C4, as stated, fails.  A fare whose first price is 0 is priced and
    broadcast again by the next tick; and when the travel-time estimate
    has changed in between, the second tick replaces the price the first
    one had assigned (here 0, then 32). *)
Lemma price_assigned_again :
  (* first tick *)
  emitted (Dispatcher.clockTick Examples.town_free Examples.office_one_fare 0)
  = [broadcastFare (0, 0)%Z (3, 4)%Z (Fin 0)]
  ∧ FareEntry.price <$>
      Dispatcher.board_get
        (Dispatcher._fareBoard
           (clockTicks [Examples.town_free] Examples.office_one_fare))
        (0, 0)%Z (3, 4)%Z 0
    = Some (Fin 0)
  (* second tick, same world: priced and broadcast again *)
  ∧ emitted (Dispatcher.clockTick Examples.town_free
               (clockTicks [Examples.town_free] Examples.office_one_fare) 0)
    = [broadcastFare (0, 0)%Z (3, 4)%Z (Fin 0)]
  (* second tick, changed estimate: the price is replaced *)
  ∧ FareEntry.price <$>
      Dispatcher.board_get
        (Dispatcher._fareBoard
           (clockTicks [Examples.town_free; Examples.town]
              Examples.office_one_fare))
        (0, 0)%Z (3, 4)%Z 0
    = Some (Fin 32).
Proof. repeat split; vm_compute; reflexivity. Qed.

(** ** Allocation *)

Section AllocationFacts.
Variable W : World.t.
Variable self : Dispatcher.t.
Variable origin : coord.
Variable nbidders : nat.

Local Abbreviation cand := (candidate W self origin nbidders).

Lemma consider_bidder_candidate best taxi_number :
  Dispatcher.consider_bidder W self origin nbidders best taxi_number
  = match cand taxi_number with
    | None => Ok best
    | Some (Raise e) => Raise e
    | Some (Ok score) =>
        if pylt best.2 (Fin score) then Ok (Some taxi_number, Fin score)
        else Ok best
    end.
Proof.
  unfold Dispatcher.consider_bidder, cand, candidate.
  destruct (taxi_number <? length (Dispatcher._taxis self))%nat eqn:Hlt.
  - destruct (Dispatcher._taxis self !! taxi_number) as [ref|] eqn:Href.
    + destruct (Dispatcher.eligible _); [|done].
      by destruct (Dispatcher.priority_score _ _ _ _).
    + apply Nat.ltb_lt in Hlt. apply lookup_ge_None in Href. lia.
  - apply Nat.ltb_ge in Hlt. by rewrite (lookup_ge_None_2 _ _ Hlt).
Qed.

Lemma consider_bidder_first_best seen best j best' :
  first_best cand seen best →
  Dispatcher.consider_bidder W self origin nbidders best j = Ok best' →
  first_best cand (seen ++ [j]) best'.
Proof.
  rewrite consider_bidder_candidate.
  intros Hinv Hstep.
  destruct (cand j) as [[score|e]|] eqn:Hj; [|done|].
  - destruct (pylt best.2 (Fin score)) eqn:Hlt; injection Hstep as <-.
    + (* j takes the lead *)
      exists seen, [], score. repeat split; [done| |].
      * intros j' qj Hin Hj'.
        destruct best as [[k|] h]; simpl in *.
        -- destruct Hinv as (l1 & l2 & q & -> & Hk & -> & Hl1 & Hl2).
           simpl in Hlt. apply Qltb_true in Hlt.
           apply elem_of_app in Hin as [Hin|Hin].
           { specialize (Hl1 _ _ Hin Hj'). lra. }
           apply elem_of_cons in Hin as [->|Hin].
           { assert (qj = q) as -> by congruence. done. }
           specialize (Hl2 _ _ Hin Hj'). lra.
        -- destruct Hinv as [_ Hnone]. rewrite (Hnone _ Hin) in Hj'. done.
      * intros j' qj Hin. by apply elem_of_nil in Hin.
    + (* the lead is kept *)
      destruct best as [[k|] h]; simpl in *.
      * destruct Hinv as (l1 & l2 & q & -> & Hk & -> & Hl1 & Hl2).
        simpl in Hlt. apply Qltb_false in Hlt.
        exists l1, (l2 ++ [j]), q. rewrite <- app_assoc. simpl.
        repeat split; [done|done|].
        intros j' qj Hin Hj'.
        apply elem_of_app in Hin as [Hin|Hin]; [by eapply Hl2|].
        apply list_elem_of_singleton in Hin as ->.
        assert (qj = score) as -> by congruence. done.
      * destruct Hinv as [-> _]. done.
  - injection Hstep as <-.
    destruct best as [[k|] h]; simpl in *.
    + destruct Hinv as (l1 & l2 & q & -> & Hk & -> & Hl1 & Hl2).
      exists l1, (l2 ++ [j]), q. rewrite <- app_assoc. simpl.
      repeat split; [done|done|].
      intros j' qj Hin Hj'.
      apply elem_of_app in Hin as [Hin|Hin]; [by eapply Hl2|].
      apply list_elem_of_singleton in Hin as ->. congruence.
    + destruct Hinv as [-> Hnone]. split; [done|].
      intros j' Hin. apply elem_of_app in Hin as [Hin|Hin]; [by apply Hnone|].
      by apply list_elem_of_singleton in Hin as ->.
Qed.

Lemma consider_bidders_first_best rest :
  ∀ seen best best',
    first_best cand seen best →
    Dispatcher.consider_bidders W self origin nbidders best rest = Ok best' →
    first_best cand (seen ++ rest) best'.
Proof.
  induction rest as [|j rest IH]; intros seen best best' Hinv Hrun; simpl in *.
  - injection Hrun as <-. by rewrite app_nil_r.
  - destruct (Dispatcher.consider_bidder W self origin nbidders best j)
      as [best1|e] eqn:Hstep; simpl in Hrun; [|done].
    replace (seen ++ j :: rest) with ((seen ++ [j]) ++ rest)
      by (by rewrite <- app_assoc).
    eapply IH; [|exact Hrun].
    by eapply consider_bidder_first_best.
Qed.

(** When no bidder is a candidate the loop ends as it started. *)
Lemma consider_bidders_no_candidate rest :
  ∀ best,
    (∀ j, j ∈ rest → cand j = None) →
    Dispatcher.consider_bidders W self origin nbidders best rest = Ok best.
Proof.
  induction rest as [|j rest IH]; intros best Hnone; simpl; [done|].
  rewrite consider_bidder_candidate.
  rewrite (Hnone j) by (apply elem_of_cons; by left). simpl.
  apply IH. intros j' Hin. apply Hnone. apply elem_of_cons. by right.
Qed.
End AllocationFacts.

Lemma first_best_start cand : first_best cand [] (None, NInf).
Proof. split; [done|]. intros j Hin. by apply elem_of_nil in Hin. Qed.

Lemma candidate_inv W self origin n k r :
  candidate W self origin n k = Some r →
  ∃ ref,
    Dispatcher._taxis self !! k = Some ref
    ∧ Dispatcher.eligible (World.taxi W ref) = true
    ∧ r = Dispatcher.priority_score W (World.taxi W ref) origin n.
Proof.
  unfold candidate. intros Hc.
  destruct (Dispatcher._taxis self !! k) as [ref|]; [|done].
  destruct (Dispatcher.eligible (World.taxi W ref)) eqn:He; [|done].
  injection Hc as <-. eauto.
Qed.

Lemma eligible_inv taxi :
  Dispatcher.eligible taxi = true →
  Taxi.onDuty taxi = true ∧ (0 < Taxi._account taxi)%Q.
Proof.
  unfold Dispatcher.eligible. intros [Hduty Hacc]%andb_prop.
  split; [done|]. by apply Qltb_true.
Qed.

Lemma up_for_allocation_inv fare :
  up_for_allocation fare = true →
  pyeqb (FareEntry.price fare) (Fin 0) = false
  ∧ (FareEntry.taxi fare < 0)%Z
  ∧ ((FareEntry.taxi fare <? 0)%Z
     && (0 <? length (FareEntry.bidders fare))%nat)%bool = true.
Proof.
  unfold up_for_allocation.
  intros [[Hp Ht]%andb_prop Hb]%andb_prop.
  apply negb_true_iff in Hp. split; [done|]. split; [lia|].
  by rewrite Ht, Hb.
Qed.

Lemma tick_fare_allocates W self o d fare :
  up_for_allocation fare = true →
  Dispatcher.tick_fare W self o d fare = Dispatcher._allocateFare W self o fare.
Proof.
  intros (Hp & _ & Hguard)%up_for_allocation_inv.
  unfold Dispatcher.tick_fare. by rewrite Hp, Hguard.
Qed.

(** What the loop body does to a fare that is up for allocation. *)
Lemma tick_fare_allocation (W : World.t) (self : Dispatcher.t)
    (o d : coord) (fare : FareEntry.t) :
  up_for_allocation fare = true →
  let r := Dispatcher.tick_fare W self o d fare in
  (∀ k, FareEntry.taxi (final r) = Z.of_nat k →
        ∃ ref,
          k ∈ FareEntry.bidders fare
          ∧ Dispatcher._taxis self !! k = Some ref
          ∧ Taxi.onDuty (World.taxi W ref) = true
          ∧ (0 < Taxi._account (World.taxi W ref))%Q
          ∧ emitted r = [allocateFare o ref])
  ∧ ((∀ k ref, k ∈ FareEntry.bidders fare →
               Dispatcher._taxis self !! k = Some ref →
               Dispatcher.eligible (World.taxi W ref) = false) →
     r = mkRun fare [] None).
Proof.
  intros Hup r. subst r. rewrite tick_fare_allocates by done.
  destruct (up_for_allocation_inv fare Hup) as (_ & Hneg & _).
  unfold Dispatcher._allocateFare.
  set (n := length (FareEntry.bidders fare)).
  split.
  - intros k Hk.
    destruct (Dispatcher.consider_bidders W self o n (None, NInf)
                (FareEntry.bidders fare)) as [[[k0|] h]|e] eqn:Hrun;
      simpl in Hk; try lia.
    pose proof (consider_bidders_first_best W self o n _ [] _ _
                  (first_best_start _) Hrun) as Hbest.
    simpl in Hbest. destruct Hbest as (l1 & l2 & q & Hsplit & Hcand & _).
    destruct (candidate_inv _ _ _ _ _ _ Hcand) as (ref & Href & Helig & _).
    destruct (eligible_inv _ Helig) as [Hduty Hacc].
    rewrite Href in Hk |- *. simpl in Hk |- *.
    assert (k = k0) as -> by lia.
    exists ref. repeat split; try done.
    rewrite Hsplit. apply elem_of_app. right. apply elem_of_cons. by left.
  - intros Hnone.
    rewrite consider_bidders_no_candidate; [done|].
    intros j Hin. unfold candidate.
    destruct (Dispatcher._taxis self !! j) as [ref|] eqn:Href; [|done].
    by rewrite (Hnone j ref Hin Href).
Qed.

(** The loop body assigns a taxi only to a fare that is up for
    allocation. *)
Lemma tick_fare_taxi (W : World.t) (self : Dispatcher.t)
    (o d : coord) (fare : FareEntry.t) :
  up_for_allocation fare = false →
  FareEntry.taxi (final (Dispatcher.tick_fare W self o d fare))
  = FareEntry.taxi fare
  ∧ FareEntry.bidders (final (Dispatcher.tick_fare W self o d fare))
    = FareEntry.bidders fare.
Proof.
  unfold up_for_allocation, Dispatcher.tick_fare. intros Hup.
  destruct (pyeqb (FareEntry.price fare) (Fin 0)); [done|].
  simpl in Hup. rewrite Hup. done.
Qed.

(** C2.  Whatever a tick does to an unassigned fare of the board, a taxi
    it records as the winner is one of the fare's bidders, is on duty and
    has a strictly positive account balance.  If no bidder passes both
    tests, the fare stays unassigned with its bidders; and when it was up
    for allocation (priced, with bidders) it is left exactly as it was,
    so that every later tick runs the allocation for it again. *)
Theorem allocation_only_to_eligible (W : World.t) (self : Dispatcher.t)
    (parent : WorldRef) (o d : coord) (t : Z) (fare : FareEntry.t) :
  Dispatcher.board_get (Dispatcher._fareBoard self) o d t = Some fare →
  (FareEntry.taxi fare < 0)%Z →
  ∃ fare',
    Dispatcher.board_get
      (Dispatcher._fareBoard (final (Dispatcher.clockTick W self parent)))
      o d t = Some fare'
    ∧ (∀ k, FareEntry.taxi fare' = Z.of_nat k →
            ∃ ref,
              k ∈ FareEntry.bidders fare
              ∧ Dispatcher._taxis self !! k = Some ref
              ∧ Taxi.onDuty (World.taxi W ref) = true
              ∧ (0 < Taxi._account (World.taxi W ref))%Q)
    ∧ ((∀ k ref, k ∈ FareEntry.bidders fare →
                 Dispatcher._taxis self !! k = Some ref →
                 Dispatcher.eligible (World.taxi W ref) = false) →
       FareEntry.taxi fare' = FareEntry.taxi fare
       ∧ FareEntry.bidders fare' = FareEntry.bidders fare
       ∧ (up_for_allocation fare = true →
          fare' = fare
          ∧ ∀ W', Dispatcher.tick_fare W' self o d fare'
                  = Dispatcher._allocateFare W' self o fare')).
Proof.
  intros Hget Hneg.
  destruct (clockTick_fare W self parent o d t fare Hget) as [[Hsame|Hstep] _].
  - (* the tick did not reach the fare *)
    exists fare. split; [done|]. split; [intros k Hk; lia|].
    intros _. repeat split; try done.
    intros W'. by apply tick_fare_allocates.
  - exists (final (Dispatcher.tick_fare W self o d fare)).
    split; [done|].
    destruct (up_for_allocation fare) eqn:Hup.
    + destruct (tick_fare_allocation W self o d fare Hup) as [Hwin Hnone].
      split.
      * intros k Hk. destruct (Hwin k Hk) as (ref & ? & ? & ? & ? & _).
        by exists ref.
      * intros Hno. rewrite (Hnone Hno). simpl. repeat split; try done.
        intros W'. by apply tick_fare_allocates.
    + destruct (tick_fare_taxi W self o d fare Hup) as [-> ->].
      split; [intros k Hk; lia|]. intros _. done.
Qed.

Lemma allocation_only_to_eligible_witness :
  Dispatcher.board_get (Dispatcher._fareBoard Examples.office_two_bids)
    (0, 0)%Z (3, 4)%Z 0 = Some Examples.fare_bid_0_1
  ∧ (FareEntry.taxi Examples.fare_bid_0_1 < 0)%Z
  ∧ ∃ fare',
      Dispatcher.board_get
        (Dispatcher._fareBoard
           (final (Dispatcher.clockTick Examples.fleet_7_broke
                     Examples.office_two_bids 0)))
        (0, 0)%Z (3, 4)%Z 0 = Some fare'
      ∧ FareEntry.taxi fare' = 1%Z
      ∧ ∃ ref,
          1%nat ∈ FareEntry.bidders Examples.fare_bid_0_1
          ∧ Dispatcher._taxis Examples.office_two_bids !! 1%nat = Some ref
          ∧ Taxi.onDuty (World.taxi Examples.fleet_7_broke ref) = true
          ∧ (0 < Taxi._account (World.taxi Examples.fleet_7_broke ref))%Q.
Proof.
  split; [reflexivity|]. split; [reflexivity|].
  destruct (allocation_only_to_eligible Examples.fleet_7_broke
              Examples.office_two_bids 0 (0, 0)%Z (3, 4)%Z 0
              Examples.fare_bid_0_1 eq_refl eq_refl)
    as (fare' & Hget & Hwin & _).
  exists fare'. split; [exact Hget|].
  assert (Htaxi : FareEntry.taxi fare' = 1%Z).
  { assert (Hrun : Dispatcher.board_get
                     (Dispatcher._fareBoard
                        (final (Dispatcher.clockTick Examples.fleet_7_broke
                                  Examples.office_two_bids 0)))
                     (0, 0)%Z (3, 4)%Z 0
                   = Some (FareEntry.set_taxi 1 Examples.fare_bid_0_1))
      by reflexivity.
    rewrite Hrun in Hget. by injection Hget as <-. }
  split; [exact Htaxi|]. exact (Hwin 1%nat Htaxi).
Defined.

(** ** newFare and cancelFare *)

Lemma odict_set_set {K V} `{EqDecision K} (k : K) (v v' : V) d :
  ODict.set k v (ODict.set k v' d) = ODict.set k v d.
Proof.
  induction d as [|[k0 v0] r IH]; simpl.
  - by rewrite decide_True.
  - destruct (decide (k = k0)) as [->|]; simpl.
    + by rewrite decide_True.
    + rewrite decide_False by done. by rewrite IH.
Qed.

(** Writing a fare under a key of the board, creating the levels that are
    missing: the key reads the fare, every other key reads as before. *)
Lemma board_get_set (b : FareBoard) (o d : coord) (t : Z) (fare : FareEntry.t)
    (dests : list (coord * gmap Z FareEntry.t)) (times : gmap Z FareEntry.t) :
  ODict.get o b = Some dests ∨ (ODict.get o b = None ∧ dests = []) →
  ODict.get d dests = Some times ∨ (ODict.get d dests = None ∧ times = ∅) →
  let b' := ODict.set o (ODict.set d (<[t:=fare]> times) dests) b in
  Dispatcher.board_get b' o d t = Some fare
  ∧ ∀ o' d' t', (o', d', t') ≠ (o, d, t) →
      Dispatcher.board_get b' o' d' t' = Dispatcher.board_get b o' d' t'.
Proof.
  intros Ho Hd b'. subst b'. unfold Dispatcher.board_get. split.
  - rewrite odict_get_set_eq. cbn [mbind option_bind].
    rewrite odict_get_set_eq. cbn [mbind option_bind].
    apply lookup_insert_eq.
  - intros o' d' t' Hne.
    destruct (decide (o' = o)) as [->|Hno].
    2:{ by rewrite odict_get_set_ne. }
    rewrite odict_get_set_eq. cbn [mbind option_bind].
    destruct (decide (d' = d)) as [->|Hnd].
    + rewrite odict_get_set_eq. cbn [mbind option_bind].
      assert (t ≠ t') by congruence.
      rewrite lookup_insert_ne by done.
      destruct Ho as [-> | [-> ->]], Hd as [Hd | [Hd ->]];
        cbn [mbind option_bind]; rewrite ?Hd; cbn [mbind option_bind];
        try done; by rewrite lookup_empty.
    + rewrite odict_get_set_ne by done.
      destruct Ho as [-> | [-> ->]]; done.
Qed.

(** The board [newFare] leaves. *)
Lemma newFare_board (self : Dispatcher.t) (o d : coord) (t : Z) :
  let r := Dispatcher.newFare self (Dispatcher._parent self) o d t in
  let dests := default [] (ODict.get o (Dispatcher._fareBoard self)) in
  let times := default ∅ (ODict.get d dests) in
  raised r = None ∧ emitted r = []
  ∧ Dispatcher._fareBoard (final r)
    = ODict.set o (ODict.set d (<[t:=FareEntry.new o d t]> times) dests)
        (Dispatcher._fareBoard self)
  ∧ Dispatcher._revenue (final r) = Dispatcher._revenue self
  ∧ Dispatcher._taxis (final r) = Dispatcher._taxis self
  ∧ Dispatcher._map (final r) = Dispatcher._map self
  ∧ Dispatcher._abandonedRides (final r) = Dispatcher._abandonedRides self
  ∧ Dispatcher._parent (final r) = Dispatcher._parent self.
Proof.
  unfold Dispatcher.newFare. rewrite decide_True by done.
  change [(d, (∅ : gmap Z FareEntry.t))] with (ODict.set d (∅ : gmap Z FareEntry.t) []).
  destruct (ODict.get o (Dispatcher._fareBoard self)) as [dests|] eqn:Ho;
    unfold default; cbn [from_option id].
  - destruct (ODict.get d dests) as [times|] eqn:Hd; unfold default; cbn [from_option id].
    + rewrite Ho, Hd. repeat split; done.
    + cbn [Dispatcher._fareBoard Dispatcher.set_board
           Dispatcher.set_completedRides].
      rewrite !odict_get_set_eq.
      cbn [final emitted raised Dispatcher._fareBoard Dispatcher.set_board
           Dispatcher.set_completedRides Dispatcher._revenue Dispatcher._taxis
           Dispatcher._map Dispatcher._abandonedRides Dispatcher._parent].
      rewrite !odict_set_set. repeat split; done.
  - cbn [Dispatcher._fareBoard Dispatcher.set_board].
    rewrite !odict_get_set_eq.
    cbn [final emitted raised Dispatcher._fareBoard Dispatcher.set_board
         Dispatcher._revenue Dispatcher._taxis
         Dispatcher._map Dispatcher._abandonedRides Dispatcher._parent].
    rewrite !odict_set_set. repeat split; try done.
Qed.

(** What [newFare] does for its own world: the fresh fare is on the board
    under its key, every other key is as before, nothing is sent, and
    revenue, roster, map and the count of abandoned rides are as before. *)
Lemma newFare_inserts (self : Dispatcher.t) (o d : coord) (t : Z) :
  let r := Dispatcher.newFare self (Dispatcher._parent self) o d t in
  raised r = None ∧ emitted r = []
  ∧ Dispatcher.board_get (Dispatcher._fareBoard (final r)) o d t
    = Some (FareEntry.new o d t)
  ∧ (∀ o' d' t', (o', d', t') ≠ (o, d, t) →
       Dispatcher.board_get (Dispatcher._fareBoard (final r)) o' d' t'
       = Dispatcher.board_get (Dispatcher._fareBoard self) o' d' t')
  ∧ Dispatcher._revenue (final r) = Dispatcher._revenue self
  ∧ Dispatcher._taxis (final r) = Dispatcher._taxis self
  ∧ Dispatcher._map (final r) = Dispatcher._map self
  ∧ Dispatcher._abandonedRides (final r) = Dispatcher._abandonedRides self
  ∧ Dispatcher._parent (final r) = Dispatcher._parent self.
Proof.
  destruct (newFare_board self o d t)
    as (Hr & He & Hb & Hrev & Htaxis & Hmap & Hab & Hpar).
  intros r. subst r. rewrite Hb.
  set (dests := default [] (ODict.get o (Dispatcher._fareBoard self))).
  set (times := default ∅ (ODict.get d dests)).
  destruct (board_get_set (Dispatcher._fareBoard self) o d t
              (FareEntry.new o d t) dests times) as [Hkey Hothers].
  { subst dests. destruct (ODict.get o _); unfold default; cbn [from_option id]; auto. }
  { subst times. destruct (ODict.get d _); unfold default; cbn [from_option id]; auto. }
  repeat split; done.
Qed.

(** C9: the code at the failing input.  The board knows the origin (0,0)
    with the destination (3,4); a fare from (0,0) to (5,5) is requested.
    [newFare] puts the fare on the board and also counts a completed
    ride. *)
Theorem newFare_counts_a_completed_ride :
  Dispatcher._completedRides Examples.office_one_fare = 0%Z
  ∧ raised (Dispatcher.newFare Examples.office_one_fare 0
              (0, 0)%Z (5, 5)%Z 1) = None
  ∧ Dispatcher._completedRides
      (final (Dispatcher.newFare Examples.office_one_fare 0
                (0, 0)%Z (5, 5)%Z 1)) = 1%Z.
Proof. repeat split; reflexivity. Qed.

(** The one case in which [newFare] moves the counter. *)
Lemma newFare_completedRides (self : Dispatcher.t) (o d : coord) (t : Z) :
  Dispatcher._completedRides
    (final (Dispatcher.newFare self (Dispatcher._parent self) o d t))
  = match ODict.get o (Dispatcher._fareBoard self) with
    | Some dests =>
        match ODict.get d dests with
        | None => (Dispatcher._completedRides self + 1)%Z
        | Some _ => Dispatcher._completedRides self
        end
    | None => Dispatcher._completedRides self
    end.
Proof.
  unfold Dispatcher.newFare. rewrite decide_True by done.
  destruct (ODict.get o (Dispatcher._fareBoard self)) as [dests|] eqn:Ho.
  - destruct (ODict.get d dests) as [times|] eqn:Hd; simpl.
    + by rewrite Ho, Hd.
    + by rewrite !odict_get_set_eq.
  - simpl. rewrite odict_get_set_eq. simpl. by rewrite decide_True.
Qed.

(** [cancelFare] with a key that is not on the board changes nothing and
    sends nothing. *)
Lemma cancelFare_absent (self : Dispatcher.t) (parent : WorldRef)
    (o d : coord) (t : Z) :
  no_empty_level (Dispatcher._fareBoard self) →
  Dispatcher.board_get (Dispatcher._fareBoard self) o d t = None →
  Dispatcher.cancelFare self parent o d t = mkRun self [] None.
Proof.
  intros Hwf Habsent. unfold Dispatcher.cancelFare, Dispatcher.board_get in *.
  case_decide; [|done].
  destruct (ODict.get o (Dispatcher._fareBoard self)) as [dests|] eqn:Ho;
    [|done].
  cbn [mbind option_bind] in Habsent.
  destruct (ODict.get d dests) as [times|] eqn:Hd; [|done].
  cbn [mbind option_bind] in Habsent. rewrite Habsent. simpl.
  unfold Dispatcher.prune. rewrite Ho, Hd.
  destruct (Hwf o dests Ho) as [Hlen Htimes].
  destruct (decide (size times = 0%nat)) as [Hz|_]; [by apply Htimes in Hd|].
  destruct (decide (length dests = 0%nat)); [done|].
  rewrite odict_set_same by done. by destruct self.
Qed.

Lemma py_getitem_nat {A} (l : list A) (k : nat) (x : A) :
  l !! k = Some x → py_getitem l (Z.of_nat k) = Ok x.
Proof.
  intros Hk. pose proof (lookup_lt_Some _ _ _ Hk) as Hlt.
  unfold py_getitem.
  destruct (Z.ltb_spec (Z.of_nat k) 0); [lia|].
  destruct (Z.ltb_spec (Z.of_nat k) 0); [lia|].
  destruct (Z.leb_spec (Z.of_nat (length l)) (Z.of_nat k)); [lia|].
  simpl. by rewrite Nat2Z.id, Hk.
Qed.

(** [cancelFare] of a fare that has a taxi assigned: the fare leaves the
    board and the world is told to notify that taxi. *)
Lemma cancelFare_assigned (self : Dispatcher.t) (o d : coord) (t : Z)
    (fare : FareEntry.t) (k : nat) (ref : TaxiRef) :
  Dispatcher.board_get (Dispatcher._fareBoard self) o d t = Some fare →
  FareEntry.taxi fare = Z.of_nat k →
  Dispatcher._taxis self !! k = Some ref →
  let r := Dispatcher.cancelFare self (Dispatcher._parent self) o d t in
  raised r = None ∧ emitted r = [cancelFare o ref]
  ∧ Dispatcher.board_get (Dispatcher._fareBoard (final r)) o d t = None.
Proof.
  intros Hget Htaxi Href. unfold Dispatcher.cancelFare, Dispatcher.board_get in *.
  rewrite decide_True by done.
  destruct (ODict.get o (Dispatcher._fareBoard self)) as [dests|] eqn:Ho;
    [|done].
  cbn [mbind option_bind] in Hget.
  destruct (ODict.get d dests) as [times|] eqn:Hd; [|done].
  cbn [mbind option_bind] in Hget. rewrite Hget.
  cbn [Dispatcher._taxis Dispatcher.set_abandonedRides
       Dispatcher._fareBoard].
  rewrite Htaxi, (py_getitem_nat _ _ _ Href).
  simpl. unfold Dispatcher.prune. simpl.
  rewrite !odict_get_set_eq.
  repeat case_decide; simpl; repeat split;
    rewrite ?odict_get_del_eq, ?odict_get_set_eq; simpl;
    rewrite ?odict_get_del_eq, ?odict_get_set_eq; simpl;
    try done; apply lookup_delete_eq.
Qed.

(** C6: the code at the failing inputs.  The fare from (0,0) to (3,4) has
    no taxi assigned ([taxi = -1]).  With the roster [[7]], cancelling it
    tells the world to notify taxi 7 (the index -1 reads the last taxi of
    the roster); with an empty roster, [cancelFare] raises [IndexError]
    after counting the abandoned ride and before removing the fare. *)
Theorem cancelFare_unassigned_notifies_last_taxi :
  FareEntry.taxi <$>
    Dispatcher.board_get (Dispatcher._fareBoard Examples.office_one_fare)
      (0, 0)%Z (3, 4)%Z 0 = Some (-1)%Z
  ∧ Dispatcher.cancelFare Examples.office_one_fare 0 (0, 0)%Z (3, 4)%Z 0
    = mkRun (Dispatcher.mk 0 0 [7%nat] [] None 0 1 0)
        [cancelFare (0, 0)%Z 7%nat] None
  ∧ Dispatcher.cancelFare Examples.office_no_taxi_one_fare 0
      (0, 0)%Z (3, 4)%Z 0
    = mkRun (Dispatcher.set_abandonedRides 1 Examples.office_no_taxi_one_fare)
        [] (Some IndexError).
Proof. repeat split; vm_compute; reflexivity. Qed.

(** ** The taxi: messages *)

(** A payment message carrying [amount] adds [amount] to the account
    balance and changes nothing else, whatever the taxi and the amount:
    the cumulative income stays as it was. *)
Lemma payment_credits_account_only (W : World.t) (self : Taxi.t)
    (args : TaxiAgent.Args) (amount : Q) :
  TaxiAgent.arg_amount args = Some amount →
  let r := TaxiAgent.recvMsg W self TaxiAgent.FARE_PAY args in
  raised r = None ∧ emitted r = []
  ∧ final r = Taxi.set_account (Taxi._account self + amount)%Q self
  ∧ Taxi._account (final r) = (Taxi._account self + amount)%Q
  ∧ Taxi.income (final r) = Taxi.income self.
Proof.
  intros Hamount. unfold TaxiAgent.recvMsg. rewrite Hamount.
  repeat split; reflexivity.
Qed.

(** C7: the code at the failing input.  The taxi [cab] has 10 in its
    account and an income of 0, and receives a payment of 5.  [recvMsg]
    adds the 5 to the account and leaves the income at 0, not 5: the
    income, which [_allocateFare] and [_bidOnFare] read as what the taxi
    has earned, is set to 0 by the constructor and written nowhere
    else. *)
Theorem payment_leaves_income :
  Taxi._account Examples.cab = 10%Q
  ∧ Taxi.income Examples.cab = 0%Q
  ∧ TaxiAgent.recvMsg Examples.town Examples.cab TaxiAgent.FARE_PAY
      Examples.pay_5
    = mkRun (Taxi.set_account (10 + 5)%Q Examples.cab) [] None
  ∧ Taxi.income
      (final (TaxiAgent.recvMsg Examples.town Examples.cab
                TaxiAgent.FARE_PAY Examples.pay_5))
    = 0%Q
  ∧ ¬ (Taxi.income
         (final (TaxiAgent.recvMsg Examples.town Examples.cab
                   TaxiAgent.FARE_PAY Examples.pay_5))
       == Taxi.income Examples.cab + 5)%Q.
Proof.
  split; [reflexivity|]. split; [reflexivity|]. split; [reflexivity|].
  split; [reflexivity|]. vm_compute. discriminate.
Qed.

(** ** The taxi: a tick after a failed plan *)

(** C8: the code at the failing input.  The taxi stands at (0,0); the
    fare allocated to it waits at (0,1); its map has no road between the
    two.  The planner reports the failure as [None]; the first tick
    stores that [None] as the route and ends normally; the next tick
    raises [TypeError] at [len(self._path)], and so does every tick after
    it, since the taxi is left as it was. *)
Theorem failed_plan_breaks_next_tick (fuel : nat) :
  TaxiAgent._planPath Examples.axis_distance (S (S fuel)) Examples.two_islands
    (0, 0)%Z (0, 1)%Z = Returned None
  ∧ TaxiAgent.clockTick Examples.axis_distance (S (S fuel)) Examples.town
      Examples.stranded
    = Some (mkRun Examples.stranded_after_tick [] None)
  ∧ Taxi._path Examples.stranded_after_tick = None
  ∧ TaxiAgent.clockTick Examples.axis_distance (S (S fuel)) Examples.town
      Examples.stranded_after_tick
    = Some (mkRun Examples.stranded_after_tick [] (Some TypeError)).
Proof. repeat split; vm_compute; reflexivity. Qed.

(** ** The planner *)

(** *** The open list *)

Lemma entry_ltb_le (a b : TaxiAgent.entry) :
  TaxiAgent.entry_ltb a b = true → (a.1 <= b.1)%Q.
Proof.
  unfold TaxiAgent.entry_ltb.
  intros [Hlt | [Heq _]%andb_prop]%orb_prop.
  - apply Qltb_true in Hlt. lra.
  - apply Qeq_bool_iff in Heq. lra.
Qed.

Lemma entry_ltb_not_le (a b : TaxiAgent.entry) :
  TaxiAgent.entry_ltb a b = false → (b.1 <= a.1)%Q.
Proof.
  unfold TaxiAgent.entry_ltb.
  intros [Hlt _]%orb_false_elim. by apply Qltb_false in Hlt.
Qed.

(** [pop_min] splits the bag into a least entry and the others. *)
Lemma pop_min_spec (l : list TaxiAgent.entry) :
  ∀ x e rest,
    TaxiAgent.pop_min x l = (e, rest) →
    e :: rest ≡ₚ x :: l ∧ ∀ e', e' ∈ x :: l → (e.1 <= e'.1)%Q.
Proof.
  induction l as [|y r IH]; intros x e rest Hpop; simpl in Hpop.
  - injection Hpop as <- <-. split; [done|].
    intros e' ->%list_elem_of_singleton. lra.
  - destruct (TaxiAgent.pop_min y r) as [m0 rest0] eqn:Hrec.
    destruct (IH y m0 rest0 Hrec) as [Hperm Hmin].
    destruct (TaxiAgent.entry_ltb m0 x) eqn:Hlt; injection Hpop as <- <-.
    + split.
      * rewrite (Permutation_swap x m0 rest0). by rewrite Hperm.
      * intros e' [->|Hin]%elem_of_cons; [by apply entry_ltb_le|by apply Hmin].
    + split; [done|].
      apply entry_ltb_not_le in Hlt.
      intros e' [->|Hin]%elem_of_cons; [lra|].
      specialize (Hmin e' Hin). lra.
Qed.

Lemma heappop_spec (heap : list TaxiAgent.entry) e rest :
  TaxiAgent.heappop heap = Some (e, rest) →
  e :: rest ≡ₚ heap ∧ ∀ e', e' ∈ heap → (e.1 <= e'.1)%Q.
Proof.
  destruct heap as [|x l]; simpl; [done|].
  intros [= Hpop]. by apply pop_min_spec.
Qed.

Lemma heappop_None (heap : list TaxiAgent.entry) :
  TaxiAgent.heappop heap = None → heap = [].
Proof. by destruct heap. Qed.

(** *** Roads *)

Lemma road_all_roads (m : RoadMap) u v w :
  road m u v w ↔ (u, v, w) ∈ all_roads m.
Proof.
  unfold road, all_roads. rewrite list_elem_of_bind. split.
  - intros (items & dir & Hu & Hin).
    exists (u, items). split; [|by apply elem_of_map_to_list].
    apply list_elem_of_fmap. by exists (v, (dir, w)).
  - intros ([u' items] & Hin & Hmap).
    apply elem_of_map_to_list in Hmap.
    apply list_elem_of_fmap in Hin as ([v' [dir w']] & [= -> -> ->] & Hin).
    eauto.
Qed.

Lemma lists_upto_elem {A} (xs : list A) (n : nat) :
  ∀ l, length l ≤ n → Forall (λ x, x ∈ xs) l → l ∈ lists_upto n xs.
Proof.
  induction n as [|n IH]; intros l Hlen Hall; simpl.
  - destruct l; simpl in Hlen; [|lia]. by apply list_elem_of_singleton.
  - destruct l as [|x l]; [apply elem_of_cons; by left|].
    apply elem_of_cons. right.
    apply Forall_cons in Hall as [Hx Hl]. simpl in Hlen.
    apply list_elem_of_bind. exists l. split; [|apply IH; [lia|done]].
    apply list_elem_of_fmap. by exists x.
Qed.

Lemma filter_length_lt {A} (P Q : A → Prop)
    `{∀ a, Decision (P a)} `{∀ a, Decision (Q a)} (l : list A) (x : A) :
  (∀ a, Q a → P a) → x ∈ l → P x → ¬ Q x →
  length (filter Q l) < length (filter P l).
Proof.
  intros Himp Hin HP HQ.
  assert (Hle : ∀ l', length (filter Q l') ≤ length (filter P l')).
  { induction l' as [|a l' IH]; [done|].
    rewrite !filter_cons. destruct (decide (Q a)) as [Ha|Ha].
    - rewrite decide_True by auto. simpl. lia.
    - destruct (decide (P a)); simpl; lia. }
  induction l as [|a l IH]; [by apply elem_of_nil in Hin|].
  rewrite !filter_cons.
  apply elem_of_cons in Hin as [<-|Hin].
  - rewrite (decide_True (P:=P x)) by done.
    rewrite (decide_False (P:=Q x)) by done.
    simpl. specialize (Hle l). lia.
  - specialize (IH Hin). destruct (decide (Q a)) as [Ha|Ha].
    + rewrite decide_True by auto. simpl. lia.
    + destruct (decide (P a)); simpl; lia.
Qed.

Lemma cost_lt_true x c :
  cost_lt x c = true ↔ c = Infinity ∨ ∃ y, c = Finite y ∧ (x < y)%Q.
Proof.
  destruct c as [y|]; simpl.
  - rewrite Qltb_true. split; [eauto|]. intros [?|(y' & [= <-] & ?)]; done.
  - split; auto.
Qed.

Lemma cost_lt_false x c :
  cost_lt x c = false ↔ ∃ y, c = Finite y ∧ (y <= x)%Q.
Proof.
  destruct c as [y|]; simpl.
  - rewrite Qltb_false. split; [eauto|]. by intros (y' & [= <-] & ?).
  - split; [done|]. by intros (? & ? & ?).
Qed.

(** *** Invariants of the search *)

Section PlannerFacts.
Variable h : coord → coord → Q.
Variable m : RoadMap.
Variable o d : coord.
Hypothesis Hweights : nonneg_weights m.
Hypothesis Hclosed : closed_map m.
Hypothesis Hh_nonneg : ∀ x, is_Some (m !! x) → (0 <= h x d)%Q.

Implicit Types (g : gmap coord cost) (P : Roads) (s : TaxiAgent.Search).

Lemma improves_insert g y new :
  cost_lt new (g_at g y) = true →
  improves g (<[y := Finite new]> g).
Proof.
  intros Hlt x c Hx. unfold at_most.
  destruct (decide (x = y)) as [->|Hne].
  - rewrite lookup_insert_eq. exists new. split; [done|].
    unfold g_at in Hlt. rewrite Hx in Hlt. simpl in Hlt.
    apply Qltb_true in Hlt. lra.
  - rewrite lookup_insert_ne by done. exists c. split; [done|lra].
Qed.

Lemma at_most_improves g g' x c :
  improves g g' → at_most g x c → at_most g' x c.
Proof.
  intros Himp (cx & Hx & Hle).
  destruct (Himp x cx Hx) as (cx' & Hx' & Hle').
  exists cx'. split; [done|lra].
Qed.

Lemma witness_improves g g' P :
  improves g g' → witness m o g P → witness m o g' P.
Proof.
  intros Himp. induction 1 as [|u v w P HP IH Hend Hroad Hv].
  - constructor.
  - constructor; try done. by eapply at_most_improves.
Qed.

Lemma witness_rcost_nonneg g P : witness m o g P → (0 <= rcost P)%Q.
Proof.
  induction 1 as [|u v w P HP IH Hend Hroad Hv]; simpl; [lra|].
  specialize (Hweights _ _ _ Hroad). lra.
Qed.

(** Along a witness, the cost recorded for a node it enters is at most
    the cost of the whole. *)
Lemma witness_entered g P y :
  witness m o g P → y ∈ entered P → at_most g y (rcost P).
Proof.
  induction 1 as [|u v w P HP IH Hend Hroad Hv]; simpl.
  - intros Hin. by apply elem_of_nil in Hin.
  - intros [->|Hin]%elem_of_cons; [done|].
    destruct (IH Hin) as (cy & Hy & Hle).
    specialize (Hweights _ _ _ Hroad).
    exists cy. split; [done|lra].
Qed.

Lemma witness_candidate g P :
  witness m o g P → NoDup (entered P) →
  P ∈ lists_upto (size m) (all_roads m).
Proof.
  intros HP Hnodup. apply lists_upto_elem.
  - assert (Hlen : length (entered P) ≤ length ((map_to_list m).*1)).
    { apply submseteq_length, NoDup_submseteq; [done|].
      intros y Hy. clear Hnodup.
      induction HP as [|u v w P HP IH Hend Hroad Hv]; simpl in Hy.
      + by apply elem_of_nil in Hy.
      + apply elem_of_cons in Hy as [->|Hy]; [|by apply IH].
        destruct (Hclosed _ _ _ Hroad) as [items Hitems].
        apply list_elem_of_fmap. exists (v, items). split; [done|].
        by apply elem_of_map_to_list. }
    unfold entered in Hlen. rewrite !length_fmap in Hlen.
    by rewrite length_map_to_list in Hlen.
  - clear Hnodup. induction HP as [|u v w P HP IH Hend Hroad Hv]; [constructor|].
    constructor; [by apply road_all_roads|done].
Qed.

(** Recording a lower cost for [y], reached by the roads [P], lowers the
    slack. *)
Lemma slack_insert g y new P :
  cost_lt new (g_at g y) = true →
  P ∈ lists_upto (size m) (all_roads m) →
  rend o P = y → (rcost P == new)%Q →
  slack m o (<[y := Finite new]> g) < slack m o g.
Proof.
  intros Hlt Hcand Hend Hcost. unfold slack.
  apply (filter_length_lt _ _ _ P); [|done| |].
  - intros P'. unfold cheaper, g_at.
    destruct (decide (rend o P' = y)) as [->|Hne].
    + rewrite lookup_insert_eq. simpl. intros Hlt'%Qltb_true.
      apply cost_lt_true. apply cost_lt_true in Hlt.
      destruct Hlt as [Hinf|(gy & Hgy & Hnew)]; [by left|].
      right. exists gy. split; [done|lra].
    + by rewrite lookup_insert_ne.
  - unfold cheaper. rewrite Hend.
    apply cost_lt_true. apply cost_lt_true in Hlt.
    destruct Hlt as [Hinf|(gy & Hgy & Hnew)]; [by left|].
    right. exists gy. split; [done|lra].
  - unfold cheaper, g_at. rewrite Hend, lookup_insert_eq. simpl.
    intros Hlt'%Qltb_true. lra.
Qed.
Lemma traced_rcost g trace P c :
  g !! o = Some (Finite 0) →
  traced m o g trace P → g !! rend o P = Some (Finite c) → (rcost P <= c)%Q.
Proof.
  intros Ho HP. revert c.
  induction HP as [|u v w P cu cv HP IH Hend Htr Hroad Hu Hv Hle];
    intros c Hc; simpl in *.
  - assert (c = 0%Q) as -> by congruence. lra.
  - assert (c = cv) as -> by congruence.
    rewrite <- Hend in Hu. specialize (IH _ Hu). lra.
Qed.

(** A traced way whose end has a recorded cost below the new cost of [y]
    does not pass through [y], and stays as it is. *)
Lemma traced_keep g trace P y cur new cx :
  cost_lt new (g_at g y) = true →
  traced m o g trace P →
  g !! rend o P = Some (Finite cx) → (cx <= new)%Q →
  traced m o (<[y := Finite new]> g) (<[y := cur]> trace) P.
Proof.
  intros Hlt HP. revert cx.
  assert (Hne : ∀ x cx, g !! x = Some (Finite cx) → (cx <= new)%Q → y ≠ x).
  { intros x cx Hx Hle ->. unfold g_at in Hlt. rewrite Hx in Hlt.
    simpl in Hlt. apply Qltb_true in Hlt. lra. }
  induction HP as [|u v w P cu cv HP IH Hend Htr Hroad Hu Hv Hle];
    intros cx Hcx Hcxle; simpl in *.
  - constructor. rewrite lookup_insert_ne; [done|]. by eapply Hne.
  - assert (cx = cv) as -> by congruence.
    specialize (Hweights _ _ _ Hroad).
    assert (y ≠ v) by (by eapply Hne).
    assert (y ≠ u) by (eapply Hne; [done|lra]).
    apply (traced_cons _ _ _ _ _ _ _ _ cu cv); try done.
    + rewrite <- Hend in Hu. eapply IH; [done|lra].
    + by rewrite lookup_insert_ne.
    + by rewrite lookup_insert_ne.
    + by rewrite lookup_insert_ne.
Qed.

(** Once [y] has its new traced way, every node that had one has one. *)
Lemma traced_update g trace y cur new Py :
  cost_lt new (g_at g y) = true →
  traced m o (<[y := Finite new]> g) (<[y := cur]> trace) Py →
  rend o Py = y →
  ∀ P, traced m o g trace P →
    ∃ P', traced m o (<[y := Finite new]> g) (<[y := cur]> trace) P'
          ∧ rend o P' = rend o P.
Proof.
  intros Hlt HPy Hendy P HP.
  induction HP as [|u v w P cu cv HP IH Hend Htr Hroad Hu Hv Hle]; simpl in *.
  - destruct (decide (o = y)) as [Hoy|Hoy].
    + exists Py. split; [done|]. by rewrite Hendy.
    + exists []. split; [|done]. constructor. by rewrite lookup_insert_ne.
  - destruct (decide (v = y)) as [Hvy|Hvy].
    + exists Py. split; [done|]. by rewrite Hendy.
    + destruct IH as (P' & HP' & Hend').
      destruct (decide (u = y)) as [Huy|Huy].
      * exists ((u, v, w) :: P'). split; [|done].
        apply (traced_cons _ _ _ _ _ _ _ _ new cv); try done.
        -- congruence.
        -- by rewrite lookup_insert_ne.
        -- by rewrite Huy, lookup_insert_eq.
        -- by rewrite lookup_insert_ne.
        -- rewrite Huy in Hu. unfold g_at in Hlt. rewrite Hu in Hlt.
           simpl in Hlt. apply Qltb_true in Hlt. lra.
      * exists ((u, v, w) :: P'). split; [|done].
        apply (traced_cons _ _ _ _ _ _ _ _ cu cv); try done.
        -- congruence.
        -- by rewrite lookup_insert_ne.
        -- by rewrite lookup_insert_ne.
        -- by rewrite lookup_insert_ne.
Qed.

(** *** One relaxation *)

Lemma relax_cases cur s y dir w c :
  TaxiAgent.cost_from_start s !! cur = Some (Finite c) →
  is_Some (TaxiAgent.cost_from_start s !! y) →
  (cost_lt (c + w) (g_at (TaxiAgent.cost_from_start s) y) = true
   ∧ TaxiAgent.relax h d cur s (y, (dir, w))
     = Ok (TaxiAgent.mkSearch
             (((c + w + h y d)%Q, y) :: TaxiAgent.to_explore s)
             (<[y := cur]> (TaxiAgent.path_trace s))
             (<[y := Finite (c + w)]> (TaxiAgent.cost_from_start s))))
  ∨ (cost_lt (c + w) (g_at (TaxiAgent.cost_from_start s) y) = false
     ∧ TaxiAgent.relax h d cur s (y, (dir, w)) = Ok s).
Proof.
  intros Hcur [gy Hy]. unfold TaxiAgent.relax, g_at. rewrite Hcur, Hy. simpl.
  destruct (cost_lt (c + w) gy); [left|right]; done.
Qed.
(** A relaxation that records a lower cost keeps the invariant and does
    not raise the variant. *)
Lemma Inv_improve cur processed heap trace g y dir w c :
  Inv h m o d (Some cur) processed (TaxiAgent.mkSearch heap trace g) →
  g !! cur = Some (Finite c) →
  road m cur y w →
  cost_lt (c + w) (g_at g y) = true →
  let s' := TaxiAgent.mkSearch (((c + w + h y d)%Q, y) :: heap)
              (<[y := cur]> trace) (<[y := Finite (c + w)]> g) in
  Inv h m o d (Some cur) (processed ++ [(y, (dir, w))]) s'
  ∧ variant m o s' ≤ variant m o (TaxiAgent.mkSearch heap trace g).
Proof.
  intros [Hdom Horigin Hheap Hdest Hrelaxed Htraced Hwitness] Hcur Hroad Hlt.
  simpl in *.
  pose proof (Hweights _ _ _ Hroad) as Hw.
  destruct (Hwitness cur c Hcur) as (Pc & HPc & Hendc & Hcostc & Hnodupc).
  pose proof (witness_rcost_nonneg _ _ HPc) as Hc0.
  destruct (Htraced cur c Hcur) as (Tc & HTc & HendTc).
  assert (Hyo : y ≠ o).
  { intros ->. unfold g_at in Hlt. rewrite Horigin in Hlt. simpl in Hlt.
    apply Qltb_true in Hlt. lra. }
  assert (Hycur : y ≠ cur).
  { intros ->. unfold g_at in Hlt. rewrite Hcur in Hlt. simpl in Hlt.
    apply Qltb_true in Hlt. lra. }
  assert (Hy : is_Some (g !! y)).
  { apply Hdom. by eapply Hclosed. }
  pose proof (improves_insert g y _ Hlt) as Himp.
  set (g' := <[y := Finite (c + w)]> g) in *.
  set (trace' := <[y := cur]> trace).
  (* the new witness of [y] *)
  assert (HPy : witness m o g' ((cur, y, w) :: Pc)).
  { constructor; [by eapply witness_improves|done|done|].
    exists (c + w)%Q. split; [apply lookup_insert_eq|lra]. }
  assert (Hnodupy : NoDup (entered ((cur, y, w) :: Pc))).
  { simpl. apply NoDup_cons. split; [|done].
    intros Hin. destruct (witness_entered _ _ _ HPc Hin) as (cy & Hcy & Hle).
    unfold g_at in Hlt. rewrite Hcy in Hlt. simpl in Hlt.
    apply Qltb_true in Hlt. lra. }
  (* the new traced way of [y] *)
  assert (HTy : traced m o g' trace' ((cur, y, w) :: Tc)).
  { apply (traced_cons _ _ _ _ _ _ _ _ c (c + w)); try done.
    - eapply traced_keep; [done|done| |].
      + by rewrite HendTc.
      + lra.
    - apply lookup_insert_eq.
    - unfold g'. by rewrite lookup_insert_ne.
    - apply lookup_insert_eq.
    - lra. }
  split.
  - constructor; simpl.
    + intros x. unfold g'. destruct (decide (x = y)) as [->|Hne].
      * rewrite lookup_insert_eq. rewrite <- Hdom. split; [done|eauto].
      * rewrite lookup_insert_ne by done. apply Hdom.
    + unfold g'. by rewrite lookup_insert_ne.
    + intros f x [[= -> ->]|Hin]%elem_of_cons.
      * exists (c + w)%Q. split; [apply lookup_insert_eq|]. intros _. lra.
      * destruct (Hheap f x Hin) as (cx & Hx & Hfx).
        destruct (decide (x = y)) as [->|Hne].
        -- exists (c + w)%Q. split; [apply lookup_insert_eq|].
           intros Hno. specialize (Hfx Hno).
           unfold g_at in Hlt. rewrite Hx in Hlt. simpl in Hlt.
           apply Qltb_true in Hlt. lra.
        -- exists cx. split; [|done]. unfold g'. by rewrite lookup_insert_ne.
    + intros cd Hd. destruct (decide (d = y)) as [->|Hne].
      * eexists. apply elem_of_cons. by left.
      * unfold g' in Hd. rewrite lookup_insert_ne in Hd by done.
        destruct (Hdest cd Hd) as (f & Hf).
        exists f. apply elem_of_cons. by right.
    + intros x cx items Hx Hitems.
      destruct (decide (x = y)) as [->|Hne].
      * left. unfold g' in Hx. rewrite lookup_insert_eq in Hx.
        injection Hx as <-. exists (c + w + h y d)%Q.
        split; [apply elem_of_cons; by left|lra].
      * unfold g' in Hx. rewrite lookup_insert_ne in Hx by done.
        destruct (Hrelaxed x cx items Hx Hitems) as [(f & Hf & Hle)|Hclosed'].
        { left. exists f. split; [apply elem_of_cons; by right|done]. }
        right. destruct (decide (Some x = Some cur)) as [[= ->]|Hxcur].
        -- assert (cx = c) as -> by congruence.
           intros y' dir' w' [Hin|Hin]%elem_of_app.
           ++ eapply at_most_improves; [done|]. by eapply Hclosed'.
           ++ apply list_elem_of_singleton in Hin as [= -> -> ->].
              exists (c + w)%Q. split; [apply lookup_insert_eq|lra].
        -- intros y' dir' w' Hin.
           eapply at_most_improves; [done|]. by eapply Hclosed'.
    + intros x cx Hx.
      destruct (decide (x = y)) as [->|Hne].
      * by exists ((cur, y, w) :: Tc).
      * unfold g' in Hx. rewrite lookup_insert_ne in Hx by done.
        destruct (Htraced x cx Hx) as (T & HT & HendT).
        destruct (traced_update g trace y cur _ _ Hlt HTy eq_refl T HT)
          as (T' & HT' & HendT').
        exists T'. split; [done|congruence].
    + intros x cx Hx.
      destruct (decide (x = y)) as [->|Hne].
      * unfold g' in Hx. rewrite lookup_insert_eq in Hx. injection Hx as <-.
        exists ((cur, y, w) :: Pc). repeat split; try done.
        simpl. lra.
      * unfold g' in Hx. rewrite lookup_insert_ne in Hx by done.
        destruct (Hwitness x cx Hx) as (P & HP & HendP & HcostP & HnodupP).
        exists P. repeat split; try done. by eapply witness_improves.
  - unfold variant. simpl.
    assert (slack m o g' < slack m o g); [|lia].
    apply (slack_insert g y (c + w)%Q ((cur, y, w) :: Pc)); try done.
    + by apply (witness_candidate g').
    + simpl. lra.
Qed.
(** A relaxation that finds no lower cost changes nothing. *)
Lemma Inv_keep cur processed s y dir w c :
  Inv h m o d (Some cur) processed s →
  TaxiAgent.cost_from_start s !! cur = Some (Finite c) →
  cost_lt (c + w) (g_at (TaxiAgent.cost_from_start s) y) = false →
  Inv h m o d (Some cur) (processed ++ [(y, (dir, w))]) s.
Proof.
  intros [Hdom Horigin Hheap Hdest Hrelaxed Htraced Hwitness] Hcur Hlt.
  constructor; try done.
  intros x cx items Hx Hitems.
  destruct (Hrelaxed x cx items Hx Hitems) as [Hopen|Hclosed']; [by left|].
  right. destruct (decide (Some x = Some cur)) as [[= ->]|Hxcur]; [|done].
  assert (cx = c) as -> by congruence.
  intros y' dir' w' [Hin|Hin]%elem_of_app; [by eapply Hclosed'|].
  apply list_elem_of_singleton in Hin as [= -> -> ->].
  apply cost_lt_false in Hlt as (gy & Hgy & Hle).
  unfold g_at in Hgy.
  destruct (TaxiAgent.cost_from_start s !! y) as [[cy|]|] eqn:Hy;
    simpl in Hgy; try done.
  injection Hgy as ->. by exists gy.
Qed.

(** *** Expanding a node *)

Lemma relax_all_Inv cur c rest :
  ∀ processed s,
    Inv h m o d (Some cur) processed s →
    m !! cur = Some (processed ++ rest) →
    TaxiAgent.cost_from_start s !! cur = Some (Finite c) →
    ∃ s',
      TaxiAgent.relax_all h d cur s rest = Ok s'
      ∧ Inv h m o d (Some cur) (processed ++ rest) s'
      ∧ variant m o s' ≤ variant m o s.
Proof.
  induction rest as [|[y [dir w]] rest IH]; intros processed s HInv Hitems Hcur.
  { exists s. rewrite app_nil_r. simpl. done. }
  assert (Hroad : road m cur y w).
  { exists (processed ++ (y, (dir, w)) :: rest), dir. split; [done|].
    apply elem_of_app. right. apply elem_of_cons. by left. }
  assert (Hy : is_Some (TaxiAgent.cost_from_start s !! y)).
  { apply (inv_dom _ _ _ _ _ _ _ HInv). by eapply Hclosed. }
  replace (processed ++ (y, (dir, w)) :: rest)
    with ((processed ++ [(y, (dir, w))]) ++ rest) in *
    by (by rewrite <- app_assoc).
  cbn [TaxiAgent.relax_all].
  destruct (relax_cases cur s y dir w c Hcur Hy) as [[Hlt ->]|[Hlt ->]];
    cbn [mbind result_bind].
  - destruct s as [heap trace g]. simpl in *.
    destruct (Inv_improve cur processed heap trace g y dir w c
                HInv Hcur Hroad Hlt) as [HInv' Hvar].
    destruct (IH _ _ HInv' Hitems) as (s' & Hrun & HInv'' & Hvar').
    { simpl. rewrite lookup_insert_ne; [done|].
      intros ->. unfold g_at in Hlt. rewrite Hcur in Hlt. simpl in Hlt.
      apply Qltb_true in Hlt. specialize (Hweights _ _ _ Hroad). lra. }
    exists s'. split; [done|]. split; [done|]. lia.
  - apply IH; [|done|done]. by eapply Inv_keep.
Qed.

Lemma Inv_pop processed s f cur rest :
  Inv h m o d None processed s →
  TaxiAgent.heappop (TaxiAgent.to_explore s) = Some ((f, cur), rest) →
  cur ≠ d →
  let s' := TaxiAgent.mkSearch rest (TaxiAgent.path_trace s)
              (TaxiAgent.cost_from_start s) in
  Inv h m o d (Some cur) [] s'
  ∧ variant m o s' < variant m o s
  ∧ ∃ c items,
      TaxiAgent.cost_from_start s !! cur = Some (Finite c)
      ∧ m !! cur = Some items.
Proof.
  intros [Hdom Horigin Hheap Hdest Hrelaxed Htraced Hwitness] Hpop Hne.
  destruct (heappop_spec _ _ _ Hpop) as [Hperm _].
  assert (Hsub : ∀ f' x, x ≠ cur →
            (f', x) ∈ TaxiAgent.to_explore s → (f', x) ∈ rest).
  { intros f' x Hx Hin. rewrite <- Hperm in Hin.
    apply elem_of_cons in Hin as [[= _ ->]|Hin]; done. }
  assert (Hsup : ∀ e, e ∈ rest → e ∈ TaxiAgent.to_explore s).
  { intros e Hin. rewrite <- Hperm. apply elem_of_cons. by right. }
  assert (Hcur : (f, cur) ∈ TaxiAgent.to_explore s).
  { rewrite <- Hperm. apply elem_of_cons. by left. }
  destruct (Hheap f cur Hcur) as (c & Hc & _).
  assert (is_Some (m !! cur)) as [items Hitems] by (apply Hdom; eauto).
  simpl. split; [|split].
  - constructor; simpl; try done.
    + intros f' x Hin. apply Hheap. by apply Hsup.
    + intros cd Hd. destruct (Hdest cd Hd) as (f' & Hf').
      exists f'. by apply Hsub.
    + intros x cx items' Hx Hitems'.
      destruct (decide (Some x = Some cur)) as [[= ->]|Hxcur].
      * right. intros y dir w Hin. by apply elem_of_nil in Hin.
      * destruct (Hrelaxed x cx items' Hx Hitems')
          as [(f' & Hf' & Hle)|Hclosed']; [|by right].
        left. exists f'. split; [|done]. apply Hsub; [congruence|done].
  - unfold variant. simpl.
    apply Permutation_length in Hperm. simpl in Hperm. lia.
  - eauto.
Qed.

Lemma Inv_close cur items s :
  Inv h m o d (Some cur) items s →
  m !! cur = Some items →
  Inv h m o d None [] s.
Proof.
  intros [Hdom Horigin Hheap Hdest Hrelaxed Htraced Hwitness] Hitems.
  constructor; try done.
  intros x cx items' Hx Hitems'.
  destruct (Hrelaxed x cx items' Hx Hitems') as [Hopen|Hclosed']; [by left|].
  right. rewrite decide_False by done.
  destruct (decide (Some x = Some cur)) as [[= ->]|Hxcur]; [|done].
  by assert (items' = items) as -> by congruence.
Qed.
(** *** The start of the search *)

Lemma Inv_init :
  is_Some (m !! o) → o ≠ d →
  Inv h m o d None [] (TaxiAgent.search_init m o).
Proof.
  intros Ho Hod.
  assert (Hfin : ∀ x c,
            (<[o := Finite 0]> ((λ _, Infinity) <$> m) : gmap coord cost) !! x
            = Some (Finite c) → x = o ∧ c = 0%Q).
  { intros x c. destruct (decide (x = o)) as [->|Hne].
    - rewrite lookup_insert_eq. by intros [= <-].
    - rewrite lookup_insert_ne by done. rewrite lookup_fmap.
      by destruct (m !! x). }
  constructor; simpl.
  - intros x. destruct (decide (x = o)) as [->|Hne].
    + rewrite lookup_insert_eq. split; eauto.
    + rewrite lookup_insert_ne by done. rewrite lookup_fmap.
      by rewrite fmap_is_Some.
  - apply lookup_insert_eq.
  - intros f x [= -> ->]%list_elem_of_singleton.
    exists 0%Q. split; [apply lookup_insert_eq|done].
  - intros c [? _]%Hfin. congruence.
  - intros x c items [-> ->]%Hfin _. left.
    exists 0%Q. split; [by apply list_elem_of_singleton|].
    specialize (Hh_nonneg o Ho). lra.
  - intros x c [-> ->]%Hfin. exists []. split; [|done].
    constructor. apply lookup_empty.
  - intros x c [-> ->]%Hfin. exists []. repeat split; try done.
    + constructor.
    + constructor.
Qed.

(** *** What the search has found when it stops *)

(** When the open list runs empty, no route leads from a node with a
    recorded cost to the destination. *)
Lemma empty_no_route processed s :
  Inv h m o d None processed s →
  TaxiAgent.to_explore s = [] →
  ∀ l c, Walk m l c →
    ∀ x cx, head l = Some x → last l = Some d →
      TaxiAgent.cost_from_start s !! x = Some (Finite cx) → False.
Proof.
  intros [Hdom Horigin Hheap Hdest Hrelaxed Htraced Hwitness] Hempty.
  induction 1 as [u Hu|u v l w c Hroad Hwalk IH]; intros x cx Hhead Hlast Hx.
  - simpl in Hhead, Hlast. assert (x = d) as -> by congruence.
    destruct (Hdest cx Hx) as (f & Hf). rewrite Hempty in Hf.
    by apply elem_of_nil in Hf.
  - simpl in Hhead. injection Hhead as ->.
    assert (Hlast' : last (v :: l) = Some d) by (by destruct l).
    destruct Hroad as (items & dir & Hitems & Hin).
    destruct (Hrelaxed x cx items Hx Hitems) as [(f' & Hf' & _)|Hcl].
    + rewrite Hempty in Hf'. by apply elem_of_nil in Hf'.
    + rewrite decide_False in Hcl by done.
      destruct (Hcl v dir w Hin) as (cv & Hcv & _).
      by eapply (IH v cv).
Qed.

(** *** Reading the route back *)

Lemma trace_back_traced g trace P :
  traced m o g trace P →
  ∀ fuel acc, length P < fuel →
    TaxiAgent.trace_back fuel trace (rend o P) acc
    = Returned (Some (waypoints_before P ++ acc)).
Proof.
  induction 1 as [Ho|u v w P cu cv HP IH Hend Htr Hroad Hu Hv Hle];
    intros fuel acc Hfuel; simpl in *.
  - destruct fuel as [|k]; [lia|]. simpl. by rewrite Ho.
  - destruct fuel as [|k]; [lia|]. simpl. rewrite Htr.
    rewrite <- Hend, IH by lia. by rewrite <- app_assoc.
Qed.

Lemma traced_walk g trace P :
  traced m o g trace P →
  ∀ acc c_acc, Walk m (rend o P :: acc) c_acc →
    ∃ c, Walk m (waypoints_before P ++ rend o P :: acc) c
         ∧ (c == rcost P + c_acc)%Q
         ∧ head (waypoints_before P ++ rend o P :: acc) = Some o.
Proof.
  induction 1 as [Ho|u v w P cu cv HP IH Hend Htr Hroad Hu Hv Hle];
    intros acc c_acc Hacc; simpl in *.
  - exists c_acc. split; [done|]. split; [lra|done].
  - destruct (IH (v :: acc) (w + c_acc)%Q) as (c & Hwalk & Hc & Hhead).
    { rewrite Hend. by constructor. }
    rewrite Hend in Hwalk, Hhead.
    exists c. rewrite <- app_assoc. simpl. split; [done|]. split; [lra|done].
Qed.
(** *** Routes *)

Lemma Walk_head_dom l c : Walk m l c → ∃ x, head l = Some x ∧ is_Some (m !! x).
Proof.
  destruct 1 as [u Hu|u v l w c (items & dir & Hitems & _) _]; simpl; eauto.
Qed.

Lemma Walk_last_dom l c : Walk m l c → ∃ x, last l = Some x ∧ is_Some (m !! x).
Proof.
  induction 1 as [u Hu|u v l w c Hroad Hwalk IH]; simpl; [eauto|].
  destruct IH as (x & Hlast & Hx). exists x. split; [|done]. by destruct l.
Qed.

Lemma Walk_cost_nonneg l c : Walk m l c → (0 <= c)%Q.
Proof.
  induction 1 as [u Hu|u v l w c Hroad Hwalk IH]; [lra|].
  specialize (Hweights _ _ _ Hroad). lra.
Qed.

(** *** The search returns, and what it returns *)

End PlannerFacts.

(** More fuel does not change an answer. *)
Lemma trace_back_mono trace fuel :
  ∀ cur acc r fuel',
    TaxiAgent.trace_back fuel trace cur acc = r → r ≠ OutOfFuel →
    fuel ≤ fuel' → TaxiAgent.trace_back fuel' trace cur acc = r.
Proof.
  induction fuel as [|k IH]; intros cur acc r fuel' Hr Hne Hle; simpl in Hr.
  { congruence. }
  destruct fuel' as [|k']; [lia|]. simpl.
  destruct (trace !! cur) as [prev|]; [|done].
  eapply IH; [done|done|lia].
Qed.

(** *** Checking a given map *)

Lemma roads_Forall (m : RoadMap) (P : coord → coord → Q → Prop) :
  Forall (λ e, P e.1.1 e.1.2 e.2) (all_roads m) →
  ∀ u v w, road m u v w → P u v w.
Proof.
  intros Hall u v w Hroad%road_all_roads.
  rewrite Forall_forall in Hall. by apply (Hall (u, v, w)).
Qed.

Lemma nodes_Forall (m : RoadMap) (P : coord → Prop) :
  Forall P (map_to_list m).*1 → ∀ a, is_Some (m !! a) → P a.
Proof.
  intros Hall a [items Ha]. rewrite Forall_forall in Hall. apply Hall.
  apply list_elem_of_fmap. exists (a, items). split; [done|].
  by apply elem_of_map_to_list.
Qed.

Lemma odict_get_elem {K V} `{EqDecision K} (k : K) (v : V) d :
  ODict.get k d = Some v → (k, v) ∈ d.
Proof.
  induction d as [|[k' v'] r IH]; simpl; [done|].
  destruct (decide (k = k')) as [->|].
  - intros [= ->]. apply elem_of_cons. by left.
  - intros Hr. apply elem_of_cons. right. by apply IH.
Qed.

(** A cost computed by lookups is the cost of a walk. *)
Lemma route_cost_Walk (m : RoadMap) (l : list coord) :
  ∀ c, route_cost m l = Some c → Walk m l c.
Proof.
  induction l as [|u l IH]; intros c Hc; simpl in Hc; [done|].
  destruct l as [|v l].
  - destruct (m !! u) eqn:Hu; [|done]. injection Hc as <-.
    constructor. eauto.
  - destruct (m !! u) as [items|] eqn:Hu; [|done]. cbn [mbind option_bind] in Hc.
    destruct (ODict.get v items) as [[dir w]|] eqn:Hv; [|done].
    cbn [mbind option_bind] in Hc.
    destruct (route_cost m (v :: l)) as [c0|] eqn:Hrest; [|done].
    cbn [mbind option_bind] in Hc. injection Hc as <-. simpl.
    constructor; [|by apply IH].
    exists items, dir. split; [done|]. by apply odict_get_elem.
Qed.

Ltac compute_roads m :=
  let l := eval vm_compute in (all_roads m) in
  change (all_roads m) with l.

Ltac compute_nodes m :=
  let l := eval vm_compute in ((map_to_list m).*1) in
  change ((map_to_list m).*1) with l.

Lemma detour_map_ok :
  nonneg_weights Examples.detour_map ∧ closed_map Examples.detour_map
  ∧ straight_line_on Examples.detour_map Examples.axis_distance
  ∧ consistent Examples.detour_map Examples.axis_distance (0, 2)%Z.
Proof.
  split; [|split; [|split]].
  - unfold nonneg_weights. apply roads_Forall.
    compute_roads Examples.detour_map.
    repeat constructor; simpl; lra.
  - unfold closed_map.
    apply (roads_Forall _ (λ _ v _, is_Some (Examples.detour_map !! v))).
    compute_roads Examples.detour_map.
    repeat constructor; simpl; eexists; vm_compute; reflexivity.
  - intros a b Ha Hb. revert a Ha.
    apply (nodes_Forall _ (λ a,
      (0 <= Examples.axis_distance a b)%Q
      ∧ (Examples.axis_distance a b * Examples.axis_distance a b
         == inject_Z ((a.1 - b.1) * (a.1 - b.1)
                      + (a.2 - b.2) * (a.2 - b.2)))%Q)).
    revert b Hb. apply nodes_Forall.
    compute_nodes Examples.detour_map.
    repeat constructor; vm_compute; congruence.
  - unfold consistent.
    apply (roads_Forall _ (λ u v w,
      (Examples.axis_distance u (0, 2)%Z
       <= w + Examples.axis_distance v (0, 2)%Z)%Q)).
    compute_roads Examples.detour_map.
    repeat constructor; vm_compute; congruence.
Qed.

(** * Further properties of the two agents *)

(** ** The roster *)

Lemma py_index_elem (x : TaxiRef) (l : list TaxiRef) :
  x ∈ l → l !! py_index x l = Some x.
Proof.
  induction l as [|y r IH]; simpl; intros Hin.
  - by apply elem_of_nil in Hin.
  - destruct (decide (x = y)) as [->|Hne]; [done|].
    apply elem_of_cons in Hin as [?|Hin]; [done|]. by apply IH.
Qed.

Lemma py_index_lt (x : TaxiRef) (l : list TaxiRef) :
  x ∈ l → py_index x l < length l.
Proof. intros Hin. eapply lookup_lt_Some, py_index_elem, Hin. Qed.

Lemma py_index_app (x : TaxiRef) (l l' : list TaxiRef) :
  x ∈ l → py_index x (l ++ l') = py_index x l.
Proof.
  induction l as [|y r IH]; simpl; intros Hin.
  - by apply elem_of_nil in Hin.
  - destruct (decide (x = y)) as [->|Hne]; [done|].
    apply elem_of_cons in Hin as [?|Hin]; [done|]. by rewrite IH.
Qed.

(** X1.  [addTaxi] makes the taxi known without disturbing the roster:
    every taxi already known keeps its position, so that the roster
    indices stored in the fares keep their meaning; a taxi is never
    listed twice; adding a known taxi changes nothing; the board is left
    alone. *)
Theorem addTaxi_keeps_roster_indices (self : Dispatcher.t) (taxi : TaxiRef) :
  let self' := DispatcherRest.addTaxi self taxi in
  taxi ∈ Dispatcher._taxis self'
  ∧ (∀ i ref, Dispatcher._taxis self !! i = Some ref →
              Dispatcher._taxis self' !! i = Some ref)
  ∧ (∀ ref, ref ∈ Dispatcher._taxis self →
            py_index ref (Dispatcher._taxis self')
            = py_index ref (Dispatcher._taxis self))
  ∧ (NoDup (Dispatcher._taxis self) → NoDup (Dispatcher._taxis self'))
  ∧ DispatcherRest.addTaxi self' taxi = self'
  ∧ Dispatcher._fareBoard self' = Dispatcher._fareBoard self.
Proof.
  unfold DispatcherRest.addTaxi.
  destruct (bool_decide (taxi ∈ Dispatcher._taxis self)) eqn:Hin.
  - apply bool_decide_eq_true in Hin. simpl. rewrite bool_decide_true by done.
    repeat split; done.
  - apply bool_decide_eq_false in Hin. simpl.
    assert (Hnow : taxi ∈ Dispatcher._taxis self ++ [taxi]).
    { apply elem_of_app. right. by apply elem_of_cons; left. }
    rewrite bool_decide_true by done.
    split; [done|]. split.
    { intros i ref Hi. by apply lookup_app_l_Some. }
    split.
    { intros ref Href. by apply py_index_app. }
    split; [|done].
    intros Hnd. apply NoDup_app. split; [done|]. split.
    + intros x Hx Hx'. apply list_elem_of_singleton in Hx' as ->. done.
    + apply NoDup_singleton.
Qed.

(** ** Dictionaries as association lists: keys *)

Section ODictKeys.
Context {K V : Type} `{EqDecision K}.
Implicit Types (k : K) (v : V) (d : list (K * V)).

Lemma odict_get_None k d : ODict.get k d = None ↔ k ∉ d.*1.
Proof.
  induction d as [|[k' v'] r IH]; simpl.
  - split; [intros _; apply not_elem_of_nil|done].
  - rewrite not_elem_of_cons. destruct (decide (k = k')) as [->|Hne].
    + split; [done|]. intros [? _]. done.
    + rewrite IH. tauto.
Qed.

Lemma odict_set_keys k v d :
  (ODict.set k v d).*1
  = match ODict.get k d with Some _ => d.*1 | None => d.*1 ++ [k] end.
Proof.
  induction d as [|[k' v'] r IH]; cbn [ODict.set ODict.get]; [done|].
  destruct (decide (k = k')) as [->|Hne]; [done|].
  rewrite !fmap_cons, IH. by destruct (ODict.get k r).
Qed.

Lemma odict_set_NoDup k v d : NoDup d.*1 → NoDup (ODict.set k v d).*1.
Proof.
  intros Hnd. rewrite odict_set_keys.
  destruct (ODict.get k d) eqn:Hget; [done|].
  apply odict_get_None in Hget.
  apply NoDup_app. split; [done|]. split; [|apply NoDup_singleton].
  intros x Hx Hx'. apply list_elem_of_singleton in Hx' as ->. done.
Qed.

Lemma odict_del_elem k k' d : k' ∈ (ODict.del k d).*1 → k' ∈ d.*1.
Proof.
  induction d as [|[k0 v0] r IH]; simpl; [done|].
  destruct (decide (k = k0)) as [->|Hne]; simpl.
  - intros Hin. apply elem_of_cons; right. by apply IH.
  - rewrite !elem_of_cons. intros [?|?]; [by left|]. right. by apply IH.
Qed.

Lemma odict_del_NoDup k d : NoDup d.*1 → NoDup (ODict.del k d).*1.
Proof.
  induction d as [|[k0 v0] r IH]; simpl; [done|].
  rewrite NoDup_cons. intros [Hnotin Hnd].
  destruct (decide (k = k0)) as [->|Hne]; simpl; [by apply IH|].
  apply NoDup_cons. split; [|by apply IH].
  intros Hin. by apply odict_del_elem in Hin.
Qed.

Lemma odict_del_set k v d : ODict.del k (ODict.set k v d) = ODict.del k d.
Proof.
  induction d as [|[k0 v0] r IH]; simpl.
  - by rewrite decide_True.
  - destruct (decide (k = k0)) as [->|Hne]; simpl.
    + by rewrite decide_True.
    + rewrite decide_False by done. by rewrite IH.
Qed.

Lemma odict_set_nonempty k v d : length (ODict.set k v d) ≠ 0.
Proof.
  destruct d as [|[k0 v0] r]; simpl; [done|].
  by destruct (decide (k = k0)).
Qed.

End ODictKeys.

(** ** What a tick leaves in place *)

Section TickKeys.
Variable W : World.t.
Variable self : Dispatcher.t.

Lemma tick_times_dom origin destination keys :
  ∀ (times : gmap Z FareEntry.t) t,
    is_Some (final (Dispatcher.tick_times W self origin destination keys times)
             !! t)
    ↔ is_Some (times !! t).
Proof.
  induction keys as [|time rest IH]; intros times t; simpl; [done|].
  destruct (times !! time) as [fare|] eqn:Hfare; simpl; [|done].
  assert (Hdom : ∀ f, is_Some (<[time:=f]> times !! t) ↔ is_Some (times !! t)).
  { intros f. destruct (decide (time = t)) as [->|Hne].
    - rewrite lookup_insert_eq, Hfare. split; eauto.
    - by rewrite lookup_insert_ne. }
  destruct (raised _); simpl; [apply Hdom|].
  rewrite IH. apply Hdom.
Qed.

Lemma tick_dests_keys origin dests :
  (final (Dispatcher.tick_dests W self origin dests)).*1 = dests.*1.
Proof.
  induction dests as [|[d times] rest IH]; cbn [Dispatcher.tick_dests]; [done|].
  destruct (raised _); cbn [final]; rewrite !fmap_cons; [done|].
  by rewrite IH.
Qed.

Lemma tick_origins_keys (b : FareBoard) :
  (final (Dispatcher.tick_origins W self b)).*1 = b.*1.
Proof.
  induction b as [|[o dests] rest IH]; cbn [Dispatcher.tick_origins]; [done|].
  destruct (raised _); cbn [final]; rewrite !fmap_cons; [done|].
  by rewrite IH.
Qed.

(** The destinations a sweep leaves under an origin are those it found
    there, untouched or swept. *)
Lemma tick_origins_get_back (b : FareBoard) o dests' :
  ODict.get o (final (Dispatcher.tick_origins W self b)) = Some dests' →
  ∃ dests, ODict.get o b = Some dests
           ∧ (dests' = dests
              ∨ dests' = final (Dispatcher.tick_dests W self o dests)).
Proof.
  intros Hget.
  destruct (ODict.get o b) as [dests|] eqn:Ho.
  - exists dests. split; [done|].
    destruct (tick_origins_get W self b o dests Ho) as [[H1|H1] _];
      simpl in H1; rewrite H1 in Hget; injection Hget as <-; auto.
  - apply odict_get_None in Ho. rewrite <- tick_origins_keys in Ho.
    apply odict_get_None in Ho. congruence.
Qed.

Lemma tick_dests_get_back origin dests d times' :
  ODict.get d (final (Dispatcher.tick_dests W self origin dests)) = Some times' →
  ∃ times, ODict.get d dests = Some times
           ∧ (times' = times
              ∨ times' = final (Dispatcher.tick_times W self origin d
                                  (Dispatcher.sorted_keys times) times)).
Proof.
  intros Hget.
  destruct (ODict.get d dests) as [times|] eqn:Hd.
  - exists times. split; [done|].
    destruct (tick_dests_get W self origin dests d times Hd) as [[H1|H1] _];
      simpl in H1; rewrite H1 in Hget; injection Hget as <-; auto.
  - apply odict_get_None in Hd. rewrite <- (tick_dests_keys origin) in Hd.
    apply odict_get_None in Hd. congruence.
Qed.

(** A fare found on the board after a sweep was there before, and is as
    it was or as one run of the loop body leaves it. *)
Lemma tick_origins_back (b : FareBoard) o d t fare' :
  Dispatcher.board_get (final (Dispatcher.tick_origins W self b)) o d t
  = Some fare' →
  ∃ fare, Dispatcher.board_get b o d t = Some fare
          ∧ (fare' = fare
             ∨ fare' = final (Dispatcher.tick_fare W self o d fare)).
Proof.
  intros Hget.
  destruct (Dispatcher.board_get b o d t) as [fare|] eqn:Hb.
  - exists fare. split; [done|].
    destruct (tick_origins_fare W self b o d t fare Hb) as [[H1|H1] _];
      simpl in H1; rewrite H1 in Hget; injection Hget as <-; auto.
  - exfalso. unfold Dispatcher.board_get in *.
    destruct (ODict.get o (final _)) as [dests'|] eqn:Ho'; [|done].
    cbn [mbind option_bind] in Hget.
    destruct (tick_origins_get_back b o dests' Ho') as (dests & Ho & Hcase).
    rewrite Ho in Hb. cbn [mbind option_bind] in Hb.
    destruct (ODict.get d dests') as [times'|] eqn:Hd'; [|done].
    cbn [mbind option_bind] in Hget.
    assert (∃ times, ODict.get d dests = Some times
                     ∧ (times' = times
                        ∨ times' = final (Dispatcher.tick_times W self o d
                                    (Dispatcher.sorted_keys times) times)))
      as (times & Hd & Htimes).
    { destruct Hcase as [-> | ->]; [eauto|]. by apply tick_dests_get_back. }
    rewrite Hd in Hb. cbn [mbind option_bind] in Hb.
    destruct Htimes as [-> | ->]; [congruence|].
    rewrite tick_times_absent in Hget by done. done.
Qed.

(** The loop body changes the price or the taxi of a fare, nothing else,
    and a taxi it records is a roster index. *)
Lemma tick_fare_fields origin destination fare :
  let fare' := final (Dispatcher.tick_fare W self origin destination fare) in
  FareEntry.origin fare' = FareEntry.origin fare
  ∧ FareEntry.destination fare' = FareEntry.destination fare
  ∧ FareEntry.calltime fare' = FareEntry.calltime fare
  ∧ FareEntry.bidders fare' = FareEntry.bidders fare
  ∧ (FareEntry.taxi fare' = FareEntry.taxi fare
     ∨ ∃ k, k < length (Dispatcher._taxis self)
            ∧ FareEntry.taxi fare' = Z.of_nat k).
Proof.
  destruct (up_for_allocation fare) eqn:Hup.
  - pose proof (tick_fare_allocation W self origin destination fare Hup)
      as [Hwin _].
    simpl in Hwin. rewrite tick_fare_allocates in * by done.
    destruct (allocateFare_touches_taxi_only W self origin fare)
      as [Hsame | [k Hk]]; simpl in *.
    + rewrite Hsame. repeat split; auto.
    + rewrite Hk in *. repeat split; try done.
      right. exists k. split; [|done].
      destruct (Hwin k eq_refl) as (ref & _ & Href & _).
      by eapply lookup_lt_Some.
  - destruct (tick_fare_taxi W self origin destination fare Hup) as [Ht Hb].
    simpl. split; [|split; [|split; [|split; [done|by left]]]].
    all: unfold Dispatcher.tick_fare, up_for_allocation in *.
    all: destruct (pyeqb (FareEntry.price fare) (Fin 0)); [done|].
    all: simpl in Hup; by rewrite Hup.
Qed.
End TickKeys.

(** ** What the dispatcher's methods maintain *)

Lemma fare_ok_mono (n n' : nat) o d t f :
  n ≤ n' → fare_ok n o d t f → fare_ok n' o d t f.
Proof.
  intros Hle (Ho & Hd & Ht & Htaxi & Hb). repeat split; try done.
  - destruct Htaxi as [?|?]; [by left|right; lia].
  - eapply Forall_impl; [exact Hb|]. simpl. intros; lia.
Qed.

Lemma clockTick_board_ok W self parent :
  board_ok self → board_ok (final (Dispatcher.clockTick W self parent)).
Proof.
  intros (Hkeys & Hinner & Hlevels & Hfares).
  unfold Dispatcher.clockTick. case_decide; [|done].
  unfold board_ok. cbn [final Dispatcher._fareBoard Dispatcher.set_board
                         Dispatcher._taxis].
  split; [by rewrite tick_origins_keys|].
  assert (Hback : ∀ o dests',
            ODict.get o (final (Dispatcher.tick_origins W self
                                  (Dispatcher._fareBoard self))) = Some dests' →
            ∃ dests, ODict.get o (Dispatcher._fareBoard self) = Some dests
                     ∧ dests'.*1 = dests.*1
                     ∧ ∀ d times', ODict.get d dests' = Some times' →
                         ∃ times, ODict.get d dests = Some times
                                  ∧ ∀ t, is_Some (times' !! t)
                                         ↔ is_Some (times !! t)).
  { intros o dests' Hget.
    destruct (tick_origins_get_back W self _ o dests' Hget)
      as (dests & Ho & [-> | ->]).
    - exists dests. split; [done|]. split; [done|]. eauto.
    - exists dests. split; [done|]. split; [apply tick_dests_keys|].
      intros d times' Hd.
      destruct (tick_dests_get_back W self o dests d times' Hd)
        as (times & Hd0 & [-> | ->]).
      + eauto.
      + exists times. split; [done|]. intros t. apply tick_times_dom. }
  split; [|split].
  - intros o dests' Hget.
    destruct (Hback o dests' Hget) as (dests & Ho & Hk & _).
    rewrite Hk. by eapply Hinner.
  - intros o dests' Hget.
    destruct (Hback o dests' Hget) as (dests & Ho & Hk & Htimes).
    destruct (Hlevels o dests Ho) as [Hlen Hsize]. split.
    + rewrite <- (length_fmap fst), Hk, length_fmap. done.
    + intros d times' Hd. destruct (Htimes d times' Hd) as (times & Hd0 & Hdom).
      apply map_size_ne_0_lookup.
      destruct (proj1 (map_size_ne_0_lookup _) (Hsize d times Hd0)) as [t Ht].
      exists t. by apply Hdom.
  - intros o d t f' Hget.
    destruct (tick_origins_back W self _ o d t f' Hget)
      as (f & Hf & [-> | ->]); [by eapply Hfares|].
    destruct (Hfares o d t f Hf) as (Ho & Hd & Ht & Htaxi & Hb).
    destruct (tick_fare_fields W self o d f) as (Ho' & Hd' & Ht' & Hb' & Htaxi').
    simpl in *. unfold fare_ok. rewrite Ho', Hd', Ht', Hb'.
    repeat split; try done.
    destruct Htaxi' as [-> | (k & Hk & ->)]; [done|]. right. lia.
Qed.


(** ** cancelFare: what leaves the board *)

Lemma board_without_get (b : FareBoard) (o d : coord) (t : Z) o' d' t' :
  Dispatcher.board_get (board_without b o d t) o' d' t'
  = if decide ((o', d', t') = (o, d, t)) then None
    else Dispatcher.board_get b o' d' t'.
Proof.
  unfold board_without, Dispatcher.board_get.
  destruct (ODict.get o b) as [dests|] eqn:Ho.
  2:{ case_decide as Hk; [|done]. injection Hk as -> -> ->. by rewrite Ho. }
  destruct (ODict.get d dests) as [times|] eqn:Hd.
  2:{ case_decide as Hk; [|done]. injection Hk as -> -> ->.
      rewrite Ho. cbn [mbind option_bind]. by rewrite Hd. }
  cbn zeta.
  destruct (decide (o' = o)) as [->|Hno].
  2:{ destruct (decide ((_, _, _) = (_, _, _))) as [?|_]; [congruence|].
      case_decide; [by rewrite odict_get_del_ne|by rewrite odict_get_set_ne]. }
  rewrite Ho. cbn [mbind option_bind].
  destruct (decide (size (delete t times) = 0)) as [Hz|Hnz].
  - apply map_size_empty_iff in Hz.
    assert (Hrow : ∀ t'', t'' ≠ t → times !! t'' = None).
    { intros t'' Hne. rewrite <- (lookup_delete_ne times t t'') by done.
      by rewrite Hz. }
    assert (Hgoal : (ODict.get d' (ODict.del d dests) ≫= λ ts : gmap Z FareEntry.t, ts !! t')
                    = if decide ((o, d', t') = (o, d, t)) then None
                      else ODict.get d' dests ≫= λ ts : gmap Z FareEntry.t, ts !! t').
    { destruct (decide (d' = d)) as [->|Hnd].
      - rewrite odict_get_del_eq, Hd. cbn [mbind option_bind].
        case_decide as Hk; [done|]. symmetry. apply Hrow. congruence.
      - rewrite odict_get_del_ne by done. destruct (decide ((_, _, _) = (_, _, _))) as [?|_]; [congruence|].
        done. }
    destruct (decide (length (ODict.del d dests) = 0)) as [Hl|Hl].
    + rewrite odict_get_del_eq. cbn [mbind option_bind].
      rewrite <- Hgoal. apply nil_length_inv in Hl. by rewrite Hl.
    + rewrite odict_get_set_eq. cbn [mbind option_bind]. exact Hgoal.
  - rewrite decide_False by apply odict_set_nonempty.
    rewrite odict_get_set_eq. cbn [mbind option_bind].
    destruct (decide (d' = d)) as [->|Hnd].
    + rewrite odict_get_set_eq, Hd. cbn [mbind option_bind].
      destruct (decide (t' = t)) as [->|Hnt].
      * rewrite decide_True by done. apply lookup_delete_eq.
      * destruct (decide ((_, _, _) = (_, _, _))) as [?|_]; [congruence|]. by apply lookup_delete_ne.
    + rewrite odict_get_set_ne by done. destruct (decide ((_, _, _) = (_, _, _))) as [?|_]; [congruence|].
      done.
Qed.

(** The structure of the board survives the removal. *)
Lemma board_without_structure (b : FareBoard) (o d : coord) (t : Z) :
  NoDup b.*1 →
  (∀ o' dests, ODict.get o' b = Some dests → NoDup dests.*1) →
  no_empty_level b →
  NoDup (board_without b o d t).*1
  ∧ (∀ o' dests, ODict.get o' (board_without b o d t) = Some dests →
                 NoDup dests.*1)
  ∧ no_empty_level (board_without b o d t).
Proof.
  intros Hkeys Hinner Hlevels. unfold board_without.
  destruct (ODict.get o b) as [dests|] eqn:Ho; [|done].
  destruct (ODict.get d dests) as [times|] eqn:Hd; [|done].
  cbn zeta.
  set (dests' := if decide (size (delete t times) = 0) then ODict.del d dests
                 else ODict.set d (delete t times) dests).
  assert (Hnd' : NoDup dests'.*1).
  { subst dests'. pose proof (Hinner o dests Ho).
    case_decide; [by apply odict_del_NoDup|by apply odict_set_NoDup]. }
  assert (Hsizes : ∀ d' times', ODict.get d' dests' = Some times' →
                                size times' ≠ 0).
  { subst dests'. intros d' times'. destruct (Hlevels o dests Ho) as [_ Hs].
    case_decide as Hz.
    - destruct (decide (d' = d)) as [->|Hnd].
      + by rewrite odict_get_del_eq.
      + rewrite odict_get_del_ne by done. apply Hs.
    - destruct (decide (d' = d)) as [->|Hnd].
      + rewrite odict_get_set_eq. by intros [= <-].
      + rewrite odict_get_set_ne by done. apply Hs. }
  case_decide as Hl.
  - split; [by apply odict_del_NoDup|]. split.
    + intros o' ds. destruct (decide (o' = o)) as [->|Hno].
      * by rewrite odict_get_del_eq.
      * rewrite odict_get_del_ne by done. apply Hinner.
    + intros o' ds. destruct (decide (o' = o)) as [->|Hno].
      * by rewrite odict_get_del_eq.
      * rewrite odict_get_del_ne by done. apply Hlevels.
  - split; [by apply odict_set_NoDup|]. split.
    + intros o' ds. destruct (decide (o' = o)) as [->|Hno].
      * rewrite odict_get_set_eq. by intros [= <-].
      * rewrite odict_get_set_ne by done. apply Hinner.
    + intros o' ds. destruct (decide (o' = o)) as [->|Hno].
      * rewrite odict_get_set_eq. by intros [= <-].
      * rewrite odict_get_set_ne by done. apply Hlevels.
Qed.

(** [cancelFare] for the dispatcher's own world, of a fare that is on
    the board. *)
Lemma cancelFare_run (self : Dispatcher.t) (o d : coord) (t : Z)
    (fare : FareEntry.t) :
  Dispatcher.board_get (Dispatcher._fareBoard self) o d t = Some fare →
  let self1 :=
    Dispatcher.set_abandonedRides (Dispatcher._abandonedRides self + 1) self in
  Dispatcher.cancelFare self (Dispatcher._parent self) o d t
  = match py_getitem (Dispatcher._taxis self) (FareEntry.taxi fare) with
    | Raise e => mkRun self1 [] (Some e)
    | Ok who =>
        mkRun (Dispatcher.set_board
                 (board_without (Dispatcher._fareBoard self) o d t) self1)
          [cancelFare o who] None
    end.
Proof.
  intros Hget self1. subst self1.
  unfold Dispatcher.cancelFare, Dispatcher.board_get, board_without in *.
  rewrite decide_True by done.
  destruct (ODict.get o (Dispatcher._fareBoard self)) as [dests|] eqn:Ho;
    [|done].
  cbn [mbind option_bind] in Hget.
  destruct (ODict.get d dests) as [times|] eqn:Hd; [|done].
  cbn [mbind option_bind] in Hget. rewrite Hget.
  cbn [Dispatcher._taxis Dispatcher.set_abandonedRides Dispatcher._fareBoard].
  destruct (py_getitem (Dispatcher._taxis self) (FareEntry.taxi fare))
    as [who|e]; [|done].
  cbn [raised final emitted Dispatcher._fareBoard Dispatcher.set_board].
  unfold Dispatcher.prune. rewrite !odict_get_set_eq.
  rewrite odict_del_set, odict_set_set.
  f_equal. unfold Dispatcher.set_board; cbn. f_equal.
  destruct (decide (size (delete t times) = 0)).
  - case_decide; [by rewrite odict_del_set|done].
  - rewrite !decide_False by apply odict_set_nonempty. done.
Qed.

Lemma cancelFare_board_ok self parent o d t :
  board_ok self → board_ok (final (Dispatcher.cancelFare self parent o d t)).
Proof.
  intros Hok. pose proof Hok as (Hkeys & Hinner & Hlevels & Hfares).
  destruct (decide (parent = Dispatcher._parent self)) as [->|Hne].
  2:{ unfold Dispatcher.cancelFare. by rewrite decide_False. }
  destruct (Dispatcher.board_get (Dispatcher._fareBoard self) o d t)
    as [fare|] eqn:Hget.
  2:{ by rewrite cancelFare_absent. }
  rewrite (cancelFare_run self o d t fare Hget).
  destruct (py_getitem _ _) as [who|e]; cbn [final]; [|exact Hok].
  destruct (board_without_structure _ o d t Hkeys Hinner Hlevels)
    as (H1 & H2 & H3).
  unfold board_ok. cbn [Dispatcher._fareBoard Dispatcher.set_board
                         Dispatcher.set_abandonedRides Dispatcher._taxis].
  split; [done|]. split; [done|]. split; [done|].
  intros o' d' t' f Hf. rewrite board_without_get in Hf.
  case_decide; [done|]. by eapply Hfares.
Qed.

(** ** Writing a fare under a key *)

(** The board with a fare written under a key, the levels that are
    missing being created, is again a well-formed board. *)
Lemma board_put_ok (self : Dispatcher.t) (o d : coord) (t : Z)
    (fare : FareEntry.t) (dests : list (coord * gmap Z FareEntry.t))
    (times : gmap Z FareEntry.t) :
  board_ok self →
  ODict.get o (Dispatcher._fareBoard self) = Some dests
  ∨ (ODict.get o (Dispatcher._fareBoard self) = None ∧ dests = []) →
  ODict.get d dests = Some times ∨ (ODict.get d dests = None ∧ times = ∅) →
  fare_ok (length (Dispatcher._taxis self)) o d t fare →
  board_ok (Dispatcher.set_board
              (ODict.set o (ODict.set d (<[t:=fare]> times) dests)
                 (Dispatcher._fareBoard self)) self).
Proof.
  intros (Hkeys & Hinner & Hlevels & Hfares) Ho Hd Hfare.
  destruct (board_get_set (Dispatcher._fareBoard self) o d t fare dests times
              Ho Hd) as [Hkey Hothers].
  assert (Hdests : NoDup dests.*1 ∧ ∀ d' times', ODict.get d' dests = Some times'
                                      → size times' ≠ 0).
  { destruct Ho as [Ho | [_ ->]].
    - split; [by eapply Hinner|]. exact (proj2 (Hlevels o dests Ho)).
    - split; [apply NoDup_nil_2|done]. }
  destruct Hdests as [Hnd Hsizes].
  unfold board_ok.
  cbn [Dispatcher._fareBoard Dispatcher.set_board Dispatcher._taxis].
  split; [by apply odict_set_NoDup|].
  assert (Hget : ∀ o' dests',
            ODict.get o' (ODict.set o (ODict.set d (<[t:=fare]> times) dests)
                            (Dispatcher._fareBoard self))
            = Some dests' →
            (o' = o ∧ dests' = ODict.set d (<[t:=fare]> times) dests)
            ∨ (o' ≠ o ∧ ODict.get o' (Dispatcher._fareBoard self) = Some dests')).
  { intros o' dests'. destruct (decide (o' = o)) as [->|Hno].
    - rewrite odict_get_set_eq. intros [= <-]. by left.
    - rewrite odict_get_set_ne by done. by right. }
  split; [|split].
  - intros o' dests' Ho'. apply Hget in Ho' as [[Ho' Hd']|[_ Ho']].
    + rewrite Hd'. by apply odict_set_NoDup.
    + by eapply Hinner.
  - intros o' dests' Ho'. apply Hget in Ho' as [[Ho' Hd']|[_ Ho']];
      [|exact (Hlevels o' dests' Ho')].
    rewrite Hd'. split; [apply odict_set_nonempty|].
    intros d' times'. destruct (decide (d' = d)) as [->|Hnd'].
    + rewrite odict_get_set_eq. intros [= <-].
      apply map_size_ne_0_lookup. exists t. rewrite lookup_insert_eq. eauto.
    + rewrite odict_get_set_ne by done. apply Hsizes.
  - intros o' d' t' f Hf.
    destruct (decide ((o', d', t') = (o, d, t))) as [[= -> -> ->]|Hnk].
    + simpl in Hkey. rewrite Hkey in Hf. by injection Hf as <-.
    + simpl in Hothers. rewrite Hothers in Hf by done. by eapply Hfares.
Qed.

Lemma newFare_board_ok self parent o d t :
  board_ok self → board_ok (final (Dispatcher.newFare self parent o d t)).
Proof.
  intros Hok.
  destruct (decide (parent = Dispatcher._parent self)) as [->|Hne].
  2:{ unfold Dispatcher.newFare. by rewrite decide_False. }
  destruct (newFare_board self o d t)
    as (_ & _ & Hb & Hrev & Htaxis & Hmap & Hab & Hpar).
  simpl in *.
  set (dests := default [] (ODict.get o (Dispatcher._fareBoard self))) in *.
  set (times := default ∅ (ODict.get d dests)) in *.
  pose proof (board_put_ok self o d t (FareEntry.new o d t) dests times Hok)
    as Hput.
  unfold board_ok in *. rewrite Htaxis, Hb. apply Hput.
  - subst dests. destruct (ODict.get o _); simpl; auto.
  - subst times. destruct (ODict.get d _); simpl; auto.
  - repeat split; try done. by left.
Qed.

(** ** fareBid and handover *)

Lemma bid_times_spec (i : nat) (keys : list Z) (times : gmap Z FareEntry.t) :
  match DispatcherRest.bid_times i keys times with
  | Ok (Some times') =>
      ∃ time fare,
        time ∈ keys ∧ times !! time = Some fare
        ∧ FareEntry.taxi fare = (-1)%Z
        ∧ times' = <[time:=add_bidder i fare]> times
  | Ok None =>
      ∀ t, t ∈ keys → ∃ f, times !! t = Some f ∧ FareEntry.taxi f ≠ (-1)%Z
  | Raise e => e = KeyError ∧ ∃ t, t ∈ keys ∧ times !! t = None
  end.
Proof.
  induction keys as [|time rest IH]; simpl.
  { intros t Ht. by apply elem_of_nil in Ht. }
  destruct (times !! time) as [fare|] eqn:Hfare.
  2:{ split; [done|]. exists time. split; [by apply elem_of_cons; left|done]. }
  destruct (Z.eqb_spec (FareEntry.taxi fare) (-1)) as [Hopen|Htaken].
  { exists time, fare. split; [by apply elem_of_cons; left|done]. }
  destruct (DispatcherRest.bid_times i rest times) as [[times'|]|e].
  - destruct IH as (t & f & Hin & H). exists t, f.
    split; [by apply elem_of_cons; right|done].
  - intros t [->|Hin]%elem_of_cons; eauto.
  - destruct IH as (-> & t & Hin & Ht). split; [done|]. exists t.
    split; [by apply elem_of_cons; right|done].
Qed.

Section FareBidFacts.
Variable walk_order : gmap Z FareEntry.t → list Z.

Lemma bid_dests_spec (i : nat) (dests : list (coord * gmap Z FareEntry.t)) :
  NoDup dests.*1 →
  match DispatcherRest.bid_dests walk_order i dests with
  | Ok (Some dests') =>
      ∃ d times time fare,
        ODict.get d dests = Some times ∧ time ∈ walk_order times
        ∧ times !! time = Some fare ∧ FareEntry.taxi fare = (-1)%Z
        ∧ dests' = ODict.set d (<[time:=add_bidder i fare]> times) dests
  | Ok None =>
      ∀ d times t,
        ODict.get d dests = Some times → t ∈ walk_order times →
        ∃ f, times !! t = Some f ∧ FareEntry.taxi f ≠ (-1)%Z
  | Raise e =>
      e = KeyError
      ∧ ∃ d times t, ODict.get d dests = Some times ∧ t ∈ walk_order times
                     ∧ times !! t = None
  end.
Proof.
  induction dests as [|[d times] rest IH]; cbn [DispatcherRest.bid_dests].
  { intros _ d times t Hget. done. }
  rewrite fmap_cons, NoDup_cons. cbn [fst]. intros [Hnotin Hnd].
  specialize (IH Hnd).
  pose proof (bid_times_spec i (walk_order times) times) as Htimes.
  destruct (DispatcherRest.bid_times i (walk_order times) times)
    as [[times'|]|e]; cbn [mbind result_bind].
  - destruct Htimes as (time & fare & Hin & Hfare & Hopen & ->).
    exists d, times, time, fare. cbn [ODict.get ODict.set].
    rewrite !decide_True by done. done.
  - destruct (DispatcherRest.bid_dests walk_order i rest) as [[rest'|]|e];
      cbn [mbind result_bind].
    + destruct IH as (d0 & times0 & time & fare & Hget & Hin & Hfare & Hopen & ->).
      assert (d0 ≠ d).
      { intros ->. apply odict_get_None in Hnotin. congruence. }
      exists d0, times0, time, fare. cbn [ODict.get ODict.set].
      rewrite !decide_False by done. done.
    + intros d0 times0 t. cbn [ODict.get]. case_decide as Hd.
      * intros [= <-]. apply Htimes.
      * apply IH.
    + destruct IH as (-> & d0 & times0 & t & Hget & Hin & Ht).
      split; [done|].
      assert (d0 ≠ d).
      { intros ->. apply odict_get_None in Hnotin. congruence. }
      exists d0, times0, t. cbn [ODict.get]. by rewrite decide_False.
  - destruct Htimes as (-> & t & Hin & Ht). split; [done|].
    exists d, times, t. cbn [ODict.get]. by rewrite decide_True.
Qed.

(** What [fareBid] leaves: the dispatcher as it was, or with one bid
    added to one unallocated fare of the origin. *)
Lemma fareBid_cases (self : Dispatcher.t) (origin : coord) (taxi : TaxiRef) :
  board_ok self →
  let r := DispatcherRest.fareBid walk_order self origin taxi in
  emitted r = []
  ∧ (final r = self
     ∨ ∃ dests d times time fare,
         taxi ∈ Dispatcher._taxis self
         ∧ raised r = None
         ∧ ODict.get origin (Dispatcher._fareBoard self) = Some dests
         ∧ ODict.get d dests = Some times
         ∧ times !! time = Some fare ∧ FareEntry.taxi fare = (-1)%Z
         ∧ final r
           = Dispatcher.set_board
               (ODict.set origin
                  (ODict.set d
                     (<[time:=add_bidder
                                (py_index taxi (Dispatcher._taxis self)) fare]>
                        times) dests)
                  (Dispatcher._fareBoard self)) self).
Proof.
  intros (Hkeys & Hinner & _) r. subst r. unfold DispatcherRest.fareBid.
  destruct (bool_decide (taxi ∈ Dispatcher._taxis self)) eqn:Hin; [|by auto].
  apply bool_decide_eq_true in Hin.
  destruct (ODict.get origin (Dispatcher._fareBoard self)) as [dests|] eqn:Ho;
    [|by auto].
  pose proof (bid_dests_spec (py_index taxi (Dispatcher._taxis self)) dests
                (Hinner origin dests Ho)) as Hspec.
  destruct (DispatcherRest.bid_dests walk_order _ dests) as [[dests'|]|e];
    [|by auto..].
  destruct Hspec as (d & times & time & fare & Hd & _ & Hfare & Hopen & ->).
  split; [done|]. right. exists dests, d, times, time, fare.
  repeat split; done.
Qed.

Lemma fareBid_board_ok (self : Dispatcher.t) (origin : coord) (taxi : TaxiRef) :
  board_ok self →
  board_ok (final (DispatcherRest.fareBid walk_order self origin taxi)).
Proof.
  intros Hok.
  destruct (fareBid_cases self origin taxi Hok) as [_ [-> | Hbid]]; [done|].
  destruct Hbid as (dests & d & times & time & fare & Hin & _ & Ho & Hd
                    & Hfare & Hopen & ->).
  apply board_put_ok; auto.
  destruct Hok as (_ & _ & _ & Hfares).
  destruct (Hfares origin d time fare) as (H1 & H2 & H3 & H4 & H5).
  { unfold Dispatcher.board_get. rewrite Ho. cbn [mbind option_bind].
    rewrite Hd. done. }
  repeat split; try done. simpl.
  apply Forall_app. split; [done|].
  apply Forall_singleton. by apply py_index_lt.
Qed.
End FareBidFacts.

Lemma board_update_put (b : FareBoard) (o d : coord) (t : Z)
    (fare : FareEntry.t) (f : FareEntry.t → FareEntry.t)
    (dests : list (coord * gmap Z FareEntry.t)) (times : gmap Z FareEntry.t) :
  DispatcherRest.board_update
    (ODict.set o (ODict.set d (<[t:=fare]> times) dests) b) o d t f
  = Ok (ODict.set o (ODict.set d (<[t:=f fare]> times) dests) b).
Proof.
  unfold DispatcherRest.board_update.
  rewrite !odict_get_set_eq, lookup_insert_eq.
  by rewrite insert_insert_eq, !odict_set_set.
Qed.

Lemma addTaxi_board_ok (self : Dispatcher.t) (taxi : TaxiRef) :
  board_ok self → board_ok (DispatcherRest.addTaxi self taxi).
Proof.
  intros (Hkeys & Hinner & Hlevels & Hfares). unfold DispatcherRest.addTaxi.
  case_bool_decide; [done|].
  split; [done|]. split; [done|]. split; [done|].
  intros o d t f Hf. apply (fare_ok_mono (length (Dispatcher._taxis self))).
  - simpl. rewrite length_app. lia.
  - by apply Hfares.
Qed.

Lemma addTaxi_elem (self : Dispatcher.t) (taxi : TaxiRef) :
  taxi ∈ Dispatcher._taxis (DispatcherRest.addTaxi self taxi).
Proof.
  unfold DispatcherRest.addTaxi. case_bool_decide; [done|]. simpl.
  apply elem_of_app. right. by apply elem_of_cons; left.
Qed.

(** [handover] for the dispatcher's own world. *)
Lemma handover_run (self : Dispatcher.t) (o d : coord) (t : Z)
    (taxi : TaxiRef) (price : pynum) :
  let self1 := DispatcherRest.addTaxi self taxi in
  let dests := default [] (ODict.get o (Dispatcher._fareBoard self)) in
  let times := default ∅ (ODict.get d dests) in
  let fare :=
    FareEntry.mk o d t price
      (Z.of_nat (py_index taxi (Dispatcher._taxis self1))) [] in
  let r := DispatcherRest.handover self (Dispatcher._parent self) o d t
             taxi price in
  raised r = None ∧ emitted r = []
  ∧ Dispatcher._fareBoard (final r)
    = ODict.set o (ODict.set d (<[t:=fare]> times) dests)
        (Dispatcher._fareBoard self)
  ∧ Dispatcher._taxis (final r) = Dispatcher._taxis self1
  ∧ Dispatcher._revenue (final r) = Dispatcher._revenue self
  ∧ Dispatcher._abandonedRides (final r) = Dispatcher._abandonedRides self.
Proof.
  intros self1 dests times fare r. subst r.
  unfold DispatcherRest.handover. rewrite decide_True by done.
  fold self1.
  assert (Hpar : Dispatcher._parent self = Dispatcher._parent self1).
  { subst self1. unfold DispatcherRest.addTaxi. by case_bool_decide. }
  assert (Hboard : Dispatcher._fareBoard self1 = Dispatcher._fareBoard self).
  { subst self1. unfold DispatcherRest.addTaxi. by case_bool_decide. }
  assert (Hrev : Dispatcher._revenue self1 = Dispatcher._revenue self
                 ∧ Dispatcher._abandonedRides self1
                   = Dispatcher._abandonedRides self).
  { subst self1. unfold DispatcherRest.addTaxi. by case_bool_decide. }
  rewrite Hpar.
  destruct (newFare_board self1 o d t)
    as (Hr & He & Hb & Hrev1 & Htaxis & _ & Hab & _).
  simpl in Hr, He, Hb, Hrev1, Htaxis, Hab.
  rewrite Hr, Hb, Htaxis, Hboard. fold dests times.
  rewrite board_update_put.
  cbn [Dispatcher.set_board Dispatcher._fareBoard final raised emitted].
  rewrite board_update_put.
  cbn [Dispatcher.set_board Dispatcher._fareBoard Dispatcher._taxis
       Dispatcher._revenue Dispatcher._abandonedRides final raised emitted].
  destruct Hrev as [<- <-]. repeat split; done.
Qed.

Lemma handover_board_ok self parent o d t taxi price :
  board_ok self →
  board_ok (final (DispatcherRest.handover self parent o d t taxi price)).
Proof.
  intros Hok.
  destruct (decide (Dispatcher._parent self = parent)) as [<-|Hne].
  2:{ unfold DispatcherRest.handover. by rewrite decide_False. }
  destruct (handover_run self o d t taxi price)
    as (_ & _ & Hb & Htaxis & _).
  simpl in Hb, Htaxis.
  pose proof (addTaxi_board_ok self taxi Hok) as Hok1.
  assert (Hboard : Dispatcher._fareBoard (DispatcherRest.addTaxi self taxi)
                   = Dispatcher._fareBoard self).
  { unfold DispatcherRest.addTaxi. by case_bool_decide. }
  set (dests := default [] (ODict.get o (Dispatcher._fareBoard self))) in *.
  set (times := default ∅ (ODict.get d dests)) in *.
  pose proof (board_put_ok (DispatcherRest.addTaxi self taxi) o d t
                (FareEntry.mk o d t price
                   (Z.of_nat (py_index taxi
                      (Dispatcher._taxis (DispatcherRest.addTaxi self taxi))))
                   []) dests times Hok1) as Hput.
  unfold board_ok in Hput |- *.
  cbn [Dispatcher.set_board Dispatcher._fareBoard Dispatcher._taxis] in Hput.
  rewrite Hboard in Hput. rewrite Hb, Htaxis. apply Hput.
  - subst dests. destruct (ODict.get o _); simpl; auto.
  - subst times. destruct (ODict.get d _); simpl; auto.
  - repeat split; try done. simpl. right.
    split; [lia|]. apply inj_lt. apply py_index_lt.
    apply addTaxi_elem.
Qed.

(** ** addMapNode and importMap *)

Lemma odict_get_of_elem {K V} `{EqDecision K} (k : K) (v : V) d :
  NoDup d.*1 → (k, v) ∈ d → ODict.get k d = Some v.
Proof.
  induction d as [|[k0 v0] r IH]; cbn [ODict.get].
  { intros _ Hin. by apply elem_of_nil in Hin. }
  rewrite fmap_cons, NoDup_cons. cbn [fst]. intros [Hnotin Hnd] Hin.
  apply elem_of_cons in Hin as [[= -> ->]|Hin].
  - by rewrite decide_True.
  - rewrite decide_False; [by apply IH|].
    intros ->. apply Hnotin. apply list_elem_of_fmap. by exists (k0, v).
Qed.

Lemma odict_get_map_to_list (m : RoadMap) (c : coord) :
  ODict.get c (map_to_list m) = m !! c.
Proof.
  destruct (m !! c) as [items|] eqn:Hc.
  - apply odict_get_of_elem; [apply NoDup_fst_map_to_list|].
    by apply elem_of_map_to_list.
  - apply odict_get_None. intros Hin.
    apply list_elem_of_fmap in Hin as [[c' items] [-> Hin]].
    apply elem_of_map_to_list in Hin. simpl in *. congruence.
Qed.

(** What [addMapNode] does to the dispatcher: nothing, or one entry of
    the map. *)
Lemma addMapNode_run (T : Terrain.t) (self : Dispatcher.t) (coords : coord)
    (items : list (coord * (Z * Q))) :
  DispatcherRest.addMapNode T self coords (neighbour_triples items)
  = match rebuilt_entry T coords items with
    | None => (mkRun self [] None, Some KeyError)
    | Some nd =>
        match Dispatcher._map self with
        | None => (mkRun self [] (Some TypeError), None)
        | Some m =>
            (mkRun (DispatcherRest.set_map (Some (<[coords:=nd]> m)) self)
               [] None, None)
        end
    end.
Proof.
  unfold DispatcherRest.addMapNode, rebuilt_entry.
  destruct (Terrain.getNode T coords); [|done].
  by destruct (neighbourDict _ _ _ _).
Qed.

Lemma import_nodes_run (T : Terrain.t) (nodes : list (coord * list (coord * (Z * Q)))) :
  ∀ (self : Dispatcher.t) (m : RoadMap),
    Dispatcher._map self = Some m →
    foldl (λ s node,
             final (DispatcherRest.addMapNode T s node.1
                      (neighbour_triples node.2)).1) self nodes
    = DispatcherRest.set_map
        (Some (foldl (λ m node,
                        match rebuilt_entry T node.1 node.2 with
                        | Some nd => <[node.1:=nd]> m
                        | None => m
                        end) m nodes)) self.
Proof.
  induction nodes as [|[c items] rest IH]; intros self m Hm; cbn [foldl].
  { destruct self; simpl in *. by rewrite Hm. }
  rewrite addMapNode_run. cbn [fst snd].
  destruct (rebuilt_entry T c items) as [nd|]; cbn [fst final].
  - rewrite Hm. cbn [fst final].
    rewrite (IH _ (<[c:=nd]> m)) by done. by destruct self.
  - by apply IH.
Qed.

Lemma import_nodes_lookup (T : Terrain.t)
    (nodes : list (coord * list (coord * (Z * Q)))) (c : coord) :
  NoDup nodes.*1 →
  ∀ m : RoadMap,
    foldl (λ m node,
             match rebuilt_entry T node.1 node.2 with
             | Some nd => <[node.1:=nd]> m
             | None => m
             end) m nodes !! c
    = match ODict.get c nodes with
      | Some items =>
          match rebuilt_entry T c items with
          | Some nd => Some nd
          | None => m !! c
          end
      | None => m !! c
      end.
Proof.
  induction nodes as [|[c0 items0] rest IH]; cbn [foldl ODict.get]; [done|].
  rewrite fmap_cons, NoDup_cons. cbn [fst snd]. intros [Hnotin Hnd] m.
  rewrite IH by done.
  destruct (decide (c = c0)) as [->|Hne].
  - apply odict_get_None in Hnotin. rewrite Hnotin.
    destruct (rebuilt_entry T c0 items0); [|done]. apply lookup_insert_eq.
  - destruct (rebuilt_entry T c0 items0);
      [rewrite lookup_insert_ne by done|]; done.
Qed.

(** [importMap] into a dispatcher that has a map: every node is as
    [imported_entry] says, whatever the order in which the nodes of the
    new map are taken. *)
Lemma importMap_lookup (T : Terrain.t) (self : Dispatcher.t)
    (m newMap : RoadMap) :
  Dispatcher._map self = Some m →
  ∃ m', DispatcherRest.importMap T self newMap
        = DispatcherRest.set_map (Some m') self
        ∧ ∀ c, m' !! c = imported_entry T newMap c (m !! c).
Proof.
  intros Hm. unfold DispatcherRest.importMap. rewrite Hm.
  rewrite (import_nodes_run T _ self m Hm).
  eexists. split; [reflexivity|]. intros c.
  rewrite import_nodes_lookup by apply NoDup_fst_map_to_list.
  unfold imported_entry. by rewrite odict_get_map_to_list.
Qed.

Lemma board_ok_ext (self self' : Dispatcher.t) :
  Dispatcher._fareBoard self' = Dispatcher._fareBoard self →
  Dispatcher._taxis self' = Dispatcher._taxis self →
  board_ok self → board_ok self'.
Proof. unfold board_ok. by intros -> ->. Qed.

Lemma after_call_board_ok (self : Dispatcher.t) (c : Call) :
  board_ok self → board_ok (after_call self c).
Proof.
  intros Hok. destruct c; cbn [after_call].
  - by apply addTaxi_board_ok.
  - unfold DispatcherRest.addMapNode.
    destruct (Terrain.getNode T coords); [|done].
    destruct (neighbourDict _ _ _ _); [|done].
    destruct (Dispatcher._map self); [|done].
    by apply (board_ok_ext self).
  - destruct (Dispatcher._map self) as [m|] eqn:Hm.
    + destruct (importMap_lookup T self m newMap Hm) as (m' & -> & _).
      by apply (board_ok_ext self).
    + unfold DispatcherRest.importMap. rewrite Hm.
      by apply (board_ok_ext self).
  - by apply handover_board_ok.
  - by apply newFare_board_ok.
  - by apply cancelFare_board_ok.
  - by apply fareBid_board_ok.
  - unfold Dispatcher.recvPayment. case_decide; [|done].
    by apply (board_ok_ext self).
  - by apply clockTick_board_ok.
Qed.

Lemma after_calls_board_ok (cs : list Call) :
  ∀ self, board_ok self → board_ok (after_calls self cs).
Proof.
  induction cs as [|c cs IH]; intros self Hok; [done|].
  apply IH. by apply after_call_board_ok.
Qed.

Lemma init_board_ok parent taxis serviceMap :
  board_ok (DispatcherRest.__init__ parent taxis serviceMap).
Proof.
  unfold board_ok, DispatcherRest.__init__. simpl.
  split; [apply NoDup_nil_2|]. split; [done|]. split; done.
Qed.

(** X2.  Whatever calls of its methods a dispatcher receives after its
    construction, from whatever worlds and whether they return or raise,
    its board stays a dictionary of non-empty dictionaries of non-empty
    dictionaries, every fare is filed under its own origin, destination
    and call time, the taxi of a fare is -1 or an index into the roster,
    and so is every bidder. *)
Theorem board_stays_well_formed (parent : WorldRef)
    (taxis : option (list TaxiRef)) (serviceMap : option RoadMap)
    (cs : list Call) :
  board_ok (after_calls (DispatcherRest.__init__ parent taxis serviceMap) cs).
Proof. apply after_calls_board_ok, init_board_ok. Qed.

(** ** cancelFare on a well-formed board *)

Lemma py_getitem_last {A} (l : list A) :
  l ≠ [] → ∃ x, last l = Some x ∧ py_getitem l (-1) = Ok x.
Proof.
  intros Hne. destruct (last l) as [x|] eqn:Hlast.
  2:{ apply last_None in Hlast. done. }
  exists x. split; [done|]. rewrite last_lookup in Hlast.
  pose proof (lookup_lt_Some _ _ _ Hlast) as Hlt.
  unfold py_getitem. cbn zeta.
  replace (-1 <? 0)%Z with true by done.
  destruct (Z.ltb_spec (-1 + Z.of_nat (length l)) 0); [lia|].
  destruct (Z.leb_spec (Z.of_nat (length l)) (-1 + Z.of_nat (length l)));
    [lia|].
  simpl. replace (Z.to_nat (-1 + Z.of_nat (length l))) with (pred (length l))
    by lia.
  by rewrite Hlast.
Qed.

(** X3.  On a well-formed board, cancelling a fare that is on the board
    (for a fare with no taxi: provided the roster is not empty) ends
    normally, removes that fare and no other, counts one abandoned ride,
    and tells the world to notify exactly one taxi: the one the fare is
    assigned to, or, when none is assigned, the last taxi of the roster.
    Revenue, roster, map and completed rides are untouched, and the
    board is well-formed again. *)
Theorem cancelFare_removes_that_fare_only (self : Dispatcher.t)
    (o d : coord) (t : Z) (fare : FareEntry.t) :
  board_ok self →
  Dispatcher.board_get (Dispatcher._fareBoard self) o d t = Some fare →
  (FareEntry.taxi fare = (-1)%Z → Dispatcher._taxis self ≠ []) →
  let r := Dispatcher.cancelFare self (Dispatcher._parent self) o d t in
  raised r = None
  ∧ (∃ who, emitted r = [cancelFare o who]
            ∧ ((0 <= FareEntry.taxi fare)%Z →
               Dispatcher._taxis self !! Z.to_nat (FareEntry.taxi fare)
               = Some who)
            ∧ (FareEntry.taxi fare = (-1)%Z →
               last (Dispatcher._taxis self) = Some who))
  ∧ (∀ o' d' t',
       Dispatcher.board_get (Dispatcher._fareBoard (final r)) o' d' t'
       = if decide ((o', d', t') = (o, d, t)) then None
         else Dispatcher.board_get (Dispatcher._fareBoard self) o' d' t')
  ∧ Dispatcher._abandonedRides (final r)
    = (Dispatcher._abandonedRides self + 1)%Z
  ∧ Dispatcher._taxis (final r) = Dispatcher._taxis self
  ∧ Dispatcher._revenue (final r) = Dispatcher._revenue self
  ∧ Dispatcher._completedRides (final r) = Dispatcher._completedRides self
  ∧ Dispatcher._map (final r) = Dispatcher._map self
  ∧ board_ok (final r).
Proof.
  intros Hok Hget Hroster r.
  assert (Hboard : board_ok (final r)) by by apply cancelFare_board_ok.
  subst r. revert Hboard. rewrite (cancelFare_run self o d t fare Hget).
  destruct Hok as (_ & _ & _ & Hfares).
  destruct (Hfares o d t fare Hget) as (_ & _ & _ & Htaxi & _).
  assert (∃ who, py_getitem (Dispatcher._taxis self) (FareEntry.taxi fare)
                 = Ok who
                 ∧ ((0 <= FareEntry.taxi fare)%Z →
                    Dispatcher._taxis self !! Z.to_nat (FareEntry.taxi fare)
                    = Some who)
                 ∧ (FareEntry.taxi fare = (-1)%Z →
                    last (Dispatcher._taxis self) = Some who))
    as (who & -> & Hwho).
  { destruct Htaxi as [Hnone|Hin].
    - destruct (py_getitem_last (Dispatcher._taxis self) (Hroster Hnone))
        as (x & Hlast & Hx).
      exists x. rewrite Hnone. split; [done|]. split; [lia|done].
    - destruct (lookup_lt_is_Some_2 (Dispatcher._taxis self)
                  (Z.to_nat (FareEntry.taxi fare))) as [x Hx]; [lia|].
      exists x. split.
      + rewrite <- (Z2Nat.id (FareEntry.taxi fare)) by lia.
        by apply py_getitem_nat.
      + split; [done|lia]. }
  intros Hboard. cbn [final emitted raised].
  split; [done|]. split; [by exists who|].
  split; [intros o' d' t'; apply board_without_get|].
  do 5 (split; [done|]). exact Hboard.
Qed.

Lemma cancelFare_removes_that_fare_only_witness :
  let r := Dispatcher.cancelFare Examples.office_two_bids 0
             (0, 0)%Z (3, 4)%Z 0 in
  board_ok Examples.office_two_bids
  ∧ raised r = None
  ∧ emitted r = [cancelFare (0, 0)%Z 8%nat]
  ∧ Dispatcher._fareBoard (final r) = [].
Proof.
  assert (Hok : board_ok Examples.office_two_bids).
  { apply (after_calls_board_ok
             [CallNewFare 0 (0, 0)%Z (3, 4)%Z 0;
              CallClockTick Examples.town 0;
              CallFareBid Dispatcher.sorted_keys (0, 0)%Z 7%nat;
              CallFareBid Dispatcher.sorted_keys (0, 0)%Z 8%nat]
             (DispatcherRest.__init__ 0 (Some [7%nat; 8%nat]) None)).
    apply init_board_ok. }
  destruct (cancelFare_removes_that_fare_only Examples.office_two_bids
              (0, 0)%Z (3, 4)%Z 0 Examples.fare_bid_0_1 Hok eq_refl)
    as (Hr & _).
  { intros _. done. }
  split; [exact Hok|]. split; [exact Hr|]. split; reflexivity.
Defined.

(** ** newFare, then cancelFare *)

Lemma board_without_put (b : FareBoard) (o d : coord) (t : Z)
    (fare : FareEntry.t) :
  no_empty_level b →
  Dispatcher.board_get b o d t = None →
  let dests := default [] (ODict.get o b) in
  let times := default ∅ (ODict.get d dests) in
  board_without (ODict.set o (ODict.set d (<[t:=fare]> times) dests) b) o d t
  = b.
Proof.
  intros Hlevels Habsent dests times. unfold board_without.
  rewrite !odict_get_set_eq. cbn zeta.
  rewrite delete_insert_eq, odict_del_set, !odict_set_set.
  unfold Dispatcher.board_get in Habsent. subst times dests.
  destruct (ODict.get o b) as [dests|] eqn:Ho; simpl.
  - cbn [mbind option_bind] in Habsent.
    destruct (Hlevels o dests Ho) as [Hlen Hsizes].
    destruct (ODict.get d dests) as [times|] eqn:Hd; simpl.
    + cbn [mbind option_bind] in Habsent.
      rewrite delete_id by done.
      destruct (decide (size times = 0)) as [Hz|_]; [by apply Hsizes in Hd|].
      rewrite (odict_set_same d times dests) by done.
      destruct (decide (length dests = 0)) as [?|_]; [done|].
      by apply odict_set_same.
    + rewrite delete_empty.
      destruct (decide (size (∅ : gmap Z FareEntry.t) = 0)) as [_|Hz];
        [|done].
      rewrite (odict_del_absent d dests) by done.
      destruct (decide (length dests = 0)) as [?|_]; [done|].
      by apply odict_set_same.
  - rewrite delete_empty.
    destruct (decide (size (∅ : gmap Z FareEntry.t) = 0)) as [_|Hz]; [|done].
    simpl. rewrite odict_del_set. by apply odict_del_absent.
Qed.

(** X4.  A fare that is requested and then cancelled leaves the board
    exactly as it was before the request, levels and their order
    included, when its key was free (for a well-formed board and a
    dispatcher that knows at least one taxi).  The world is asked to
    notify the last taxi of the roster, one abandoned ride is counted,
    and revenue and roster are as before. *)
Theorem newFare_then_cancelFare_restores_board (self : Dispatcher.t)
    (o d : coord) (t : Z) :
  board_ok self →
  Dispatcher.board_get (Dispatcher._fareBoard self) o d t = None →
  Dispatcher._taxis self ≠ [] →
  let parent := Dispatcher._parent self in
  let r1 := Dispatcher.newFare self parent o d t in
  let r2 := Dispatcher.cancelFare (final r1) parent o d t in
  raised r1 = None ∧ raised r2 = None
  ∧ Dispatcher._fareBoard (final r2) = Dispatcher._fareBoard self
  ∧ emitted r1 = []
  ∧ (∃ who, last (Dispatcher._taxis self) = Some who
            ∧ emitted r2 = [cancelFare o who])
  ∧ Dispatcher._abandonedRides (final r2)
    = (Dispatcher._abandonedRides self + 1)%Z
  ∧ Dispatcher._taxis (final r2) = Dispatcher._taxis self
  ∧ Dispatcher._revenue (final r2) = Dispatcher._revenue self.
Proof.
  intros Hok Habsent Hroster parent r1 r2. subst parent r1 r2.
  destruct (newFare_board self o d t)
    as (Hr & He & Hb & Hrev & Htaxis & _ & Hab & Hpar).
  destruct (newFare_inserts self o d t) as (_ & _ & Hkey & _).
  cbn zeta in *.
  pose proof (cancelFare_run _ o d t _ Hkey) as Hrun. cbn zeta in Hrun.
  rewrite Hpar in Hrun. rewrite Hrun.
  rewrite Htaxis. cbn [FareEntry.new FareEntry.taxi].
  destruct (py_getitem_last _ Hroster) as (who & Hlast & ->).
  cbn [final raised emitted Dispatcher.set_board Dispatcher._fareBoard
       Dispatcher.set_abandonedRides Dispatcher._abandonedRides
       Dispatcher._taxis Dispatcher._revenue].
  rewrite Hb, Hab, Htaxis, Hrev.
  destruct Hok as (_ & _ & Hlevels & _).
  rewrite (board_without_put _ o d t _ Hlevels Habsent).
  repeat split; try done. by exists who.
Qed.

Lemma newFare_then_cancelFare_restores_board_witness :
  let r1 := Dispatcher.newFare Examples.office_one_fare 0 (0, 0)%Z (5, 5)%Z 1 in
  let r2 := Dispatcher.cancelFare (final r1) 0 (0, 0)%Z (5, 5)%Z 1 in
  board_ok Examples.office_one_fare
  ∧ Dispatcher._fareBoard (final r2)
    = Dispatcher._fareBoard Examples.office_one_fare
  ∧ emitted r2 = [cancelFare (0, 0)%Z 7%nat].
Proof.
  assert (Hok : board_ok Examples.office_one_fare).
  { apply (after_calls_board_ok [CallNewFare 0 (0, 0)%Z (3, 4)%Z 0]
             (DispatcherRest.__init__ 0 (Some [7%nat]) None)).
    apply init_board_ok. }
  destruct (newFare_then_cancelFare_restores_board Examples.office_one_fare
              (0, 0)%Z (5, 5)%Z 1 Hok eq_refl)
    as (_ & _ & Hb & _).
  { done. }
  split; [exact Hok|]. split; [exact Hb|]. reflexivity.
Defined.

(** ** The calls a tick makes *)

Section TickCalls.
Variable W : World.t.
Variable self : Dispatcher.t.

(** Every call of the loop over the call times is made by the loop body
    on one of the fares, which is then left as the body leaves it. *)
Lemma tick_times_emitted_back origin destination keys :
  NoDup keys →
  ∀ (times : gmap Z FareEntry.t) c,
    c ∈ emitted (Dispatcher.tick_times W self origin destination keys times) →
    ∃ t fare,
      t ∈ keys ∧ times !! t = Some fare
      ∧ c ∈ emitted (Dispatcher.tick_fare W self origin destination fare)
      ∧ final (Dispatcher.tick_times W self origin destination keys times) !! t
        = Some (final (Dispatcher.tick_fare W self origin destination fare)).
Proof.
  induction 1 as [|time rest Hnotin Hnd IH]; intros times c; simpl.
  { intros Hin. by apply elem_of_nil in Hin. }
  destruct (times !! time) as [fare0|] eqn:Hfare0; simpl.
  2:{ intros Hin. by apply elem_of_nil in Hin. }
  set (rf := Dispatcher.tick_fare W self origin destination fare0).
  destruct (raised rf) eqn:Hr; simpl.
  - intros Hc. exists time, fare0. rewrite lookup_insert_eq.
    split; [by apply elem_of_cons; left|done].
  - intros [Hc|Hc]%elem_of_app.
    + exists time, fare0. rewrite tick_times_other by done.
      rewrite lookup_insert_eq. split; [by apply elem_of_cons; left|done].
    + destruct (IH _ c Hc) as (t & fare & Hin & Hfare & Hcf & Hfinal).
      exists t, fare. split; [by apply elem_of_cons; right|].
      assert (time ≠ t) by (intros ->; done).
      by rewrite lookup_insert_ne in Hfare.
Qed.

(** When the loop ends normally, the calls of the loop body on each fare
    are among its calls. *)
Lemma tick_times_emitted_incl origin destination keys :
  NoDup keys →
  ∀ (times : gmap Z FareEntry.t) t fare c,
    t ∈ keys → times !! t = Some fare →
    raised (Dispatcher.tick_times W self origin destination keys times) = None →
    c ∈ emitted (Dispatcher.tick_fare W self origin destination fare) →
    c ∈ emitted (Dispatcher.tick_times W self origin destination keys times).
Proof.
  induction 1 as [|time rest Hnotin Hnd IH]; intros times t fare c; simpl.
  { intros Hin. by apply elem_of_nil in Hin. }
  intros Hin Hfare.
  destruct (times !! time) as [fare0|] eqn:Hfare0; simpl; [|done].
  set (rf := Dispatcher.tick_fare W self origin destination fare0).
  destruct (raised rf) eqn:Hr; simpl; [done|].
  intros Hnone Hc. apply elem_of_app.
  apply elem_of_cons in Hin as [->|Hin].
  - left. assert (fare0 = fare) as -> by congruence. done.
  - right. apply (IH _ t fare c); try done.
    assert (time ≠ t) by (intros ->; done).
    by rewrite lookup_insert_ne.
Qed.

Lemma tick_dests_emitted_back origin dests :
  NoDup dests.*1 →
  ∀ c, c ∈ emitted (Dispatcher.tick_dests W self origin dests) →
    ∃ d times,
      ODict.get d dests = Some times
      ∧ c ∈ emitted (Dispatcher.tick_times W self origin d
                       (Dispatcher.sorted_keys times) times)
      ∧ ODict.get d (final (Dispatcher.tick_dests W self origin dests))
        = Some (final (Dispatcher.tick_times W self origin d
                         (Dispatcher.sorted_keys times) times)).
Proof.
  induction dests as [|[d0 times0] rest IH]; cbn [Dispatcher.tick_dests].
  { intros _ c Hin. by apply elem_of_nil in Hin. }
  rewrite fmap_cons, NoDup_cons. cbn [fst]. intros [Hnotin Hnd] c.
  destruct (raised _) eqn:Hr; cbn [emitted final].
  - intros Hc. exists d0, times0. cbn [ODict.get].
    by rewrite !decide_True.
  - intros [Hc|Hc]%elem_of_app.
    + exists d0, times0. cbn [ODict.get]. by rewrite !decide_True.
    + destruct (IH Hnd c Hc) as (d & times & Hget & Hct & Hfinal).
      assert (d ≠ d0).
      { intros ->. apply odict_get_None in Hnotin. congruence. }
      exists d, times. cbn [ODict.get]. by rewrite !decide_False.
Qed.

Lemma tick_dests_emitted_incl origin dests :
  ∀ d times c,
    ODict.get d dests = Some times →
    raised (Dispatcher.tick_dests W self origin dests) = None →
    c ∈ emitted (Dispatcher.tick_times W self origin d
                   (Dispatcher.sorted_keys times) times) →
    c ∈ emitted (Dispatcher.tick_dests W self origin dests).
Proof.
  induction dests as [|[d0 times0] rest IH]; intros d times c;
    cbn [Dispatcher.tick_dests ODict.get]; [done|].
  destruct (decide (d = d0)) as [->|Hne].
  - intros [= ->].
    destruct (raised (Dispatcher.tick_times W self origin d0 _ times)) eqn:Hr; cbn [emitted raised]; [done|].
    intros _ Hc. apply elem_of_app. by left.
  - intros Hget.
    destruct (raised (Dispatcher.tick_times W self origin d0 _ times0)) eqn:Hr; cbn [emitted raised]; [done|].
    intros Hnone Hc. apply elem_of_app. right. by eapply IH.
Qed.

Lemma tick_origins_emitted_back (b : FareBoard) :
  NoDup b.*1 →
  ∀ c, c ∈ emitted (Dispatcher.tick_origins W self b) →
    ∃ o dests,
      ODict.get o b = Some dests
      ∧ c ∈ emitted (Dispatcher.tick_dests W self o dests)
      ∧ ODict.get o (final (Dispatcher.tick_origins W self b))
        = Some (final (Dispatcher.tick_dests W self o dests)).
Proof.
  induction b as [|[o0 dests0] rest IH]; cbn [Dispatcher.tick_origins].
  { intros _ c Hin. by apply elem_of_nil in Hin. }
  rewrite fmap_cons, NoDup_cons. cbn [fst]. intros [Hnotin Hnd] c.
  destruct (raised _) eqn:Hr; cbn [emitted final].
  - intros Hc. exists o0, dests0. cbn [ODict.get].
    by rewrite !decide_True.
  - intros [Hc|Hc]%elem_of_app.
    + exists o0, dests0. cbn [ODict.get]. by rewrite !decide_True.
    + destruct (IH Hnd c Hc) as (o & dests & Hget & Hct & Hfinal).
      assert (o ≠ o0).
      { intros ->. apply odict_get_None in Hnotin. congruence. }
      exists o, dests. cbn [ODict.get]. by rewrite !decide_False.
Qed.

Lemma tick_origins_emitted_incl (b : FareBoard) :
  ∀ o dests c,
    ODict.get o b = Some dests →
    raised (Dispatcher.tick_origins W self b) = None →
    c ∈ emitted (Dispatcher.tick_dests W self o dests) →
    c ∈ emitted (Dispatcher.tick_origins W self b).
Proof.
  induction b as [|[o0 dests0] rest IH]; intros o dests c;
    cbn [Dispatcher.tick_origins ODict.get]; [done|].
  destruct (decide (o = o0)) as [->|Hne].
  - intros [= ->].
    destruct (raised (Dispatcher.tick_dests W self o0 dests)) eqn:Hr; cbn [emitted raised]; [done|].
    intros _ Hc. apply elem_of_app. by left.
  - intros Hget.
    destruct (raised (Dispatcher.tick_dests W self o0 dests0)) eqn:Hr; cbn [emitted raised]; [done|].
    intros Hnone Hc. apply elem_of_app. right. by eapply IH.
Qed.

(** Every call of a sweep of a well-formed board is made by the loop body
    on a fare of the board, which the sweep leaves as the body leaves
    it. *)
Lemma tick_origins_calls_back :
  board_ok self →
  ∀ c, c ∈ emitted (Dispatcher.tick_origins W self (Dispatcher._fareBoard self)) →
    ∃ o d t fare,
      Dispatcher.board_get (Dispatcher._fareBoard self) o d t = Some fare
      ∧ c ∈ emitted (Dispatcher.tick_fare W self o d fare)
      ∧ Dispatcher.board_get
          (final (Dispatcher.tick_origins W self (Dispatcher._fareBoard self)))
          o d t
        = Some (final (Dispatcher.tick_fare W self o d fare)).
Proof.
  intros (Hkeys & Hinner & _) c Hc.
  destruct (tick_origins_emitted_back _ Hkeys c Hc)
    as (o & dests & Ho & Hcd & Hfo).
  destruct (tick_dests_emitted_back o dests (Hinner o dests Ho) c Hcd)
    as (d & times & Hd & Hct & Hfd).
  destruct (sorted_keys_spec times) as [Hnd _].
  destruct (tick_times_emitted_back o d _ Hnd times c Hct)
    as (t & fare & _ & Hfare & Hcf & Hft).
  exists o, d, t, fare. unfold Dispatcher.board_get.
  rewrite Ho, Hfo. cbn [mbind option_bind]. rewrite Hd, Hfd.
  cbn [mbind option_bind]. done.
Qed.

(** When a sweep ends normally, the calls of the loop body on each fare
    of the board are among its calls. *)
Lemma tick_origins_calls_incl (b : FareBoard) o d t fare c :
  Dispatcher.board_get b o d t = Some fare →
  raised (Dispatcher.tick_origins W self b) = None →
  c ∈ emitted (Dispatcher.tick_fare W self o d fare) →
  c ∈ emitted (Dispatcher.tick_origins W self b).
Proof.
  unfold Dispatcher.board_get. intros Hget Hnone Hc.
  destruct (ODict.get o b) as [dests|] eqn:Ho; [|done].
  cbn [mbind option_bind] in Hget.
  destruct (ODict.get d dests) as [times|] eqn:Hd; [|done].
  cbn [mbind option_bind] in Hget.
  destruct (tick_origins_get W self b o dests Ho) as [_ Ho2].
  destruct (Ho2 Hnone) as [_ Hnone1].
  destruct (tick_dests_get W self o dests d times Hd) as [_ Hd2].
  destruct (Hd2 Hnone1) as [_ Hnone2].
  destruct (sorted_keys_spec times) as [Hnd Hkeys].
  eapply tick_origins_emitted_incl; [done..|].
  eapply tick_dests_emitted_incl; [done..|].
  eapply tick_times_emitted_incl; [done| |done..].
  apply Hkeys. eauto.
Qed.
End TickCalls.

(** X5.  Every call a tick makes on the world comes from one fare of the
    board: it is the broadcast of a fare the tick found unpriced, at the
    price it has just recorded for it, or the allocation of a fare that
    was priced, unassigned and bid on, to one of its bidders, who is in
    the roster, on duty and in funds, and whom the tick has recorded as
    the fare's taxi.  A tick cancels nothing and bids for nothing. *)
Theorem tick_calls_are_broadcasts_and_allocations (W : World.t)
    (self : Dispatcher.t) (parent : WorldRef) (c : WorldCall) :
  board_ok self →
  c ∈ emitted (Dispatcher.clockTick W self parent) →
  ∃ o d t fare,
    Dispatcher.board_get (Dispatcher._fareBoard self) o d t = Some fare
    ∧ ((pyeqb (FareEntry.price fare) (Fin 0) = true
        ∧ c = broadcastFare o d (Dispatcher._costFare W fare)
        ∧ Dispatcher.board_get
            (Dispatcher._fareBoard (final (Dispatcher.clockTick W self parent)))
            o d t
          = Some (FareEntry.set_price (Dispatcher._costFare W fare) fare))
       ∨ (up_for_allocation fare = true
          ∧ ∃ k ref,
              k ∈ FareEntry.bidders fare
              ∧ Dispatcher._taxis self !! k = Some ref
              ∧ Taxi.onDuty (World.taxi W ref) = true
              ∧ (0 < Taxi._account (World.taxi W ref))%Q
              ∧ c = allocateFare o ref
              ∧ Dispatcher.board_get
                  (Dispatcher._fareBoard
                     (final (Dispatcher.clockTick W self parent))) o d t
                = Some (FareEntry.set_taxi (Z.of_nat k) fare))).
Proof.
  intros Hok. unfold Dispatcher.clockTick.
  case_decide; cbn [emitted final Dispatcher.set_board Dispatcher._fareBoard].
  2:{ intros Hc. by apply elem_of_nil in Hc. }
  intros Hc.
  destruct (tick_origins_calls_back W self Hok c Hc)
    as (o & d & t & fare & Hget & Hcf & Hfinal).
  exists o, d, t, fare. split; [done|]. rewrite Hfinal.
  destruct (pyeqb (FareEntry.price fare) (Fin 0)) eqn:Hp.
  - left. rewrite tick_fare_unpriced in * by done. simpl in *.
    apply list_elem_of_singleton in Hcf. done.
  - right. destruct (up_for_allocation fare) eqn:Hup.
    2:{ exfalso. revert Hcf. unfold Dispatcher.tick_fare, up_for_allocation in *.
        rewrite Hp in *. simpl in Hup. rewrite Hup. simpl.
        intros Hcf. by apply elem_of_nil in Hcf. }
    split; [done|].
    destruct (tick_fare_allocation W self o d fare Hup) as [Hwin _].
    simpl in Hwin.
    destruct (allocateFare_touches_taxi_only W self o fare)
      as [Hsame | [k Hk]]; simpl in *.
    + exfalso. revert Hcf. rewrite tick_fare_allocates by done.
      unfold Dispatcher._allocateFare in *.
      destruct (Dispatcher.consider_bidders _ _ _ _ _ _) as [[[k|] h]|e];
        simpl in *; try (intros Hcf; by apply elem_of_nil in Hcf).
      destruct (up_for_allocation_inv fare Hup) as (_ & Hneg & _).
      destruct (Dispatcher._taxis self !! k); simpl in *;
        rewrite <- Hsame in Hneg; simpl in Hneg; lia.
    + rewrite tick_fare_allocates in * by done. rewrite Hk in *.
      destruct (Hwin k eq_refl) as (ref & Hin & Href & Hduty & Hacc & Hem).
      exists k, ref. rewrite Hem in Hcf.
      apply list_elem_of_singleton in Hcf. done.
Qed.

Lemma tick_calls_are_broadcasts_and_allocations_witness :
  board_ok Examples.office_two_bids
  ∧ allocateFare (0, 0)%Z 7%nat
    ∈ emitted (Dispatcher.clockTick Examples.fleet Examples.office_two_bids 0)
  ∧ ∃ o d t fare,
      Dispatcher.board_get (Dispatcher._fareBoard Examples.office_two_bids)
        o d t = Some fare
      ∧ FareEntry.bidders fare ≠ [].
Proof.
  assert (Hok : board_ok Examples.office_two_bids).
  { apply (after_calls_board_ok
             [CallNewFare 0 (0, 0)%Z (3, 4)%Z 0;
              CallClockTick Examples.town 0;
              CallFareBid Dispatcher.sorted_keys (0, 0)%Z 7%nat;
              CallFareBid Dispatcher.sorted_keys (0, 0)%Z 8%nat]
             (DispatcherRest.__init__ 0 (Some [7%nat; 8%nat]) None)).
    apply init_board_ok. }
  assert (Hc : allocateFare (0, 0)%Z 7%nat
               ∈ emitted (Dispatcher.clockTick Examples.fleet
                            Examples.office_two_bids 0)).
  { apply elem_of_cons. by left. }
  split; [exact Hok|]. split; [exact Hc|].
  destruct (tick_calls_are_broadcasts_and_allocations Examples.fleet
              Examples.office_two_bids 0 _ Hok Hc)
    as (o & d & t & fare & Hget & [(_ & Hb & _) | (Hup & k & ref & Hin & _)]).
  - discriminate Hb.
  - exists o, d, t, fare. split; [exact Hget|].
    intros Hnil. rewrite Hnil in Hin. by apply elem_of_nil in Hin.
Defined.

(** A tick that ends normally allocates a fare that is up for
    allocation and has an eligible bidder. *)
Lemma tick_allocates_eligible_bidder (W : World.t)
    (self : Dispatcher.t) (o d : coord) (t : Z) (fare : FareEntry.t)
    (j : nat) (ref : TaxiRef) :
  Dispatcher.board_get (Dispatcher._fareBoard self) o d t = Some fare →
  up_for_allocation fare = true →
  j ∈ FareEntry.bidders fare →
  Dispatcher._taxis self !! j = Some ref →
  Dispatcher.eligible (World.taxi W ref) = true →
  let r := Dispatcher.clockTick W self (Dispatcher._parent self) in
  raised r = None →
  ∃ k ref',
    k ∈ FareEntry.bidders fare
    ∧ Dispatcher._taxis self !! k = Some ref'
    ∧ Dispatcher.eligible (World.taxi W ref') = true
    ∧ Dispatcher.board_get (Dispatcher._fareBoard (final r)) o d t
      = Some (FareEntry.set_taxi (Z.of_nat k) fare)
    ∧ allocateFare o ref' ∈ emitted r.
Proof.
  intros Hget Hup Hj Href Helig r Hnone. subst r.
  destruct (clockTick_fare W self (Dispatcher._parent self) o d t fare Hget)
    as [_ Hrun].
  destruct (Hrun eq_refl Hnone) as [Hfinal Hrf]. rewrite Hfinal.
  assert (Hcalls : ∀ c, c ∈ emitted (Dispatcher.tick_fare W self o d fare) →
                        c ∈ emitted (Dispatcher.clockTick W self
                                       (Dispatcher._parent self))).
  { revert Hnone. unfold Dispatcher.clockTick. rewrite decide_True by done.
    cbn [raised emitted]. intros Hnone c Hc.
    by eapply tick_origins_calls_incl. }
  revert Hrf Hcalls. rewrite tick_fare_allocates by done.
  unfold Dispatcher._allocateFare.
  set (n := length (FareEntry.bidders fare)).
  destruct (Dispatcher.consider_bidders W self o n (None, NInf)
              (FareEntry.bidders fare)) as [[[k|] h]|e] eqn:Hloop;
    cbn [raised final emitted]; [| |done].
  - pose proof (consider_bidders_first_best W self o n _ [] _ _
                  (first_best_start _) Hloop) as Hbest.
    simpl in Hbest. destruct Hbest as (l1 & l2 & q & Hsplit & Hcand & _).
    destruct (candidate_inv _ _ _ _ _ _ Hcand) as (ref' & Hk & Hel & _).
    rewrite Hk. cbn [raised final emitted]. intros _ Hcalls.
    exists k, ref'. split.
    { rewrite Hsplit. apply elem_of_app. right. by apply elem_of_cons; left. }
    repeat split; try done. apply Hcalls. by apply elem_of_cons; left.
  - intros _ _. exfalso.
    pose proof (consider_bidders_first_best W self o n _ [] _ _
                  (first_best_start _) Hloop) as [_ Hnone'].
    specialize (Hnone' j Hj). unfold candidate in Hnone'.
    by rewrite Href, Helig in Hnone'.
Qed.



(** ** Bids *)

(** What a bid does to the board. *)
Lemma fareBid_spec (walk_order : gmap Z FareEntry.t → list Z)
    (self : Dispatcher.t) (origin : coord) (taxi : TaxiRef) :
  board_ok self →
  (∀ times t, t ∈ walk_order times ↔ is_Some (times !! t)) →
  let r := DispatcherRest.fareBid walk_order self origin taxi in
  let b := Dispatcher._fareBoard self in
  let b' := Dispatcher._fareBoard (final r) in
  raised r = None ∧ emitted r = []
  ∧ final r = Dispatcher.set_board b' self
  ∧ (taxi ∉ Dispatcher._taxis self → b' = b)
  ∧ ((b' = b
      ∧ (taxi ∈ Dispatcher._taxis self →
         ∀ d t f, Dispatcher.board_get b origin d t = Some f →
                  FareEntry.taxi f ≠ (-1)%Z))
     ∨ ∃ d t f,
         taxi ∈ Dispatcher._taxis self
         ∧ Dispatcher.board_get b origin d t = Some f
         ∧ FareEntry.taxi f = (-1)%Z
         ∧ Dispatcher._taxis self !! py_index taxi (Dispatcher._taxis self)
           = Some taxi
         ∧ Dispatcher.board_get b' origin d t
           = Some (add_bidder (py_index taxi (Dispatcher._taxis self)) f)
         ∧ ∀ o' d' t', (o', d', t') ≠ (origin, d, t) →
             Dispatcher.board_get b' o' d' t' = Dispatcher.board_get b o' d' t').
Proof.
  intros (Hkeys & Hinner & _) Horder r b b'. subst r b b'.
  unfold DispatcherRest.fareBid.
  assert (Hself : Dispatcher.set_board (Dispatcher._fareBoard self) self = self)
    by by destruct self.
  destruct (bool_decide (taxi ∈ Dispatcher._taxis self)) eqn:Hin.
  2:{ apply bool_decide_eq_false in Hin. cbn [final raised emitted].
      repeat split; try done. left. split; [done|]. intros Hin'. done. }
  apply bool_decide_eq_true in Hin.
  destruct (ODict.get origin (Dispatcher._fareBoard self)) as [dests|] eqn:Ho.
  2:{ cbn [final raised emitted]. repeat split; try done. left.
      split; [done|]. intros _ d t f. unfold Dispatcher.board_get.
      by rewrite Ho. }
  pose proof (bid_dests_spec walk_order
                (py_index taxi (Dispatcher._taxis self)) dests
                (Hinner origin dests Ho)) as Hspec.
  destruct (DispatcherRest.bid_dests walk_order _ dests) as [[dests'|]|e].
  - destruct Hspec as (d & times & time & fare & Hd & _ & Hfare & Hopen & ->).
    cbn [final raised emitted Dispatcher.set_board Dispatcher._fareBoard].
    destruct (board_get_set (Dispatcher._fareBoard self) origin d time
                (add_bidder (py_index taxi (Dispatcher._taxis self)) fare)
                dests times) as [Hkey Hothers]; [by left..|].
    repeat split; try done. right. exists d, time, fare.
    split; [done|]. split.
    { unfold Dispatcher.board_get. rewrite Ho. cbn [mbind option_bind].
      by rewrite Hd. }
    split; [done|]. split; [by apply py_index_elem|]. done.
  - cbn [final raised emitted]. repeat split; try done. left.
    split; [done|]. intros _ d t f. unfold Dispatcher.board_get.
    rewrite Ho. cbn [mbind option_bind].
    destruct (ODict.get d dests) as [times|] eqn:Hd; [|done].
    cbn [mbind option_bind]. intros Hf.
    destruct (Hspec d times t Hd) as (f' & Hf' & Htaken).
    { apply Horder. eauto. }
    congruence.
  - exfalso. destruct Hspec as (_ & d & times & t & _ & Hin' & Hnone).
    apply Horder in Hin'. rewrite Hnone in Hin'. by destruct Hin'.
Qed.

(** X7.  [fareBid], whatever the order in which the call times of a
    level are walked (as long as it lists exactly the call times
    present), never raises and makes no call on the world.  A bid from a
    taxi that is not in the roster, or for an origin with no unassigned
    fare, changes nothing.  Otherwise exactly one fare changes: an
    unassigned fare of that origin gets the roster index of the taxi
    appended to its bidders; its price and taxi stay as they are and no
    other fare is touched. *)
Theorem fareBid_places_one_bid (walk_order : gmap Z FareEntry.t → list Z)
    (self : Dispatcher.t) (origin : coord) (taxi : TaxiRef) :
  board_ok self →
  (∀ times t, t ∈ walk_order times ↔ is_Some (times !! t)) →
  let r := DispatcherRest.fareBid walk_order self origin taxi in
  let b := Dispatcher._fareBoard self in
  let b' := Dispatcher._fareBoard (final r) in
  raised r = None ∧ emitted r = []
  ∧ final r = Dispatcher.set_board b' self
  ∧ (taxi ∉ Dispatcher._taxis self → b' = b)
  ∧ ((b' = b
      ∧ (taxi ∈ Dispatcher._taxis self →
         ∀ d t f, Dispatcher.board_get b origin d t = Some f →
                  FareEntry.taxi f ≠ (-1)%Z))
     ∨ ∃ d t f,
         taxi ∈ Dispatcher._taxis self
         ∧ Dispatcher.board_get b origin d t = Some f
         ∧ FareEntry.taxi f = (-1)%Z
         ∧ Dispatcher._taxis self !! py_index taxi (Dispatcher._taxis self)
           = Some taxi
         ∧ Dispatcher.board_get b' origin d t
           = Some (add_bidder (py_index taxi (Dispatcher._taxis self)) f)
         ∧ ∀ o' d' t', (o', d', t') ≠ (origin, d, t) →
             Dispatcher.board_get b' o' d' t' = Dispatcher.board_get b o' d' t').
Proof. exact (fareBid_spec walk_order self origin taxi). Qed.

Lemma fareBid_places_one_bid_witness :
  let r := DispatcherRest.fareBid Dispatcher.sorted_keys
             Examples.office_one_fare (0, 0)%Z 7%nat in
  board_ok Examples.office_one_fare
  ∧ raised r = None
  ∧ Dispatcher.board_get (Dispatcher._fareBoard (final r)) (0, 0)%Z (3, 4)%Z 0
    = Some (add_bidder 0 (FareEntry.new (0, 0)%Z (3, 4)%Z 0)).
Proof.
  assert (Hok : board_ok Examples.office_one_fare).
  { apply (after_calls_board_ok [CallNewFare 0 (0, 0)%Z (3, 4)%Z 0]
             (DispatcherRest.__init__ 0 (Some [7%nat]) None)).
    apply init_board_ok. }
  destruct (fareBid_places_one_bid Dispatcher.sorted_keys
              Examples.office_one_fare (0, 0)%Z 7%nat Hok)
    as (Hr & _).
  { intros times t. apply sorted_keys_spec. }
  split; [exact Hok|]. split; [exact Hr|]. reflexivity.
Defined.

(** ** Handover *)

(** X8.  [handover] for the dispatcher's own world files the fare under
    its key with the given price, no bidder, and as its taxi the roster
    index of the taxi handed over, which it adds to the roster if it was
    not known; every other fare and every roster position is as before.
    Cancelling that fare afterwards notifies exactly that taxi. *)
Theorem handover_files_an_assigned_fare (self : Dispatcher.t)
    (o d : coord) (t : Z) (taxi : TaxiRef) (price : pynum) :
  let parent := Dispatcher._parent self in
  let r := DispatcherRest.handover self parent o d t taxi price in
  let k := py_index taxi (Dispatcher._taxis (final r)) in
  raised r = None ∧ emitted r = []
  ∧ Dispatcher._taxis (final r) !! k = Some taxi
  ∧ (∀ i ref, Dispatcher._taxis self !! i = Some ref →
              Dispatcher._taxis (final r) !! i = Some ref)
  ∧ Dispatcher.board_get (Dispatcher._fareBoard (final r)) o d t
    = Some (FareEntry.mk o d t price (Z.of_nat k) [])
  ∧ (∀ o' d' t', (o', d', t') ≠ (o, d, t) →
       Dispatcher.board_get (Dispatcher._fareBoard (final r)) o' d' t'
       = Dispatcher.board_get (Dispatcher._fareBoard self) o' d' t')
  ∧ raised (Dispatcher.cancelFare (final r) parent o d t) = None
  ∧ emitted (Dispatcher.cancelFare (final r) parent o d t)
    = [cancelFare o taxi].
Proof.
  intros parent r k. subst parent r k.
  destruct (handover_run self o d t taxi price)
    as (Hr & He & Hb & Htaxis & _).
  cbn zeta in *. rewrite Hr, He, Htaxis.
  set (self1 := DispatcherRest.addTaxi self taxi) in *.
  set (k := py_index taxi (Dispatcher._taxis self1)) in *.
  assert (Hk : Dispatcher._taxis self1 !! k = Some taxi).
  { apply py_index_elem, addTaxi_elem. }
  set (dests := default [] (ODict.get o (Dispatcher._fareBoard self))) in *.
  set (times := default ∅ (ODict.get d dests)) in *.
  destruct (board_get_set (Dispatcher._fareBoard self) o d t
              (FareEntry.mk o d t price (Z.of_nat k) []) dests times)
    as [Hkey Hothers].
  { subst dests. destruct (ODict.get o _); simpl; auto. }
  { subst times. destruct (ODict.get d _); simpl; auto. }
  cbn zeta in Hkey, Hothers. rewrite <- Hb in Hkey, Hothers.
  assert (Hpar : Dispatcher._parent
                   (final (DispatcherRest.handover self
                             (Dispatcher._parent self) o d t taxi price))
                 = Dispatcher._parent self).
  { unfold DispatcherRest.handover. rewrite decide_True by done.
    fold self1.
    assert (Dispatcher._parent self1 = Dispatcher._parent self) as Hp1.
    { subst self1. unfold DispatcherRest.addTaxi. by case_bool_decide. }
    destruct (newFare_board self1 o d t) as (Hr1 & _ & _ & _ & _ & _ & _ & Hp).
    cbn zeta in Hr1, Hp. rewrite Hp1 in Hr1, Hp. rewrite Hr1.
    repeat (destruct (DispatcherRest.board_update _ _ _ _ _);
            cbn [final Dispatcher._parent Dispatcher.set_board]); done. }
  split; [done|]. split; [done|]. split; [done|]. split.
  { intros i ref Hi. subst self1. unfold DispatcherRest.addTaxi.
    case_bool_decide; [done|]. simpl. by apply lookup_app_l_Some. }
  split; [done|]. split; [done|].
  destruct (cancelFare_assigned _ o d t _ k taxi Hkey eq_refl)
    as (Hc1 & Hc2 & _).
  { by rewrite Htaxis. }
  cbn zeta in Hc1, Hc2. rewrite Hpar in Hc1, Hc2. done.
Qed.

(** ** An assigned fare *)

Lemma after_call_frozen (self : Dispatcher.t) (c : Call) (o d : coord) (t : Z)
    (fare : FareEntry.t) :
  board_ok self →
  Dispatcher.board_get (Dispatcher._fareBoard self) o d t = Some fare →
  pyeqb (FareEntry.price fare) (Fin 0) = false →
  (0 <= FareEntry.taxi fare)%Z →
  rewrites_key (o, d, t) c = false →
  Dispatcher.board_get (Dispatcher._fareBoard (after_call self c)) o d t
  = Some fare.
Proof.
  intros Hok Hget Hpriced Htaxi Hkey.
  destruct c; cbn [after_call rewrites_key] in *.
  - unfold DispatcherRest.addTaxi. by case_bool_decide.
  - unfold DispatcherRest.addMapNode.
    destruct (Terrain.getNode T coords); [|done].
    destruct (neighbourDict _ _ _ _); [|done].
    by destruct (Dispatcher._map self).
  - destruct (Dispatcher._map self) as [m|] eqn:Hm.
    + by destruct (importMap_lookup T self m newMap Hm) as (m' & -> & _).
    + unfold DispatcherRest.importMap. by rewrite Hm.
  - apply bool_decide_eq_false in Hkey.
    destruct (decide (Dispatcher._parent self = parent)) as [<-|Hne].
    2:{ unfold DispatcherRest.handover. by rewrite decide_False. }
    destruct (handover_run self origin destination time taxi price)
      as (_ & _ & Hb & _).
    cbn zeta in Hb. rewrite Hb.
    set (dests := default [] (ODict.get origin (Dispatcher._fareBoard self))).
    set (times := default ∅ (ODict.get destination dests)).
    destruct (board_get_set (Dispatcher._fareBoard self) origin destination
                time (FareEntry.mk origin destination time price
                        (Z.of_nat (py_index taxi
                           (Dispatcher._taxis (DispatcherRest.addTaxi self taxi))))
                        []) dests times) as [_ Hothers].
    { subst dests. destruct (ODict.get origin _); simpl; auto. }
    { subst times. destruct (ODict.get destination _); simpl; auto. }
    cbn zeta in Hothers. rewrite Hothers; [done|]. congruence.
  - apply bool_decide_eq_false in Hkey.
    destruct (decide (parent = Dispatcher._parent self)) as [->|Hne].
    2:{ unfold Dispatcher.newFare. by rewrite decide_False. }
    destruct (newFare_inserts self origin destination time)
      as (_ & _ & _ & Hothers & _).
    cbn zeta in Hothers. rewrite Hothers; [done|]. congruence.
  - apply bool_decide_eq_false in Hkey.
    destruct (decide (parent = Dispatcher._parent self)) as [->|Hne].
    2:{ unfold Dispatcher.cancelFare. by rewrite decide_False. }
    destruct (Dispatcher.board_get (Dispatcher._fareBoard self) origin
                destination time) as [fare0|] eqn:Hget0.
    2:{ rewrite cancelFare_absent; [done| |done]. apply Hok. }
    rewrite (cancelFare_run self origin destination time fare0 Hget0).
    destruct (py_getitem _ _); cbn [final Dispatcher._fareBoard
      Dispatcher.set_board Dispatcher.set_abandonedRides]; [|done].
    rewrite board_without_get.
    destruct (decide ((o, d, t) = (origin, destination, time))) as [?|_];
      [congruence|done].
  - destruct (fareBid_cases walk_order self origin taxi Hok)
      as [_ [-> | Hbid]]; [done|].
    destruct Hbid as (dests & d' & times & time & fare' & _ & _ & Ho & Hd
                      & Hfare' & Hopen & ->).
    cbn [Dispatcher._fareBoard Dispatcher.set_board].
    destruct (board_get_set (Dispatcher._fareBoard self) origin d' time
                (add_bidder (py_index taxi (Dispatcher._taxis self)) fare')
                dests times) as [_ Hothers]; [by left..|].
    cbn zeta in Hothers. rewrite Hothers; [done|].
    intros [= -> -> ->].
    unfold Dispatcher.board_get in Hget. rewrite Ho in Hget.
    cbn [mbind option_bind] in Hget. rewrite Hd in Hget.
    cbn [mbind option_bind] in Hget. rewrite Hfare' in Hget.
    injection Hget as ->. lia.
  - unfold Dispatcher.recvPayment. by case_decide.
  - destruct (clockTick_fare W self parent o d t fare Hget)
      as [[Hsame | Hstep] _]; [done|].
    rewrite Hstep. f_equal. unfold Dispatcher.tick_fare.
    rewrite Hpriced.
    destruct (Z.ltb_spec (FareEntry.taxi fare) 0); [lia|done].
Qed.

(** X9.  A fare that has a price and a taxi is settled: through any
    sequence of calls of the dispatcher's methods that neither files nor
    cancels a fare under its key (ticks in any world, bids by any taxi,
    payments, roster and map updates, fares and handovers under other
    keys, cancellations of other fares), it stays on the board with the
    same taxi, the same price and the same bidders. *)
Theorem assigned_fare_is_settled (cs : list Call) (self : Dispatcher.t)
    (o d : coord) (t : Z) (fare : FareEntry.t) :
  board_ok self →
  Dispatcher.board_get (Dispatcher._fareBoard self) o d t = Some fare →
  pyeqb (FareEntry.price fare) (Fin 0) = false →
  (0 <= FareEntry.taxi fare)%Z →
  forallb (λ c, negb (rewrites_key (o, d, t) c)) cs = true →
  Dispatcher.board_get (Dispatcher._fareBoard (after_calls self cs)) o d t
  = Some fare.
Proof.
  revert self. induction cs as [|c cs IH];
    intros self Hok Hget Hpriced Htaxi Hcs; [done|].
  cbn [forallb] in Hcs. apply andb_prop in Hcs as [Hc Hcs].
  apply negb_true_iff in Hc.
  cbn [after_calls foldl]. apply IH; try done.
  - by apply after_call_board_ok.
  - by apply after_call_frozen.
Qed.

Lemma assigned_fare_is_settled_witness :
  let self :=
    final (DispatcherRest.handover Examples.office 0 (0, 0)%Z (3, 4)%Z 0
             7%nat (Fin 32)) in
  let cs :=
    [CallClockTick Examples.town 0;
     CallFareBid Dispatcher.sorted_keys (0, 0)%Z 7%nat;
     CallNewFare 0 (0, 0)%Z (5, 5)%Z 1;
     CallClockTick Examples.town_free 0;
     CallCancelFare 0 (0, 0)%Z (5, 5)%Z 1] in
  board_ok self
  ∧ Dispatcher.board_get (Dispatcher._fareBoard (after_calls self cs))
      (0, 0)%Z (3, 4)%Z 0
    = Some (FareEntry.mk (0, 0)%Z (3, 4)%Z 0 (Fin 32) 0 []).
Proof.
  intros self cs.
  assert (Hok : board_ok self).
  { apply (after_calls_board_ok
             [CallHandover 0 (0, 0)%Z (3, 4)%Z 0 7%nat (Fin 32)]
             (DispatcherRest.__init__ 0 (Some [7%nat]) None)).
    apply init_board_ok. }
  split; [exact Hok|].
  apply (assigned_fare_is_settled cs self (0, 0)%Z (3, 4)%Z 0
           (FareEntry.mk (0, 0)%Z (3, 4)%Z 0 (Fin 32) 0 []) Hok);
    reflexivity.
Defined.

(** ** Bounds on the price *)



(** ** The taxi's tick *)

Lemma same_but_work_refl a : same_but_work a a.
Proof. unfold same_but_work. by destruct a. Qed.

Lemma same_but_work_trans a b c :
  same_but_work a b → same_but_work b c → same_but_work a c.
Proof.
  unfold same_but_work. intros Hab Hbc. rewrite Hbc at 1. rewrite Hab at 1.
  by destruct a.
Qed.

Lemma same_but_work_set_path a p : same_but_work a (Taxi.set_path p a).
Proof. unfold same_but_work. by destruct a. Qed.

Lemma same_but_work_set_passenger a p :
  same_but_work a (Taxi.set_passenger p a).
Proof. unfold same_but_work. by destruct a. Qed.

Lemma same_but_work_set_fares a d :
  same_but_work a (Taxi.set_availableFares d a).
Proof. unfold same_but_work. by destruct a. Qed.

Lemma same_but_work_set_account a q : same_but_work a (Taxi.set_account q a).
Proof. unfold same_but_work. by destruct a. Qed.

Section TaxiTickFacts.
Variable h : coord → coord → Q.
Variable fuel : nat.
Variable W : World.t.

Lemma replan_frame self origin destination self' e :
  TaxiAgent.replan h fuel self origin destination = Some (self', e) →
  same_but_work self self'
  ∧ Taxi._availableFares self' = Taxi._availableFares self
  ∧ Taxi._passenger self' = Taxi._passenger self
  ∧ Taxi._account self' = Taxi._account self.
Proof.
  unfold TaxiAgent.replan.
  destruct (TaxiAgent._planPath _ _ _ _ _) as [p|e'|]; intros [= <- <-].
  - split; [apply same_but_work_set_path|done].
  - split; [apply same_but_work_refl|done].
Qed.

Lemma arrive_frame self self' e :
  TaxiAgent.arrive h fuel W self = Some (self', e) →
  same_but_work self self'
  ∧ Taxi._availableFares self' = Taxi._availableFares self
  ∧ Taxi._account self' = Taxi._account self.
Proof.
  unfold TaxiAgent.arrive.
  destruct (TaxiAgent.path_len self) as [n|e0].
  2:{ intros [= <- <-]. split; [apply same_but_work_refl|done]. }
  destruct (n =? 0).
  2:{ intros [= <- <-]. split; [apply same_but_work_refl|done]. }
  destruct (Taxi._passenger self) as [passenger|].
  2:{ intros [= <- <-]. split; [apply same_but_work_refl|done]. }
  destruct (TaxiAgent.loc_index self) as [here|e0].
  2:{ intros [= <- <-]. split; [apply same_but_work_refl|done]. }
  destruct (World.dropoffFare W here passenger (Taxi._direction self)).
  { intros [= <- <-]. split; [apply same_but_work_set_passenger|done]. }
  case_decide.
  - intros Hr. apply replan_frame in Hr as (? & ? & _ & ?). done.
  - intros [= <- <-]. split; [apply same_but_work_refl|done].
Qed.

Lemma consider_frame self key info self' info' remove calls e :
  TaxiAgent.consider h fuel W self key info
  = Some (self', info', remove, calls, e) →
  same_but_work self self'
  ∧ Taxi._availableFares self' = Taxi._availableFares self
  ∧ Taxi._account self' = Taxi._account self.
Proof.
  unfold TaxiAgent.consider.
  destruct (TaxiAgent.path_len self) as [n|e0].
  2:{ intros [= <- <- <- <- <-]. split; [apply same_but_work_refl|done]. }
  destruct (_ && _ && _)%bool.
  - destruct (TaxiAgent.loc_index self) as [here|e0].
    2:{ intros [= <- <- <- <- <-]. split; [apply same_but_work_refl|done]. }
    destruct ((here.1 =? _)%Z && _)%bool.
    + destruct (World.pickupFare W here (Taxi._direction self)) as [p|].
      * destruct (TaxiAgent.replan _ _ _ _ _) as [[self2 [e2|]]|] eqn:Hr;
          [| |done]; intros [= <- <- <- <- <-];
          apply replan_frame in Hr as (Hf & H1 & H2 & H3);
          (split; [|done]);
          (eapply same_but_work_trans; [|exact Hf]);
          apply same_but_work_set_passenger.
      * intros [= <- <- <- <- <-].
        split; [apply same_but_work_set_passenger|done].
    + destruct (TaxiAgent.replan _ _ _ _ _) as [[self2 e2]|] eqn:Hr; [|done].
      intros [= <- <- <- <- <-].
      apply replan_frame in Hr as (Hf & H1 & H2 & H3). done.
  - destruct (_ >? _)%Z.
    { intros [= <- <- <- <- <-]. split; [apply same_but_work_refl|done]. }
    destruct (_ =? _)%Z.
    2:{ intros [= <- <- <- <- <-]. split; [apply same_but_work_refl|done]. }
    destruct (TaxiAgent._bidOnFare _ _ _ _ _ _) as [[|]|e0];
      intros [= <- <- <- <- <-]; (split; [apply same_but_work_refl|done]).
Qed.

Lemma scan_frame items :
  ∀ self self' items' removes calls e,
    TaxiAgent.scan h fuel W self items
    = Some (self', items', removes, calls, e) →
    same_but_work self self'
    ∧ Taxi._availableFares self' = Taxi._availableFares self
    ∧ Taxi._account self' = Taxi._account self.
Proof.
  induction items as [|[key info] rest IH];
    intros self self' items' removes calls e; cbn [TaxiAgent.scan].
  { intros [= <- <- <- <- <-]. split; [apply same_but_work_refl|done]. }
  destruct (TaxiAgent.consider h fuel W self key info)
    as [[[[[self1 info1] remove] calls1] [e1|]]|] eqn:Hc; [| |done].
  - intros [= <- <- <- <- <-]. by eapply consider_frame.
  - destruct (TaxiAgent.scan h fuel W self1 rest)
      as [[[[[self2 items2] removes2] calls2] e2]|] eqn:Hs; [|done].
    intros [= <- <- <- <- <-].
    apply consider_frame in Hc as (Hf1 & Ha1 & Hb1).
    apply IH in Hs as (Hf2 & Ha2 & Hb2).
    split; [by eapply same_but_work_trans|]. split; congruence.
Qed.
End TaxiTickFacts.

Section TaxiTickCalls.
Variable h : coord → coord → Q.
Variable fuel : nat.
Variable W : World.t.

Lemma same_but_work_fields a b :
  same_but_work a b →
  Taxi.number b = Taxi.number a
  ∧ Taxi._maxFareWait b = Taxi._maxFareWait a
  ∧ Taxi.onDuty b = Taxi.onDuty a
  ∧ Taxi._offDutyTime b = Taxi._offDutyTime a
  ∧ Taxi._onDutyTime b = Taxi._onDutyTime a
  ∧ Taxi.income b = Taxi.income a
  ∧ Taxi.lastFareCompletionTime b = Taxi.lastFareCompletionTime a
  ∧ Taxi._map b = Taxi._map a
  ∧ Taxi._loc b = Taxi._loc a.
Proof. unfold same_but_work. intros ->. by destruct a. Qed.

(** What the loop body does for one fare. *)
Lemma consider_spec self key info self' info' remove calls e :
  TaxiAgent.consider h fuel W self key info
  = Some (self', info', remove, calls, e) →
  FareInfo.allocated info' = FareInfo.allocated info
  ∧ (e = None → FareInfo.allocated info = false →
     (World.simTime W - key.1.1 > Taxi._maxFareWait self)%Z → remove = true)
  ∧ ∀ c, c ∈ calls →
      FareInfo.bid info = 0%Z
      ∧ (World.simTime W - key.1.1 <= Taxi._maxFareWait self)%Z
      ∧ c = transmitFareBid (key_origin key) (Taxi.number self)
      ∧ Taxi._passenger self = None
      ∧ TaxiAgent.any_allocated (Taxi._availableFares self) = false.
Proof.
  unfold TaxiAgent.consider.
  assert (Hnil : ∀ c : WorldCall, c ∈ [] → FareInfo.bid info = 0%Z
      ∧ (World.simTime W - key.1.1 <= Taxi._maxFareWait self)%Z
      ∧ c = transmitFareBid (key_origin key) (Taxi.number self)
      ∧ Taxi._passenger self = None
      ∧ TaxiAgent.any_allocated (Taxi._availableFares self) = false).
  { intros c Hc. by apply elem_of_nil in Hc. }
  destruct (TaxiAgent.path_len self) as [n|e0].
  2:{ intros [= <- <- <- <- <-]. done. }
  destruct ((n =? 0)%nat && FareInfo.allocated info
            && negb (Taxi.isHandlingFare self))%bool eqn:Hfirst.
  - assert (FareInfo.allocated info = true) as Halloc.
    { apply andb_prop in Hfirst as [[_ ?]%andb_prop _]. done. }
    destruct (TaxiAgent.loc_index self) as [here|e1].
    2:{ intros [= <- <- <- <- <-]. done. }
    destruct ((here.1 =? _)%Z && _)%bool.
    + destruct (World.pickupFare W here (Taxi._direction self)) as [p|].
      * destruct (TaxiAgent.replan _ _ _ _ _) as [[self2 [e2|]]|];
          cbn beta iota; [| |discriminate];
          intros [= <- <- <- <- <-]; (split; [done|]);
          (split; [congruence|done]).
      * intros [= <- <- <- <- <-]. split; [done|]. split; [congruence|done].
    + destruct (TaxiAgent.replan _ _ _ _ _) as [[self2 e2]|];
        cbn beta iota; [|discriminate].
      intros [= <- <- <- <- <-]. split; [done|]. split; [congruence|done].
  - destruct (Z.gtb_spec (World.simTime W - key.1.1) (Taxi._maxFareWait self)).
    { intros [= <- <- <- <- <-]. done. }
    destruct (Z.eqb_spec (FareInfo.bid info) 0).
    2:{ intros [= <- <- <- <- <-]. split; [done|]. split; [lia|done]. }
    destruct (TaxiAgent._bidOnFare _ _ _ _ _ _) as [[|]|e1] eqn:Hbid;
      intros [= <- <- <- <- <-]; simpl;
      (split; [done|]); (split; [lia|]); try done.
    intros c Hc%list_elem_of_singleton. subst c.
    unfold TaxiAgent._bidOnFare in Hbid.
    destruct (Taxi.isHandlingFare self || _)%bool eqn:Hbusy; [done|].
    apply orb_false_elim in Hbusy as [Hpass Hany].
    unfold Taxi.isHandlingFare in Hpass.
    destruct (Taxi._passenger self); [done|].
    repeat split; try done.
Qed.

(** What the loop over the fares leaves and asks. *)
Lemma scan_spec items :
  ∀ self self' items' removes calls e,
    TaxiAgent.scan h fuel W self items
    = Some (self', items', removes, calls, e) →
    (∀ key info', (key, info') ∈ items' →
       ∃ info, (key, info) ∈ items
               ∧ FareInfo.allocated info' = FareInfo.allocated info
               ∧ (e = None → FareInfo.allocated info = false →
                  (World.simTime W - key.1.1 > Taxi._maxFareWait self)%Z →
                  key ∈ removes))
    ∧ ∀ c, c ∈ calls →
        ∃ key info,
          (key, info) ∈ items
          ∧ FareInfo.bid info = 0%Z
          ∧ (World.simTime W - key.1.1 <= Taxi._maxFareWait self)%Z
          ∧ c = transmitFareBid (key_origin key) (Taxi.number self)
          ∧ TaxiAgent.any_allocated (Taxi._availableFares self) = false.
Proof.
  induction items as [|[key info] rest IH];
    intros self self' items' removes calls e; cbn [TaxiAgent.scan].
  { intros [= <- <- <- <- <-]. split.
    - intros k i Hin. by apply elem_of_nil in Hin.
    - intros c Hc. by apply elem_of_nil in Hc. }
  destruct (TaxiAgent.consider h fuel W self key info)
    as [[[[[self1 info1] remove] calls1] [e1|]]|] eqn:Hc; [| |done].
  - intros [= <- <- <- <- <-].
    destruct (consider_spec _ _ _ _ _ _ _ _ Hc) as (Ha & _ & Hcalls).
    split.
    + intros k i' [[= -> ->]|Hin]%elem_of_cons.
      * exists info. split; [by apply elem_of_cons; left|]. done.
      * exists i'. split; [by apply elem_of_cons; right|]. done.
    + intros c Hin. exists key, info.
      split; [by apply elem_of_cons; left|].
      destruct (Hcalls c Hin) as (? & ? & ? & ? & ?). done.
  - destruct (TaxiAgent.scan h fuel W self1 rest)
      as [[[[[self2 items2] removes2] calls2] e2]|] eqn:Hs; [|done].
    intros [= <- <- <- <- <-].
    destruct (consider_spec _ _ _ _ _ _ _ _ Hc) as (Ha & Hrem & Hcalls).
    apply consider_frame in Hc as (Hf & Hfares & _).
    apply same_but_work_fields in Hf as (Hnum & Hwait & _).
    destruct (IH _ _ _ _ _ _ Hs) as [Hitems Hcalls2].
    rewrite Hnum, Hwait, Hfares in *.
    split.
    + intros k i' [[= -> ->]|Hin]%elem_of_cons.
      * exists info. split; [by apply elem_of_cons; left|].
        split; [done|]. intros _ Hun Hstale.
        rewrite (Hrem eq_refl Hun Hstale). by apply elem_of_cons; left.
      * destruct (Hitems k i' Hin) as (i & Hi & Hai & Hri).
        exists i. split; [by apply elem_of_cons; right|].
        split; [done|]. intros He Hun Hstale.
        specialize (Hri He Hun Hstale).
        destruct remove; [by apply elem_of_cons; right|done].
    + intros c [Hin|Hin]%elem_of_app.
      * exists key, info. split; [by apply elem_of_cons; left|].
        destruct (Hcalls c Hin) as (? & ? & ? & ? & ?). done.
      * destruct (Hcalls2 c Hin) as (k & i & Hi & H).
        exists k, i. split; [by apply elem_of_cons; right|done].
Qed.

Lemma foldl_del_elem {V} (removes : list FareKey) :
  ∀ (items : list (FareKey * V)) k v,
    (k, v) ∈ foldl (λ d expired, ODict.del expired d) items removes →
    (k ∉ removes) ∧ (k, v) ∈ items.
Proof.
  induction removes as [|x removes IH]; intros items k v; cbn [foldl].
  { intros Hin. split; [apply not_elem_of_nil|done]. }
  intros Hin. apply IH in Hin as [Hnotin Hin].
  assert (Hdel : ∀ items : list (FareKey * V),
            (k, v) ∈ ODict.del x items → k ≠ x ∧ (k, v) ∈ items).
  { clear. induction items as [|[k0 v0] r IHr]; cbn [ODict.del].
    - intros Hin. by apply elem_of_nil in Hin.
    - case_decide as Hx.
      + intros Hin. apply IHr in Hin as [? ?]. split; [done|].
        by apply elem_of_cons; right.
      + intros [[= -> ->]|Hin]%elem_of_cons.
        * split; [done|]. by apply elem_of_cons; left.
        * apply IHr in Hin as [? ?]. split; [done|].
          by apply elem_of_cons; right. }
  apply Hdel in Hin as [Hne Hin]. split; [|done].
  apply not_elem_of_cons. done.
Qed.
End TaxiTickCalls.

Section TaxiTickTheorems.
Variable h : coord → coord → Q.
Variable fuel : nat.
Variable W : World.t.

(** The taxi as the head of the tick leaves it: off duty when its
    account is empty and it has no passenger. *)
Lemma clockTick_structure (self : Taxi.t) (r : Run Taxi.t) :
  TaxiAgent.clockTick h fuel W self = Some r →
  let self0 :=
    if (Qle_bool (Taxi._account self) 0
        && negb (Taxi.isHandlingFare self))%bool
    then Taxi.set_offDuty (World.simTime W) self else self in
  same_but_work self0 (final r)
  ∧ (raised r = None → Taxi._account (final r) = (Taxi._account self - 1)%Q)
  ∧ (raised r ≠ None → Taxi._account (final r) = Taxi._account self)
  ∧ (∀ c, c ∈ emitted r →
       ∃ key info,
         (key, info) ∈ Taxi._availableFares self
         ∧ FareInfo.bid info = 0%Z
         ∧ (World.simTime W - key.1.1 <= Taxi._maxFareWait self)%Z
         ∧ c = transmitFareBid (key_origin key) (Taxi.number self)
         ∧ TaxiAgent.any_allocated (Taxi._availableFares self) = false)
  ∧ (raised r = None →
     ∀ key info, (key, info) ∈ Taxi._availableFares (final r) →
       FareInfo.allocated info = false →
       (World.simTime W - key.1.1 <= Taxi._maxFareWait self)%Z).
Proof.
  intros Hrun self0. revert Hrun. unfold TaxiAgent.clockTick. fold self0.
  assert (H0 : Taxi._account self0 = Taxi._account self
               ∧ Taxi._availableFares self0 = Taxi._availableFares self
               ∧ Taxi.number self0 = Taxi.number self
               ∧ Taxi._maxFareWait self0 = Taxi._maxFareWait self).
  { subst self0. by destruct (_ && _)%bool. }
  destruct H0 as (Hacc0 & Hfares0 & Hnum0 & Hwait0).
  destruct (TaxiAgent.arrive h fuel W self0) as [[self1 [e1|]]|] eqn:Harr;
    [| |done].
  { intros [= <-]. cbn [final raised emitted].
    apply arrive_frame in Harr as (Hf & _ & Ha).
    split; [done|]. split; [done|]. split; [intros _; congruence|].
    split; [|done]. intros c Hc. by apply elem_of_nil in Hc. }
  pose proof (arrive_frame _ _ _ _ _ _ Harr) as (Hf1 & Hfares1 & Hacc1).
  pose proof (same_but_work_fields _ _ Hf1) as (Hnum1 & Hwait1 & _).
  destruct (TaxiAgent.scan h fuel W self1 (Taxi._availableFares self1))
    as [[[[[self2 items] removes] calls] e2]|] eqn:Hscan; [|done].
  pose proof (scan_frame _ _ _ _ _ _ _ _ _ _ Hscan) as (Hf2 & Hfares2 & Hacc2).
  destruct (scan_spec _ _ _ _ _ _ _ _ _ _ Hscan) as [Hitems Hcalls].
  rewrite Hfares1, Hfares0, Hnum1, Hnum0, Hwait1, Hwait0 in *.
  assert (Hframe : ∀ d q, same_but_work self0
            (Taxi.set_account q (Taxi.set_availableFares d self2))).
  { intros d q. eapply same_but_work_trans; [exact Hf1|].
    eapply same_but_work_trans; [exact Hf2|].
    eapply same_but_work_trans; [apply same_but_work_set_fares|].
    apply same_but_work_set_account. }
  destruct e2 as [e2|]; intros [= <-]; cbn [final raised emitted].
  - split.
    { eapply same_but_work_trans; [exact Hf1|].
      eapply same_but_work_trans; [exact Hf2|].
      apply same_but_work_set_fares. }
    split; [done|]. split; [intros _; simpl; congruence|].
    split; [exact Hcalls|done].
  - split; [apply Hframe|]. split; [intros _; simpl; congruence|].
    split; [done|]. split; [exact Hcalls|].
    intros _ key info Hin Hun. simpl in Hin.
    apply foldl_del_elem in Hin as [Hnotin Hin].
    destruct (Hitems key info Hin) as (info0 & _ & Ha & Hrem).
    destruct (Z_le_gt_dec (World.simTime W - key.1.1) (Taxi._maxFareWait self))
      as [?|Hstale]; [done|].
    exfalso. apply Hnotin. apply Hrem; [done|congruence|done].
Qed.
End TaxiTickTheorems.



(** X12.  A taxi that a tick sends off duty (its account is empty and it
    carries no passenger) at a time other than 0 does not come back:
    the tick records the time as the end of the taxi's duty, and
    [comeOnDuty] at that time or any later one leaves the taxi as it is,
    off duty, whatever its daily allowance and whatever the world would
    answer. *)
Theorem taxi_sent_off_duty_does_not_return (h : coord → coord → Q)
    (fuel : nat) (W : World.t) (self : Taxi.t) (r : Run Taxi.t)
    (addTaxi : option coord → Pose) (time : Z) :
  TaxiAgent.clockTick h fuel W self = Some r →
  (Taxi._account self <= 0)%Q →
  Taxi._passenger self = None →
  World.simTime W ≠ 0%Z →
  (World.simTime W <= time)%Z →
  Taxi.onDuty (final r) = false
  ∧ Taxi._offDutyTime (final r) = World.simTime W
  ∧ TaxiRest.comeOnDuty addTaxi (final r) time = final r.
Proof.
  intros Hrun Hacc Hpass Hnow Hlater.
  destruct (clockTick_structure h fuel W self r Hrun) as (Hframe & _).
  apply same_but_work_fields in Hframe as (_ & _ & Hduty & Hoff & _).
  assert (Hgo : (Qle_bool (Taxi._account self) 0
                 && negb (Taxi.isHandlingFare self))%bool = true).
  { apply andb_true_intro. split; [by apply Qle_bool_iff|].
    unfold Taxi.isHandlingFare. by rewrite Hpass. }
  rewrite Hgo in Hduty, Hoff. simpl in Hduty, Hoff.
  split; [done|]. split; [done|].
  unfold TaxiRest.comeOnDuty. rewrite Hoff.
  destruct (Z.eqb_spec (World.simTime W) 0); [done|].
  destruct (Z.ltb_spec time (World.simTime W)); [lia|].
  by rewrite andb_false_r.
Qed.

Lemma taxi_sent_off_duty_does_not_return_witness :
  ∃ r, TaxiAgent.clockTick MoreExamples.no_estimate 10
         MoreExamples.town_at_noon Examples.cab_broke = Some r
       ∧ Taxi.onDuty (final r) = false
       ∧ TaxiRest.comeOnDuty (λ _, (Some (0, 0)%Z, 0%Z)) (final r) 721
         = final r.
Proof.
  eexists. split; [reflexivity|].
  destruct (taxi_sent_off_duty_does_not_return MoreExamples.no_estimate 10
              MoreExamples.town_at_noon Examples.cab_broke _
              (λ _, (Some (0, 0)%Z, 0%Z)) 721 eq_refl)
    as (Hduty & _ & Hback).
  - vm_compute. discriminate.
  - reflexivity.
  - discriminate.
  - vm_compute. discriminate.
  - split; [exact Hduty|exact Hback].
Defined.

(** X13.  Every bid a tick of the taxi transmits is made in the taxi's
    own name, for the origin of a fare it knows of, has not decided on
    before and that has not waited longer than the taxi's limit; and the
    taxi transmits no bid at all while one of the fares it knows of is
    allocated to it.  This holds whether or not the tick is cut short by
    an exception. *)
Theorem taxi_bids_only_on_undecided_fares (h : coord → coord → Q)
    (fuel : nat) (W : World.t) (self : Taxi.t) (r : Run Taxi.t)
    (origin : coord) (taxi : Z) :
  TaxiAgent.clockTick h fuel W self = Some r →
  transmitFareBid origin taxi ∈ emitted r →
  taxi = Taxi.number self
  ∧ TaxiAgent.any_allocated (Taxi._availableFares self) = false
  ∧ ∃ key info,
      (key, info) ∈ Taxi._availableFares self
      ∧ key_origin key = origin
      ∧ FareInfo.bid info = 0%Z
      ∧ FareInfo.allocated info = false
      ∧ (World.simTime W - key.1.1 <= Taxi._maxFareWait self)%Z.
Proof.
  intros Hrun Hc.
  destruct (clockTick_structure h fuel W self r Hrun)
    as (_ & _ & _ & Hcalls & _).
  destruct (Hcalls _ Hc) as (key & info & Hin & Hbid & Hfresh & Heq & Hany).
  injection Heq as -> ->.
  split; [done|]. split; [done|].
  exists key, info. do 3 (split; [done|]). split; [|done].
  unfold TaxiAgent.any_allocated in Hany.
  destruct (FareInfo.allocated info) eqn:Halloc; [|done].
  assert (existsb (λ kv : FareKey * FareInfo.t, FareInfo.allocated kv.2)
            (Taxi._availableFares self) = true) as Hex; [|congruence].
  apply existsb_exists. exists (key, info).
  split; [by apply list_elem_of_In|done].
Qed.

Lemma taxi_bids_only_on_undecided_fares_witness :
  ∃ r, TaxiAgent.clockTick MoreExamples.no_estimate 10 Examples.town
         MoreExamples.cab_with_offer = Some r
       ∧ emitted r = [transmitFareBid (0, 0)%Z 0]
       ∧ 0%Z = Taxi.number MoreExamples.cab_with_offer
       ∧ ∃ key info,
           (key, info) ∈ Taxi._availableFares MoreExamples.cab_with_offer
           ∧ key_origin key = (0, 0)%Z
           ∧ FareInfo.bid info = 0%Z.
Proof.
  eexists. split; [reflexivity|]. split; [reflexivity|].
  destruct (taxi_bids_only_on_undecided_fares MoreExamples.no_estimate 10
              Examples.town MoreExamples.cab_with_offer _
              (0, 0)%Z 0 eq_refl)
    as (Hnum & _ & key & info & Hin & Hkey & Hbid & _).
  - apply elem_of_cons. by left.
  - split; [exact Hnum|]. exists key, info.
    split; [exact Hin|]. split; [exact Hkey|exact Hbid].
Defined.

(** X14.  After a tick of the taxi that ends normally, the taxi knows of
    no fare that is not allocated to it and has waited longer than its
    limit ([simTime - callTime > _maxFareWait]): every such fare has been
    dropped. *)
Theorem stale_unallocated_fares_are_dropped (h : coord → coord → Q)
    (fuel : nat) (W : World.t) (self : Taxi.t) (r : Run Taxi.t)
    (key : FareKey) (info : FareInfo.t) :
  TaxiAgent.clockTick h fuel W self = Some r →
  raised r = None →
  (key, info) ∈ Taxi._availableFares (final r) →
  FareInfo.allocated info = false →
  (World.simTime W - key.1.1 <= Taxi._maxFareWait self)%Z.
Proof.
  intros Hrun Hnone Hin Hun.
  destruct (clockTick_structure h fuel W self r Hrun)
    as (_ & _ & _ & _ & Hfresh).
  by eapply Hfresh.
Qed.

Lemma stale_unallocated_fares_are_dropped_witness :
  ((0, 0, 0)%Z, FareInfo.new (3, 4)%Z (Fin 32))
  ∈ Taxi._availableFares MoreExamples.cab_with_two_offers
  ∧ (World.simTime MoreExamples.town_at_noon - 0
     > Taxi._maxFareWait MoreExamples.cab_with_two_offers)%Z
  ∧ ∃ r, TaxiAgent.clockTick MoreExamples.no_estimate 10
           MoreExamples.town_at_noon MoreExamples.cab_with_two_offers
         = Some r
         ∧ raised r = None
         ∧ Taxi._availableFares (final r)
           = [((700, 0, 0)%Z,
               FareInfo.set_bid 1 (FareInfo.new (3, 4)%Z (Fin 32)))]
         ∧ (World.simTime MoreExamples.town_at_noon - 700
            <= Taxi._maxFareWait MoreExamples.cab_with_two_offers)%Z.
Proof.
  split; [apply elem_of_cons; by left|]. split; [reflexivity|].
  eexists. split; [reflexivity|]. split; [reflexivity|].
  split; [reflexivity|].
  apply (stale_unallocated_fares_are_dropped MoreExamples.no_estimate 10
           MoreExamples.town_at_noon MoreExamples.cab_with_two_offers _
           (700, 0, 0)%Z
           (FareInfo.set_bid 1 (FareInfo.new (3, 4)%Z (Fin 32))) eq_refl).
  - reflexivity.
  - apply elem_of_cons. by left.
  - reflexivity.
Defined.

(** ** Messages to the taxi *)

Lemma key_origin_match (k : FareKey) (o : coord) :
  (bool_decide (k.1.2 = o.1) && bool_decide (k.2 = o.2))%bool = true
  ↔ key_origin k = o.
Proof.
  unfold key_origin. destruct o as [ox oy]. simpl.
  rewrite andb_true_iff, !bool_decide_eq_true. split.
  - intros [-> ->]. done.
  - intros [= -> ->]. done.
Qed.

Lemma destination_match (info : FareInfo.t) (d : coord) :
  (bool_decide ((FareInfo.destination info).1 = d.1)
   && bool_decide ((FareInfo.destination info).2 = d.2))%bool = true
  ↔ FareInfo.destination info = d.
Proof.
  destruct d as [dx dy], (FareInfo.destination info) as [x y]. simpl.
  rewrite andb_true_iff, !bool_decide_eq_true. split.
  - intros [-> ->]. done.
  - intros [= -> ->]. done.
Qed.

Lemma mark_allocated_spec (o d : coord) (amount : option Q) (p : option pynum)
    (fares : list (FareKey * FareInfo.t)) :
  let args := TaxiAgent.mkArgs (Some o) (Some d) p amount in
  (TaxiAgent.mark_allocated args fares = Ok fares
   ∧ ∀ k info, (k, info) ∈ fares →
       ¬ (key_origin k = o ∧ FareInfo.destination info = d))
  ∨ ∃ l1 k info l2,
      fares = l1 ++ (k, info) :: l2
      ∧ TaxiAgent.mark_allocated args fares
        = Ok (l1 ++ (k, FareInfo.set_allocated true info) :: l2)
      ∧ key_origin k = o ∧ FareInfo.destination info = d
      ∧ ∀ k' info', (k', info') ∈ l1 →
          ¬ (key_origin k' = o ∧ FareInfo.destination info' = d).
Proof.
  intros args. induction fares as [|[k info] rest IH];
    cbn [TaxiAgent.mark_allocated].
  { left. split; [done|]. intros k info Hin. by apply elem_of_nil in Hin. }
  cbn [args TaxiAgent.arg_origin TaxiAgent.arg_destination TaxiAgent.kwarg
       mbind result_bind].
  destruct (bool_decide (k.1.2 = o.1) && bool_decide (k.2 = o.2))%bool
    eqn:Ho.
  - apply key_origin_match in Ho.
    destruct (bool_decide ((FareInfo.destination info).1 = d.1)
              && bool_decide ((FareInfo.destination info).2 = d.2))%bool
      eqn:Hd.
    + apply destination_match in Hd. right. exists [], k, info, rest.
      repeat split; try done. intros k' i' Hin. by apply elem_of_nil in Hin.
    + assert (FareInfo.destination info ≠ d) as Hnd.
      { intros Heq. apply destination_match in Heq. congruence. }
      destruct IH as [[-> Hnone] | (l1 & k0 & i0 & l2 & -> & -> & H1 & H2 & H3)].
      * left. split; [done|]. intros k' i' [[= -> ->]|Hin]%elem_of_cons.
        -- intros [_ ?]. done.
        -- by apply Hnone.
      * right. exists ((k, info) :: l1), k0, i0, l2.
        repeat split; try done.
        intros k' i' [[= -> ->]|Hin]%elem_of_cons.
        -- intros [_ ?]. done.
        -- by apply H3.
  - assert (key_origin k ≠ o) as Hno.
    { intros Heq. apply key_origin_match in Heq. congruence. }
    destruct IH as [[-> Hnone] | (l1 & k0 & i0 & l2 & -> & -> & H1 & H2 & H3)].
    + left. split; [done|]. intros k' i' [[= -> ->]|Hin]%elem_of_cons.
      * intros [? _]. done.
      * by apply Hnone.
    + right. exists ((k, info) :: l1), k0, i0, l2.
      repeat split; try done.
      intros k' i' [[= -> ->]|Hin]%elem_of_cons.
      * intros [? _]. done.
      * by apply H3.
Qed.

(** X15.  An allocation message that names an origin and a destination
    never raises and changes at most one thing: the first fare the taxi
    knows of with that origin and that destination is marked as
    allocated.  Every other fare, the order of the fares, and everything
    else about the taxi stay as they are; when the taxi knows of no such
    fare, the message changes nothing. *)
Theorem allocation_message_marks_one_fare (W : World.t) (self : Taxi.t)
    (o d : coord) (p : option pynum) (amount : option Q) :
  let r := TaxiAgent.recvMsg W self TaxiAgent.FARE_ALLOC
             (TaxiAgent.mkArgs (Some o) (Some d) p amount) in
  raised r = None ∧ emitted r = []
  ∧ final r = Taxi.set_availableFares (Taxi._availableFares (final r)) self
  ∧ ((Taxi._availableFares (final r) = Taxi._availableFares self
      ∧ ∀ k info, (k, info) ∈ Taxi._availableFares self →
          ¬ (key_origin k = o ∧ FareInfo.destination info = d))
     ∨ ∃ l1 k info l2,
         Taxi._availableFares self = l1 ++ (k, info) :: l2
         ∧ Taxi._availableFares (final r)
           = l1 ++ (k, FareInfo.set_allocated true info) :: l2
         ∧ key_origin k = o ∧ FareInfo.destination info = d
         ∧ ∀ k' info', (k', info') ∈ l1 →
             ¬ (key_origin k' = o ∧ FareInfo.destination info' = d)).
Proof.
  intros r. subst r. unfold TaxiAgent.recvMsg.
  rewrite decide_False by done. rewrite decide_True by done.
  destruct (mark_allocated_spec o d amount p (Taxi._availableFares self))
    as [[Hrun Hnone] | (l1 & k & info & l2 & Hsplit & Hrun & H1 & H2 & H3)];
    cbn zeta in Hrun; rewrite Hrun; cbn [final raised emitted].
  - repeat split; try done. left. by destruct self.
  - repeat split; try done. right. exists l1, k, info, l2.
    by destruct self.
Qed.

Lemma drop_cancelled_last (o : coord) (k : FareKey) (info : FareInfo.t)
    (fares : list (FareKey * FareInfo.t)) :
  (∀ k' info', (k', info') ∈ fares → key_origin k' ≠ o) →
  key_origin k = o →
  TaxiAgent.drop_cancelled (TaxiAgent.mkArgs (Some o) None None None)
    (fares ++ [(k, info)]) = Ok fares.
Proof.
  intros Hnone Hk. induction fares as [|[k0 i0] rest IH];
    cbn [app TaxiAgent.drop_cancelled TaxiAgent.arg_origin TaxiAgent.kwarg
         mbind result_bind].
  - apply key_origin_match in Hk. rewrite Hk. cbn [ODict.del].
    by rewrite decide_True.
  - destruct (bool_decide (k0.1.2 = o.1) && bool_decide (k0.2 = o.2))%bool
      eqn:Ho.
    { apply key_origin_match in Ho. exfalso.
      apply (Hnone k0 i0); [by apply elem_of_cons; left|done]. }
    rewrite IH; [done|]. intros k' i' Hin. apply (Hnone k' i').
    by apply elem_of_cons; right.
Qed.

(** X16.  A fare advertised to the taxi is filed under the time of the
    message and its origin, with no bid decided and not allocated; and
    when the taxi knew of no fare from that origin, a cancellation for
    the origin, at whatever later time, makes the taxi exactly what it
    was before the advertisement. *)
Theorem advice_then_cancel_forgets_the_fare (W W' : World.t) (self : Taxi.t)
    (o d : coord) (p : pynum) :
  (∀ k info, (k, info) ∈ Taxi._availableFares self → key_origin k ≠ o) →
  let r1 := TaxiAgent.recvMsg W self TaxiAgent.FARE_ADVICE
              (TaxiAgent.mkArgs (Some o) (Some d) (Some p) None) in
  let r2 := TaxiAgent.recvMsg W' (final r1) TaxiAgent.FARE_CANCEL
              (TaxiAgent.mkArgs (Some o) None None None) in
  raised r1 = None
  ∧ ODict.get (World.simTime W, o.1, o.2) (Taxi._availableFares (final r1))
    = Some (FareInfo.new d p)
  ∧ (∀ k, k ≠ (World.simTime W, o.1, o.2) →
          ODict.get k (Taxi._availableFares (final r1))
          = ODict.get k (Taxi._availableFares self))
  ∧ raised r2 = None
  ∧ final r2 = self.
Proof.
  intros Hnone r1 r2. subst r1 r2. unfold TaxiAgent.recvMsg.
  rewrite decide_True by done.
  cbn [TaxiAgent.arg_origin TaxiAgent.arg_destination TaxiAgent.arg_price
       TaxiAgent.kwarg mbind result_bind final raised].
  rewrite !decide_False by done. rewrite decide_True by done.
  cbn [Taxi._availableFares Taxi.set_availableFares].
  split; [done|]. split; [apply odict_get_set_eq|].
  split; [intros k Hk; by apply odict_get_set_ne|].
  assert (Habsent : ODict.get (World.simTime W, o.1, o.2)
                      (Taxi._availableFares self) = None).
  { apply odict_get_None. intros Hin.
    apply list_elem_of_fmap in Hin as [[k info] [Hk Hin]]. simpl in Hk.
    apply (Hnone k info Hin). subst k. unfold key_origin. simpl.
    by destruct o. }
  assert (Hset : ∀ (k : FareKey) (v : FareInfo.t) l,
            ODict.get k l = None → ODict.set k v l = l ++ [(k, v)]).
  { clear. intros k v. induction l as [|[k0 v0] l IH]; cbn [ODict.get ODict.set];
      [done|].
    case_decide; [done|]. intros Hl. by rewrite IH. }
  rewrite Hset by done.
  rewrite drop_cancelled_last; [|done|].
  - split; [done|]. cbn [final]. by destruct self.
  - unfold key_origin. simpl. by destruct o.
Qed.

Lemma advice_then_cancel_forgets_the_fare_witness :
  let r1 := TaxiAgent.recvMsg Examples.town Examples.cab TaxiAgent.FARE_ADVICE
              (TaxiAgent.mkArgs (Some (0, 0)%Z) (Some (3, 4)%Z) (Some (Fin 32))
                 None) in
  final r1 = MoreExamples.cab_with_offer
  ∧ final (TaxiAgent.recvMsg MoreExamples.town_at_noon (final r1)
             TaxiAgent.FARE_CANCEL
             (TaxiAgent.mkArgs (Some (0, 0)%Z) None None None))
    = Examples.cab.
Proof.
  split; [reflexivity|].
  apply (advice_then_cancel_forgets_the_fare Examples.town
           MoreExamples.town_at_noon Examples.cab (0, 0)%Z (3, 4)%Z (Fin 32)).
  intros k info Hin. by apply elem_of_nil in Hin.
Defined.

(** ** Map updates *)

Lemma odict_set_absent {K V} `{EqDecision K} (k : K) (v : V) d :
  ODict.get k d = None → ODict.set k v d = d ++ [(k, v)].
Proof.
  induction d as [|[k0 v0] r IH]; cbn [ODict.get ODict.set]; [done|].
  case_decide; [done|]. intros Hr. by rewrite IH.
Qed.

Lemma odict_set_elem {K V} `{EqDecision K} (k k' : K) (v v' : V) d :
  (k', v') ∈ ODict.set k v d → (k', v') = (k, v) ∨ (k', v') ∈ d.
Proof.
  induction d as [|[k0 v0] r IH]; cbn [ODict.set].
  - intros Hin%list_elem_of_singleton. by left.
  - case_decide.
    + intros [?|?]%elem_of_cons; [by left|]. right. by apply elem_of_cons; right.
    + intros [?|Hin]%elem_of_cons; [right; by apply elem_of_cons; left|].
      apply IH in Hin as [?|?]; [by left|]. right. by apply elem_of_cons; right.
Qed.

(** Every entry of a neighbour dictionary built from the triples of
    [items] names a neighbour of [items] with its direction, at the
    distance the world gives. *)
Lemma neighbourDict_elem (T : Terrain.t) (c : coord)
    (items : list (coord * (Z * Q))) :
  ∀ acc nd,
    neighbourDict T c (neighbour_triples items) acc = Some nd →
    ∀ v dir w, (v, (dir, w)) ∈ nd →
      (v, (dir, w)) ∈ acc
      ∨ (w = Terrain.distance2Node T c v ∧ Terrain.getNode T v = true
         ∧ ∃ w0, (v, (dir, w0)) ∈ items).
Proof.
  induction items as [|[v0 [dir0 w0]] rest IH]; intros acc nd;
    cbn [neighbour_triples fmap list_fmap neighbourDict fst snd].
  { intros [= <-] v dir w Hin. by left. }
  destruct (Terrain.getNode T (v0.1, v0.2)) eqn:Hnode; [|done].
  intros Hrun v dir w Hin.
  destruct (IH _ _ Hrun v dir w Hin) as [Hacc|(Hw & Hv & w1 & Hin')].
  - apply odict_set_elem in Hacc as [[= -> -> ->]|Hacc]; [|by left].
    right. destruct v0 as [x y]. simpl in *. split; [done|]. split; [done|].
    exists w0. by apply elem_of_cons; left.
  - right. split; [done|]. split; [done|]. exists w1.
    by apply elem_of_cons; right.
Qed.

(** With no neighbour listed twice and every node known to the world, the
    rebuilt entry is the imported one with the world's distances. *)
Lemma neighbourDict_all (T : Terrain.t) (c : coord)
    (items : list (coord * (Z * Q))) :
  ∀ acc,
    NoDup (acc.*1 ++ items.*1) →
    Forall (λ item, Terrain.getNode T item.1 = true) items →
    neighbourDict T c (neighbour_triples items) acc
    = Some (acc ++ ((λ item, (item.1, (item.2.1,
                                       Terrain.distance2Node T c item.1)))
                    <$> items)).
Proof.
  induction items as [|[v0 [dir0 w0]] rest IH]; intros acc Hnd Hall;
    cbn [neighbour_triples fmap list_fmap neighbourDict fst snd].
  { by rewrite app_nil_r. }
  apply Forall_cons in Hall as [Hv0 Hall]. simpl in Hv0.
  destruct v0 as [x y]. simpl. rewrite Hv0.
  rewrite fmap_cons in Hnd. cbn [fst] in Hnd.
  assert (Habsent : ODict.get (x, y) acc = None).
  { apply odict_get_None. apply NoDup_app in Hnd as (_ & Hdisj & _).
    intros Hin. apply (Hdisj _ Hin). by apply elem_of_cons; left. }
  rewrite odict_set_absent by done.
  rewrite IH; [by rewrite <- app_assoc|idtac|done].
  rewrite fmap_app. simpl. rewrite <- app_assoc. done.
Qed.

Lemma neighbourDict_known (T : Terrain.t) (c : coord)
    (items : list (coord * (Z * Q))) :
  ∀ acc nd,
    neighbourDict T c (neighbour_triples items) acc = Some nd →
    Forall (λ item, Terrain.getNode T item.1 = true) items.
Proof.
  induction items as [|[v0 [dir0 w0]] rest IH]; intros acc nd;
    cbn [neighbour_triples fmap list_fmap neighbourDict fst snd]; [done|].
  destruct (Terrain.getNode T (v0.1, v0.2)) eqn:Hnode; [|done].
  intros Hrun. apply Forall_cons. split; [|by eapply IH].
  simpl. by destruct v0.
Qed.

Lemma rebuilt_entry_spec (T : Terrain.t) (c : coord)
    (items nd : list (coord * (Z * Q))) :
  rebuilt_entry T c items = Some nd →
  Terrain.getNode T c = true
  ∧ ∀ v dir w, (v, (dir, w)) ∈ nd →
      w = Terrain.distance2Node T c v ∧ Terrain.getNode T v = true
      ∧ ∃ w0, (v, (dir, w0)) ∈ items.
Proof.
  unfold rebuilt_entry. destruct (Terrain.getNode T c); [|done].
  intros Hrun. split; [done|]. intros v dir w Hin.
  destruct (neighbourDict_elem T c items [] nd Hrun v dir w Hin) as [Hnil|?];
    [by apply elem_of_nil in Hnil|done].
Qed.

Lemma rebuilt_entry_idem (T : Terrain.t) (newMap : RoadMap) (c : coord) old :
  imported_entry T newMap c (imported_entry T newMap c old)
  = imported_entry T newMap c old.
Proof.
  unfold imported_entry. destruct (newMap !! c) as [items|]; [|done].
  by destruct (rebuilt_entry T c items).
Qed.

(** X17.  [importMap] into a dispatcher that has no map installs the new
    map as it is.  Into a dispatcher that has one, it rewrites exactly
    the nodes of the new map that the world knows, together with all
    their neighbours: such a node gets the neighbours and directions of
    the new map, in the same order, each at the distance the world gives
    (the distances of the imported map are not used, and the neighbours
    the node had before are gone); every other node is left as it was and
    nothing is raised.  Importing the same map again changes nothing. *)
Theorem importMap_rewrites_known_nodes (T : Terrain.t) (self : Dispatcher.t)
    (newMap : RoadMap) :
  (Dispatcher._map self = None →
   DispatcherRest.importMap T self newMap
   = DispatcherRest.set_map (Some newMap) self)
  ∧ (∀ m, Dispatcher._map self = Some m →
       ∃ m',
         DispatcherRest.importMap T self newMap
         = DispatcherRest.set_map (Some m') self
         ∧ (∀ c, m' !! c = imported_entry T newMap c (m !! c))
         ∧ DispatcherRest.importMap T
             (DispatcherRest.importMap T self newMap) newMap
           = DispatcherRest.importMap T self newMap)
  ∧ (∀ c items nd,
       rebuilt_entry T c items = Some nd →
       Terrain.getNode T c = true
       ∧ (∀ v dir w, (v, (dir, w)) ∈ nd →
            w = Terrain.distance2Node T c v ∧ Terrain.getNode T v = true
            ∧ ∃ w0, (v, (dir, w0)) ∈ items)
       ∧ (NoDup items.*1 →
          nd = (λ item, (item.1, (item.2.1,
                                  Terrain.distance2Node T c item.1)))
               <$> items)).
Proof.
  split; [|split].
  - intros Hm. unfold DispatcherRest.importMap. by rewrite Hm.
  - intros m Hm.
    destruct (importMap_lookup T self m newMap Hm) as (m' & Hrun & Hm').
    exists m'. split; [done|]. split; [done|].
    rewrite Hrun.
    destruct (importMap_lookup T (DispatcherRest.set_map (Some m') self) m'
                newMap eq_refl) as (m'' & Hrun' & Hm'').
    rewrite Hrun'. unfold DispatcherRest.set_map. simpl. do 2 f_equal.
    apply map_eq. intros c. rewrite Hm'', Hm'. apply rebuilt_entry_idem.
  - intros c items nd Hrun.
    destruct (rebuilt_entry_spec T c items nd Hrun) as [Hc Hnd].
    split; [done|]. split; [done|]. intros Hnodup.
    unfold rebuilt_entry in Hrun. rewrite Hc in Hrun.
    rewrite neighbourDict_all in Hrun.
    + by injection Hrun as <-.
    + done.
    + by eapply neighbourDict_known.
Qed.

Lemma taxi_addMapNode_run (T : Terrain.t) (self : Taxi.t) (coords : coord)
    (items : list (coord * (Z * Q))) :
  TaxiRest.addMapNode T self coords (neighbour_triples items)
  = match rebuilt_entry T coords items with
    | None => (self, Some KeyError)
    | Some nd =>
        (TaxiRest.set_map (<[coords:=nd]> (Taxi._map self)) self, None)
    end.
Proof.
  unfold TaxiRest.addMapNode, rebuilt_entry.
  destruct (Terrain.getNode T coords); [|done].
  by destruct (neighbourDict _ _ _ _).
Qed.

Lemma taxi_import_nodes_run (T : Terrain.t)
    (nodes : list (coord * list (coord * (Z * Q)))) :
  ∀ self : Taxi.t,
    foldl (λ s node,
             (TaxiRest.addMapNode T s node.1 (neighbour_triples node.2)).1)
      self nodes
    = TaxiRest.set_map
        (foldl (λ m node,
                  match rebuilt_entry T node.1 node.2 with
                  | Some nd => <[node.1:=nd]> m
                  | None => m
                  end) (Taxi._map self) nodes) self.
Proof.
  induction nodes as [|[c items] rest IH]; intros self; cbn [foldl].
  { by destruct self. }
  rewrite taxi_addMapNode_run. cbn [fst snd].
  destruct (rebuilt_entry T c items) as [nd|]; cbn [fst].
  - rewrite IH. by destruct self.
  - apply IH.
Qed.

Lemma taxi_importMap_lookup (T : Terrain.t) (self : Taxi.t) (newMap : RoadMap) :
  ∃ m', TaxiRest.importMap T self newMap = TaxiRest.set_map m' self
        ∧ ∀ c, m' !! c = imported_entry T newMap c (Taxi._map self !! c).
Proof.
  unfold TaxiRest.importMap. rewrite taxi_import_nodes_run.
  eexists. split; [reflexivity|]. intros c.
  rewrite import_nodes_lookup by apply NoDup_fst_map_to_list.
  unfold imported_entry. by rewrite odict_get_map_to_list.
Qed.

(** X18.  [importMap] into a taxi's map changes nothing of the taxi but
    its map and never raises; every node is as for the dispatcher; the
    same import again changes nothing; and when the world's distances are
    not negative, a map without negative distances stays one, so that
    what the planner needs of the distances survives every import. *)
Theorem taxi_importMap_keeps_distances_nonneg (T : Terrain.t) (self : Taxi.t)
    (newMap : RoadMap) :
  nonneg_weights (Taxi._map self) →
  (∀ a b, (0 <= Terrain.distance2Node T a b)%Q) →
  let self' := TaxiRest.importMap T self newMap in
  nonneg_weights (Taxi._map self')
  ∧ (∀ c, Taxi._map self' !! c
          = imported_entry T newMap c (Taxi._map self !! c))
  ∧ self' = TaxiRest.set_map (Taxi._map self') self
  ∧ TaxiRest.importMap T self' newMap = self'.
Proof.
  intros Hold Hdist self'. subst self'.
  destruct (taxi_importMap_lookup T self newMap) as (m' & Hrun & Hm').
  rewrite Hrun. cbn [Taxi._map TaxiRest.set_map].
  split; [|split; [done|split]].
  - intros u v w (items & dir & Hu & Hin). rewrite Hm' in Hu.
    unfold imported_entry in Hu.
    destruct (newMap !! u) as [new_items|].
    2:{ apply (Hold u v w). by exists items, dir. }
    destruct (rebuilt_entry T u new_items) as [nd|] eqn:Hnd.
    2:{ apply (Hold u v w). by exists items, dir. }
    injection Hu as <-.
    destruct (rebuilt_entry_spec T u new_items nd Hnd) as [_ Hentries].
    destruct (Hentries v dir w Hin) as (-> & _). apply Hdist.
  - by destruct self.
  - destruct (taxi_importMap_lookup T (TaxiRest.set_map m' self) newMap)
      as (m'' & Hrun' & Hm''). rewrite Hrun'.
    unfold TaxiRest.set_map. simpl. f_equal.
    apply map_eq. intros c. rewrite Hm''. simpl. rewrite Hm'.
    apply rebuilt_entry_idem.
Qed.

Lemma axis_distance_nonneg (a b : coord) : (0 <= Examples.axis_distance a b)%Q.
Proof.
  unfold Examples.axis_distance.
  change 0%Q with (inject_Z 0). rewrite <- Zle_Qle. lia.
Qed.

Lemma taxi_importMap_keeps_distances_nonneg_witness :
  nonneg_weights (Taxi._map MoreExamples.cab_with_route)
  ∧ nonneg_weights
      (Taxi._map (TaxiRest.importMap MoreExamples.grid
                    MoreExamples.cab_with_route Examples.shortcut_map)).
Proof.
  assert (Hold : nonneg_weights (Taxi._map MoreExamples.cab_with_route)).
  { apply detour_map_ok. }
  split; [exact Hold|].
  apply (taxi_importMap_keeps_distances_nonneg MoreExamples.grid
           MoreExamples.cab_with_route Examples.shortcut_map Hold).
  intros a b. apply axis_distance_nonneg.
Defined.

(** ** The taxi's constructor: the search for an entry point *)

(** The loop, walking down one column from row [y]: it stops at the first
    node of the column, or moves on to the column [xSize - 1] further. *)
Lemma find_entry_column (map : RoadMap) (xSize ySize x : Z) (n : nat) :
  (x < xSize)%Z →
  ∀ (y : Z) (fuel : nat),
    (y + Z.of_nat (S n) = ySize)%Z → S n ≤ fuel →
    TaxiRest.find_entry fuel map xSize ySize x y
    = match List.find (λ y, bool_decide (is_Some (map !! (x, y))))
              (seqZ y (Z.of_nat (S n))) with
      | Some y' => Entry (x, y')
      | None =>
          TaxiRest.find_entry (fuel - S n) map xSize ySize (x + xSize - 1) 0
      end.
Proof.
  intros Hx. induction n as [|n IH]; intros y fuel Hy Hfuel.
  - destruct fuel as [|k]; [lia|]. cbn [TaxiRest.find_entry].
    change (Z.of_nat 1) with 1%Z. rewrite seqZ_cons by lia.
    rewrite (seqZ_nil (Z.succ y)) by lia.
    cbn [List.find].
    destruct (bool_decide (is_Some (map !! (x, y)))) eqn:Hnode;
      cbn [negb andb].
    + destruct (Z.geb_spec x xSize); [lia|done].
    + destruct (Z.ltb_spec x xSize); [|lia].
      destruct (Z.geb_spec (y + 1) ySize); [|lia].
      by replace (S k - 1) with k by lia.
  - destruct fuel as [|k]; [lia|]. cbn [TaxiRest.find_entry].
    rewrite seqZ_cons by lia. cbn [List.find].
    replace (Z.pred (Z.of_nat (S (S n)))) with (Z.of_nat (S n)) by lia.
    replace (Z.succ y) with (y + 1)%Z by lia.
    destruct (bool_decide (is_Some (map !! (x, y)))) eqn:Hnode;
      cbn [negb andb].
    + destruct (Z.geb_spec x xSize); [lia|done].
    + destruct (Z.ltb_spec x xSize); [|lia].
      destruct (Z.geb_spec (y + 1) ySize); [lia|].
      by rewrite (IH (y + 1)%Z k) by lia.
Qed.

(** X19.  In a world at least two columns wide and one row high, the
    constructor's search for an entry point ends within [2 × ySize + 1]
    rounds.  It looks at the first column from the top, then at the last
    column from the top, and at no other node: the taxi is to come on
    duty at the first node of the map it meets, and when neither column
    has a node the constructor raises ValueError, whatever nodes the map
    has on its first and last rows. *)
Theorem entry_point_is_first_node_of_an_outer_column (map : RoadMap)
    (xSize ySize : Z) (fuel : nat) :
  (2 <= xSize)%Z → (1 <= ySize)%Z → 2 * Z.to_nat ySize + 1 ≤ fuel →
  TaxiRest.find_entry fuel map xSize ySize 0 0
  = match first_node_in_column map 0 ySize with
    | Some y => Entry (0, y)%Z
    | None =>
        match first_node_in_column map (xSize - 1) ySize with
        | Some y => Entry (xSize - 1, y)%Z
        | None => NoWayIn
        end
    end.
Proof.
  intros Hx Hy Hfuel. unfold first_node_in_column.
  destruct (Z.to_nat ySize) as [|n] eqn:Hn; [lia|].
  assert (HySize : ySize = Z.of_nat (S n)) by lia.
  rewrite (find_entry_column map xSize ySize 0 n) by lia.
  rewrite <- HySize.
  destruct (List.find _ (seqZ 0 ySize)) as [y|]; [done|].
  replace (0 + xSize - 1)%Z with (xSize - 1)%Z by lia.
  rewrite (find_entry_column map xSize ySize (xSize - 1) n) by lia.
  rewrite <- HySize.
  destruct (List.find _ (seqZ 0 ySize)) as [y|]; [done|].
  destruct (fuel - S n - S n) as [|k] eqn:Hk; [lia|].
  cbn [TaxiRest.find_entry].
  destruct (Z.ltb_spec (xSize - 1 + xSize - 1) xSize); [lia|].
  rewrite andb_false_r.
  destruct (Z.geb_spec (xSize - 1 + xSize - 1) xSize); [done|lia].
Qed.

Lemma entry_point_is_first_node_of_an_outer_column_witness :
  TaxiRest.find_entry 7 Examples.detour_map 2 3 0 0 = Entry (0, 0)%Z.
Proof.
  apply (entry_point_is_first_node_of_an_outer_column Examples.detour_map
           2 3 7); [lia|lia|].
  vm_compute. lia.
Defined.

(** X20.  In a world one column wide, when the map has no node in that
    column, the constructor's search for an entry point never ends: the
    step that should move to the last column adds [xSize - 1 = 0] and the
    loop walks down the same column again.  With any fuel the constructor
    of a taxi without a start point is still searching. *)
Theorem entry_point_search_never_ends_in_one_column (map : RoadMap)
    (ySize : Z) (fuel : nat) (world : WorldRef) (exportMap : RoadMap)
    (taxi_num : Z) (idle_loss : Q) (max_wait on_duty_time off_duty_time : Z) :
  (1 <= ySize)%Z →
  (∀ y, (0 <= y < ySize)%Z → map !! (0, y)%Z = None) →
  TaxiRest.__init__ fuel world exportMap 1 ySize taxi_num idle_loss max_wait
    on_duty_time off_duty_time (Some map) None
  = Unfinished.
Proof.
  intros Hy Hnone. unfold TaxiRest.__init__. cbn [default from_option id].
  assert (Hloop : ∀ fuel y, (0 <= y < ySize)%Z →
            TaxiRest.find_entry fuel map 1 ySize 0 y = StillSearching).
  { clear fuel. induction fuel as [|k IH]; intros y Hrange; [done|].
    cbn [TaxiRest.find_entry]. rewrite (Hnone y Hrange).
    rewrite bool_decide_false by (by intros [? ?]). simpl.
    destruct (Z.geb_spec (y + 1) ySize); apply IH; lia. }
  by rewrite Hloop by lia.
Qed.

Lemma entry_point_search_never_ends_in_one_column_witness :
  TaxiRest.__init__ 1000 0 ∅ 1 3 0 256 50 0 0 (Some ∅) None = Unfinished.
Proof.
  apply (entry_point_search_never_ends_in_one_column ∅ 3 1000 0 ∅ 0 256 50 0 0).
  - lia.
  - intros y _. apply lookup_empty.
Defined.

(** ** Driving *)

Lemma odict_get_is_Some {K V} `{EqDecision K} (k : K) (v : V) d :
  (k, v) ∈ d → is_Some (ODict.get k d).
Proof.
  induction d as [|[k0 v0] r IH]; cbn [ODict.get].
  - intros Hin. by apply elem_of_nil in Hin.
  - case_decide; [eauto|]. intros [[= -> ->]|Hin]%elem_of_cons; [done|].
    by apply IH.
Qed.

(** X21.  A taxi that stands at the first waypoint of a route of its map
    and has no move pending sets off without error: [drive] drops the
    waypoint it stands on and, when the route goes on, asks its node for
    a turn in the direction the map stores for the next waypoint.  It
    raises neither of its two IndexErrors (the node is on the map, and
    the next waypoint is a neighbour of it). *)
Theorem drive_sets_off_along_a_route (N : Nodes.t) (self : Taxi.t)
    (newPose : Pose) (o d : coord) (rest : list coord) (c : Q) :
  route (Taxi._map self) o d (o :: rest) c →
  Taxi._loc self = Some o →
  Taxi._nextLoc self = None →
  Taxi._path self = Some (o :: rest) →
  let r := TaxiRest.drive N self newPose in
  raised r = None ∧ emitted r = []
  ∧ Taxi._path (final r) = Some rest
  ∧ Taxi._loc (final r) = Some o
  ∧ match rest with
    | [] => Taxi._nextLoc (final r) = None
    | v :: _ =>
        ∃ items details,
          Taxi._map self !! o = Some items
          ∧ ODict.get v items = Some details
          ∧ (Taxi._nextLoc (final r), Taxi._nextDirection (final r))
            = Nodes.turn N o (Taxi._direction self) details.1
    end.
Proof.
  intros (Hwalk & _ & _) Hloc Hnext Hpath r. subst r.
  assert (Hself0 : (match newPose.1 with
                    | None => if (newPose.2 =? -1)%Z
                              then TaxiRest.set_next (None, (-1)%Z) self
                              else self
                    | Some _ => self
                    end) = TaxiRest.set_next (None, Taxi._nextDirection
                      (match newPose.1 with
                       | None => if (newPose.2 =? -1)%Z
                                 then TaxiRest.set_next (None, (-1)%Z) self
                                 else self
                       | Some _ => self
                       end)) self).
  { destruct newPose as [[n|] dir]; simpl.
    - destruct self; simpl in *. by rewrite Hnext.
    - destruct (dir =? -1)%Z; destruct self; simpl in *; by rewrite ?Hnext. }
  unfold TaxiRest.drive. cbn zeta. rewrite Hself0.
  set (nd := Taxi._nextDirection _). clearbody nd. clear Hself0.
  cbn [Taxi._nextLoc TaxiRest.set_next fst snd].
  unfold TaxiRest.get_underway.
  cbn [Taxi._nextLoc Taxi._path Taxi._loc Taxi._map Taxi._direction
       TaxiRest.set_next fst snd].
  rewrite Hpath, Hloc. rewrite !Z.eqb_refl. cbn [andb].
  inversion Hwalk as [u Hu|u v l w c' Hroad Hrest]; subst.
  - destruct Hu as [items Hitems]. rewrite Hitems.
    cbn [final raised emitted Taxi._path Taxi._loc Taxi._nextLoc
         Taxi.set_path TaxiRest.set_next fst snd].
    rewrite Hloc. done.
  - destruct Hroad as (items & dir & Hitems & Hin). rewrite Hitems.
    destruct (odict_get_is_Some _ _ _ Hin) as [details Hdetails].
    rewrite Hdetails.
    cbn [final raised emitted Taxi._path Taxi._loc Taxi._nextLoc
         Taxi._nextDirection Taxi._direction
         Taxi.set_path TaxiRest.set_next fst snd].
    rewrite Hloc. repeat split; try done.
    exists items, details. repeat split; try done.
    by destruct (Nodes.turn N o (Taxi._direction self) details.1).
Qed.

Lemma drive_sets_off_along_a_route_witness :
  let r := TaxiRest.drive MoreExamples.open_nodes MoreExamples.cab_with_route
             (None, (-1)%Z) in
  route Examples.detour_map (0, 0)%Z (0, 2)%Z
    [(0, 0)%Z; (0, 1)%Z; (0, 2)%Z] (1 + (1 + 0))
  ∧ raised r = None
  ∧ Taxi._path (final r) = Some [(0, 1)%Z; (0, 2)%Z]
  ∧ Taxi._nextLoc (final r) = Some (0, 1)%Z.
Proof.
  assert (Hroute : route Examples.detour_map (0, 0)%Z (0, 2)%Z
                     [(0, 0)%Z; (0, 1)%Z; (0, 2)%Z] (1 + (1 + 0))).
  { split; [|done]. apply route_cost_Walk. reflexivity. }
  split; [exact Hroute|].
  destruct (drive_sets_off_along_a_route MoreExamples.open_nodes
              MoreExamples.cab_with_route (None, (-1)%Z) (0, 0)%Z (0, 2)%Z
              [(0, 1)%Z; (0, 2)%Z] (1 + (1 + 0)) Hroute eq_refl eq_refl eq_refl)
    as (Hr & _ & Hpath & _).
  split; [exact Hr|]. split; [exact Hpath|]. reflexivity.
Defined.

Lemma same_but_motion_refl a : same_but_motion a a.
Proof. unfold same_but_motion. by destruct a. Qed.

Lemma same_but_motion_trans a b c :
  same_but_motion a b → same_but_motion b c → same_but_motion a c.
Proof.
  unfold same_but_motion. intros Hab Hbc. rewrite Hbc at 1. rewrite Hab at 1.
  by destruct a.
Qed.

Lemma same_but_motion_set_next a p : same_but_motion a (TaxiRest.set_next p a).
Proof. unfold same_but_motion. by destruct a, p. Qed.

Lemma same_but_motion_set_pose a p : same_but_motion a (TaxiRest.set_pose p a).
Proof. unfold same_but_motion. by destruct a, p. Qed.

Lemma same_but_motion_set_path a p : same_but_motion a (Taxi.set_path p a).
Proof. unfold same_but_motion. by destruct a. Qed.

(** The second half of [drive]. *)
Lemma get_underway_spec (N : Nodes.t) (s : Taxi.t) :
  let r := TaxiRest.get_underway N s in
  same_but_motion s (final r)
  ∧ match Taxi._path s with
    | Some p =>
        ∃ dropped p', p = dropped ++ p' ∧ length dropped ≤ 1
                      ∧ Taxi._path (final r) = Some p'
    | None =>
        Taxi._path (final r) = None
        ∧ (Taxi._nextLoc s = None → raised r = Some TypeError)
    end.
Proof.
  unfold TaxiRest.get_underway.
  destruct (Taxi._nextLoc s) as [nl|] eqn:Hnl.
  { split; [apply same_but_motion_refl|].
    cbn [final]. destruct (Taxi._path s) as [p|]; [|done].
    exists [], p; repeat split; simpl; try done; lia. }
  destruct (Taxi._path s) as [[|wp rest]|] eqn:Hp.
  - split; [apply same_but_motion_refl|].
    cbn [final]. rewrite Hp.
    exists [], []; repeat split; simpl; try done; lia.
  - assert (Hstay : ∀ e,
              same_but_motion s (final (mkRun s [] e))
              ∧ ∃ dropped p', wp :: rest = dropped ++ p' ∧ length dropped ≤ 1
                              ∧ Taxi._path (final (mkRun s [] e)) = Some p').
    { intros e. split; [apply same_but_motion_refl|].
      exists [], (wp :: rest); repeat split; simpl; try done; lia. }
    destruct (Taxi._loc s) as [here|]; [|apply Hstay].
    destruct (Taxi._map s !! here) as [items|]; [|apply Hstay].
    destruct ((wp.1 =? here.1)%Z && (wp.2 =? here.2)%Z)%bool.
    + destruct rest as [|next rest'].
      * split; [apply same_but_motion_set_path|].
        exists [wp], []; repeat split; simpl; try done; lia.
      * destruct (ODict.get next items) as [details|].
        -- split.
           { eapply same_but_motion_trans; [apply same_but_motion_set_path|].
             apply same_but_motion_set_next. }
           exists [wp], (next :: rest'); repeat split; simpl; try done; lia.
        -- split; [apply same_but_motion_set_path|].
           exists [wp], (next :: rest'); repeat split; simpl; try done; lia.
    + destruct (ODict.get wp items) as [details|]; [|apply Hstay].
      split; [apply same_but_motion_set_next|].
      cbn [final Taxi._path TaxiRest.set_next]. rewrite Hp.
      exists [], (wp :: rest); repeat split; simpl; try done; lia.
  - split; [apply same_but_motion_refl|].
    cbn [final]. by rewrite Hp.
Qed.

(** X22.  Whatever the nodes answer to its requests, [drive] only ever
    shortens the taxi's path, by at most two waypoints taken from its
    front, and leaves alone everything about the taxi but its place, its
    next place and its path: account, passenger, fares, income, map and
    duty status.  A taxi whose path is [None] (a failed plan) keeps it,
    and when it has no move pending [drive] raises TypeError. *)
Theorem drive_only_shortens_the_path (N : Nodes.t) (self : Taxi.t)
    (newPose : Pose) :
  let r := TaxiRest.drive N self newPose in
  same_but_motion self (final r)
  ∧ match Taxi._path self with
    | Some p =>
        ∃ dropped p', p = dropped ++ p' ∧ length dropped ≤ 2
                      ∧ Taxi._path (final r) = Some p'
    | None =>
        Taxi._path (final r) = None
        ∧ (Taxi._nextLoc self = None → raised r = Some TypeError)
    end.
Proof.
  intros r. subst r. unfold TaxiRest.drive. cbn zeta.
  set (self0 := match newPose.1 with
                | None => if (newPose.2 =? -1)%Z
                          then TaxiRest.set_next (None, (-1)%Z) self else self
                | Some _ => self
                end).
  assert (H0 : same_but_motion self self0
               ∧ Taxi._path self0 = Taxi._path self
               ∧ (Taxi._nextLoc self = None → Taxi._nextLoc self0 = None)).
  { subst self0. destruct (newPose.1); [|destruct (_ =? _)%Z].
    - split; [apply same_but_motion_refl|done].
    - split; [apply same_but_motion_set_next|done].
    - split; [apply same_but_motion_refl|done]. }
  clearbody self0. destruct H0 as (Hm0 & Hp0 & Hn0).
  (* what the second half adds to a taxi that is [self] but for its motion
     and has dropped at most one waypoint so far *)
  assert (Hthen : ∀ s (pre : list coord),
            same_but_motion self s → length pre ≤ 1 →
            (∀ p, Taxi._path self = Some p →
                  ∃ p0, p = pre ++ p0 ∧ Taxi._path s = Some p0) →
            (Taxi._path self = None →
             Taxi._path s = None ∧ (Taxi._nextLoc self = None →
                                    Taxi._nextLoc s = None)) →
            let r := TaxiRest.get_underway N s in
            same_but_motion self (final r)
            ∧ match Taxi._path self with
              | Some p =>
                  ∃ dropped p', p = dropped ++ p' ∧ length dropped ≤ 2
                                ∧ Taxi._path (final r) = Some p'
              | None =>
                  Taxi._path (final r) = None
                  ∧ (Taxi._nextLoc self = None → raised r = Some TypeError)
              end).
  { intros s pre Hms Hpre Hsome Hnone.
    destruct (get_underway_spec N s) as (Hm & Hpath).
    cbn zeta in *.
    split; [by eapply same_but_motion_trans|].
    destruct (Taxi._path self) as [p|].
    - destruct (Hsome p eq_refl) as (p0 & -> & Hs). rewrite Hs in Hpath.
      destruct Hpath as (dropped & p' & -> & Hlen & Hfinal).
      exists (pre ++ dropped), p'. rewrite length_app, <- app_assoc.
      repeat split; try done. lia.
    - destruct (Hnone eq_refl) as [Hs Hnl]. rewrite Hs in Hpath.
      destruct Hpath as [Hfinal Hraise]. split; [done|].
      intros Hn. apply Hraise. by apply Hnl. }
  assert (Hplain : ∀ s, same_but_motion self s →
            Taxi._path s = Taxi._path self →
            (Taxi._nextLoc self = None → Taxi._nextLoc s = None) →
            let r := TaxiRest.get_underway N s in
            same_but_motion self (final r)
            ∧ match Taxi._path self with
              | Some p =>
                  ∃ dropped p', p = dropped ++ p' ∧ length dropped ≤ 2
                                ∧ Taxi._path (final r) = Some p'
              | None =>
                  Taxi._path (final r) = None
                  ∧ (Taxi._nextLoc self = None → raised r = Some TypeError)
              end).
  { intros s Hms Hps Hns. apply (Hthen s []); [done|simpl; lia| |].
    - intros p Hp. exists p. split; [done|]. congruence.
    - intros Hp. split; [congruence|done]. }
  destruct (Taxi._nextLoc self0) as [nextLoc|] eqn:Hnl.
  2:{ apply Hplain; try done. }
  assert (Hpending : Taxi._nextLoc self ≠ None).
  { intros Hn. apply Hn0 in Hn. congruence. }
  destruct (bool_decide (newPose.1 = Some nextLoc)
            && (newPose.2 =? Taxi._nextDirection self0)%Z)%bool.
  2:{ apply Hplain; try done. }
  set (nextPose := match Taxi._loc self0 with
                   | Some here => Nodes.vacate N here (Taxi._direction self0)
                                    newPose.2
                   | None => Nodes.occupy N nextLoc newPose.2
                   end).
  clearbody nextPose.
  destruct (bool_decide (nextPose.1 = newPose.1)
            && (nextPose.2 =? newPose.2)%Z)%bool.
  2:{ apply Hplain; try done.
      eapply same_but_motion_trans; [exact Hm0|apply same_but_motion_set_next]. }
  set (self1 := TaxiRest.set_pose (Some nextLoc, Taxi._nextDirection self0) self0).
  assert (Hm1 : same_but_motion self self1).
  { eapply same_but_motion_trans; [exact Hm0|apply same_but_motion_set_pose]. }
  assert (Hp1 : Taxi._path self1 = Taxi._path self) by (by rewrite <- Hp0).
  destruct (Taxi._path self1) as [[|wp rest]|] eqn:Hpath1.
  - apply Hplain; try done.
    eapply same_but_motion_trans; [exact Hm1|apply same_but_motion_set_next].
  - destruct ((wp.1 =? nextLoc.1)%Z && (wp.2 =? nextLoc.2)%Z)%bool.
    + apply (Hthen _ [wp]); [|simpl; lia| |].
      * eapply same_but_motion_trans; [exact Hm1|].
        eapply same_but_motion_trans; [apply same_but_motion_set_path|].
        apply same_but_motion_set_next.
      * intros p Hp. exists rest. split; [simpl; congruence|done].
      * intros Hp. congruence.
    + cbn [final emitted raised].
      split.
      { eapply same_but_motion_trans; [exact Hm1|apply same_but_motion_set_next]. }
      rewrite <- Hp1. cbn [Taxi._path TaxiRest.set_next]. rewrite Hpath1.
      exists [], (wp :: rest); repeat split; simpl; try done; lia.
  - cbn [final emitted raised]. split; [done|].
    rewrite <- Hp1. split; [done|]. intros Hn. done.
Qed.

(** ** The planner with an arbitrary estimate *)

Lemma search_finds (h : coord → coord → Q) (m : RoadMap) (o d : coord) :
  nonneg_weights m → closed_map m →
  (∀ x, is_Some (m !! x) → (0 <= h x d)%Q) →
  o ≠ d → is_Some (m !! d) →
  ∀ n s processed,
    Inv h m o d None processed s →
    variant m o s = n →
    ∃ fuel0 r,
      (∀ fuel, fuel0 ≤ fuel → TaxiAgent.search h m d fuel s = r)
      ∧ found_route m o d r.
Proof.
  intros Hweights Hclosed Hh Hod Hd.
  induction n as [n IH] using lt_wf_ind; intros s processed HInv Hvar.
  destruct (TaxiAgent.heappop (TaxiAgent.to_explore s))
    as [[[f cur] rest]|] eqn:Hpop.
  2:{ exists 1, (Returned None). split.
      - intros [|k] Hk; [lia|]. simpl. by rewrite Hpop.
      - intros l c (Hwalk & Hhead & Hlast).
        eapply (empty_no_route h m o d processed s HInv (heappop_None _ Hpop)
                  l c Hwalk o 0%Q); [done|done|].
        apply (inv_origin _ _ _ _ _ _ _ HInv). }
  destruct (decide (cur = d)) as [->|Hne].
  - destruct (heappop_spec _ _ _ Hpop) as [Hperm _].
    assert (Hfd : (f, d) ∈ TaxiAgent.to_explore s).
    { rewrite <- Hperm. apply elem_of_cons. by left. }
    destruct (inv_heap _ _ _ _ _ _ _ HInv f d Hfd) as (cd & Hcd & _).
    destruct (inv_traced _ _ _ _ _ _ _ HInv d cd Hcd) as (T & HT & HendT).
    exists (S (S (length T))), (Returned (Some (waypoints_before T ++ [d]))).
    split.
    + intros [|k] Hk; [lia|]. simpl. rewrite Hpop.
      rewrite decide_True by done. rewrite <- HendT at 1.
      apply (trace_back_traced _ _ _ _ _ HT). lia.
    + destruct (traced_walk _ _ _ _ _ HT [] 0%Q) as (c & Hwalk & Hc & Hhead).
      { rewrite HendT. by constructor. }
      rewrite HendT in Hwalk, Hhead.
      exists c. split; [done|]. split; [done|]. by rewrite last_snoc.
  - destruct (Inv_pop h m o d processed s f cur rest HInv Hpop Hne)
      as (HInv1 & Hlt & c & items & Hc & Hitems).
    destruct (relax_all_Inv h m o d Hweights Hclosed Hh cur c items [] _
                HInv1 Hitems Hc)
      as (s2 & Hrun & HInv2 & Hvar2).
    simpl in HInv2.
    pose proof (Inv_close h m o d cur items s2 HInv2 Hitems) as HInv3.
    destruct (IH (variant m o s2)) with (s := s2)
                                        (processed := @nil (coord * (Z * Q)))
      as (fuel0 & r & Hfuel & Hgood); [lia|done|done|].
    exists (S fuel0), r. split; [|done].
    intros [|k] Hk; [lia|]. simpl. rewrite Hpop.
    rewrite decide_False by done. rewrite Hitems, Hrun.
    apply Hfuel. lia.
Qed.


Lemma shortcut_map_ok :
  nonneg_weights Examples.shortcut_map ∧ closed_map Examples.shortcut_map.
Proof.
  split.
  - unfold nonneg_weights. apply roads_Forall.
    compute_roads Examples.shortcut_map.
    repeat constructor; simpl; lra.
  - unfold closed_map.
    apply (roads_Forall _ (λ _ v _, is_Some (Examples.shortcut_map !! v))).
    compute_roads Examples.shortcut_map.
    repeat constructor; simpl; eexists; vm_compute; reflexivity.
Qed.


(** ** Cancelling a fare that is not there *)

(** X24.  In every state a dispatcher can reach through calls of its
    methods, cancelling a fare that is not on the board (from whatever
    world) changes nothing, sends nothing and raises nothing. *)
Theorem cancelFare_of_unknown_fare_changes_nothing (parent0 : WorldRef)
    (taxis : option (list TaxiRef)) (serviceMap : option RoadMap)
    (cs : list Call) (parent : WorldRef) (o d : coord) (t : Z) :
  let self :=
    after_calls (DispatcherRest.__init__ parent0 taxis serviceMap) cs in
  Dispatcher.board_get (Dispatcher._fareBoard self) o d t = None →
  Dispatcher.cancelFare self parent o d t = mkRun self [] None.
Proof.
  intros self Habsent. apply cancelFare_absent; [|done].
  apply (after_calls_board_ok cs _ (init_board_ok parent0 taxis serviceMap)).
Qed.

Lemma cancelFare_of_unknown_fare_changes_nothing_witness :
  let self :=
    after_calls (DispatcherRest.__init__ 0 (Some [7%nat]) None)
      [CallNewFare 0 (0, 0)%Z (3, 4)%Z 0] in
  Dispatcher.board_get (Dispatcher._fareBoard self) (0, 0)%Z (3, 4)%Z 1 = None
  ∧ Dispatcher.cancelFare self 0 (0, 0)%Z (3, 4)%Z 1 = mkRun self [] None.
Proof.
  split; [reflexivity|].
  apply (cancelFare_of_unknown_fare_changes_nothing 0 (Some [7%nat]) None
           [CallNewFare 0 (0, 0)%Z (3, 4)%Z 0] 0 (0, 0)%Z (3, 4)%Z 1).
  reflexivity.
Defined.

(** ** The order of the fares within one pair *)

(** A run of the loop over call times in ascending order: when it has
    changed the fare of a later call, it has been through the loop body
    for every earlier one, and that ended normally. *)
Lemma tick_times_in_order W self origin destination keys :
  StronglySorted Z.le keys → NoDup keys →
  ∀ (times : gmap Z FareEntry.t) t1 t2 f1 f2,
    times !! t1 = Some f1 → times !! t2 = Some f2 →
    t1 ∈ keys → (t1 < t2)%Z →
    let r := Dispatcher.tick_times W self origin destination keys times in
    let rf := Dispatcher.tick_fare W self origin destination f1 in
    final r !! t2 ≠ Some f2 →
    final r !! t1 = Some (final rf) ∧ raised rf = None.
Proof.
  induction 1 as [|time rest Hsorted IH Hall];
    intros Hnodup times t1 t2 f1 f2 Hf1 Hf2 Hin Hlt; simpl.
  { by apply elem_of_nil in Hin. }
  apply NoDup_cons in Hnodup as [Hnotin Hnodup].
  rewrite Forall_forall in Hall.
  destruct (times !! time) as [fare0|] eqn:Hfare0; simpl; [|congruence].
  destruct (raised (Dispatcher.tick_fare W self origin destination fare0))
    eqn:Hr; simpl.
  - intros Hchanged.
    assert (t2 = time) as ->.
    { destruct (decide (t2 = time)); [done|].
      rewrite lookup_insert_ne in Hchanged by done. congruence. }
    apply elem_of_cons in Hin as [->|Hin]; [lia|].
    specialize (Hall _ Hin). lia.
  - intros Hchanged.
    apply elem_of_cons in Hin as [->|Hin].
    + assert (fare0 = f1) as -> by congruence.
      rewrite tick_times_other by done. rewrite lookup_insert_eq. done.
    + assert (t1 ≠ time) by (by intros ->).
      assert (t2 ≠ time).
      { intros ->. specialize (Hall _ Hin). lia. }
      apply (IH Hnodup _ t1 t2 f1 f2); try done.
      * by rewrite lookup_insert_ne.
      * by rewrite lookup_insert_ne.
Qed.

Lemma sorted_keys_sorted (times : gmap Z FareEntry.t) :
  StronglySorted Z.le (Dispatcher.sorted_keys times).
Proof.
  apply Sorted_StronglySorted; [intros x y z; lia|].
  apply Sorted_merge_sort. apply _.
Qed.

(** X25.  Within one (origin, destination) pair, a tick goes through the
    fares in ascending order of call time: whenever a tick has changed the
    entry of a fare, it has before that run its loop body, to a normal
    end, on every fare of the same pair that called earlier, and the
    board holds what the loop body left of it.  This holds for every
    tick, also one that a later fare cuts short with an exception. *)
Theorem fares_of_a_pair_are_handled_in_call_order (W : World.t)
    (self : Dispatcher.t) (parent : WorldRef) (o d : coord) (t1 t2 : Z)
    (f1 f2 : FareEntry.t) :
  Dispatcher.board_get (Dispatcher._fareBoard self) o d t1 = Some f1 →
  Dispatcher.board_get (Dispatcher._fareBoard self) o d t2 = Some f2 →
  (t1 < t2)%Z →
  let r := Dispatcher.clockTick W self parent in
  Dispatcher.board_get (Dispatcher._fareBoard (final r)) o d t2 ≠ Some f2 →
  Dispatcher.board_get (Dispatcher._fareBoard (final r)) o d t1
  = Some (final (Dispatcher.tick_fare W self o d f1))
  ∧ raised (Dispatcher.tick_fare W self o d f1) = None.
Proof.
  intros Hg1 Hg2 Hlt. unfold Dispatcher.clockTick.
  case_decide as Hown; cbn [final Dispatcher._fareBoard Dispatcher.set_board];
    [|congruence].
  unfold Dispatcher.board_get in *.
  destruct (ODict.get o (Dispatcher._fareBoard self)) as [dests|] eqn:Ho;
    cbn [mbind option_bind] in Hg1, Hg2; [|done].
  destruct (ODict.get d dests) as [times|] eqn:Hd;
    cbn [mbind option_bind] in Hg1, Hg2; [|done].
  destruct (tick_origins_get W self _ o dests Ho) as [[Ho1|Ho1] _];
    cbn zeta in Ho1; rewrite Ho1; cbn [mbind option_bind].
  { rewrite Hd. cbn [mbind option_bind]. congruence. }
  destruct (tick_dests_get W self o dests d times Hd) as [[Hd1|Hd1] _];
    cbn zeta in Hd1; rewrite Hd1; cbn [mbind option_bind].
  { congruence. }
  destruct (sorted_keys_spec times) as [Hnodup Hkeys].
  apply (tick_times_in_order W self o d _ (sorted_keys_sorted times) Hnodup
           times t1 t2 f1 f2 Hg1 Hg2); [|done].
  apply Hkeys. eauto.
Qed.

Lemma fares_of_a_pair_are_handled_in_call_order_witness :
  let r := Dispatcher.clockTick MoreExamples.town_in_debt
             MoreExamples.office_three_calls 0 in
  raised r = Some ZeroDivisionError
  ∧ Dispatcher.board_get (Dispatcher._fareBoard (final r)) (0, 0)%Z (3, 4)%Z 1
    = Some (FareEntry.set_price (Fin 32) (FareEntry.new (0, 0)%Z (3, 4)%Z 1))
  ∧ Dispatcher.board_get (Dispatcher._fareBoard (final r)) (0, 0)%Z (3, 4)%Z 0
    = Some (FareEntry.set_price (Fin 32) (FareEntry.new (0, 0)%Z (3, 4)%Z 0)).
Proof.
  intros r. split; [reflexivity|]. split; [reflexivity|].
  destruct (fares_of_a_pair_are_handled_in_call_order
              MoreExamples.town_in_debt MoreExamples.office_three_calls 0
              (0, 0)%Z (3, 4)%Z 0 1
              (FareEntry.new (0, 0)%Z (3, 4)%Z 0)
              (FareEntry.new (0, 0)%Z (3, 4)%Z 1)) as [Hhandled _].
  - reflexivity.
  - reflexivity.
  - lia.
  - vm_compute. discriminate.
  - exact Hhandled.
Defined.

(** ** From the request to the allocation *)



(** ** The books of the dispatcher *)

Lemma after_call_books (self : Dispatcher.t) (c : Call) :
  Dispatcher._parent (after_call self c) = Dispatcher._parent self
  ∧ Dispatcher._revenue (after_call self c)
    = match c with
      | CallRecvPayment p amount =>
          if decide (Dispatcher._parent self = p)
          then (Dispatcher._revenue self + amount)%Q
          else Dispatcher._revenue self
      | _ => Dispatcher._revenue self
      end.
Proof.
  destruct c; cbn [after_call].
  - unfold DispatcherRest.addTaxi. by case_bool_decide.
  - unfold DispatcherRest.addMapNode.
    destruct (Terrain.getNode T coords); [|done].
    destruct (neighbourDict _ _ _ _); [|done].
    by destruct (Dispatcher._map self).
  - destruct (Dispatcher._map self) as [m|] eqn:Hm.
    + by destruct (importMap_lookup T self m newMap Hm) as (m' & -> & _).
    + unfold DispatcherRest.importMap. by rewrite Hm.
  - destruct (decide (Dispatcher._parent self = parent)) as [<-|Hne].
    2:{ unfold DispatcherRest.handover. by rewrite decide_False. }
    destruct (handover_run self origin destination time taxi price)
      as (_ & _ & _ & _ & Hrev & _).
    split; [|done].
    unfold DispatcherRest.handover. rewrite decide_True by done.
    set (self1 := DispatcherRest.addTaxi self taxi).
    assert (Dispatcher._parent self1 = Dispatcher._parent self) as Hp1.
    { subst self1. unfold DispatcherRest.addTaxi. by case_bool_decide. }
    destruct (newFare_board self1 origin destination time)
      as (Hr1 & _ & _ & _ & _ & _ & _ & Hp).
    cbn zeta in Hr1, Hp. rewrite Hp1 in Hr1, Hp. rewrite Hr1.
    repeat (destruct (DispatcherRest.board_update _ _ _ _ _);
            cbn [final Dispatcher._parent Dispatcher.set_board]);
      congruence.
  - destruct (decide (parent = Dispatcher._parent self)) as [->|Hne].
    2:{ unfold Dispatcher.newFare. by rewrite decide_False. }
    by destruct (newFare_board self origin destination time)
      as (_ & _ & _ & Hrev & _ & _ & _ & Hpar).
  - unfold Dispatcher.cancelFare. case_decide; [|done].
    destruct (ODict.get origin _) as [dests|]; [|done].
    destruct (ODict.get destination dests) as [times|]; [|done].
    destruct (times !! time) as [fare|]; cbn [raised final emitted].
    + destruct (py_getitem _ _); cbn [raised final emitted]; [|done].
      by destruct (Dispatcher.prune _ _ _).
    + by destruct (Dispatcher.prune _ _ _).
  - unfold DispatcherRest.fareBid. case_bool_decide; [|done].
    destruct (ODict.get origin _) as [dests|]; [|done].
    by destruct (DispatcherRest.bid_dests _ _ _) as [[?|]|?].
  - unfold Dispatcher.recvPayment. by case_decide.
  - unfold Dispatcher.clockTick. by case_decide.
Qed.

Lemma after_calls_books (cs : list Call) :
  ∀ self,
    Dispatcher._parent (after_calls self cs) = Dispatcher._parent self
    ∧ (Dispatcher._revenue (after_calls self cs)
       == Dispatcher._revenue self
          + payments_from (Dispatcher._parent self) cs)%Q.
Proof.
  induction cs as [|c cs IH]; intros self; cbn [after_calls foldl].
  { split; [done|]. simpl. lra. }
  destruct (after_call_books self c) as [Hpar Hrev].
  destruct (IH (after_call self c)) as [Hpar' Hrev'].
  fold (after_calls (after_call self c) cs).
  split; [congruence|]. rewrite Hrev', Hpar, Hrev.
  destruct c; cbn [payments_from]; try lra.
  destruct (decide (Dispatcher._parent self = parent)); lra.
Qed.


(** ** addMapNode *)

Lemma neighbourDict_None (T : Terrain.t) (c : coord)
    (neighbours : list (Z * Z * Z)) :
  ∀ acc,
    neighbourDict T c neighbours acc = None ↔
    ∃ n, n ∈ neighbours ∧ Terrain.getNode T (n.1.2, n.2) = false.
Proof.
  induction neighbours as [|n rest IH]; intros acc; cbn [neighbourDict].
  { split; [done|]. intros (n & Hin & _). by apply elem_of_nil in Hin. }
  destruct (Terrain.getNode T (n.1.2, n.2)) eqn:Hn.
  - rewrite IH. split.
    + intros (n' & Hin & Hn'). exists n'. split; [by apply elem_of_cons; right|done].
    + intros (n' & [->|Hin]%elem_of_cons & Hn'); [congruence|]. by exists n'.
  - split; [|done]. intros _. exists n. split; [by apply elem_of_cons; left|done].
Qed.

Lemma neighbourDict_entries (T : Terrain.t) (c : coord)
    (neighbours : list (Z * Z * Z)) :
  ∀ acc nd,
    neighbourDict T c neighbours acc = Some nd →
    ∀ v dir w, (v, (dir, w)) ∈ nd →
      (v, (dir, w)) ∈ acc
      ∨ (w = Terrain.distance2Node T c v ∧ (dir, v.1, v.2) ∈ neighbours).
Proof.
  induction neighbours as [|n rest IH]; intros acc nd; cbn [neighbourDict].
  { intros [= <-] v dir w Hin. by left. }
  destruct (Terrain.getNode T (n.1.2, n.2)); [|done].
  intros Hrun v dir w Hin.
  destruct (IH _ _ Hrun v dir w Hin) as [Hacc|[Hw Hin']].
  - apply odict_set_elem in Hacc as [[= -> -> ->]|Hacc]; [|by left].
    right. split; [done|]. apply elem_of_cons. left.
    by destruct n as [[? ?] ?].
  - right. split; [done|]. by apply elem_of_cons; right.
Qed.


(** * The agents in Python's arithmetic: properties *)

(** ** The arithmetic of [Binary64] and the processor's

    On these operands, some of them chosen where rounding, overflow,
    underflow and subnormal results show, the operations of [Binary64]
    give what the processor gives; and the processor gives the price and
    the scores of the examples below.  (The literals are the floats
    [0.1 = 0x1.999999999999ap-4], [0.2 = 0x1.999999999999ap-3],
    [0.3 = 0x1.3333333333333p-2], [0.4 = 0x1.999999999999ap-2],
    [1.3 = 0x1.4cccccccccccdp+0], [2.4 = 0x1.3333333333333p+1] and
    [3.7 = 0x1.d99999999999ap+1].) *)
Lemma binary64_agrees_with_hardware :
  let v := value_of_float in
  v 0x1.4cccccccccccdp+0%float = Fin Examples64.float_1_3
  ∧ v 0x1.3333333333333p+1%float = Fin Examples64.float_2_4
  ∧ v 0x1.d99999999999ap+1%float = Fin Examples64.float_3_7
  ∧ Binary64.add (v 0x1.999999999999ap-4%float)
      (v 0x1.999999999999ap-3%float)
    = v (0x1.999999999999ap-4 + 0x1.999999999999ap-3)%float
  ∧ Binary64.add (v 0x1.4cccccccccccdp+0%float)
      (v 0x1.3333333333333p+1%float)
    = v 0x1.d99999999999ap+1%float
  ∧ Binary64.add (v 0x1.1ccf385ebc8a0p+1023%float)
      (v 0x1.1ccf385ebc8a0p+1023%float)
    = v (0x1.1ccf385ebc8a0p+1023 + 0x1.1ccf385ebc8a0p+1023)%float
  ∧ Binary64.mul (v 0x1.999999999999ap-2%float) (v 10%float)
    = v (0x1.999999999999ap-2 * 10)%float
  ∧ Binary64.mul (v 0x1.999999999999ap-4%float)
      (v 0x1.3333333333333p-2%float)
    = v (0x1.999999999999ap-4 * 0x1.3333333333333p-2)%float
  ∧ Binary64.mul (v 29%float) (v 0x1.5555555555555p+0%float)
    = v (29 * 0x1.5555555555555p+0)%float
  ∧ Binary64.mul (v 0x1.87e92154ef7acp-665%float)
      (v 0x1.87e92154ef7acp-665%float)
    = v (0x1.87e92154ef7acp-665 * 0x1.87e92154ef7acp-665)%float
  ∧ Binary64.mul (v 0x1.67e9c127b6e74p-532%float)
      (v 0x1.67e9c127b6e74p-532%float)
    = v (0x1.67e9c127b6e74p-532 * 0x1.67e9c127b6e74p-532)%float
  ∧ Binary64.div (v 1%float) (v 3%float) = v (1 / 3)%float
  ∧ Binary64.div (v 4%float) (v 3%float) = v (4 / 3)%float
  ∧ Binary64.div (v 1%float) (v 0x1.999999999999ap-4%float)
    = v (1 / 0x1.999999999999ap-4)%float
  ∧ Binary64.div (v 1%float) (v 0x0.0000000000001p-1022%float)
    = v (1 / 0x0.0000000000001p-1022)%float
  ∧ Binary64.sqrt (v 2%float) = v (PrimFloat.sqrt 2%float)
  ∧ Binary64.sqrt (v 5%float) = v (PrimFloat.sqrt 5%float)
  ∧ Binary64.sqrt (v 9801%float) = v (PrimFloat.sqrt 9801%float)
  ∧ Binary64.sqrt (v 4503599627370497%float)
    = v (PrimFloat.sqrt 4503599627370497%float)
  ∧ Binary64.sqrt (v 0x1.0000000000001p+0%float)
    = v (PrimFloat.sqrt 0x1.0000000000001p+0%float)
  ∧ Binary64.sqrt (v 0x1.fffffffffffffp+1023%float)
    = v (PrimFloat.sqrt 0x1.fffffffffffffp+1023%float)
  ∧ Binary64.sqrt (v 0x0.0000000000001p-1022%float)
    = v (PrimFloat.sqrt 0x0.0000000000001p-1022%float)
  ∧ v (29 * (4 / 3))%float = Fin (5441849549739349 # 140737488355328)
  ∧ v (0x1.999999999999ap-2 * (1 / 0x1.999999999999ap-4)
       + 0x1.3333333333333p-2 * (1 / 1)
       + 0x1.999999999999ap-3 * (0 / 1000)
       + 0x1.999999999999ap-4 * (1 / 3))%float
    = Fin (4878899596318037 # 1125899906842624)
  ∧ v (0x1.999999999999ap-2 * (1 / 10)
       + 0x1.3333333333333p-2 * (1 / 1)
       + 0x1.999999999999ap-3 * (0 / 1000)
       + 0x1.999999999999ap-4 * (1 / 3))%float
    = Fin (1681343860884985 # 4503599627370496).
Proof. repeat split; vm_compute; reflexivity. Qed.

(** ** Rounding *)

Import Binary64.

Lemma pow2_pos k : (0 < 2 ^ k)%Q.
Proof. by apply Qpower_0_lt. Qed.

Lemma pow2_add a b : (2 ^ (a + b) == 2 ^ a * 2 ^ b)%Q.
Proof. by apply Qpower_plus. Qed.

Lemma pow2_inv k : (2 ^ (- k) * 2 ^ k == 1)%Q.
Proof. rewrite <- pow2_add. by replace (- k + k)%Z with 0%Z by lia. Qed.

Lemma pow2_le a b : (a <= b)%Z → (2 ^ a <= 2 ^ b)%Q.
Proof. intros. by apply Qpower_le_compat_l. Qed.

Lemma pow2_lt_inv a b : (2 ^ a < 2 ^ b)%Q → (a < b)%Z.
Proof. intros. by eapply Qpower_lt_compat_l_inv. Qed.

Lemma pow2_Z k : (0 <= k)%Z → (2 ^ k == inject_Z (2 ^ k))%Q.
Proof. intros. symmetry. by apply (Zpower_Qpower 2). Qed.

(** [ilog2] names the binade. *)
Lemma ilog2_spec x : (0 < x)%Q → (2 ^ ilog2 x <= x ∧ x < 2 ^ (ilog2 x + 1))%Q.
Proof.
  intros Hx. unfold ilog2.
  destruct x as [n d]. cbn [Qnum Qden].
  assert (Hn : (0 < n)%Z).
  { unfold Qlt in Hx. simpl in Hx. lia. }
  set (a := Z.log2 n). set (b := Z.log2 (Z.pos d)).
  pose proof (Z.log2_spec n Hn) as [Hn1 Hn2]. fold a in Hn1, Hn2.
  pose proof (Z.log2_spec (Z.pos d) eq_refl) as [Hd1 Hd2]. fold b in Hd1, Hd2.
  assert (Ha : (0 <= a)%Z) by apply Z.log2_nonneg.
  assert (Hb : (0 <= b)%Z) by apply Z.log2_nonneg.
  assert (Hq : (n # d == inject_Z n / inject_Z (Z.pos d))%Q) by apply Qmake_Qdiv.
  assert (HdQ : (0 < inject_Z (Z.pos d))%Q) by (unfold Qlt; simpl; lia).
  assert (H1 : (inject_Z (2 ^ a) <= inject_Z n)%Q) by (by rewrite <- Zle_Qle).
  assert (H2 : (inject_Z n < inject_Z (2 ^ Z.succ a))%Q)
    by (by rewrite <- Zlt_Qlt).
  assert (H3 : (inject_Z (2 ^ b) <= inject_Z (Z.pos d))%Q)
    by (by rewrite <- Zle_Qle).
  assert (H4 : (inject_Z (Z.pos d) < inject_Z (2 ^ Z.succ b))%Q)
    by (by rewrite <- Zlt_Qlt).
  rewrite <- !pow2_Z in H1, H2, H3, H4 by lia.
  set (N := inject_Z n) in *. set (D := inject_Z (Z.pos d)) in *.
  assert (Hup : (n # d < 2 ^ (a - b + 1))%Q).
  { rewrite Hq. apply Qlt_shift_div_r; [done|].
    replace (a - b + 1)%Z with (Z.succ a + - b)%Z by lia.
    rewrite pow2_add.
    pose proof (pow2_inv b) as Hinv.
    pose proof (pow2_pos (Z.succ a)). pose proof (pow2_pos (- b)).
    pose proof (pow2_pos b).
    set (X := (2 ^ Z.succ a)%Q) in *. set (Y := (2 ^ (- b))%Q) in *.
    set (Z := (2 ^ b)%Q) in *.
    assert (X * Y * Z <= X * Y * D)%Q by (apply Qmult_le_l; [nra|done]).
    assert (X * Y * Z == X)%Q by (rewrite <- Qmult_assoc, Hinv; ring).
    lra. }
  assert (Hlow : (2 ^ (a - b - 1) < n # d)%Q).
  { rewrite Hq. apply Qlt_shift_div_l; [done|].
    replace (a - b - 1)%Z with (a + - Z.succ b)%Z by lia.
    rewrite pow2_add.
    pose proof (pow2_inv (Z.succ b)) as Hinv.
    pose proof (pow2_pos a). pose proof (pow2_pos (- Z.succ b)).
    pose proof (pow2_pos (Z.succ b)).
    set (X := (2 ^ a)%Q) in *. set (Y := (2 ^ (- Z.succ b))%Q) in *.
    set (Z := (2 ^ Z.succ b)%Q) in *.
    assert (X * Y * D < X * Y * Z)%Q by (apply Qmult_lt_l; [nra|done]).
    assert (X * Y * Z == X)%Q by (rewrite <- Qmult_assoc, Hinv; ring).
    lra. }
  destruct (Qle_bool (2 ^ (a - b)) (n # d)) eqn:Hle.
  - apply Qle_bool_iff in Hle. done.
  - assert (n # d < 2 ^ (a - b))%Q.
    { apply Qnot_le_lt. intros H. apply Qle_bool_iff in H. congruence. }
    replace (a - b - 1 + 1)%Z with (a - b)%Z by lia. split; [lra|done].
Qed.

Lemma ilog2_lt x k : (0 < x)%Q → (x < 2 ^ k)%Q → (ilog2 x < k)%Z.
Proof.
  intros Hx Hk. destruct (ilog2_spec x Hx) as [Hlo _].
  apply pow2_lt_inv. lra.
Qed.

Lemma ilog2_ge x k : (0 < x)%Q → (2 ^ k <= x)%Q → (k <= ilog2 x)%Z.
Proof.
  intros Hx Hk. destruct (ilog2_spec x Hx) as [_ Hhi].
  assert (k < ilog2 x + 1)%Z; [|lia]. apply pow2_lt_inv. lra.
Qed.

Lemma rne_comp x y : (x == y)%Q → rne x = rne y.
Proof.
  intros Hxy. unfold rne. rewrite (Qfloor_comp _ _ Hxy).
  by rewrite Hxy.
Qed.

Lemma rne_Z n : rne (inject_Z n) = n.
Proof.
  unfold rne. rewrite Qfloor_Z.
  assert ((inject_Z n - inject_Z n ?= 1 # 2)%Q = Lt) as ->; [|done].
  rewrite <- Qlt_alt. lra.
Qed.

Lemma rne_le_Z x N : (x <= inject_Z N)%Q → (rne x <= N)%Z.
Proof.
  intros Hx. unfold rne.
  pose proof (Qfloor_le x) as Hf. pose proof (Qlt_floor x) as Hf'.
  assert (HfN : (Qfloor x <= N)%Z).
  { rewrite <- (Qfloor_Z N). by apply Qfloor_resp_le. }
  rewrite inject_Z_plus in Hf'.
  destruct (x - inject_Z (Qfloor x) ?= 1 # 2)%Q eqn:Hc; [destruct (Z.even _)| |];
    try done.
  - rewrite <- Qeq_alt in Hc.
    destruct (decide (Qfloor x = N)) as [Heq|]; [|lia].
    rewrite Heq in Hc. lra.
  - rewrite <- Qgt_alt in Hc.
    destruct (decide (Qfloor x = N)) as [Heq|]; [|lia].
    rewrite Heq in Hc. lra.
Qed.

Lemma rne_ge_Z x N : (inject_Z N <= x)%Q → (N <= rne x)%Z.
Proof.
  intros Hx. unfold rne.
  assert (HfN : (N <= Qfloor x)%Z).
  { rewrite <- (Qfloor_Z N). by apply Qfloor_resp_le. }
  destruct (x - inject_Z (Qfloor x) ?= 1 # 2)%Q; [destruct (Z.even _)| |]; lia.
Qed.

Lemma on_grid_scale k s x :
  on_grid k x → (s <= - k)%Z → ∃ N : Z, (x * 2 ^ (- s) == inject_Z N)%Q.
Proof.
  intros [n Hn] Hs. exists (n * 2 ^ (- k - s))%Z.
  rewrite Hn, inject_Z_mult, <- pow2_Z by lia.
  replace (- k - s)%Z with (- k + - s)%Z by lia. rewrite pow2_add. ring.
Qed.

Lemma round_pos_shape a :
  (0 < a)%Q →
  let s := Z.max (ilog2 a - 52) (-1074) in
  let m := rne (a * 2 ^ (- s)) in
  (0 <= m)%Z
  ∧ ((2 ^ (-1074) <= a)%Q → (1 <= m)%Z)
  ∧ round_pos a
    = if Qle_bool (2 ^ 1024) (inject_Z m * 2 ^ s)
      then None else Some (Qred (inject_Z m * 2 ^ s)).
Proof.
  intros Ha s m. split; [|split; [|done]].
  - apply (rne_ge_Z _ 0). pose proof (pow2_pos (- s)).
    change (inject_Z 0) with 0%Q. nra.
  - intros Hmin. apply (rne_ge_Z _ 1).
    assert (Hs : (s <= ilog2 a)%Z).
    { subst s. apply Z.max_lub; [lia|]. by apply ilog2_ge. }
    destruct (ilog2_spec a Ha) as [Hlo _].
    pose proof (pow2_le s (ilog2 a) Hs) as Hle.
    pose proof (pow2_inv s) as Hinv. pose proof (pow2_pos (- s)).
    pose proof (pow2_pos s).
    change (inject_Z 1) with 1%Q. rewrite <- Hinv.
    rewrite (Qmult_comm a). apply Qmult_le_l; [done|]. lra.
Qed.

Lemma round_pos_nonneg a y :
  (0 < a)%Q → round_pos a = Some y → (0 <= y)%Q.
Proof.
  intros Ha. destruct (round_pos_shape a Ha) as (Hm & _ & ->).
  destruct (Qle_bool _ _); [done|]. intros [= <-]. rewrite Qred_correct.
  pose proof (pow2_pos (Z.max (ilog2 a - 52) (-1074))).
  assert (0 <= inject_Z (rne (a * 2 ^ (- Z.max (ilog2 a - 52) (-1074)))))%Q.
  { change 0%Q with (inject_Z 0). by rewrite <- Zle_Qle. }
  nra.
Qed.

Lemma round_pos_min a y :
  (2 ^ (-1074) <= a)%Q → round_pos a = Some y → (2 ^ (-1074) <= y)%Q.
Proof.
  intros Hmin.
  assert (Ha : (0 < a)%Q) by (pose proof (pow2_pos (-1074)); lra).
  destruct (round_pos_shape a Ha) as (_ & Hm & ->).
  specialize (Hm Hmin).
  destruct (Qle_bool _ _); [done|]. intros [= <-]. rewrite Qred_correct.
  set (s := Z.max (ilog2 a - 52) (-1074)) in *.
  set (m := rne _) in *.
  assert (1 <= inject_Z m)%Q.
  { change 1%Q with (inject_Z 1). by rewrite <- Zle_Qle. }
  pose proof (pow2_le (-1074) s ltac:(lia)). pose proof (pow2_pos s).
  pose proof (pow2_pos (-1074)). nra.
Qed.

Lemma round_pos_grid_exp a T k :
  (0 < a)%Q → (a <= T)%Q → (T < 2 ^ (53 - k))%Q → (0 <= k <= 1074)%Z →
  (Z.max (ilog2 a - 52) (-1074) <= - k)%Z.
Proof.
  intros Ha HaT HT Hk.
  assert (ilog2 a < 53 - k)%Z by (apply ilog2_lt; [done|lra]). lia.
Qed.

(** Rounding stays below a number of a grid that the format holds
    exactly. *)
Lemma round_pos_le a T k :
  (0 < a)%Q → (a <= T)%Q → on_grid k T → (T < 2 ^ (53 - k))%Q →
  (0 <= k <= 1074)%Z →
  ∃ y, round_pos a = Some y ∧ (y <= T)%Q.
Proof.
  intros Ha HaT Hgrid HT Hk.
  pose proof (round_pos_grid_exp a T k Ha HaT HT Hk) as Hs.
  destruct (round_pos_shape a Ha) as (Hm & _ & ->).
  set (s := Z.max (ilog2 a - 52) (-1074)) in *.
  destruct (on_grid_scale k s T Hgrid Hs) as [N HN].
  assert (Hle : (rne (a * 2 ^ (- s)) <= N)%Z).
  { apply rne_le_Z. rewrite <- HN.
    rewrite (Qmult_comm a), (Qmult_comm T).
    apply Qmult_le_l; [apply pow2_pos|done]. }
  set (m := rne _) in *.
  assert (HyT : (inject_Z m * 2 ^ s <= T)%Q).
  { assert (inject_Z m <= inject_Z N)%Q by (by rewrite <- Zle_Qle).
    pose proof (pow2_pos s). pose proof (pow2_inv s) as Hinv.
    assert (T == inject_Z N * 2 ^ s)%Q as ->.
    { rewrite <- HN, <- Qmult_assoc, Hinv. ring. }
    nra. }
  assert (Hno : Qle_bool (2 ^ 1024) (inject_Z m * 2 ^ s) = false).
  { destruct (Qle_bool _ _) eqn:Hb; [|done].
    apply Qle_bool_iff in Hb.
    pose proof (pow2_le (53 - k) 1024 ltac:(lia)). lra. }
  rewrite Hno. eexists. split; [done|]. by rewrite Qred_correct.
Qed.

(** A number of such a grid is rounded to itself. *)
Lemma round_pos_exact a k :
  (0 < a)%Q → on_grid k a → (a < 2 ^ (53 - k))%Q → (0 <= k <= 1074)%Z →
  ∃ y, round_pos a = Some y ∧ (y == a)%Q.
Proof.
  intros Ha Hgrid HT Hk.
  pose proof (round_pos_grid_exp a a k Ha ltac:(lra) HT Hk) as Hs.
  destruct (round_pos_shape a Ha) as (Hm & _ & ->).
  set (s := Z.max (ilog2 a - 52) (-1074)) in *.
  destruct (on_grid_scale k s a Hgrid Hs) as [N HN].
  rewrite (rne_comp _ _ HN), rne_Z.
  assert (Hy : (inject_Z N * 2 ^ s == a)%Q).
  { rewrite <- HN, <- Qmult_assoc, pow2_inv. ring. }
  assert (Hno : Qle_bool (2 ^ 1024) (inject_Z N * 2 ^ s) = false).
  { destruct (Qle_bool _ _) eqn:Hb; [|done].
    apply Qle_bool_iff in Hb.
    pose proof (pow2_le (53 - k) 1024 ltac:(lia)). lra. }
  rewrite Hno. eexists. split; [done|]. by rewrite Qred_correct.
Qed.

(** What the format holds is on the grid of the least positive float. *)
Lemma round_pos_on_grid a y :
  (0 < a)%Q → round_pos a = Some y → on_grid 1074 y.
Proof.
  intros Ha. destruct (round_pos_shape a Ha) as (Hm & _ & ->).
  destruct (Qle_bool _ _); [done|]. intros [= <-].
  set (s := Z.max (ilog2 a - 52) (-1074)) in *. set (m := rne _) in *.
  exists (m * 2 ^ (s + 1074))%Z.
  rewrite Qred_correct, inject_Z_mult, <- pow2_Z by lia.
  rewrite <- Qmult_assoc, <- pow2_add.
  replace (s + 1074 + - (1074))%Z with s by lia. reflexivity.
Qed.

(** *** Rounding: signs and bounds *)

#[local] Arguments Qpower : simpl never.

Lemma big_pos v : big v → pylt (Fin 0) v = true.
Proof.
  destruct v as [y| | |]; simpl; try done. intros Hy.
  apply Qltb_true. pose proof (pow2_pos (-1074)). lra.
Qed.

Lemma nonpos_not_pos v : nonpos v → pylt (Fin 0) v = false.
Proof.
  destruct v as [y| | |]; simpl; try done. intros Hy. by apply Qltb_false.
Qed.

Lemma round64_big x : (2 ^ (-1074) <= x)%Q → big (round64 x).
Proof.
  intros Hx. unfold round64.
  pose proof (pow2_pos (-1074)).
  assert ((x ?= 0)%Q = Gt) as -> by (rewrite <- Qgt_alt; lra).
  destruct (round_pos x) as [y|] eqn:Hy; simpl; [|done].
  by eapply round_pos_min.
Qed.

Lemma round64_nonpos x : (x <= 0)%Q → nonpos (round64 x).
Proof.
  intros Hx. unfold round64.
  destruct (x ?= 0)%Q eqn:Hc; simpl.
  - lra.
  - rewrite <- Qlt_alt in Hc.
    destruct (round_pos (- x)) as [y|] eqn:Hy; simpl; [|done].
    assert (0 <= y)%Q by (eapply round_pos_nonneg; [|done]; lra). lra.
  - rewrite <- Qgt_alt in Hc. lra.
Qed.

(** Rounding does not step over a number of a grid that the format
    holds exactly. *)
Lemma round64_le_grid x T k :
  (x <= T)%Q → (0 <= T)%Q → on_grid k T → (T < 2 ^ (53 - k))%Q →
  (0 <= k <= 1074)%Z →
  match round64 x with
  | Fin y => (y <= T)%Q
  | NInf => True
  | _ => False
  end.
Proof.
  intros HxT HT Hgrid Hbound Hk. unfold round64.
  destruct (x ?= 0)%Q eqn:Hc.
  - done.
  - rewrite <- Qlt_alt in Hc.
    destruct (round_pos (- x)) as [y|] eqn:Hy; [|done].
    assert (0 <= y)%Q by (eapply round_pos_nonneg; [|done]; lra). lra.
  - rewrite <- Qgt_alt in Hc.
    destruct (round_pos_le x T k Hc HxT Hgrid Hbound Hk) as (y & -> & Hy).
    done.
Qed.

Lemma round64_exact x k :
  on_grid k x → (Qabs x < 2 ^ (53 - k))%Q → (0 <= k <= 1074)%Z →
  ∃ y, round64 x = Fin y ∧ (y == x)%Q.
Proof.
  intros Hgrid Hbound Hk. unfold round64.
  destruct (x ?= 0)%Q eqn:Hc.
  - rewrite <- Qeq_alt in Hc. exists 0%Q. split; [done|]. by rewrite Hc.
  - rewrite <- Qlt_alt in Hc.
    assert (Hg : on_grid k (- x)).
    { destruct Hgrid as [n Hn]. exists (- n)%Z.
      rewrite Hn, inject_Z_opp. ring. }
    rewrite Qabs_neg in Hbound by lra.
    destruct (round_pos_exact (- x) k ltac:(lra) Hg Hbound Hk) as (y & -> & Hy).
    exists (- y)%Q. split; [done|]. rewrite Hy. ring.
  - rewrite <- Qgt_alt in Hc.
    rewrite Qabs_pos in Hbound by lra.
    destruct (round_pos_exact x k Hc Hgrid Hbound Hk) as (y & -> & Hy).
    by exists y.
Qed.

Lemma representable_on_grid q : representable q → on_grid 1074 q.
Proof.
  intros (y & Hr & Hy). unfold round64 in Hr.
  destruct (q ?= 0)%Q eqn:Hc.
  - rewrite <- Qeq_alt in Hc. exists 0%Z. rewrite Hc. ring.
  - rewrite <- Qlt_alt in Hc.
    destruct (round_pos (- q)) as [y0|] eqn:Hy0; [|done].
    injection Hr as <-.
    destruct (round_pos_on_grid (- q) y0 ltac:(lra) Hy0) as [n Hn].
    exists (- n)%Z. rewrite <- Hy, Hn, inject_Z_opp. ring.
  - rewrite <- Qgt_alt in Hc.
    destruct (round_pos q) as [y0|] eqn:Hy0; [|done].
    injection Hr as <-.
    destruct (round_pos_on_grid q y0 Hc Hy0) as [n Hn].
    exists n. by rewrite <- Hy.
Qed.

Lemma Z_on_grid k n : (0 <= k)%Z → on_grid k (inject_Z n).
Proof.
  intros Hk. exists (n * 2 ^ k)%Z.
  rewrite inject_Z_mult, <- pow2_Z by done.
  rewrite <- Qmult_assoc, (Qmult_comm (2 ^ k)), pow2_inv. ring.
Qed.

Lemma on_grid_plus k x y : on_grid k x → on_grid k y → on_grid k (x + y).
Proof.
  intros [n Hn] [m Hm]. exists (n + m)%Z.
  rewrite Hn, Hm, inject_Z_plus. ring.
Qed.

Lemma on_grid_pos k x : on_grid k x → (0 < x)%Q → (2 ^ (- k) <= x)%Q.
Proof.
  intros [n Hn] Hx. rewrite Hn in *. pose proof (pow2_pos (- k)).
  assert (1 <= n)%Z.
  { assert (0 < n)%Z; [|lia].
    rewrite Zlt_Qlt. change (inject_Z 0) with 0%Q. nra. }
  assert (1 <= inject_Z n)%Q.
  { change 1%Q with (inject_Z 1). by rewrite <- Zle_Qle. }
  nra.
Qed.

(** Rounding does not go below a power of two the format holds. *)
Lemma round_pos_ge_pow2 a j y :
  (-1074 <= j)%Z → (2 ^ j <= a)%Q → round_pos a = Some y → (2 ^ j <= y)%Q.
Proof.
  intros Hj Hja.
  assert (Ha : (0 < a)%Q) by (pose proof (pow2_pos j); lra).
  destruct (round_pos_shape a Ha) as (_ & _ & ->).
  destruct (Qle_bool _ _); [done|]. intros [= <-]. rewrite Qred_correct.
  pose proof (ilog2_ge a j Ha Hja) as He.
  destruct (ilog2_spec a Ha) as [Hlo _].
  set (e := ilog2 a) in *.
  set (s := Z.max (e - 52) (-1074)) in *.
  assert (Hse : (s <= e)%Z) by lia.
  assert (Hm : (2 ^ (e - s) <= rne (a * 2 ^ (- s)))%Z).
  { apply rne_ge_Z. rewrite <- pow2_Z by lia.
    replace (e - s)%Z with (e + - s)%Z by lia. rewrite pow2_add.
    apply Qmult_le_compat_r; [done|]. pose proof (pow2_pos (- s)). lra. }
  set (m := rne _) in *.
  assert (Hm' : (2 ^ (e - s) <= inject_Z m)%Q).
  { rewrite pow2_Z by lia. by rewrite <- Zle_Qle. }
  pose proof (pow2_le j e He) as Hje.
  pose proof (pow2_pos s) as Hs.
  assert (He' : (2 ^ e == 2 ^ (e - s) * 2 ^ s)%Q).
  { rewrite <- pow2_add. by replace (e - s + s)%Z with e by lia. }
  assert (2 ^ (e - s) * 2 ^ s <= inject_Z m * 2 ^ s)%Q
    by (by apply Qmult_le_compat_r; [|lra]).
  lra.
Qed.

(** *** Python numbers *)

Lemma is_number_value v q :
  Py.is_number v q → ∃ y, Py.value v = Fin y ∧ (y == q)%Q.
Proof.
  destruct v as [n|[x| | |]]; simpl; try done.
  - intros Hn. by exists (inject_Z n).
  - intros [Hx _]. by exists x.
Qed.

Lemma to_float_big v x : big (Py.value v) → Py.to_float v = Ok x → big x.
Proof.
  destruct v as [n|y]; cbn [Py.value Py.to_float]; [|by intros ? [= ->]].
  intros Hn Hx. apply round64_big in Hn.
  destruct (round64 (inject_Z n)); [|done..]. by injection Hx as <-.
Qed.

Lemma mul_big_ge1 x r : big x → ge1 r → big (Binary64.mul x r).
Proof.
  pose proof (pow2_pos (-1074)) as Htiny.
  destruct x as [x| | |], r as [r| | |]; cbn [big ge1]; try done; intros Hx Hr.
  - cbn [Binary64.mul]. apply round64_big. nra.
  - cbn [Binary64.mul pymul]. unfold inf_times.
    assert (Qltb 0 x = true) as -> by (apply Qltb_true; lra). done.
  - cbn [Binary64.mul pymul]. unfold inf_times.
    assert (Qltb 0 r = true) as -> by (apply Qltb_true; lra). done.
Qed.

Lemma to_float_1 : Py.to_float (PyInt 1) = Ok (Fin 1).
Proof. vm_compute. reflexivity. Qed.

Lemma to_float_10 : Py.to_float (PyInt 10) = Ok (Fin 10).
Proof. vm_compute. reflexivity. Qed.

Lemma to_float_25 : Py.to_float (PyInt 25) = Ok (Fin 25).
Proof. vm_compute. reflexivity. Qed.

Lemma Z_ge1_big n : (1 <= n)%Z → big (Fin (inject_Z n)).
Proof.
  intros Hn. cbn [big].
  assert (1 <= inject_Z n)%Q.
  { change 1%Q with (inject_Z 1). by rewrite <- Zle_Qle. }
  assert (2 ^ (-1074) <= 1)%Q by (by apply (pow2_le (-1074) 0)). lra.
Qed.

(** The sign of [10 * travel_time]. *)
Lemma ceiling_sign tv t ceiling :
  Py.is_number tv t →
  Py.mul (PyInt 10) tv = Ok ceiling →
  if Qltb 0 t then big (Py.value ceiling) else nonpos (Py.value ceiling).
Proof.
  intros Hnum.
  destruct tv as [n|[x| | |]]; cbn [Py.is_number] in Hnum; try done.
  - cbn [Py.mul]. intros [= <-]. cbn [Py.value].
    destruct (Qltb 0 t) eqn:Hpos.
    + apply Qltb_true in Hpos. rewrite <- Hnum in Hpos.
      apply Z_ge1_big.
      assert (0 < n)%Z; [|lia]. rewrite Zlt_Qlt. done.
    + apply Qltb_false in Hpos. rewrite <- Hnum in Hpos. cbn [nonpos].
      rewrite inject_Z_mult. change (inject_Z 10) with 10%Q. lra.
  - destruct Hnum as [Hx Hrep].
    cbn [Py.mul]. rewrite to_float_10. cbn [Py.to_float mbind result_bind].
    intros [= <-]. cbn [Py.value Binary64.mul].
    destruct (Qltb 0 t) eqn:Hpos.
    + apply Qltb_true in Hpos. apply round64_big.
      assert (2 ^ (-1074) <= x)%Q.
      { apply (on_grid_pos 1074); [by apply representable_on_grid|lra]. }
      pose proof (pow2_pos (-1074)). lra.
    + apply Qltb_false in Hpos. apply round64_nonpos. lra.
Qed.

(** [25 + travel_time] is positive for a travel time above -25. *)
Lemma base_big tv t base :
  Py.is_number tv t → (-25 < t)%Q →
  Py.add (PyInt 25) tv = Ok base →
  big (Py.value base).
Proof.
  intros Hnum Ht.
  destruct tv as [n|[x| | |]]; cbn [Py.is_number] in Hnum; try done.
  - cbn [Py.add]. intros [= <-]. cbn [Py.value].
    rewrite <- Hnum in Ht. apply Z_ge1_big.
    assert (-25 < n)%Z; [|lia]. rewrite Zlt_Qlt. done.
  - destruct Hnum as [Hx Hrep].
    cbn [Py.add]. rewrite to_float_25. cbn [Py.to_float mbind result_bind].
    intros [= <-]. cbn [Py.value Binary64.add].
    apply round64_big. apply (on_grid_pos 1074); [|lra].
    apply on_grid_plus; [|by apply representable_on_grid].
    apply (Z_on_grid 1074 25). lia.
Qed.

Lemma max_1_ratio y : ratio_ge1 (Py.max (PyInt 1) (PyFloat (Fin y))).
Proof.
  unfold Py.max, Py.lt. cbn [Py.value pylt].
  destruct (Qltb (inject_Z 1) y) eqn:Hlt; [|by left].
  right. eexists. split; [done|]. apply Qltb_true in Hlt.
  cbn [ge1]. change (inject_Z 1) with 1%Q in Hlt. lra.
Qed.

Lemma truediv_int_float n m v :
  Py.truediv (PyInt n) (PyInt m) = Ok v → ∃ y, v = PyFloat (Fin y).
Proof.
  cbn [Py.truediv]. destruct (m =? 0)%Z; [done|].
  destruct (round64 _); [|done..]. intros [= <-]. eauto.
Qed.

Lemma py_mul_big_ge1 base ratio c :
  big (Py.value base) → ratio_ge1 ratio →
  Py.mul base ratio = Ok c → big (Py.value c).
Proof.
  intros Hb [-> | (r & -> & Hr)].
  - destruct base as [b|x]; cbn [Py.mul].
    + intros [= <-]. cbn [Py.value] in *. by rewrite Z.mul_1_r.
    + rewrite to_float_1. cbn [Py.to_float mbind result_bind].
      intros [= <-]. cbn [Py.value] in *. apply mul_big_ge1; [done|].
      cbn [ge1]. lra.
  - destruct (Py.to_float base) as [x|e] eqn:Hx.
    + pose proof (to_float_big _ _ Hb Hx) as Hbig.
      destruct base as [b|x0]; cbn [Py.mul]; rewrite Hx;
        cbn [Py.to_float mbind result_bind]; intros [= <-]; cbn [Py.value];
        by apply mul_big_ge1.
    + destruct base as [b|x0]; cbn [Py.mul]; rewrite Hx;
        cbn [Py.to_float mbind result_bind]; done.
Qed.

(** ** The price, in Python's arithmetic *)

Section Price64.
Variable W : World.t.
Variable as_py : Q → pyval.

Lemma computeSupplyRatio64_spec ratio :
  Dispatcher64._computeSupplyRatio W = Ok ratio →
  if (onDutyCount W =? 0)%nat then ratio = PyFloat PInf
  else Spec64.supplyRatio (World._fareQ W) (onDutyCount W) = Ok ratio
       ∧ ratio_ge1 ratio.
Proof.
  unfold Dispatcher64._computeSupplyRatio, Spec64.supplyRatio.
  fold (onDutyCount W). destruct (onDutyCount W =? 0)%nat; [by intros [= <-]|].
  destruct (Py.truediv _ _) as [v|e] eqn:Hdiv; cbn [mbind result_bind];
    [|done].
  intros [= <-]. split; [done|].
  destruct (truediv_int_float _ _ _ Hdiv) as [y ->]. apply max_1_ratio.
Qed.

(** [_costFare], when it returns, returns the specified price, which is
    positive exactly for a positive travel time. *)
Lemma costFare64_spec (fare : FareEntry.t) price :
  let travelTime :=
    World.travelTime W (FareEntry.origin fare) (FareEntry.destination fare) in
  Py.is_number (as_py travelTime) travelTime →
  (-25 < travelTime)%Q →
  Dispatcher64._costFare W as_py fare = Ok price →
  Spec64.price (as_py travelTime) (World._fareQ W) (onDutyCount W) = Ok price
  ∧ (pylt (Fin 0) (Py.value price) = true ↔ (0 < travelTime)%Q).
Proof.
  intros tt Hnum Htt. unfold Dispatcher64._costFare, Spec64.price. fold tt.
  destruct (Dispatcher64._computeSupplyRatio W) as [ratio|e] eqn:Hratio;
    cbn [mbind result_bind]; [|done].
  apply computeSupplyRatio64_spec in Hratio.
  destruct (Py.add (PyInt 25) (as_py tt)) as [base|e] eqn:Hbase;
    cbn [mbind result_bind]; [|done].
  pose proof (base_big _ _ _ Hnum Htt Hbase) as Hbig.
  destruct (Py.mul base ratio) as [calc|e] eqn:Hcalc;
    cbn [mbind result_bind]; [|done].
  destruct (Py.mul (PyInt 10) (as_py tt)) as [ceil|e] eqn:Hceil;
    cbn [mbind result_bind]; [|done].
  pose proof (ceiling_sign _ _ _ Hnum Hceil) as Hsign.
  assert (Hcalcbig : big (Py.value calc)).
  { destruct (onDutyCount W =? 0)%nat.
    - subst ratio. eapply py_mul_big_ge1; [exact Hbig| |exact Hcalc].
      right. by eexists.
    - destruct Hratio as [_ Hge]. by eapply py_mul_big_ge1. }
  intros [= <-].
  assert (Hpos : pylt (Fin 0) (Py.value (Py.min calc ceil)) = true
                 ↔ (0 < tt)%Q).
  { unfold Py.min, Py.lt. destruct (Qltb 0 tt) eqn:Hlt.
    - apply Qltb_true in Hlt.
      destruct (pylt (Py.value ceil) (Py.value calc));
        split; intros _; try done; by apply big_pos.
    - apply Qltb_false in Hlt.
      assert (pylt (Py.value ceil) (Py.value calc) = true) as ->.
      { pose proof (pow2_pos (-1074)).
        destruct (Py.value ceil) as [a| | |], (Py.value calc) as [b| | |];
          cbn [big nonpos pylt] in *; try done.
        apply Qltb_true. lra. }
      rewrite nonpos_not_pos by done. split; [done|lra]. }
  split; [|exact Hpos].
  destruct (onDutyCount W =? 0)%nat eqn:Hduty.
  - (* no taxi on duty: the surged fare is infinite *)
    subst ratio. f_equal. unfold Py.min, Py.lt.
    assert (Py.value calc = PInf) as Hinf.
    { destruct (Py.to_float base) as [x|e] eqn:Hx.
      - pose proof (to_float_big _ _ Hbig Hx) as Hxbig.
        assert (calc = PyFloat (Binary64.mul x PInf)) as ->.
        { destruct base; cbn [Py.mul] in Hcalc; rewrite Hx in Hcalc;
            cbn [Py.to_float mbind result_bind] in Hcalc; congruence. }
        cbn [Py.value]. pose proof (pow2_pos (-1074)).
        destruct x as [x| | |]; cbn [big] in Hxbig; try done.
        cbn [Binary64.mul pymul]. unfold inf_times.
        assert (Qltb 0 x = true) as -> by (apply Qltb_true; lra). done.
      - destruct base; cbn [Py.mul] in Hcalc; rewrite Hx in Hcalc;
          cbn [Py.to_float mbind result_bind] in Hcalc; done. }
    rewrite Hinf.
    destruct (Py.value ceil) as [a| | |] eqn:Hc; cbn [pylt]; try done.
    + (* the ceiling is infinite too *)
      destruct ceil as [n|c]; cbn [Py.value] in Hc; [done|]. subst c.
      destruct calc as [n|c]; cbn [Py.value] in Hinf; [done|]. by subst c.
    + (* the ceiling is not a number: impossible for a Python number *)
      destruct (Qltb 0 tt); cbn [big nonpos] in Hsign; done.
  - destruct Hratio as [-> _]. cbn [mbind result_bind].
    rewrite Hcalc. done.
Qed.
End Price64.

(** ** The tick in Python's arithmetic, fare by fare *)

Section TickFacts64.
Variable W : World.t.
Variable as_py : Q → pyval.
Variable self : Dispatcher.t.

(** [tick_times] touches only the keys it is given, and each at most by
    one run of the loop body. *)
Lemma tick64_times_other origin destination keys :
  ∀ (times : gmap Z FareEntry.t) t,
    t ∉ keys →
    final (Dispatcher64.tick_times W as_py self origin destination keys times) !! t
    = times !! t.
Proof.
  induction keys as [|time rest IH]; intros times t Hnotin; simpl; [done|].
  apply not_elem_of_cons in Hnotin as [Hne Hrest].
  destruct (times !! time) as [fare|] eqn:Hfare; simpl; [|done].
  destruct (raised _) eqn:Hr; simpl.
  - by rewrite lookup_insert_ne.
  - rewrite IH by done. by rewrite lookup_insert_ne.
Qed.

Lemma tick64_times_step origin destination keys :
  NoDup keys →
  ∀ (times : gmap Z FareEntry.t) t fare,
    times !! t = Some fare →
    let r := Dispatcher64.tick_times W as_py self origin destination keys times in
    let rf := Dispatcher64.tick_fare W as_py self origin destination fare in
    (final r !! t = Some fare ∨ final r !! t = Some (final rf))
    ∧ (t ∈ keys → raised r = None →
       final r !! t = Some (final rf) ∧ raised rf = None).
Proof.
  induction 1 as [|time rest Hnotin Hnodup IH]; intros times t fare Hfare; simpl.
  { split; [by left|]. intros Hin. by apply elem_of_nil in Hin. }
  destruct (times !! time) as [fare0|] eqn:Hfare0; simpl.
  2:{ split; [by left|]. done. }
  destruct (decide (t = time)) as [->|Hne].
  - assert (fare0 = fare) as -> by congruence.
    destruct (raised (Dispatcher64.tick_fare W as_py self origin destination fare))
      eqn:Hr; simpl.
    + rewrite lookup_insert_eq. split; [by right|]. done.
    + rewrite tick64_times_other by done. rewrite lookup_insert_eq.
      split; [by right|]. done.
  - destruct (raised (Dispatcher64.tick_fare W as_py self origin destination fare0))
      eqn:Hr; simpl.
    + rewrite lookup_insert_ne by done. split; [by left|]. done.
    + destruct (IH (<[time:=final (Dispatcher64.tick_fare W as_py self origin
                                      destination fare0)]> times) t fare)
        as [Hcases Hall].
      { by rewrite lookup_insert_ne. }
      split; [exact Hcases|].
      intros Hin Hnone. apply Hall; [|done].
      apply elem_of_cons in Hin as [?|?]; done.
Qed.

Lemma tick64_dests_get origin dests :
  ∀ d (times : gmap Z FareEntry.t),
    ODict.get d dests = Some times →
    let r := Dispatcher64.tick_dests W as_py self origin dests in
    let rt := Dispatcher64.tick_times W as_py self origin d
                (Dispatcher.sorted_keys times) times in
    (ODict.get d (final r) = Some times
     ∨ ODict.get d (final r) = Some (final rt))
    ∧ (raised r = None →
       ODict.get d (final r) = Some (final rt) ∧ raised rt = None).
Proof.
  induction dests as [|[d0 times0] rest IH]; intros d times Hget; simpl in *.
  { done. }
  destruct (decide (d = d0)) as [->|Hne].
  - injection Hget as ->.
    destruct (raised (Dispatcher64.tick_times W as_py self origin d0 _ times))
      eqn:Hr; simpl; rewrite decide_True by done.
    + split; [by right|done].
    + split; [by right|done].
  - destruct (raised (Dispatcher64.tick_times W as_py self origin d0 _ times0))
      eqn:Hr; simpl; rewrite decide_False by done.
    + split; [by left|done].
    + apply IH. exact Hget.
Qed.

Lemma tick64_origins_get (b : FareBoard) :
  ∀ o dests,
    ODict.get o b = Some dests →
    let r := Dispatcher64.tick_origins W as_py self b in
    let rd := Dispatcher64.tick_dests W as_py self o dests in
    (ODict.get o (final r) = Some dests
     ∨ ODict.get o (final r) = Some (final rd))
    ∧ (raised r = None →
       ODict.get o (final r) = Some (final rd) ∧ raised rd = None).
Proof.
  induction b as [|[o0 dests0] rest IH]; intros o dests Hget; simpl in *.
  { done. }
  destruct (decide (o = o0)) as [->|Hne].
  - injection Hget as ->.
    destruct (raised (Dispatcher64.tick_dests W as_py self o0 dests))
      eqn:Hr; simpl; rewrite decide_True by done.
    + split; [by right|done].
    + split; [by right|done].
  - destruct (raised (Dispatcher64.tick_dests W as_py self o0 dests0))
      eqn:Hr; simpl; rewrite decide_False by done.
    + split; [by left|done].
    + apply IH. exact Hget.
Qed.

(** What a sweep of the board does to the fare under one key: nothing, or
    one run of the loop body; and one run exactly when the sweep ends
    without an exception. *)
Lemma tick64_origins_fare (b : FareBoard) o d t fare :
  Dispatcher.board_get b o d t = Some fare →
  let r := Dispatcher64.tick_origins W as_py self b in
  let rf := Dispatcher64.tick_fare W as_py self o d fare in
  (Dispatcher.board_get (final r) o d t = Some fare
   ∨ Dispatcher.board_get (final r) o d t = Some (final rf))
  ∧ (raised r = None →
     Dispatcher.board_get (final r) o d t = Some (final rf)
     ∧ raised rf = None).
Proof.
  unfold Dispatcher.board_get. intros Hget.
  destruct (ODict.get o b) as [dests|] eqn:Ho; simpl in Hget; [|done].
  destruct (ODict.get d dests) as [times|] eqn:Hd; simpl in Hget; [|done].
  destruct (tick64_origins_get b o dests Ho) as [Ho1 Ho2].
  destruct (tick64_dests_get o dests d times Hd) as [Hd1 Hd2].
  destruct (sorted_keys_spec times) as [Hnodup Hkeys].
  destruct (tick64_times_step o d _ Hnodup times t fare Hget) as [Ht1 Ht2].
  assert (Hin : t ∈ Dispatcher.sorted_keys times) by (apply Hkeys; eauto).
  simpl in *. split.
  - destruct Ho1 as [-> | ->]; simpl; [rewrite Hd; simpl; by left|].
    destruct Hd1 as [-> | ->]; simpl; [by left|]. exact Ht1.
  - intros Hnone.
    destruct (Ho2 Hnone) as [-> Hnone1]. simpl.
    destruct (Hd2 Hnone1) as [-> Hnone2]. simpl.
    by apply Ht2.
Qed.
End TickFacts64.

Lemma tick_fare64_unpriced W as_py self origin destination fare :
  pyeqb (FareEntry.price fare) (Fin 0) = true →
  Dispatcher64.tick_fare W as_py self origin destination fare
  = match Dispatcher64._costFare W as_py fare with
    | Raise e => mkRun fare [] (Some e)
    | Ok price =>
        mkRun (FareEntry.set_price (Py.value price) fare)
          [broadcastFare origin destination (Py.value price)] None
    end.
Proof. intros Hzero. unfold Dispatcher64.tick_fare. by rewrite Hzero. Qed.

(** What one tick does to the fare under a key. *)
Lemma clockTick64_fare W as_py self parent o d t fare :
  Dispatcher.board_get (Dispatcher._fareBoard self) o d t = Some fare →
  let r := Dispatcher64.clockTick W as_py self parent in
  let rf := Dispatcher64.tick_fare W as_py self o d fare in
  (Dispatcher.board_get (Dispatcher._fareBoard (final r)) o d t = Some fare
   ∨ Dispatcher.board_get (Dispatcher._fareBoard (final r)) o d t
     = Some (final rf))
  ∧ (parent = Dispatcher._parent self → raised r = None →
     Dispatcher.board_get (Dispatcher._fareBoard (final r)) o d t
     = Some (final rf) ∧ raised rf = None).
Proof.
  intros Hget. unfold Dispatcher64.clockTick.
  case_decide as Hown; simpl.
  - destruct (tick64_origins_fare W as_py self _ o d t fare Hget) as [H1 H2].
    split; [exact H1|]. intros _. exact H2.
  - split; [by left|]. congruence.
Qed.

(** C1, amended.  Prices are Python numbers, computed as the interpreter
    computes them.  For every fare a tick finds unpriced, with a travel
    time above -25: the tick either leaves the fare as it was (it is cut
    short by an exception before the fare, or raises while pricing it),
    or records as its price
    [min((25 + travelTime) × supplyRatio, 10 × travelTime)] with
    [supplyRatio = max(1, outstanding / onDuty)] (the ceiling alone when
    no taxi is on duty); a tick that ends normally does the latter.  The
    recorded price is strictly positive exactly when the travel time
    is. *)
Theorem price_after_tick (W : World.t) (as_py : Q → pyval)
    (self : Dispatcher.t) (o d : coord) (t : Z) (fare : FareEntry.t) :
  Dispatcher.board_get (Dispatcher._fareBoard self) o d t = Some fare →
  pyeqb (FareEntry.price fare) (Fin 0) = true →
  let travelTime :=
    World.travelTime W (FareEntry.origin fare) (FareEntry.destination fare) in
  Py.is_number (as_py travelTime) travelTime →
  (-25 < travelTime)%Q →
  let r := Dispatcher64.clockTick W as_py self (Dispatcher._parent self) in
  let after := Dispatcher.board_get (Dispatcher._fareBoard (final r)) o d t in
  let priced :=
    ∃ price,
      Spec64.price (as_py travelTime) (World._fareQ W) (onDutyCount W)
      = Ok price
      ∧ after = Some (FareEntry.set_price (Py.value price) fare)
      ∧ (pylt (Fin 0) (Py.value price) = true ↔ (0 < travelTime)%Q) in
  (after = Some fare ∨ priced) ∧ (raised r = None → priced).
Proof.
  intros Hget Hzero tt Hnum Htt r after priced.
  destruct (clockTick64_fare W as_py self (Dispatcher._parent self) o d t
              fare Hget) as [Hcases Hstep].
  fold r in Hcases, Hstep. fold after in Hcases, Hstep.
  rewrite tick_fare64_unpriced in Hcases, Hstep by done.
  destruct (Dispatcher64._costFare W as_py fare) as [price|e] eqn:Hcost.
  - destruct (costFare64_spec W as_py fare price Hnum Htt Hcost)
      as [Hspec Hpos].
    assert (Hpriced : after = Some (FareEntry.set_price (Py.value price) fare)
                      → priced).
    { intros Hafter. exists price. done. }
    cbn [final raised] in Hcases, Hstep. split.
    + destruct Hcases as [?|?]; [by left|right; by apply Hpriced].
    + intros Hnormal. apply Hpriced. by apply Hstep.
  - cbn [final raised] in Hcases, Hstep. split.
    + left. by destruct Hcases.
    + intros Hnormal. by destruct (Hstep eq_refl Hnormal).
Qed.

Lemma price_after_tick_witness :
  let fare := FareEntry.new (0, 0)%Z (1, 3)%Z 0 in
  let r := Dispatcher64.clockTick Examples64.busy_town Py.of_Q
             Examples64.busy_office_one_fare 0 in
  let after :=
    Dispatcher.board_get (Dispatcher._fareBoard (final r)) (0, 0)%Z (1, 3)%Z 0
  in
  let priced :=
    ∃ price,
      Spec64.price (Py.of_Q 4) 4 3 = Ok price
      ∧ after = Some (FareEntry.set_price (Py.value price) fare)
      ∧ (pylt (Fin 0) (Py.value price) = true ↔ (0 < 4)%Q) in
  Dispatcher.board_get (Dispatcher._fareBoard Examples64.busy_office_one_fare)
    (0, 0)%Z (1, 3)%Z 0 = Some fare
  ∧ raised r = None
  ∧ after
    = Some (FareEntry.set_price
              (Fin (5441849549739349 # 140737488355328)) fare)
  ∧ (after = Some fare ∨ priced)
  ∧ (raised r = None → priced).
Proof.
  split; [reflexivity|]. split; [reflexivity|].
  split; [vm_compute; reflexivity|].
  apply (price_after_tick Examples64.busy_town Py.of_Q
           Examples64.busy_office_one_fare (0, 0)%Z (1, 3)%Z 0
           (FareEntry.new (0, 0)%Z (1, 3)%Z 0)).
  - reflexivity.
  - reflexivity.
  - vm_compute. reflexivity.
  - reflexivity.
Defined.

(** C1, as stated, fails: a fare whose destination is its origin has travel
    time 0 in the rectilinear world, the tick ends normally, and the
    price it records is 0, which is not strictly positive. *)
Lemma price_zero_for_zero_travel_time :
  let r := Dispatcher64.clockTick Examples.town Py.of_Q
             Examples.office_round_trip 0 in
  raised r = None
  ∧ FareEntry.price <$>
      Dispatcher.board_get (Dispatcher._fareBoard (final r))
        (2, 2)%Z (2, 2)%Z 0
    = Some (Fin 0)
  ∧ pylt (Fin 0) (Fin 0) = false.
Proof. split; [reflexivity|]. split; reflexivity. Qed.

(** ** Allocation in Python's arithmetic *)

Lemma pylt_irrefl a : pylt a a = false.
Proof. destruct a; simpl; try done. apply Qltb_false. lra. Qed.

Lemma pyle_false_pylt a b : pyle a b = false → pylt a b = false.
Proof.
  destruct a as [x| | |], b as [y| | |]; simpl; try done.
  rewrite negb_false_iff, Qltb_true, Qltb_false. lra.
Qed.

(** A score above the leader's is above whatever the leader is not
    below. *)
Lemma pylt_pyle_trans h q s :
  pylt h q = false → pylt h s = true → pyle s q = false.
Proof.
  destruct h as [x| | |], q as [y| | |], s as [z| | |]; simpl; try done.
  rewrite negb_false_iff, !Qltb_true, Qltb_false. lra.
Qed.

Lemma pylt_above_ninf h s : pylt h s = true → pylt NInf s = true.
Proof. by destruct h, s. Qed.

Section AllocationFacts64.
Variable W : World.t.
Variable as_py : Q → pyval.
Variable self : Dispatcher.t.
Variable origin : coord.
Variable nbidders : nat.

Local Abbreviation cand := (candidate64 W as_py self origin nbidders).

Lemma consider_bidder64_candidate best taxi_number :
  Dispatcher64.consider_bidder W as_py self origin nbidders best taxi_number
  = match cand taxi_number with
    | None => Ok best
    | Some (Raise e) => Raise e
    | Some (Ok score) =>
        if pylt best.2 score then Ok (Some taxi_number, score)
        else Ok best
    end.
Proof.
  unfold Dispatcher64.consider_bidder, cand, candidate64.
  destruct (taxi_number <? length (Dispatcher._taxis self))%nat eqn:Hlt.
  - destruct (Dispatcher._taxis self !! taxi_number) as [ref|] eqn:Href.
    + destruct (Dispatcher.eligible _); [|done].
      by destruct (Dispatcher64.priority_score _ _ _ _ _).
    + apply Nat.ltb_lt in Hlt. apply lookup_ge_None in Href. lia.
  - apply Nat.ltb_ge in Hlt. by rewrite (lookup_ge_None_2 _ _ Hlt).
Qed.

Lemma consider_bidder64_first_best seen best j best' :
  first_best64 cand seen best →
  Dispatcher64.consider_bidder W as_py self origin nbidders best j = Ok best' →
  first_best64 cand (seen ++ [j]) best'.
Proof.
  rewrite consider_bidder64_candidate.
  intros Hinv Hstep.
  destruct (cand j) as [[score|e]|] eqn:Hj; [|done|].
  - destruct (pylt best.2 score) eqn:Hlt; injection Hstep as <-.
    + (* j takes the lead *)
      exists seen, []. split; [done|]. split; [done|].
      split; [by eapply pylt_above_ninf|]. split.
      * intros j' qj Hin Hj'.
        destruct best as [[k|] h]; simpl in *.
        -- destruct Hinv as (l1 & l2 & -> & Hk & Hh & Hl1 & Hl2).
           apply elem_of_app in Hin as [Hin|Hin].
           { apply (pylt_pyle_trans h); [|done].
             apply pyle_false_pylt. by eapply Hl1. }
           apply elem_of_cons in Hin as [->|Hin].
           { assert (qj = h) as -> by congruence.
             apply (pylt_pyle_trans h); [apply pylt_irrefl|done]. }
           apply (pylt_pyle_trans h); [by eapply Hl2|done].
        -- destruct Hinv as [-> Hnone].
           apply (pylt_pyle_trans NInf); [by eapply Hnone|done].
      * intros j' qj Hin. by apply elem_of_nil in Hin.
    + (* the lead is kept *)
      destruct best as [[k|] h]; simpl in *.
      * destruct Hinv as (l1 & l2 & -> & Hk & Hh & Hl1 & Hl2).
        exists l1, (l2 ++ [j]). rewrite <- app_assoc. simpl.
        repeat split; [done|done|done|].
        intros j' qj Hin Hj'.
        apply elem_of_app in Hin as [Hin|Hin]; [by eapply Hl2|].
        apply list_elem_of_singleton in Hin as ->.
        assert (qj = score) as -> by congruence. done.
      * destruct Hinv as [-> Hnone]. split; [done|].
        intros j' qj Hin Hj'.
        apply elem_of_app in Hin as [Hin|Hin]; [by eapply Hnone|].
        apply list_elem_of_singleton in Hin as ->.
        assert (qj = score) as -> by congruence. done.
  - injection Hstep as <-.
    destruct best as [[k|] h]; simpl in *.
    + destruct Hinv as (l1 & l2 & -> & Hk & Hh & Hl1 & Hl2).
      exists l1, (l2 ++ [j]). rewrite <- app_assoc. simpl.
      repeat split; [done|done|done|].
      intros j' qj Hin Hj'.
      apply elem_of_app in Hin as [Hin|Hin]; [by eapply Hl2|].
      apply list_elem_of_singleton in Hin as ->. congruence.
    + destruct Hinv as [-> Hnone]. split; [done|].
      intros j' qj Hin Hj'.
      apply elem_of_app in Hin as [Hin|Hin]; [by eapply Hnone|].
      apply list_elem_of_singleton in Hin as ->. congruence.
Qed.

Lemma consider_bidders64_first_best rest :
  ∀ seen best best',
    first_best64 cand seen best →
    Dispatcher64.consider_bidders W as_py self origin nbidders best rest
    = Ok best' →
    first_best64 cand (seen ++ rest) best'.
Proof.
  induction rest as [|j rest IH]; intros seen best best' Hinv Hrun; simpl in *.
  - injection Hrun as <-. by rewrite app_nil_r.
  - destruct (Dispatcher64.consider_bidder W as_py self origin nbidders best j)
      as [best1|e] eqn:Hstep; simpl in Hrun; [|done].
    replace (seen ++ j :: rest) with ((seen ++ [j]) ++ rest)
      by (by rewrite <- app_assoc).
    eapply IH; [|exact Hrun].
    by eapply consider_bidder64_first_best.
Qed.
End AllocationFacts64.

Lemma first_best64_start cand : first_best64 cand [] (None, NInf).
Proof. split; [done|]. intros j qj Hin. by apply elem_of_nil in Hin. Qed.

Lemma candidate64_inv W as_py self origin n k r :
  candidate64 W as_py self origin n k = Some r →
  ∃ ref,
    Dispatcher._taxis self !! k = Some ref
    ∧ Dispatcher.eligible (World.taxi W ref) = true
    ∧ r = Dispatcher64.priority_score W as_py (World.taxi W ref) origin n.
Proof.
  unfold candidate64. intros Hc.
  destruct (Dispatcher._taxis self !! k) as [ref|]; [|done].
  destruct (Dispatcher.eligible (World.taxi W ref)) eqn:He; [|done].
  exists ref. split; [done|]. split; [done|]. congruence.
Qed.

(** The score the loop computes is the specified one with [ε] the float
    [0.1] whenever the pickup time is 0 or at least [ε]: the source
    replaces a pickup time by 0.1 only when it is exactly 0. *)
Lemma priority_score64_spec W as_py taxi origin n q :
  Dispatcher64.priority_score W as_py taxi origin n = Ok q →
  let pickupTime :=
    as_py (World.travelTime W (Taxi.currentLocation taxi) origin) in
  Py.eqb pickupTime (PyInt 0) = true
  ∨ Py.lt pickupTime (Py.literal 0.1) = false →
  Spec64.score pickupTime (as_py (Taxi.income taxi))
    (World.simTime W - Taxi.lastFareCompletionTime taxi) n (Py.literal 0.1)
  = Ok q.
Proof.
  intros Hq pickup Hfloor. rewrite <- Hq.
  unfold Dispatcher64.priority_score, Spec64.score. fold pickup.
  assert ((if Py.eqb pickup (PyInt 0) then Py.literal 0.1 else pickup)
          = Py.max pickup (Py.literal 0.1)) as ->; [|reflexivity].
  unfold Py.max.
  destruct (Py.eqb pickup (PyInt 0)) eqn:Hz.
  - assert (Py.lt pickup (Py.literal 0.1) = true) as ->; [|done].
    unfold Py.eqb, Py.lt in *.
    destruct (Py.value pickup) as [y| | |]; cbn [Py.value pyeqb] in Hz;
      try done.
    apply Qeq_bool_iff in Hz.
    assert (Hlit : ∃ e, Py.value (Py.literal 0.1) = Fin e ∧ (0 < e)%Q).
    { eexists. split; [vm_compute; reflexivity|]. reflexivity. }
    destruct Hlit as (e & -> & He). cbn [pylt]. apply Qltb_true.
    change (inject_Z 0) with 0%Q in Hz. lra.
  - destruct Hfloor as [? | ->]; done.
Qed.

(** C3, amended.  Scores are Python floats, computed as the interpreter
    computes them.  When some bidder of an allocation is eligible with a
    score above [-inf] (every finite score is) and nothing is raised, the
    winner is the eligible bidder whose score is the highest and, among
    those of equal highest score, the one that comes first in the fare's
    list of bidders (the order in which the bids arrived), not the one of
    lowest roster index: no eligible bidder before it in the list has a
    score that reaches the winner's, and none after it has a score above
    the winner's.  The score is
    [0.4·(1/max(pickupTime, ε)) + 0.3·(1/(1+income)) + 0.2·(idleTime/1000)
     + 0.1·(1/(1+bidderCount))] with [ε] the float [0.1] for every pickup
    time that is 0 or at least [ε]. *)
Theorem first_best_bidder_wins (W : World.t) (as_py : Q → pyval)
    (self : Dispatcher.t) (origin : coord) (fare : FareEntry.t) :
  let n := length (FareEntry.bidders fare) in
  let r := Dispatcher64._allocateFare W as_py self origin fare in
  let cand := candidate64 W as_py self origin n in
  (∃ j qj, j ∈ FareEntry.bidders fare ∧ cand j = Some (Ok qj)
           ∧ pylt NInf qj = true) →
  raised r = None →
  ∃ l1 k l2 ref q,
    FareEntry.bidders fare = l1 ++ k :: l2
    ∧ Dispatcher._taxis self !! k = Some ref
    ∧ cand k = Some (Ok q)
    ∧ final r = FareEntry.set_taxi (Z.of_nat k) fare
    ∧ emitted r = [allocateFare origin ref]
    ∧ (∀ j qj, j ∈ l1 → cand j = Some (Ok qj) → pyle q qj = false)
    ∧ (∀ j qj, j ∈ l2 → cand j = Some (Ok qj) → pylt q qj = false)
    ∧ (∀ j qj refj,
         cand j = Some (Ok qj) →
         Dispatcher._taxis self !! j = Some refj →
         let taxi := World.taxi W refj in
         let pickupTime :=
           as_py (World.travelTime W (Taxi.currentLocation taxi) origin) in
         Py.eqb pickupTime (PyInt 0) = true
         ∨ Py.lt pickupTime (Py.literal 0.1) = false →
         Spec64.score pickupTime (as_py (Taxi.income taxi))
           (World.simTime W - Taxi.lastFareCompletionTime taxi) n
           (Py.literal 0.1)
         = Ok qj).
Proof.
  intros n r cand (j0 & q0 & Hin0 & Hcand0 & Hq0) Hnormal. subst r.
  unfold Dispatcher64._allocateFare in *. fold n in Hnormal |- *.
  destruct (Dispatcher64.consider_bidders W as_py self origin n (None, NInf)
              (FareEntry.bidders fare)) as [[[k|] h]|e] eqn:Hrun;
    simpl in Hnormal; [| |done].
  - pose proof (consider_bidders64_first_best W as_py self origin n _ [] _ _
                  (first_best64_start _) Hrun) as Hbest.
    simpl in Hbest.
    destruct Hbest as (l1 & l2 & Hsplit & Hcand & _ & Hl1 & Hl2).
    destruct (candidate64_inv _ _ _ _ _ _ _ Hcand) as (ref & Href & _ & _).
    rewrite Href. simpl.
    exists l1, k, l2, ref, h. repeat split; try done.
    intros j qj refj Hj Hrefj Hfloor.
    destruct (candidate64_inv _ _ _ _ _ _ _ Hj) as (ref' & Href' & _ & Hscore).
    assert (ref' = refj) as -> by congruence.
    by apply priority_score64_spec.
  - pose proof (consider_bidders64_first_best W as_py self origin n _ [] _ _
                  (first_best64_start _) Hrun) as [_ Hnone].
    pose proof (Hnone j0 q0 Hin0 Hcand0) as Hq0'. congruence.
Qed.

Lemma first_best_bidder_wins_witness :
  let W := Examples64.spread_fleet in
  let self := Examples.office_two in
  let fare := Examples.fare_bid_1_0 in
  let r := Dispatcher64._allocateFare W Py.of_Q self (0, 0)%Z fare in
  let cand := candidate64 W Py.of_Q self (0, 0)%Z 2 in
  FareEntry.bidders fare = [1%nat; 0%nat]
  ∧ cand 1%nat = Some (Ok (Fin (1681343860884985 # 4503599627370496)))
  ∧ cand 0%nat = Some (Ok (Fin (4878899596318037 # 1125899906842624)))
  ∧ r = mkRun (FareEntry.set_taxi 0 fare) [allocateFare (0, 0)%Z 7%nat] None
  ∧ ∃ l1 k l2 ref q,
      FareEntry.bidders fare = l1 ++ k :: l2
      ∧ Dispatcher._taxis self !! k = Some ref
      ∧ cand k = Some (Ok q)
      ∧ final r = FareEntry.set_taxi (Z.of_nat k) fare
      ∧ emitted r = [allocateFare (0, 0)%Z ref]
      ∧ (∀ j qj, j ∈ l1 → cand j = Some (Ok qj) → pyle q qj = false)
      ∧ (∀ j qj, j ∈ l2 → cand j = Some (Ok qj) → pylt q qj = false)
      ∧ (∀ j qj refj,
           cand j = Some (Ok qj) →
           Dispatcher._taxis self !! j = Some refj →
           let taxi := World.taxi W refj in
           let pickupTime :=
             Py.of_Q (World.travelTime W (Taxi.currentLocation taxi) (0, 0)%Z)
           in
           Py.eqb pickupTime (PyInt 0) = true
           ∨ Py.lt pickupTime (Py.literal 0.1) = false →
           Spec64.score pickupTime (Py.of_Q (Taxi.income taxi))
             (World.simTime W - Taxi.lastFareCompletionTime taxi) 2
             (Py.literal 0.1)
           = Ok qj).
Proof.
  intros W self fare r cand.
  split; [reflexivity|]. split; [vm_compute; reflexivity|].
  split; [vm_compute; reflexivity|]. split; [vm_compute; reflexivity|].
  apply (first_best_bidder_wins Examples64.spread_fleet Py.of_Q
           Examples.office_two (0, 0)%Z Examples.fare_bid_1_0).
  - exists 0%nat, (Fin (4878899596318037 # 1125899906842624)).
    split; [|split; [vm_compute; reflexivity|reflexivity]].
    apply elem_of_cons. right. apply elem_of_cons. by left.
  - vm_compute. reflexivity.
Defined.

(** C3, as stated, fails on ties.  The taxis at roster index 0 and 1 are
    alike, so both are eligible with the same score; index 1 bid first;
    the fare goes to index 1, not to the lowest index. *)
Lemma tie_goes_to_first_bid_not_lowest_index :
  let cand :=
    candidate64 Examples.fleet Py.of_Q Examples.office_two (0, 0)%Z 2 in
  FareEntry.bidders Examples.fare_bid_1_0 = [1%nat; 0%nat]
  ∧ cand 0%nat = Some (Ok (Fin (4878899596318037 # 1125899906842624)))
  ∧ cand 1%nat = cand 0%nat
  ∧ Dispatcher64._allocateFare Examples.fleet Py.of_Q Examples.office_two
      (0, 0)%Z Examples.fare_bid_1_0
    = mkRun (FareEntry.set_taxi 1 Examples.fare_bid_1_0)
        [allocateFare (0, 0)%Z 8%nat] None.
Proof.
  split; [reflexivity|]. split; [vm_compute; reflexivity|].
  split; vm_compute; reflexivity.
Qed.

(** ** The planner in Python's arithmetic *)

(** *** Sums without rounding *)

Lemma on_grid_Qeq k x y : (x == y)%Q → on_grid k x → on_grid k y.
Proof. intros Hxy [n Hn]. exists n. by rewrite <- Hxy. Qed.

Lemma on_grid_0 k : on_grid k 0.
Proof. exists 0%Z. ring. Qed.

(** Rounding does not go below a number of a grid that the format
    holds exactly. *)
Lemma round_pos_ge a T k y :
  (0 < a)%Q → (T <= a)%Q → on_grid k T → (T < 2 ^ (53 - k))%Q →
  (0 <= k <= 1074)%Z →
  round_pos a = Some y → (T <= y)%Q.
Proof.
  intros Ha HTa Hgrid HT Hk Hy.
  destruct (Qlt_le_dec a (2 ^ (53 - k))) as [Hsmall|Hlarge].
  - pose proof (round_pos_grid_exp a a k Ha ltac:(lra) Hsmall Hk) as Hs.
    destruct (round_pos_shape a Ha) as (_ & _ & Hshape).
    rewrite Hshape in Hy. clear Hshape.
    set (s := Z.max (ilog2 a - 52) (-1074)) in *.
    destruct (on_grid_scale k s T Hgrid Hs) as [N HN].
    assert (Hle : (N <= rne (a * 2 ^ (- s)))%Z).
    { apply rne_ge_Z. rewrite <- HN.
      apply Qmult_le_compat_r; [done|]. pose proof (pow2_pos (- s)). lra. }
    set (mm := rne _) in *.
    destruct (Qle_bool _ _); [done|]. injection Hy as <-.
    rewrite Qred_correct.
    assert (inject_Z N <= inject_Z mm)%Q by (by rewrite <- Zle_Qle).
    pose proof (pow2_pos s). pose proof (pow2_inv s) as Hinv.
    assert (T == inject_Z N * 2 ^ s)%Q as ->.
    { rewrite <- HN, <- Qmult_assoc, Hinv. ring. }
    apply Qmult_le_compat_r; [done|lra].
  - pose proof (round_pos_ge_pow2 a (53 - k) y ltac:(lia) Hlarge Hy). lra.
Qed.

Lemma round64_ge_grid x T k :
  (T <= x)%Q → (0 <= T)%Q → on_grid k T → (T < 2 ^ (53 - k))%Q →
  (0 <= k <= 1074)%Z →
  pyle (Fin T) (round64 x) = true.
Proof.
  intros HTx HT Hgrid Hbound Hk. unfold round64.
  destruct (x ?= 0)%Q eqn:Hc.
  - rewrite <- Qeq_alt in Hc. cbn [pyle pylt].
    apply negb_true_iff, Qltb_false. lra.
  - rewrite <- Qlt_alt in Hc. lra.
  - rewrite <- Qgt_alt in Hc.
    destruct (round_pos x) as [y|] eqn:Hy; [|done].
    cbn [pyle pylt]. apply negb_true_iff, Qltb_false.
    by eapply round_pos_ge.
Qed.

Lemma round64_below x k : (0 <= k <= 1074)%Z → below k (round64 x) x.
Proof.
  intros Hk T HxT HT Hgrid Hbound.
  pose proof (round64_le_grid x T k HxT HT Hgrid Hbound Hk) as Hle.
  destruct (round64 x) as [y| | |]; cbn [pyle pylt]; try done.
  by apply negb_true_iff, Qltb_false.
Qed.

Lemma to_float_exact v x k :
  Py.value v = Fin x → on_grid k x → (Qabs x < 2 ^ (53 - k))%Q →
  (0 <= k <= 1074)%Z →
  ∃ x', Py.to_float v = Ok (Fin x') ∧ (x' == x)%Q.
Proof.
  intros Hv Hgrid Hbound Hk. destruct v as [n|p]; cbn [Py.value] in Hv.
  - injection Hv as <-. cbn [Py.to_float].
    destruct (round64_exact _ k Hgrid Hbound Hk) as (y & -> & Hy). eauto.
  - subst p. exists x. done.
Qed.

(** The sum of two Python numbers of a grid, when it stays within what
    the format holds exactly, is their exact sum. *)
Lemma py_add_exact a b x y k :
  Py.value a = Fin x → Py.value b = Fin y →
  on_grid k x → on_grid k y →
  (Qabs x < 2 ^ (53 - k))%Q → (Qabs y < 2 ^ (53 - k))%Q →
  (Qabs (x + y) < 2 ^ (53 - k))%Q →
  (0 <= k <= 1074)%Z →
  ∃ r z, Py.add a b = Ok r ∧ Py.value r = Fin z ∧ (z == x + y)%Q.
Proof.
  intros Ha Hb Hgx Hgy Hbx Hby Hbxy Hk.
  assert (Hfloat :
    ∃ z, (x' ← Py.to_float a; y' ← Py.to_float b;
          Ok (PyFloat (Binary64.add x' y'))) = Ok (PyFloat (Fin z))
         ∧ (z == x + y)%Q).
  { destruct (to_float_exact a x k Ha Hgx Hbx Hk) as (x' & -> & Hx').
    destruct (to_float_exact b y k Hb Hgy Hby Hk) as (y' & -> & Hy').
    cbn [mbind result_bind Binary64.add].
    destruct (round64_exact (x' + y') k) as (z & -> & Hz).
    - apply (on_grid_Qeq k (x + y)); [by rewrite Hx', Hy'|].
      by apply on_grid_plus.
    - by rewrite Hx', Hy'.
    - done.
    - exists z. split; [done|]. by rewrite Hz, Hx', Hy'. }
  destruct a as [n|p], b as [n'|p']; cbn [Py.add].
  - cbn [Py.value] in Ha, Hb. injection Ha as <-. injection Hb as <-.
    eexists _, _. split; [done|]. split; [done|].
    by rewrite inject_Z_plus.
  - destruct Hfloat as (z & -> & Hz). by eexists _, z.
  - destruct Hfloat as (z & -> & Hz). by eexists _, z.
  - destruct Hfloat as (z & -> & Hz). by eexists _, z.
Qed.

(** *** Comparisons *)

Lemma pyle_Fin_mono c c' v :
  (c' <= c)%Q → pyle (Fin c) v = true → pyle (Fin c') v = true.
Proof.
  destruct v as [y| | |]; cbn [pyle pylt]; try done.
  rewrite !negb_true_iff, !Qltb_false. lra.
Qed.

Lemma pylt_value_cost_lt v w x :
  Py.value v = Fin x →
  (w = PyFloat PInf ∨ ∃ c, Py.value w = Fin c) →
  Py.lt v w = cost_lt x (cost_of w).
Proof.
  intros Hv Hw. unfold Py.lt, cost_of. rewrite Hv.
  destruct Hw as [->|[c ->]]; done.
Qed.

(** *** The estimate *)

Lemma sqrt_pos_nonneg a : (0 <= sqrt_pos a)%Q.
Proof.
  unfold sqrt_pos. rewrite Qred_correct.
  set (r := Z.sqrt _). set (s := (_ - 52)%Z).
  assert (0 <= r)%Z by apply Z.sqrt_nonneg.
  pose proof (pow2_pos s).
  assert (Hm : ∀ mm : Z, (0 <= mm)%Z → (0 <= inject_Z mm * 2 ^ s)%Q).
  { intros mm Hmm.
    assert (0 <= inject_Z mm)%Q.
    { change 0%Q with (inject_Z 0). by rewrite <- Zle_Qle. }
    nra. }
  destruct (_ ?= _)%Q; [destruct (Z.even r)| |]; apply Hm; lia.
Qed.

Lemma calculate_heuristic_nonneg a b hx :
  Planner64.calculate_heuristic a b = Ok (Fin hx) → (0 <= hx)%Q.
Proof.
  unfold Planner64.calculate_heuristic, Py.sqrt.
  destruct (Py.to_float _) as [[y| | |]|e]; cbn [mbind result_bind];
    try done; cbn [Binary64.sqrt].
  destruct (y ?= 0)%Q; intros [= <-]; [lra|apply sqrt_pos_nonneg].
Qed.

(** *** The open list *)

Lemma pop_min64_spec (l : list Planner64.entry) :
  ∀ x e rest,
    (∀ e', e' ∈ x :: l → is_nan (Py.value e'.1) = false) →
    Planner64.pop_min x l = (e, rest) →
    e :: rest ≡ₚ x :: l
    ∧ ∀ e', e' ∈ x :: l → pylt (Py.value e'.1) (Py.value e.1) = false.
Proof.
  induction l as [|y r IH]; intros x e rest Hnan Hpop; simpl in Hpop.
  - injection Hpop as <- <-. split; [done|].
    intros e' ->%list_elem_of_singleton. apply pylt_irrefl.
  - destruct (Planner64.pop_min y r) as [m0 rest0] eqn:Hrec.
    destruct (IH y m0 rest0) as [Hperm Hmin]; [|done|].
    { intros e' Hin. apply Hnan. apply elem_of_cons. by right. }
    assert (Hm0 : m0 ∈ x :: y :: r).
    { apply elem_of_cons. right. rewrite <- Hperm. apply elem_of_cons.
      by left. }
    pose proof (Hnan x ltac:(apply elem_of_cons; by left)) as Hx.
    pose proof (Hnan m0 Hm0) as Hm0nan.
    unfold Planner64.entry_ltb, Py.eqb, Py.lt in Hpop.
    destruct (pyeqb (Py.value m0.1) (Py.value x.1)) eqn:Heq.
    + (* equal priorities: either may leave first *)
      assert (Hsame : ∀ v, pylt v (Py.value x.1) = pylt v (Py.value m0.1)).
      { intros v. destruct (Py.value m0.1) as [a| | |],
          (Py.value x.1) as [b| | |], v as [c| | |];
          cbn [pyeqb pylt] in *; try done.
        apply Qeq_bool_iff in Heq.
        destruct (Qltb c b) eqn:H1, (Qltb c a) eqn:H2; try done.
        - apply Qltb_true in H1. apply Qltb_false in H2. lra.
        - apply Qltb_false in H1. apply Qltb_true in H2. lra. }
      assert (Hxm : pylt (Py.value x.1) (Py.value m0.1) = false).
      { rewrite <- Hsame. apply pylt_irrefl. }
      destruct (TaxiAgent.coord_ltb m0.2 x.2); injection Hpop as <- <-.
      * split.
        -- rewrite (Permutation_swap x m0 rest0). by rewrite Hperm.
        -- intros e' [->|Hin]%elem_of_cons; [done|by apply Hmin].
      * split; [done|].
        intros e' [->|Hin]%elem_of_cons; [apply pylt_irrefl|].
        rewrite Hsame. by apply Hmin.
    + destruct (pylt (Py.value m0.1) (Py.value x.1)) eqn:Hlt;
        injection Hpop as <- <-.
      * split.
        -- rewrite (Permutation_swap x m0 rest0). by rewrite Hperm.
        -- intros e' [->|Hin]%elem_of_cons; [|by apply Hmin].
           destruct (Py.value m0.1) as [a| | |],
             (Py.value x.1) as [b| | |]; cbn [pylt] in *; try done.
           apply Qltb_true in Hlt. apply Qltb_false. lra.
      * split; [done|].
        intros e' [->|Hin]%elem_of_cons; [apply pylt_irrefl|].
        specialize (Hmin e' Hin).
        pose proof (Hnan e' ltac:(apply elem_of_cons; by right)) as He'.
        destruct (Py.value m0.1) as [a| | |],
          (Py.value x.1) as [b| | |], (Py.value e'.1) as [c| | |];
          cbn [pyeqb pylt is_nan] in *; try done.
        apply Qltb_false in Hlt, Hmin. apply Qltb_false.
        destruct (Qeq_bool a b) eqn:Hab; [done|].
        lra.
Qed.

Lemma heappop64_spec (heap : list Planner64.entry) e rest :
  (∀ e', e' ∈ heap → is_nan (Py.value e'.1) = false) →
  Planner64.heappop heap = Some (e, rest) →
  e :: rest ≡ₚ heap
  ∧ ∀ e', e' ∈ heap → pylt (Py.value e'.1) (Py.value e.1) = false.
Proof.
  destruct heap as [|x l]; simpl; [done|].
  intros Hnan [= Hpop]. by apply pop_min64_spec.
Qed.

Lemma heappop64_perm (heap : list Planner64.entry) e rest :
  Planner64.heappop heap = Some (e, rest) → e :: rest ≡ₚ heap.
Proof.
  destruct heap as [|x l]; simpl; [done|]. intros [= Hpop].
  revert x e rest Hpop.
  induction l as [|y r IH]; intros x e rest Hpop; simpl in Hpop.
  - by injection Hpop as <- <-.
  - destruct (Planner64.pop_min y r) as [m0 rest0] eqn:Hrec.
    pose proof (IH y m0 rest0 Hrec) as Hperm.
    destruct (Planner64.entry_ltb m0 x); injection Hpop as <- <-; [|done].
    rewrite (Permutation_swap x m0 rest0). by rewrite Hperm.
Qed.

Lemma heappop64_None (heap : list Planner64.entry) :
  Planner64.heappop heap = None → heap = [].
Proof. by destruct heap. Qed.

(** *** Invariants of the search *)

Section PlannerFacts64.
Variable as_py : Q → pyval.
Variable m : RoadMap.
Variable o d : coord.
Variable k : Z.
Variable M : Q.
Hypothesis Hweights : nonneg_weights m.
Hypothesis Hclosed : closed_map m.
Hypothesis Hexact : exact_sums as_py m k M.
Hypothesis Hadm : admissible64 m d.

Implicit Types (g : gmap coord cost) (P : Roads) (s : Planner64.Search).

Local Abbreviation h := (estimate64 d).

Lemma estimate64_spec x :
  is_Some (m !! x) →
  Planner64.calculate_heuristic x d = Ok (Fin (h x)) ∧ (0 <= h x)%Q
  ∧ ∀ l c, Walk m l c → head l = Some x → last l = Some d → (h x <= c)%Q.
Proof.
  intros Hx. destruct (Hadm x Hx) as (hx & Hhx & Hle).
  unfold estimate64. rewrite Hhx. split; [done|]. split; [|done].
  by eapply calculate_heuristic_nonneg.
Qed.

Lemma grid_exp : (0 <= k <= 1074)%Z.
Proof. by destruct Hexact. Qed.

Lemma road_exact u v w :
  road m u v w →
  (0 <= w <= M)%Q ∧ on_grid k w
  ∧ ∃ w', Py.value (as_py w) = Fin w' ∧ (w' == w)%Q.
Proof.
  intros Hroad. destruct Hexact as (_ & Hroads & _).
  destruct (Hroads _ _ _ Hroad) as (Hnum & Hgrid & HM).
  pose proof (Hweights _ _ _ Hroad).
  split; [done|]. split; [done|]. by apply is_number_value.
Qed.

Lemma witness_length g P :
  witness m o g P → NoDup (entered P) → length P ≤ size m.
Proof.
  intros HP Hnodup.
  assert (Hlen : length (entered P) ≤ length ((map_to_list m).*1)).
  { apply submseteq_length, NoDup_submseteq; [done|].
    intros y Hy. clear Hnodup.
    induction HP as [|u v w P HP IH Hend Hroad Hv]; simpl in Hy.
    + by apply elem_of_nil in Hy.
    + apply elem_of_cons in Hy as [->|Hy]; [|by apply IH].
      destruct (Hclosed _ _ _ Hroad) as [items Hitems].
      apply list_elem_of_fmap. exists (v, items). split; [done|].
      by apply elem_of_map_to_list. }
  unfold entered in Hlen. rewrite !length_fmap in Hlen.
  by rewrite length_map_to_list in Hlen.
Qed.

Lemma witness_grid g P :
  witness m o g P →
  on_grid k (rcost P)
  ∧ (rcost P <= inject_Z (Z.of_nat (length P)) * M)%Q.
Proof.
  induction 1 as [|u v w P HP [IHg IHb] Hend Hroad Hv]; simpl rcost.
  - split; [apply on_grid_0|]. cbn [length].
    change (inject_Z (Z.of_nat 0)) with 0%Q. lra.
  - destruct (road_exact _ _ _ Hroad) as (Hw & Hgrid & _).
    split; [by apply on_grid_plus|].
    cbn [length]. rewrite Nat2Z.inj_succ, <- Z.add_1_r, inject_Z_plus.
    change (inject_Z 1) with 1%Q. nra.
Qed.

(** A recorded cost is a sum of stored distances, small enough for one
    more distance to be added exactly. *)
Lemma recorded_cost_exact g P c :
  witness m o g P → NoDup (entered P) → (rcost P == c)%Q →
  (0 <= c)%Q ∧ on_grid k c
  ∧ (∀ w, (0 <= w <= M)%Q → (c + w < 2 ^ (53 - k))%Q).
Proof.
  intros HP Hnodup Hc.
  pose proof (witness_rcost_nonneg m o Hweights _ _ HP) as H0.
  destruct (witness_grid _ _ HP) as [Hgrid Hb].
  pose proof (witness_length _ _ HP Hnodup) as Hlen.
  split; [lra|]. split; [by eapply on_grid_Qeq|].
  intros w Hw. destruct Hexact as (_ & _ & Hbound).
  rewrite inject_Z_plus in Hbound. change (inject_Z 1) with 1%Q in Hbound.
  assert (inject_Z (Z.of_nat (length P)) <= inject_Z (Z.of_nat (size m)))%Q.
  { rewrite <- Zle_Qle. lia. }
  assert (0 <= inject_Z (Z.of_nat (length P)))%Q.
  { change 0%Q with (inject_Z 0). rewrite <- Zle_Qle. lia. }
  nra.
Qed.

Lemma costs_lookup s x c :
  costs s !! x = Some (Finite c) ↔
  ∃ v, Planner64.cost_from_start s !! x = Some v ∧ Py.value v = Fin c.
Proof.
  unfold costs. rewrite lookup_fmap. unfold cost_of. split.
  - destruct (Planner64.cost_from_start s !! x) as [v|]; [|done].
    simpl. destruct (Py.value v) eqn:Hv; try done. intros [= ->]. eauto.
  - intros (v & -> & Hv). simpl. by rewrite Hv.
Qed.

(** *** One relaxation *)

Lemma relax64_cases cur processed s y dir w c vc :
  Inv64 k m o d (Some cur) processed s →
  Planner64.cost_from_start s !! cur = Some vc → Py.value vc = Fin c →
  road m cur y w →
  ∃ vnew new,
    Py.value vnew = Fin new ∧ (new == c + w)%Q ∧ on_grid k new
    ∧ ((cost_lt new (g_at (costs s) y) = true
        ∧ ∃ vest,
            Planner64.relax as_py d cur s (y, (dir, w))
            = Ok (Planner64.mkSearch
                    ((vest, y) :: Planner64.to_explore s)
                    (<[y := cur]> (Planner64.path_trace s))
                    (<[y := vnew]> (Planner64.cost_from_start s)))
            ∧ pyle (Fin new) (Py.value vest) = true
            ∧ below k (Py.value vest) (new + h y))
       ∨ (cost_lt new (g_at (costs s) y) = false
          ∧ Planner64.relax as_py d cur s (y, (dir, w)) = Ok s)).
Proof.
  intros HInv Hcur Hvc Hroad.
  pose proof grid_exp as Hk.
  destruct (road_exact _ _ _ Hroad) as (Hw & Hgw & w' & Hw' & Hww).
  assert (Hc : costs s !! cur = Some (Finite c)).
  { apply costs_lookup. eauto. }
  destruct (inv64_witness _ _ _ _ _ _ _ HInv cur c Hc)
    as (Pc & HPc & _ & Hcost & Hnodup).
  destruct (recorded_cost_exact _ _ _ HPc Hnodup Hcost) as (Hc0 & Hgc & Hb).
  pose proof (Hb w Hw) as Hbw. pose proof (Hb 0%Q ltac:(lra)) as Hb0.
  destruct (py_add_exact vc (as_py w) c w' k) as (vnew & new & Hadd & Hnew & Hz);
    try done.
  { by eapply on_grid_Qeq. }
  { rewrite Qabs_pos by lra. lra. }
  { rewrite Qabs_pos by lra. lra. }
  { rewrite Qabs_pos by lra. lra. }
  assert (Hnew_eq : (new == c + w)%Q) by lra.
  assert (Hgnew : on_grid k new).
  { apply (on_grid_Qeq k (c + w)); [lra|]. by apply on_grid_plus. }
  exists vnew, new. split; [done|]. split; [done|]. split; [done|].
  assert (is_Some (Planner64.cost_from_start s !! y)) as [vy Hy].
  { apply (inv64_dom _ _ _ _ _ _ _ HInv). by eapply Hclosed. }
  assert (Hgy : g_at (costs s) y = cost_of vy).
  { unfold g_at, costs. by rewrite lookup_fmap, Hy. }
  assert (Hlt : Py.lt vnew vy = cost_lt new (cost_of vy)).
  { apply pylt_value_cost_lt; [done|].
    destruct (inv64_num _ _ _ _ _ _ _ HInv y vy Hy) as [?|(cy & ? & _)];
      eauto. }
  unfold Planner64.relax. rewrite Hcur. cbn [snd]. rewrite Hadd.
  cbn [mbind result_bind].
  rewrite Hy, Hlt, Hgy.
  destruct (cost_lt new (cost_of vy)); [left|by right].
  split; [done|].
  destruct (estimate64_spec y) as (Hh & Hh0 & _); [by eapply Hclosed|].
  rewrite Hh. cbn [mbind result_bind Planner64.heappush].
  destruct (to_float_exact vnew new k Hnew Hgnew) as (x' & Hx' & Hxn);
    [rewrite Qabs_pos by lra; lra|done|].
  assert (Hest : Py.add vnew (PyFloat (Fin (h y)))
                 = Ok (PyFloat (round64 (x' + h y)))).
  { destruct vnew; cbn [Py.add]; rewrite Hx'; done. }
  rewrite Hest. cbn [mbind result_bind].
  eexists. split; [done|]. cbn [Py.value]. split.
  - apply (round64_ge_grid _ _ k); try done; lra.
  - intros T HT HT0 HTg HTb. apply (round64_below _ k Hk); try done. lra.
Qed.

(** A relaxation that records a lower cost keeps the invariant and does
    not raise the variant. *)
Lemma Inv64_improve cur processed heap trace cs y dir w c new vnew vest :
  Inv64 k m o d (Some cur) processed (Planner64.mkSearch heap trace cs) →
  (cost_of <$> cs) !! cur = Some (Finite c) →
  road m cur y w →
  Py.value vnew = Fin new → (new == c + w)%Q → on_grid k new →
  cost_lt new (g_at (cost_of <$> cs) y) = true →
  pyle (Fin new) (Py.value vest) = true →
  below k (Py.value vest) (new + h y) →
  let s' := Planner64.mkSearch ((vest, y) :: heap)
              (<[y := cur]> trace) (<[y := vnew]> cs) in
  Inv64 k m o d (Some cur) (processed ++ [(y, (dir, w))]) s'
  ∧ variant64 m o s' ≤ variant64 m o (Planner64.mkSearch heap trace cs).
Proof.
  intros [Hdom Hnum Horigin Hheap Hdest Hrelaxed Htraced Hwitness]
    Hcur Hroad Hvnew Hnew Hgnew Hlt Hlow Hup.
  intros s'. subst s'.
  unfold variant64, costs in *.
  cbn [Planner64.to_explore Planner64.path_trace Planner64.cost_from_start]
    in *.
  assert (Hcost_new : cost_of vnew = Finite new).
  { unfold cost_of. by rewrite Hvnew. }
  rewrite fmap_insert, Hcost_new.
  set (g := cost_of <$> cs) in *.
  pose proof (Hweights _ _ _ Hroad) as Hw.
  destruct (Hwitness cur c Hcur) as (Pc & HPc & Hendc & Hcostc & Hnodupc).
  pose proof (witness_rcost_nonneg m o Hweights _ _ HPc) as Hc0.
  destruct (Htraced cur c Hcur) as (Tc & HTc & HendTc).
  assert (Hyo : y ≠ o).
  { intros ->. unfold g_at in Hlt. rewrite Horigin in Hlt. simpl in Hlt.
    apply Qltb_true in Hlt. lra. }
  assert (Hycur : y ≠ cur).
  { intros ->. unfold g_at in Hlt. rewrite Hcur in Hlt. simpl in Hlt.
    apply Qltb_true in Hlt. lra. }
  pose proof (improves_insert g y _ Hlt) as Himp.
  set (g' := <[y := Finite new]> g) in *.
  set (trace' := <[y := cur]> trace).
  (* the new witness of [y] *)
  assert (HPy : witness m o g' ((cur, y, w) :: Pc)).
  { constructor; [by eapply witness_improves|done|done|].
    exists new. split; [apply lookup_insert_eq|lra]. }
  assert (Hnodupy : NoDup (entered ((cur, y, w) :: Pc))).
  { simpl. apply NoDup_cons. split; [|done].
    intros Hin.
    destruct (witness_entered m o Hweights _ _ _ HPc Hin) as (cy & Hcy & Hle).
    unfold g_at in Hlt. rewrite Hcy in Hlt. simpl in Hlt.
    apply Qltb_true in Hlt. lra. }
  (* the new traced way of [y] *)
  assert (HTy : traced m o g' trace' ((cur, y, w) :: Tc)).
  { apply (traced_cons _ _ _ _ _ _ _ _ c new); try done.
    - eapply (traced_keep m o Hweights); [done|done| |].
      + by rewrite HendTc.
      + lra.
    - apply lookup_insert_eq.
    - unfold g'. by rewrite lookup_insert_ne.
    - apply lookup_insert_eq.
    - lra. }
  split.
  - constructor; unfold costs;
      cbn [Planner64.to_explore Planner64.path_trace
           Planner64.cost_from_start];
      rewrite ?fmap_insert, ?Hcost_new; fold g; fold g'.
    + intros x. destruct (decide (x = y)) as [->|Hne].
      * rewrite lookup_insert_eq. rewrite <- Hdom. split; [|eauto].
        intros _. apply Hdom. by eapply Hclosed.
      * rewrite lookup_insert_ne by done. apply Hdom.
    + intros x v. destruct (decide (x = y)) as [->|Hne].
      * rewrite lookup_insert_eq. intros [= <-]. right. eauto.
      * rewrite lookup_insert_ne by done. apply Hnum.
    + unfold g'. by rewrite lookup_insert_ne.
    + intros f x [[= -> ->]|Hin]%elem_of_cons.
      * exists new. split; [apply lookup_insert_eq|done].
      * destruct (Hheap f x Hin) as (cx & Hx & Hfx).
        destruct (decide (x = y)) as [->|Hne].
        -- exists new. split; [apply lookup_insert_eq|].
           unfold g_at in Hlt. rewrite Hx in Hlt. simpl in Hlt.
           apply Qltb_true in Hlt.
           apply (pyle_Fin_mono cx); [lra|done].
        -- exists cx. split; [|done]. unfold g'. by rewrite lookup_insert_ne.
    + intros cd Hd. destruct (decide (d = y)) as [->|Hne].
      * eexists. apply elem_of_cons. by left.
      * unfold g' in Hd. rewrite lookup_insert_ne in Hd by done.
        destruct (Hdest cd Hd) as (f & Hf).
        exists f. apply elem_of_cons. by right.
    + intros x cx items Hx Hitems.
      destruct (decide (x = y)) as [->|Hne].
      * left. unfold g' in Hx. rewrite lookup_insert_eq in Hx.
        injection Hx as <-. exists vest.
        split; [apply elem_of_cons; by left|done].
      * unfold g' in Hx. rewrite lookup_insert_ne in Hx by done.
        destruct (Hrelaxed x cx items Hx Hitems) as [(f & Hf & Hle)|Hclosed'].
        { left. exists f. split; [apply elem_of_cons; by right|done]. }
        right. unfold closed_ok64, costs in *.
        cbn [Planner64.cost_from_start] in *.
        rewrite fmap_insert, Hcost_new. fold g. fold g'.
        destruct (decide (Some x = Some cur)) as [[= ->]|Hxcur].
        -- assert (cx = c) as -> by congruence.
           intros y' dir' w' [Hin|Hin]%elem_of_app.
           ++ eapply at_most_improves; [done|]. by eapply Hclosed'.
           ++ apply list_elem_of_singleton in Hin as [= -> -> ->].
              exists new. split; [apply lookup_insert_eq|lra].
        -- intros y' dir' w' Hin.
           eapply at_most_improves; [done|]. by eapply Hclosed'.
    + intros x cx Hx.
      destruct (decide (x = y)) as [->|Hne].
      * by exists ((cur, y, w) :: Tc).
      * unfold g' in Hx. rewrite lookup_insert_ne in Hx by done.
        destruct (Htraced x cx Hx) as (T & HT & HendT).
        destruct (traced_update m o g trace y cur _ _ Hlt HTy eq_refl T HT)
          as (T' & HT' & HendT').
        exists T'. split; [done|congruence].
    + intros x cx Hx.
      destruct (decide (x = y)) as [->|Hne].
      * unfold g' in Hx. rewrite lookup_insert_eq in Hx. injection Hx as <-.
        exists ((cur, y, w) :: Pc). repeat split; try done.
        simpl. lra.
      * unfold g' in Hx. rewrite lookup_insert_ne in Hx by done.
        destruct (Hwitness x cx Hx) as (P & HP & HendP & HcostP & HnodupP).
        exists P. repeat split; try done. by eapply witness_improves.
  - assert (slack m o g' < slack m o g); [|cbn [length]; lia].
    apply (slack_insert m o g y new ((cur, y, w) :: Pc)); try done.
    + by apply (witness_candidate m o Hclosed g').
    + simpl. lra.
Qed.
(** A relaxation that finds no lower cost changes nothing. *)
Lemma Inv64_keep cur processed s y dir w c new :
  Inv64 k m o d (Some cur) processed s →
  costs s !! cur = Some (Finite c) →
  (new == c + w)%Q →
  cost_lt new (g_at (costs s) y) = false →
  Inv64 k m o d (Some cur) (processed ++ [(y, (dir, w))]) s.
Proof.
  intros [Hdom Hnum Horigin Hheap Hdest Hrelaxed Htraced Hwitness]
    Hcur Hnew Hlt.
  constructor; try done.
  intros x cx items Hx Hitems.
  destruct (Hrelaxed x cx items Hx Hitems) as [Hopen|Hclosed']; [by left|].
  right. destruct (decide (Some x = Some cur)) as [[= ->]|Hxcur]; [|done].
  assert (cx = c) as -> by congruence.
  intros y' dir' w' [Hin|Hin]%elem_of_app; [by eapply Hclosed'|].
  apply list_elem_of_singleton in Hin as [= -> -> ->].
  apply cost_lt_false in Hlt as (gy & Hgy & Hle).
  unfold g_at in Hgy.
  destruct (costs s !! y) as [[cy|]|] eqn:Hy; simpl in Hgy; try done.
  injection Hgy as ->. exists gy. split; [done|lra].
Qed.

(** *** Expanding a node *)

Lemma relax_all64_Inv cur c rest :
  ∀ processed s,
    Inv64 k m o d (Some cur) processed s →
    m !! cur = Some (processed ++ rest) →
    costs s !! cur = Some (Finite c) →
    ∃ s',
      Planner64.relax_all as_py d cur s rest = Ok s'
      ∧ Inv64 k m o d (Some cur) (processed ++ rest) s'
      ∧ variant64 m o s' ≤ variant64 m o s.
Proof.
  induction rest as [|[y [dir w]] rest IH]; intros processed s HInv Hitems Hcur.
  { exists s. rewrite app_nil_r. simpl. done. }
  assert (Hroad : road m cur y w).
  { exists (processed ++ (y, (dir, w)) :: rest), dir. split; [done|].
    apply elem_of_app. right. apply elem_of_cons. by left. }
  replace (processed ++ (y, (dir, w)) :: rest)
    with ((processed ++ [(y, (dir, w))]) ++ rest) in *
    by (by rewrite <- app_assoc).
  cbn [Planner64.relax_all].
  pose proof Hcur as Hcur'.
  apply costs_lookup in Hcur' as (vc & Hvc & Hvalue).
  destruct (relax64_cases cur processed s y dir w c vc HInv Hvc Hvalue Hroad)
    as (vnew & new & Hvnew & Hnew & Hgnew
        & [(Hlt & vest & -> & Hlow & Hup)|[Hlt ->]]);
    cbn [mbind result_bind].
  - destruct s as [heap trace cs].
    cbn [Planner64.to_explore Planner64.path_trace
         Planner64.cost_from_start] in *.
    destruct (Inv64_improve cur processed heap trace cs y dir w c new vnew
                vest HInv Hcur Hroad Hvnew Hnew Hgnew Hlt Hlow Hup)
      as [HInv' Hvar].
    destruct (IH _ _ HInv' Hitems) as (s' & Hrun & HInv'' & Hvar').
    { unfold costs in *. cbn [Planner64.cost_from_start] in *.
      rewrite fmap_insert, lookup_insert_ne; [done|].
      intros ->. unfold g_at in Hlt. rewrite Hcur in Hlt. simpl in Hlt.
      apply Qltb_true in Hlt. specialize (Hweights _ _ _ Hroad). lra. }
    exists s'. split; [done|]. split; [done|]. lia.
  - apply IH; [|done|done]. by eapply Inv64_keep.
Qed.

Lemma Inv64_pop processed s f cur rest :
  Inv64 k m o d None processed s →
  Planner64.heappop (Planner64.to_explore s) = Some ((f, cur), rest) →
  cur ≠ d →
  let s' := Planner64.mkSearch rest (Planner64.path_trace s)
              (Planner64.cost_from_start s) in
  Inv64 k m o d (Some cur) [] s'
  ∧ variant64 m o s' < variant64 m o s
  ∧ ∃ c items, costs s !! cur = Some (Finite c) ∧ m !! cur = Some items.
Proof.
  intros [Hdom Hnum Horigin Hheap Hdest Hrelaxed Htraced Hwitness] Hpop Hne.
  pose proof (heappop64_perm _ _ _ Hpop) as Hperm.
  assert (Hsub : ∀ f' x, x ≠ cur →
            (f', x) ∈ Planner64.to_explore s → (f', x) ∈ rest).
  { intros f' x Hx Hin. rewrite <- Hperm in Hin.
    apply elem_of_cons in Hin as [[= _ ->]|Hin]; done. }
  assert (Hsup : ∀ e, e ∈ rest → e ∈ Planner64.to_explore s).
  { intros e Hin. rewrite <- Hperm. apply elem_of_cons. by right. }
  assert (Hcur : (f, cur) ∈ Planner64.to_explore s).
  { rewrite <- Hperm. apply elem_of_cons. by left. }
  destruct (Hheap f cur Hcur) as (c & Hc & _).
  assert (is_Some (m !! cur)) as [items Hitems].
  { apply Hdom. apply costs_lookup in Hc as (v & Hv & _). eauto. }
  simpl. split; [|split].
  - constructor; try done.
    + intros f' x Hin. apply Hheap. by apply Hsup.
    + intros cd Hd. destruct (Hdest cd Hd) as (f' & Hf').
      exists f'. by apply Hsub.
    + intros x cx items' Hx Hitems'.
      destruct (decide (Some x = Some cur)) as [[= ->]|Hxcur].
      * right. intros y dir w Hin. by apply elem_of_nil in Hin.
      * destruct (Hrelaxed x cx items' Hx Hitems')
          as [(f' & Hf' & Hle)|Hclosed']; [|by right].
        left. exists f'. split; [|done]. apply Hsub; [congruence|done].
  - unfold variant64, costs. simpl.
    apply Permutation_length in Hperm. simpl in Hperm. lia.
  - eauto.
Qed.

Lemma Inv64_close cur items s :
  Inv64 k m o d (Some cur) items s →
  m !! cur = Some items →
  Inv64 k m o d None [] s.
Proof.
  intros [Hdom Hnum Horigin Hheap Hdest Hrelaxed Htraced Hwitness] Hitems.
  constructor; try done.
  intros x cx items' Hx Hitems'.
  destruct (Hrelaxed x cx items' Hx Hitems') as [Hopen|Hclosed']; [by left|].
  right. rewrite decide_False by done.
  destruct (decide (Some x = Some cur)) as [[= ->]|Hxcur]; [|done].
  by assert (items' = items) as -> by congruence.
Qed.

(** *** The start of the search *)

Lemma Inv64_init :
  is_Some (m !! o) → o ≠ d →
  Inv64 k m o d None [] (Planner64.search_init m o).
Proof.
  intros Ho Hod.
  assert (Hcosts : costs (Planner64.search_init m o)
                   = <[o := Finite 0]> ((λ _, Infinity) <$> m)).
  { unfold costs, Planner64.search_init. cbn [Planner64.cost_from_start].
    rewrite fmap_insert, <- map_fmap_compose. done. }
  assert (Hfin : ∀ x c,
            costs (Planner64.search_init m o) !! x = Some (Finite c) →
            x = o ∧ c = 0%Q).
  { intros x c. rewrite Hcosts. destruct (decide (x = o)) as [->|Hne].
    - rewrite lookup_insert_eq. by intros [= <-].
    - rewrite lookup_insert_ne by done. rewrite lookup_fmap.
      by destruct (m !! x). }
  constructor.
  - intros x. unfold Planner64.search_init. cbn [Planner64.cost_from_start].
    destruct (decide (x = o)) as [->|Hne].
    + rewrite lookup_insert_eq. split; eauto.
    + rewrite lookup_insert_ne by done. rewrite lookup_fmap.
      by rewrite fmap_is_Some.
  - intros x v. unfold Planner64.search_init. cbn [Planner64.cost_from_start].
    destruct (decide (x = o)) as [->|Hne].
    + rewrite lookup_insert_eq. intros [= <-]. right.
      exists 0%Q. split; [done|apply on_grid_0].
    + rewrite lookup_insert_ne by done. rewrite lookup_fmap.
      destruct (m !! x); simpl; [|done]. intros [= <-]. by left.
  - rewrite Hcosts. apply lookup_insert_eq.
  - intros f x [= -> ->]%list_elem_of_singleton.
    exists 0%Q. split; [|done]. rewrite Hcosts. apply lookup_insert_eq.
  - intros c [? _]%Hfin. congruence.
  - intros x c items [-> ->]%Hfin _. left.
    exists (PyInt 0). split; [by apply list_elem_of_singleton|].
    intros T _ HT _ _. cbn [Py.value pyle pylt].
    apply negb_true_iff, Qltb_false. done.
  - intros x c [-> ->]%Hfin. exists []. split; [|done].
    constructor. apply lookup_empty.
  - intros x c [-> ->]%Hfin. exists []. repeat split; try done.
    + constructor.
    + constructor.
Qed.

(** *** What the search has found when it stops *)

Lemma Walk_grid l c : Walk m l c → on_grid k c ∧ (0 <= c)%Q.
Proof.
  induction 1 as [u Hu|u v l w c Hroad Hwalk [IHg IH0]].
  - split; [apply on_grid_0|lra].
  - destruct (road_exact _ _ _ Hroad) as (Hw & Hgrid & _).
    split; [by apply on_grid_plus|lra].
Qed.

Lemma at_most_le g x c c' : at_most g x c → (c <= c')%Q → at_most g x c'.
Proof. intros (cx & Hx & Hle) Hcc. exists cx. split; [done|lra]. Qed.

(** When the destination leaves the open list, the cost recorded for it
    is at most the cost of any route: a node of the route that still
    waits in the open list has a priority that does not exceed the cost
    of the route, and the destination left first. *)
Lemma popped64_lower_bound processed s f rest :
  o ≠ d →
  Inv64 k m o d None processed s →
  Planner64.heappop (Planner64.to_explore s) = Some ((f, d), rest) →
  ∀ l c, Walk m l c →
    ∀ x c0, head l = Some x → last l = Some d →
      at_most (costs s) x c0 → on_grid k c0 →
      at_most (costs s) d (c0 + c).
Proof.
  intros Hod HInv Hpop. pose proof HInv as HInv0.
  destruct HInv as [Hdom Hnum Horigin Hheap Hdest Hrelaxed Htraced Hwitness].
  pose proof grid_exp as Hk.
  assert (Hnan : ∀ e', e' ∈ Planner64.to_explore s →
                       is_nan (Py.value e'.1) = false).
  { intros [f' x'] Hin. destruct (Hheap f' x' Hin) as (c' & _ & Hle).
    simpl. by destruct (Py.value f'). }
  destruct (heappop64_spec _ _ _ Hnan Hpop) as [Hperm Hmin].
  assert (Hfd : (f, d) ∈ Planner64.to_explore s).
  { rewrite <- Hperm. apply elem_of_cons. by left. }
  destruct (Hheap f d Hfd) as (cd & Hcd & Hcdf).
  destruct (Hwitness d cd Hcd) as (Pd & HPd & _ & HcostPd & HnodupPd).
  destruct (recorded_cost_exact _ _ _ HPd HnodupPd HcostPd)
    as (Hcd0 & Hgcd & Hbcd).
  induction 1 as [u Hu|u v l w c Hroad Hwalk IH];
    intros x c0 Hhead Hlast Hx Hgc0.
  - simpl in Hhead, Hlast. assert (x = d) as -> by congruence.
    eapply at_most_le; [done|lra].
  - simpl in Hhead. injection Hhead as ->.
    assert (Hlast' : last (v :: l) = Some d) by (by destruct l).
    destruct (road_exact _ _ _ Hroad) as (Hw & Hgw & _).
    destruct (Walk_grid _ _ Hwalk) as [Hgc Hc0].
    destruct Hx as (cx & Hcx & Hle).
    pose proof Hroad as (items & dir & Hitems & Hin).
    destruct (Hrelaxed x cx items Hcx Hitems) as [(f' & Hf' & Hbelow)|Hcl].
    + (* [x] waits in the open list *)
      destruct (Qlt_le_dec (c0 + (w + c)) cd) as [Hlt|Hge].
      2:{ exists cd. split; [done|lra]. }
      exfalso.
      destruct (estimate64_spec x) as (_ & _ & Hadmx); [eauto|].
      assert (Hhx : (h x <= w + c)%Q).
      { apply (Hadmx (x :: v :: l)); [by constructor|done|done]. }
      destruct (Hwitness x cx Hcx) as (Px & HPx & _ & HcostPx & _).
      pose proof (witness_rcost_nonneg m o Hweights _ _ HPx) as Hcx0.
      assert (HT : pyle (Py.value f') (Fin (c0 + (w + c))) = true).
      { apply Hbelow.
        - lra.
        - lra.
        - apply on_grid_plus; [done|]. by apply on_grid_plus.
        - pose proof (Hbcd 0%Q ltac:(lra)). lra. }
      specialize (Hmin _ Hf'). cbn [fst] in Hmin.
      destruct (Py.value f') as [a| | |], (Py.value f) as [b| | |];
        cbn [pyle pylt] in *; try done.
      apply negb_true_iff in HT, Hcdf. apply Qltb_false in HT, Hcdf, Hmin.
      lra.
    + (* the roads out of [x] have been relaxed *)
      rewrite decide_False in Hcl by done.
      pose proof (Hcl v dir w Hin) as Hv.
      eapply at_most_le.
      * apply (IH v (c0 + w)%Q eq_refl Hlast').
        -- eapply at_most_le; [exact Hv|lra].
        -- by apply on_grid_plus.
      * lra.
Qed.

(** When the open list runs empty, no route leads from a node with a
    recorded cost to the destination. *)
Lemma empty_no_route64 processed s :
  Inv64 k m o d None processed s →
  Planner64.to_explore s = [] →
  ∀ l c, Walk m l c →
    ∀ x cx, head l = Some x → last l = Some d →
      costs s !! x = Some (Finite cx) → False.
Proof.
  intros [Hdom Hnum Horigin Hheap Hdest Hrelaxed Htraced Hwitness] Hempty.
  induction 1 as [u Hu|u v l w c Hroad Hwalk IH]; intros x cx Hhead Hlast Hx.
  - simpl in Hhead, Hlast. assert (x = d) as -> by congruence.
    destruct (Hdest cx Hx) as (f & Hf). rewrite Hempty in Hf.
    by apply elem_of_nil in Hf.
  - simpl in Hhead. injection Hhead as ->.
    assert (Hlast' : last (v :: l) = Some d) by (by destruct l).
    destruct Hroad as (items & dir & Hitems & Hin).
    destruct (Hrelaxed x cx items Hx Hitems) as [(f' & Hf' & _)|Hcl].
    + rewrite Hempty in Hf'. by apply elem_of_nil in Hf'.
    + rewrite decide_False in Hcl by done.
      destruct (Hcl v dir w Hin) as (cv & Hcv & _).
      by eapply (IH v cv).
Qed.

(** *** The search returns, and what it returns *)

Lemma search64_total :
  o ≠ d → is_Some (m !! d) →
  ∀ n s processed,
    Inv64 k m o d None processed s →
    variant64 m o s = n →
    ∃ fuel0 r,
      (∀ fuel, fuel0 ≤ fuel → Planner64.search as_py m d fuel s = r)
      ∧ planned m o d r.
Proof.
  intros Hod Hd.
  induction n as [n IH] using lt_wf_ind; intros s processed HInv Hvar.
  pose proof (inv64_origin _ _ _ _ _ _ _ HInv) as Horigin.
  destruct (Planner64.heappop (Planner64.to_explore s))
    as [[[f cur] rest]|] eqn:Hpop.
  2:{ (* the open list is empty: no route *)
      exists 1, (Returned None). split.
      - intros [|k'] Hk; [lia|]. simpl. by rewrite Hpop.
      - intros l c (Hwalk & Hhead & Hlast).
        by eapply (empty_no_route64 processed s HInv (heappop64_None _ Hpop)
                     l c Hwalk o 0%Q). }
  destruct (decide (cur = d)) as [->|Hne].
  - (* the destination is popped: its traced way is a route of least cost *)
    pose proof (heappop64_perm _ _ _ Hpop) as Hperm.
    assert (Hfd : (f, d) ∈ Planner64.to_explore s).
    { rewrite <- Hperm. apply elem_of_cons. by left. }
    destruct (inv64_heap _ _ _ _ _ _ _ HInv f d Hfd) as (cd & Hcd & _).
    destruct (inv64_traced _ _ _ _ _ _ _ HInv d cd Hcd) as (T & HT & HendT).
    exists (S (S (length T))), (Returned (Some (waypoints_before T ++ [d]))).
    split.
    + intros [|k'] Hk; [lia|]. simpl. rewrite Hpop.
      rewrite decide_True by done. rewrite <- HendT at 1.
      apply (trace_back_traced m o _ _ _ HT). lia.
    + destruct (traced_walk m o _ _ _ HT [] 0%Q) as (c & Hwalk & Hc & Hhead).
      { rewrite HendT. by constructor. }
      rewrite HendT in Hwalk, Hhead.
      exists c. split.
      { split; [done|]. split; [done|]. by rewrite last_snoc. }
      intros l' c' (Hwalk' & Hhead' & Hlast').
      destruct (popped64_lower_bound processed s f rest Hod HInv Hpop
                  l' c' Hwalk' o 0%Q Hhead' Hlast')
        as (cd' & Hcd' & Hle).
      { exists 0%Q. split; [done|lra]. }
      { apply on_grid_0. }
      assert (cd' = cd) as -> by congruence.
      rewrite <- HendT in Hcd.
      pose proof (traced_rcost m o _ _ _ _ Horigin HT Hcd). lra.
  - (* another node is popped and expanded *)
    destruct (Inv64_pop processed s f cur rest HInv Hpop Hne)
      as (HInv1 & Hlt & c & items & Hc & Hitems).
    destruct (relax_all64_Inv cur c items [] _ HInv1 Hitems Hc)
      as (s2 & Hrun & HInv2 & Hvar2).
    simpl in HInv2.
    pose proof (Inv64_close cur items s2 HInv2 Hitems) as HInv3.
    destruct (IH (variant64 m o s2)) with (s := s2)
                                        (processed := @nil (coord * (Z * Q)))
      as (fuel0 & r & Hfuel & Hgood); [lia|done|done|].
    exists (S fuel0), r. split; [|done].
    intros [|k'] Hk; [lia|]. simpl. rewrite Hpop.
    rewrite decide_False by done. rewrite Hitems, Hrun.
    apply Hfuel. lia.
Qed.
End PlannerFacts64.

Lemma search64_mono as_py m d fuel :
  ∀ s r fuel',
    Planner64.search as_py m d fuel s = r → r ≠ OutOfFuel →
    fuel ≤ fuel' → Planner64.search as_py m d fuel' s = r.
Proof.
  induction fuel as [|k IH]; intros s r fuel' Hr Hne Hle; simpl in Hr.
  { congruence. }
  destruct fuel' as [|k']; [lia|]. simpl.
  destruct (Planner64.heappop (Planner64.to_explore s))
    as [[[f cur] rest]|]; [|done].
  destruct (decide (cur = d)).
  { eapply trace_back_mono; [done|done|lia]. }
  destruct (m !! cur) as [items|]; [|done].
  destruct (Planner64.relax_all _ _ _ _ _) as [s'|e]; [|done].
  eapply IH; [done|done|lia].
Qed.

Lemma consistent64_admissible m d : consistent64 m d → admissible64 m d.
Proof.
  intros (Hcomp & Hcons & Hdd) x Hx.
  destruct (Hcomp x Hx) as (hx & Hhx). exists hx. split; [done|].
  assert (hx = estimate64 d x) as ->.
  { unfold estimate64. by rewrite Hhx. }
  clear Hhx Hx.
  intros l c Hwalk. revert x.
  induction Hwalk as [u Hu|u v l w c Hroad Hwalk IH]; intros x Hhead Hlast.
  - simpl in Hhead, Hlast. assert (x = d) as -> by congruence. lra.
  - simpl in Hhead. injection Hhead as <-.
    assert (Hlast' : last (v :: l) = Some d) by (by destruct l).
    specialize (IH v eq_refl Hlast'). specialize (Hcons _ _ _ Hroad). lra.
Qed.


(** *** Checking a given map *)

Lemma detour_map_ok64 :
  nonneg_weights Examples.detour_map ∧ closed_map Examples.detour_map
  ∧ exact_sums Py.of_Q Examples.detour_map 0 3
  ∧ consistent64 Examples.detour_map (0, 2)%Z.
Proof.
  split; [|split; [|split]].
  - unfold nonneg_weights. apply roads_Forall.
    compute_roads Examples.detour_map.
    repeat constructor; simpl; lra.
  - unfold closed_map.
    apply (roads_Forall _ (λ _ v _, is_Some (Examples.detour_map !! v))).
    compute_roads Examples.detour_map.
    repeat constructor; simpl; eexists; vm_compute; reflexivity.
  - split; [lia|]. split; [|vm_compute; reflexivity].
    apply (roads_Forall _ (λ _ _ w,
      Py.is_number (Py.of_Q w) w ∧ on_grid 0 w ∧ (w <= 3)%Q)).
    compute_roads Examples.detour_map.
    repeat constructor; try (vm_compute; congruence).
    all: first [apply (Z_on_grid 0 1)|apply (Z_on_grid 0 3)]; lia.
  - split; [|split].
    + apply (nodes_Forall _ (λ x,
        ∃ hx, Planner64.calculate_heuristic x (0, 2)%Z = Ok (Fin hx))).
      compute_nodes Examples.detour_map.
      repeat constructor; eexists; vm_compute; reflexivity.
    + apply (roads_Forall _ (λ u v w,
        (estimate64 (0, 2)%Z u <= w + estimate64 (0, 2)%Z v)%Q)).
      compute_roads Examples.detour_map.
      repeat constructor; vm_compute; congruence.
    + vm_compute. congruence.
Qed.


Lemma rounding_map_ok64 :
  nonneg_weights Examples64.rounding_map
  ∧ closed_map Examples64.rounding_map
  ∧ (∀ u v w, road Examples64.rounding_map u v w →
              Py.is_number (Py.of_Q w) w)
  ∧ consistent64 Examples64.rounding_map (0, 2)%Z.
Proof.
  split; [|split; [|split]].
  - unfold nonneg_weights. apply roads_Forall.
    compute_roads Examples64.rounding_map.
    repeat constructor; simpl; vm_compute; congruence.
  - unfold closed_map.
    apply (roads_Forall _ (λ _ v _, is_Some (Examples64.rounding_map !! v))).
    compute_roads Examples64.rounding_map.
    repeat constructor; simpl; eexists; vm_compute; reflexivity.
  - apply (roads_Forall _ (λ _ _ w, Py.is_number (Py.of_Q w) w)).
    compute_roads Examples64.rounding_map.
    repeat match goal with
           | |- Forall _ (_ :: _) => constructor
           | |- Forall _ [] => constructor
           end.
    all: split; [reflexivity|].
    all: eexists; split; [vm_compute; reflexivity|reflexivity].
  - split; [|split].
    + apply (nodes_Forall _ (λ x,
        ∃ hx, Planner64.calculate_heuristic x (0, 2)%Z = Ok (Fin hx))).
      compute_nodes Examples64.rounding_map.
      repeat constructor; eexists; vm_compute; reflexivity.
    + apply (roads_Forall _ (λ u v w,
        (estimate64 (0, 2)%Z u <= w + estimate64 (0, 2)%Z v)%Q)).
      compute_roads Examples64.rounding_map.
      repeat constructor; vm_compute; congruence.
    + vm_compute. congruence.
Qed.

